(** * digo build engine: files, file lists and the plugin loader

    A shallow embedding of [lib/builder/file.ts] (the [File] class, its
    globals, [FileLogEntry]), of the [FileList] class that follows it in the
    same source file, and of [lib/builder/plugin.ts].

    Conventions of the embedding.
    - JavaScript values that the code treats dynamically (truthiness tests,
      [||] and [&&] that return operands, own properties installed by
      [setProperty]) are values of [Js.value].
    - A slot that is [undefined] in the source is [None].
    - Every method is a state transformer over the receiver and the world
      (globals, task counter, trace of effects).  A method that takes a
      completion callback returns, in the model, the arguments the callback
      is invoked with, or a token for the pending request when the callback
      is deferred to an I/O completion.
    - A method out of which an exception can escape answers [inl e] for the
      exception thrown, with the state as it is at the throw, and [inr a]
      for the value returned.  Exceptions come from the synchronous read of
      a file that cannot be read, and from path helpers called on a value
      that is not a string.
    - Helpers that live in modules outside these sources ([utility/path],
      [utility/encode], [utility/url], [utility/sourceMap], [utility/fs],
      [logging], node's [require]) are operations of the capability classes
      below, taken at their declared signatures. *)

From stdpp Require Import base option list gmap strings pretty.
From Stdlib Require Import ZArith Lia Ascii.

Local Open Scope Z_scope.

(** ** JavaScript values *)

Module Js.

Inductive value : Type :=
| JUndefined
| JNull
| JBool (b : bool)
| JNum (z : Z)
| JStr (s : string)
| JObj (id : nat).

#[global] Instance value_eq_dec : EqDecision value.
Proof. solve_decision. Defined.

(** [ToBoolean]. *)
Definition truthy (v : value) : bool :=
  match v with
  | JUndefined | JNull => false
  | JBool b => b
  | JNum z => negb (z =? 0)
  | JStr s => negb (String.eqb s "")
  | JObj _ => true
  end.

(** [a || b] and [a && b] return one of their operands. *)
Definition or (a b : value) : value := if truthy a then a else b.
Definition and (a b : value) : value := if truthy a then b else a.

(** [v === false]. *)
Definition is_false (v : value) : bool :=
  match v with JBool false => true | _ => false end.

Definition of_option (o : option string) : value :=
  match o with Some s => JStr s | None => JUndefined end.

(** [ToString], used where a dynamically typed value flows into a helper
    whose parameter is declared a string. *)
Definition to_string (v : value) : string :=
  match v with
  | JUndefined => "undefined"
  | JNull => "null"
  | JBool true => "true"
  | JBool false => "false"
  | JNum z => pretty z
  | JStr s => s
  | JObj _ => "[object Object]"
  end.

End Js.

(** ** State monad used for every method *)

Definition State (S A : Type) : Type := S -> A * S.

#[global] Instance State_ret {S} : MRet (State S) := fun _ a s => (a, s).
#[global] Instance State_bind {S} : MBind (State S) :=
  fun _ _ k m s => let '(a, s') := m s in k a s'.

Definition get {S} : State S S := fun s => (s, s).
Definition modify {S} (f : S -> S) : State S unit := fun s => (tt, f s).
Definition when {S} (b : bool) (m : State S unit) : State S unit :=
  if b then m else mret tt.

(** ** Data *)

Definition Buffer : Type := list Byte.byte.

#[global] Instance byte_eq_dec : EqDecision Byte.byte := Byte.byte_eq_dec.

Module Err.
(** [NodeJS.ErrnoException], the fields the engine sets or passes on. *)
Record t : Type := mk { message : string; code : option string; errno : option string }.
#[global] Instance eq_dec : EqDecision t.
Proof. solve_decision. Defined.
End Err.

(** A computation out of which an exception can escape: [inl e] is the
    exception, [inr a] the value.  [mtry m k] runs [k] on the value of [m];
    what [m] throws escapes with the state [m] left. *)
Definition ok {S A} (a : A) : State S (Err.t + A) := mret (inr a).
Definition throw {S A} (e : Err.t) : State S (Err.t + A) := mret (inl e).
Definition mtry {S A B} (m : State S (Err.t + A)) (k : A -> State S (Err.t + B))
  : State S (Err.t + B) :=
  r ← m;
  match r with
  | inl e => throw e
  | inr a => k a
  end.

Notation "x ←? y ; z" := (mtry y (fun x => z))
  (at level 20, y at level 100, z at level 200, only parsing) : stdpp_scope.

(** Whether a result is an exception. *)
Definition threw {A} (r : Err.t + A) : bool :=
  match r with inl _ => true | inr _ => false end.

Module SourceMapObject.
(** The raw source-map object ([SourceMapObject] of [utility/sourceMap]);
    optional fields are options, an array hole is [None]. *)
Record t : Type := mk {
  version : Z;
  sources : list string;
  mappings : string;
  file : option string;
  sourceRoot : option string;
  sourcesContent : option (list (option string));
  names : option (list string)
}.
Definition with_sources (v : list string) (o : t) : t :=
  mk (version o) v (mappings o) (file o) (sourceRoot o) (sourcesContent o) (names o).
#[global] Instance eq_dec : EqDecision t.
Proof. solve_decision. Defined.
End SourceMapObject.

(** [SourceMapData = string | SourceMapObject | SourceMapBuilder]; a builder
    is an object of a class outside these sources and is kept as a handle. *)
Inductive SourceMapData : Type :=
| SMString (s : string)
| SMObject (o : SourceMapObject.t)
| SMBuilder (b : nat).

#[global] Instance SourceMapData_eq_dec : EqDecision SourceMapData.
Proof. solve_decision. Defined.

(** Truthiness of [this.sourceMapData]: [undefined] and the empty string are
    falsy, every object is truthy. *)
Definition data_truthy (d : option SourceMapData) : bool :=
  match d with
  | None => false
  | Some (SMString s) => negb (String.eqb s "")
  | Some _ => true
  end.

Module LogLevel.
(** The levels of [logging.LogLevel] that [file.ts] refers to. *)
Inductive t : Type := log | warning | error | fatal.
#[global] Instance eq_dec : EqDecision t.
Proof. solve_decision. Defined.
End LogLevel.

Module LogEntry.
(** The fields of a [LogEntry] / [FileLogEntry] that [file.ts] reads or
    writes. *)
Record t : Type := mk {
  message : option string;
  plugin : option string;
  path : option string;
  content : option string;
  startLine : option Z;
  startColumn : option Z;
  endLine : option Z;
  endColumn : option Z;
  error : option Err.t;
  sourceMap : option bool;
  sourceMapData : option SourceMapData
}.
#[global] Instance eq_dec : EqDecision t.
Proof. solve_decision. Defined.

Definition empty : t := mk None None None None None None None None None None None.
End LogEntry.

(** What [File.log] may be given: a message, an [Error], or an object with
    log-entry fields. *)
Inductive LogData : Type :=
| LogMessage (s : string)
| LogError (e : Err.t)
| LogFields (e : LogEntry.t).

Module File.
(** The instance state of a [File].  [own] holds the own properties that
    [setProperty] installed over the prototype's accessors. *)
Record t : Type := mk {
  srcPath : string;
  path : string;
  _srcBuffer : option Buffer;
  _srcContent : option string;
  _destBuffer : option Buffer;
  _destContent : option string;
  indexes : option (list Z);
  sourceMapData : option SourceMapData;
  errorCount : option Z;
  warningCount : option Z;
  own : gmap string Js.value
}.

Definition with_path (v : string) (f : t) : t :=
  mk (srcPath f) v (_srcBuffer f) (_srcContent f) (_destBuffer f) (_destContent f)
     (indexes f) (sourceMapData f) (errorCount f) (warningCount f) (own f).
Definition with_srcBuffer (v : option Buffer) (f : t) : t :=
  mk (srcPath f) (path f) v (_srcContent f) (_destBuffer f) (_destContent f)
     (indexes f) (sourceMapData f) (errorCount f) (warningCount f) (own f).
Definition with_srcContent (v : option string) (f : t) : t :=
  mk (srcPath f) (path f) (_srcBuffer f) v (_destBuffer f) (_destContent f)
     (indexes f) (sourceMapData f) (errorCount f) (warningCount f) (own f).
Definition with_destBuffer (v : option Buffer) (f : t) : t :=
  mk (srcPath f) (path f) (_srcBuffer f) (_srcContent f) v (_destContent f)
     (indexes f) (sourceMapData f) (errorCount f) (warningCount f) (own f).
Definition with_destContent (v : option string) (f : t) : t :=
  mk (srcPath f) (path f) (_srcBuffer f) (_srcContent f) (_destBuffer f) v
     (indexes f) (sourceMapData f) (errorCount f) (warningCount f) (own f).
Definition with_indexes (v : option (list Z)) (f : t) : t :=
  mk (srcPath f) (path f) (_srcBuffer f) (_srcContent f) (_destBuffer f) (_destContent f)
     v (sourceMapData f) (errorCount f) (warningCount f) (own f).
Definition with_sourceMapData (v : option SourceMapData) (f : t) : t :=
  mk (srcPath f) (path f) (_srcBuffer f) (_srcContent f) (_destBuffer f) (_destContent f)
     (indexes f) v (errorCount f) (warningCount f) (own f).
Definition with_errorCount (v : option Z) (f : t) : t :=
  mk (srcPath f) (path f) (_srcBuffer f) (_srcContent f) (_destBuffer f) (_destContent f)
     (indexes f) (sourceMapData f) v (warningCount f) (own f).
Definition with_warningCount (v : option Z) (f : t) : t :=
  mk (srcPath f) (path f) (_srcBuffer f) (_srcContent f) (_destBuffer f) (_destContent f)
     (indexes f) (sourceMapData f) (errorCount f) v (own f).
Definition with_own (v : gmap string Js.value) (f : t) : t :=
  mk (srcPath f) (path f) (_srcBuffer f) (_srcContent f) (_destBuffer f) (_destContent f)
     (indexes f) (sourceMapData f) (errorCount f) (warningCount f) v.

#[global] Instance eq_dec : EqDecision t.
Proof. solve_decision. Defined.
End File.

(** [WorkingMode]: a bit set. *)
Module WorkingMode.
Definition build : Z := 0.
Definition preview : Z := Z.shiftl 1 0.
Definition clean : Z := Z.shiftl 1 1.
Definition watch : Z := Z.shiftl 1 2.
(** [mode & flag] as a condition. *)
Definition has (mode flag : Z) : bool := negb (Z.land mode flag =? 0).
End WorkingMode.

Module Global.
(** The module-level variables of [file.ts].  A hook that is [null] is
    [None]; the hooks that return nothing ([onSaveFile], [onDeleteFile])
    are kept as whether one is registered, their calls go to the trace. *)
Record t : Type := mk {
  workingMode : Z;
  encoding : string;
  overwrite : bool;
  sourceMap : bool;
  sourceMapPath : option (File.t -> string);
  sourceMapUrl : option (File.t -> string);
  sourceMapSource : option (string -> File.t -> string);
  sourceMapSourceContent : option (string -> File.t -> string);
  sourceMapInline : bool;
  sourceMapEmit : bool;
  sourceMapRoot : string;
  sourceMapIncludeSourcesContent : bool;
  sourceMapIncludeFile : bool;
  sourceMapIncludeNames : bool;
  onValidateSourceMap : option (SourceMapObject.t -> File.t -> Js.value);
  fileCount : Z;
  onValidateFile : option (string -> File.t -> bool);
  onSaveFile : bool;
  onDeleteFile : bool;
  onLogFile : option (LogEntry.t -> LogLevel.t -> File.t -> Js.value)
}.

(** The initial values the source assigns. *)
Definition initial : t :=
  mk WorkingMode.build "utf-8" false true None None None None false true ""
     false true true None 0 None false false None.

Definition with_overwrite (v : bool) (g : t) : t :=
  mk (workingMode g) (encoding g) v (sourceMap g) (sourceMapPath g)
     (sourceMapUrl g) (sourceMapSource g) (sourceMapSourceContent g)
     (sourceMapInline g) (sourceMapEmit g) (sourceMapRoot g)
     (sourceMapIncludeSourcesContent g) (sourceMapIncludeFile g)
     (sourceMapIncludeNames g) (onValidateSourceMap g) (fileCount g) (onValidateFile g)
     (onSaveFile g) (onDeleteFile g) (onLogFile g).
Definition with_onValidateFile (v : option (string -> File.t -> bool)) (g : t) : t :=
  mk (workingMode g) (encoding g) (overwrite g) (sourceMap g) (sourceMapPath g)
     (sourceMapUrl g) (sourceMapSource g) (sourceMapSourceContent g)
     (sourceMapInline g) (sourceMapEmit g) (sourceMapRoot g)
     (sourceMapIncludeSourcesContent g) (sourceMapIncludeFile g)
     (sourceMapIncludeNames g) (onValidateSourceMap g) (fileCount g) v
     (onSaveFile g) (onDeleteFile g) (onLogFile g).
Definition with_fileCount (v : Z) (g : t) : t :=
  mk (workingMode g) (encoding g) (overwrite g) (sourceMap g) (sourceMapPath g)
     (sourceMapUrl g) (sourceMapSource g) (sourceMapSourceContent g)
     (sourceMapInline g) (sourceMapEmit g) (sourceMapRoot g)
     (sourceMapIncludeSourcesContent g) (sourceMapIncludeFile g)
     (sourceMapIncludeNames g) (onValidateSourceMap g) v (onValidateFile g)
     (onSaveFile g) (onDeleteFile g) (onLogFile g).
End Global.

(** ** Effects *)

(** What a method does to the outside, in the order it does it. *)
Inductive Action : Type :=
| BeginAsync (taskId : nat) (label arg : string)
| EndAsync (taskId : nat)
| ReadFileSync (path : string)
| ReadFile (path : string)
| WriteFile (path : string) (data : Buffer)
| CopyFile (src dest : string)
| DeleteFile (path : string)
| DeleteParentDirIfEmpty (path : string)
| UpdateCache (src out : string)
| OnSaveFile (savePath : string)
| OnDeleteFile (path : string)
| Log (entry : LogEntry.t) (level : LogLevel.t)
| ProgressBegin (taskId : nat) (label processor file : string)
| ProgressEnd (taskId : nat).

Record World : Type := mkWorld {
  globals : Global.t;
  nextTask : nat;
  trace : list Action
}.

(** Location that [SourceMapBuilder.getSource] answers.  Where the map has
    no segment for the position, the position comes back as it was given:
    without a [sourcePath]. *)
Record SourceLocation : Type := mkSourceLocation {
  sourcePath : option string;
  sourceContent : option string;
  line : Z;
  column : Z
}.

(** ** Capabilities supplied by the modules outside these sources *)

Class Encode : Type := {
  stringToBuffer : string -> Js.value -> Buffer;
  bufferToString : Buffer -> Js.value -> string;
  base64Uri : string -> Js.value -> string
}.

Class Paths : Type := {
  (** [resolvePath(p)] with one, possibly missing, argument. *)
  resolvePath1 : option string -> string;
  (** [resolvePath(a, b)]. *)
  resolvePath : string -> string -> string;
  pathEquals : string -> string -> bool;
  (** [pathEquals] called with paths that may be [undefined]: what it
      answers or throws then is the helper's business; on two strings it is
      [pathEquals]. *)
  pathEquals_loose : option string -> option string -> Err.t + bool;
  pathEquals_loose_strings a b :
    pathEquals_loose (Some a) (Some b) = inr (pathEquals a b);
  relativeUrl : string -> string -> string;
  (** [relativeUrl] called with values that need not be strings (the base
      is [false] for an inlined source map): on two strings it is
      [relativeUrl]. *)
  relativeUrl_loose : Js.value -> Js.value -> Err.t + string;
  relativeUrl_loose_strings b u :
    relativeUrl_loose (Js.JStr b) (Js.JStr u) = inr (relativeUrl b u);
  getDisplayName : string -> string;
  format : string -> string
}.

Class SourceMaps : Type := {
  toSourceMapObject : SourceMapData -> SourceMapObject.t;
  (** Data that is an object already is answered as it is (the object
      itself, not a copy). *)
  toSourceMapObject_object o : toSourceMapObject (SMObject o) = o;
  toSourceMapBuilder : SourceMapData -> nat;
  getSource : nat -> Z -> Z -> SourceLocation;
  emitSourceMapUrl : string -> Js.value -> bool -> string;
  JSON_stringify : SourceMapObject.t -> string
}.

Class FileSystem : Type := {
  (** [readFileSync(path)]: the bytes, or the error it throws. *)
  readFileSync : string -> Err.t + Buffer;
  existsFileSync : string -> bool
}.

Class Logging : Type := {
  (** The [LogEntry] constructor: the entry that [super(data, args)] builds. *)
  LogEntry_new : LogData -> LogEntry.t
}.

(** ** The [File] class *)

(** A method runs on its receiver ([this]) and the world. *)
Abbreviation Meth A := (State (File.t * World) A).

Section FileClass.
Context `{Encode} `{Paths} `{SourceMaps} `{FileSystem} `{Logging}.

Definition this : Meth File.t := fun s => (fst s, s).
Definition update (u : File.t -> File.t) : Meth unit := fun s => (tt, (u (fst s), snd s)).
Definition global : Meth Global.t := fun s => (globals (snd s), s).
Definition emit (a : Action) : Meth unit :=
  fun s => (tt, (fst s, mkWorld (globals (snd s)) (nextTask (snd s)) (trace (snd s) ++ [a]))).
Definition set_globals (u : Global.t -> Global.t) : Meth unit :=
  fun s => (tt, (fst s, mkWorld (u (globals (snd s))) (nextTask (snd s)) (trace (snd s)))).

(** [beginAsync(label, args)] hands out a task id; [endAsync(id)] closes it. *)
Definition beginAsync (label arg : string) : Meth nat :=
  fun s => (nextTask (snd s),
            (fst s, mkWorld (globals (snd s)) (S (nextTask (snd s)))
                            (trace (snd s) ++ [BeginAsync (nextTask (snd s)) label arg]))).
Definition endAsync (taskId : nat) : Meth unit := emit (EndAsync taskId).

(** A synchronous read: the call is traced, the bytes or the exception come
    from the file-system capability. *)
Definition syncRead (p : string) : Meth (Err.t + Buffer) :=
  _ ← emit (ReadFileSync p); mret (readFileSync p).

(** Runs a method on another file object, in the same world. *)
Definition on_other {A} (f' : File.t) (m : Meth A) : Meth A :=
  fun s => let '(a, s') := m (f', snd s) in (a, (fst s, snd s')).

Definition str_truthy (s : string) : bool := negb (String.eqb s "").

(** *** Paths *)

(** [get generated() { return !this.srcPath; }] *)
Definition generated (f : File.t) : bool := negb (str_truthy (File.srcPath f)).

(** [get exists() { return existsFileSync(this.srcPath); }] *)
Definition exists_ (f : File.t) : bool := existsFileSync (File.srcPath f).

Definition toString (f : File.t) : string :=
  if generated f then format "(Generated)" +:+ getDisplayName (File.path f)
  else getDisplayName (File.srcPath f).

(** *** Own properties

    Modelled from the spec: [setProperty] of [utility/object] (only its test,
    [test/utility/objectTest.ts], is among the sources).  Per the spec's
    "a getter falls back to a global until a setter installs an own value"
    and the test, [setProperty(obj, key, value)] defines the own property
    [key] of [obj] with [value]; an own property shadows the accessor of the
    prototype for reads and later writes. *)
Definition setProperty (key : string) (value : Js.value) (f : File.t) : File.t :=
  File.with_own (<[key := value]> (File.own f)) f.

(** Reading [this.name]: the own property when installed, else the getter. *)
Definition read (name : string) (getter : Meth Js.value) : Meth Js.value :=
  f ← this;
  match File.own f !! name with
  | Some v => mret v
  | None => getter
  end.

(** Writing [this.name = v]: into the own property when installed, else
    through the setter. *)
Definition assign (name : string) (setter : Js.value -> File.t -> File.t) (v : Js.value)
  : File.t -> File.t :=
  fun f =>
    match File.own f !! name with
    | Some _ => File.with_own (<[name := v]> (File.own f)) f
    | None => setter v f
    end.

(** [get encoding() { return encoding; }] and its setter. *)
Definition encoding : Meth Js.value :=
  read "encoding" (g ← global; mret (Js.JStr (Global.encoding g))).
Definition set_encoding : Js.value -> File.t -> File.t :=
  assign "encoding" (setProperty "encoding").

(** *** Content *)

(** [private setModified() { delete this.indexes; }] *)
Definition setModified (f : File.t) : File.t := File.with_indexes None f.

(** [get srcBuffer()].  The read sits in [try { ... } finally {
    endAsync(taskId); }]: when it throws, nothing is assigned, the task is
    closed, and the exception escapes the getter. *)
Definition srcBuffer : Meth (Err.t + Buffer) :=
  f ← this;
  match File._srcBuffer f with
  | Some b => ok b
  | None =>
    match File._srcContent f with
    | None =>
      g ← global;
      if str_truthy (File.srcPath f)
         && negb (WorkingMode.has (Global.workingMode g) WorkingMode.clean)
      then
        taskId ← beginAsync "Read: {file}" (toString f);
        r ← (b ←? syncRead (File.srcPath f);
             _ ← update (File.with_srcBuffer (Some b));
             ok b);
        _ ← endAsync taskId;
        mret r
      else
        (* Buffer.allocUnsafe(0) *)
        _ ← update (File.with_srcBuffer (Some []));
        ok []
    | Some c =>
      enc ← encoding;
      _ ← update (File.with_srcBuffer (Some (stringToBuffer c enc)));
      ok (stringToBuffer c enc)
    end
  end.

(** [get srcContent()], with the same [try] / [finally] around the read. *)
Definition srcContent : Meth (Err.t + string) :=
  f ← this;
  match File._srcContent f with
  | Some c => ok c
  | None =>
    match File._srcBuffer f with
    | None =>
      g ← global;
      if str_truthy (File.srcPath f)
         && negb (WorkingMode.has (Global.workingMode g) WorkingMode.clean)
      then
        taskId ← beginAsync "Read: {file}" (toString f);
        r ← (b ←? syncRead (File.srcPath f);
             enc ← encoding;
             _ ← update (File.with_srcContent (Some (bufferToString b enc)));
             ok (bufferToString b enc));
        _ ← endAsync taskId;
        mret r
      else
        _ ← update (File.with_srcContent (Some ""%string));
        ok ""%string
    | Some b =>
      enc ← encoding;
      _ ← update (File.with_srcContent (Some (bufferToString b enc)));
      ok (bufferToString b enc)
    end
  end.

(** [get buffer()] *)
Definition buffer : Meth (Err.t + Buffer) :=
  f ← this;
  match File._destBuffer f with
  | Some b => ok b
  | None =>
    match File._destContent f with
    | Some c =>
      enc ← encoding;
      _ ← update (File.with_destBuffer (Some (stringToBuffer c enc)));
      ok (stringToBuffer c enc)
    | None => srcBuffer
    end
  end.

(** [set buffer(value)] *)
Definition set_buffer (value : Buffer) (f : File.t) : File.t :=
  setModified (File.with_destContent None (File.with_destBuffer (Some value) f)).

(** [get content()] *)
Definition content : Meth (Err.t + string) :=
  f ← this;
  match File._destContent f with
  | Some c => ok c
  | None =>
    match File._destBuffer f with
    | Some b =>
      enc ← encoding;
      _ ← update (File.with_destContent (Some (bufferToString b enc)));
      ok (bufferToString b enc)
    | None => srcContent
    end
  end.

(** [set content(value)] *)
Definition set_content (value : string) (f : File.t) : File.t :=
  setModified (File.with_destBuffer None (File.with_destContent (Some value) f)).

(** [get data()]: the text when a dest text is present, else [this.buffer]. *)
Definition data : Meth (Err.t + (string + Buffer)) :=
  f ← this;
  match File._destContent f with
  | Some c => ok (inl c)
  | None => b ←? buffer; ok (inr b)
  end.

(** [set data(value)]: dispatch on [typeof value === "string"]. *)
Definition set_data (value : string + Buffer) (f : File.t) : File.t :=
  match value with
  | inl s => set_content s f
  | inr b => set_buffer b f
  end.

(** [get modified()] *)
Definition modified (f : File.t) : bool :=
  bool_decide (is_Some (File._destContent f)) || bool_decide (is_Some (File._destBuffer f)).

(** [constructor(srcPath?, path?, data?)] *)
Definition File_new (srcPath path : option string) (data : option (string + Buffer)) : File.t :=
  let sp := resolvePath1 srcPath in
  let p := match path with
           | Some p => if str_truthy p then p else sp
           | None => sp
           end in
  let f := File.mk sp p None None None None None None None None ∅ in
  match data with
  | Some d => set_data d f
  | None => f
  end.

(** [clone() { return new File(this.srcPath, this.path, this.data); }]:
    the receiver is touched by the [data] getter, the result is the new
    object; what the getter throws escapes [clone]. *)
Definition clone : Meth (Err.t + File.t) :=
  f ← this;
  d ←? data;
  ok (File_new (Some (File.srcPath f)) (Some (File.path f)) (Some d)).

(** *** Source-map flags: a getter over the global, a setter through
    [setProperty] *)

Definition global_flag (name : string) (v : Global.t -> Js.value) : Meth Js.value :=
  read name (g ← global; mret (v g)).

Definition sourceMap : Meth Js.value :=
  global_flag "sourceMap" (fun g => Js.JBool (Global.sourceMap g)).
Definition set_sourceMap : Js.value -> File.t -> File.t :=
  assign "sourceMap" (setProperty "sourceMap").

(** [get sourceMapPath() { if (sourceMapPath) { return sourceMapPath(this); } }] *)
Definition sourceMapPath : Meth Js.value :=
  read "sourceMapPath"
    (g ← global; f ← this;
     mret (match Global.sourceMapPath g with
           | Some h => Js.JStr (h f)
           | None => Js.JUndefined
           end)).
Definition set_sourceMapPath : Js.value -> File.t -> File.t :=
  assign "sourceMapPath" (setProperty "sourceMapPath").

Definition sourceMapEmit : Meth Js.value :=
  global_flag "sourceMapEmit" (fun g => Js.JBool (Global.sourceMapEmit g)).
Definition set_sourceMapEmit : Js.value -> File.t -> File.t :=
  assign "sourceMapEmit" (setProperty "sourceMapEmit").

Definition sourceMapInline : Meth Js.value :=
  global_flag "sourceMapInline" (fun g => Js.JBool (Global.sourceMapInline g)).
Definition set_sourceMapInline : Js.value -> File.t -> File.t :=
  assign "sourceMapInline" (setProperty "sourceMapInline").

(** [get sourceMapUrl() { if (sourceMapUrl) { return sourceMapUrl(this); } }] *)
Definition sourceMapUrl : Meth Js.value :=
  read "sourceMapUrl"
    (g ← global; f ← this;
     mret (match Global.sourceMapUrl g with
           | Some h => Js.JStr (h f)
           | None => Js.JUndefined
           end)).
(** [set sourceMapUrl(value) { setProperty(this, "sourceMapInline", value); }] *)
Definition set_sourceMapUrl : Js.value -> File.t -> File.t :=
  assign "sourceMapUrl" (setProperty "sourceMapInline").

Definition sourceMapIncludeFile : Meth Js.value :=
  global_flag "sourceMapIncludeFile" (fun g => Js.JBool (Global.sourceMapIncludeFile g)).
Definition set_sourceMapIncludeFile : Js.value -> File.t -> File.t :=
  assign "sourceMapIncludeFile" (setProperty "sourceMapIncludeFile").

Definition sourceMapRoot : Meth Js.value :=
  global_flag "sourceMapRoot" (fun g => Js.JStr (Global.sourceMapRoot g)).
Definition set_sourceMapRoot : Js.value -> File.t -> File.t :=
  assign "sourceMapRoot" (setProperty "sourceMapRoot").

Definition sourceMapIncludeSourcesContent : Meth Js.value :=
  global_flag "sourceMapIncludeSourcesContent"
    (fun g => Js.JBool (Global.sourceMapIncludeSourcesContent g)).
Definition set_sourceMapIncludeSourcesContent : Js.value -> File.t -> File.t :=
  assign "sourceMapIncludeSourcesContent" (setProperty "sourceMapIncludeSourcesContent").

Definition sourceMapIncludeNames : Meth Js.value :=
  global_flag "sourceMapIncludeNames" (fun g => Js.JBool (Global.sourceMapIncludeNames g)).
Definition set_sourceMapIncludeNames : Js.value -> File.t -> File.t :=
  assign "sourceMapIncludeNames" (setProperty "sourceMapIncludeNames").

Definition overwrite : Meth Js.value :=
  global_flag "overwrite" (fun g => Js.JBool (Global.overwrite g)).
Definition set_overwrite : Js.value -> File.t -> File.t :=
  assign "overwrite" (setProperty "overwrite").

(** [get sourceMapObject()]: coerces the stored handle to the object form. *)
Definition sourceMapObject : Meth (option SourceMapObject.t) :=
  f ← this;
  match File.sourceMapData f with
  | Some d =>
    if data_truthy (Some d) then
      _ ← update (File.with_sourceMapData (Some (SMObject (toSourceMapObject d))));
      mret (Some (toSourceMapObject d))
    else mret None
  | None => mret None
  end.

(** [get sourceMapString() { return JSON.stringify(this.sourceMapObject); }] *)
Definition sourceMapString : Meth Js.value :=
  o ← sourceMapObject;
  mret (match o with
        | Some o => Js.JStr (JSON_stringify o)
        | None => Js.JUndefined
        end).

(** [get sourceMapBuilder()] *)
Definition sourceMapBuilder : Meth (option nat) :=
  f ← this;
  match File.sourceMapData f with
  | Some d =>
    if data_truthy (Some d) then
      _ ← update (File.with_sourceMapData (Some (SMBuilder (toSourceMapBuilder d))));
      mret (Some (toSourceMapBuilder d))
    else mret None
  | None => mret None
  end.

(** *** Diagnostics *)

(** The block [if (this.sourceMap !== false && this.startLine != undefined
    && this.sourceMapData) { ... }] of the [FileLogEntry] constructor, on
    the entry [e] as the preceding lines left it: the position is looked up
    in the source map [d]. *)
Definition FileLogEntry_remap (e : LogEntry.t) (d : SourceMapData) (startLine : Z)
  : Err.t + LogEntry.t :=
  let builder := toSourceMapBuilder d in
  let startSource := getSource builder startLine (default 0 (LogEntry.startColumn e)) in
  match pathEquals_loose (LogEntry.path e) (sourcePath startSource) with
  | inl x => inl x
  | inr same =>
    let path2 := if same then LogEntry.path e else sourcePath startSource in
    let content2 := if same then LogEntry.content e else sourceContent startSource in
    match LogEntry.endLine e with
    | Some endLine =>
      let endSource := getSource builder endLine (default 0 (LogEntry.endColumn e)) in
      match pathEquals_loose path2 (sourcePath endSource) with
      | inl x => inl x
      | inr sameEnd =>
        inr (LogEntry.mk (LogEntry.message e) (LogEntry.plugin e) path2 content2
               (Some (line startSource)) (Some (column startSource))
               (if sameEnd then Some (line endSource) else None)
               (if sameEnd then Some (column endSource) else None)
               (LogEntry.error e) (Some false) (Some (SMBuilder builder)))
      end
    | None =>
      inr (LogEntry.mk (LogEntry.message e) (LogEntry.plugin e) path2 content2
             (Some (line startSource)) (Some (column startSource))
             None (LogEntry.endColumn e)
             (LogEntry.error e) (Some false) (Some (SMBuilder builder)))
    end
  end.

(** [new FileLogEntry(file, data)], with [file] the receiver.  The
    constructor reads [file.content] when the entry brings no content, and
    the source content of the entry's path when the entry has a position
    and still no content; either read may throw. *)
Definition FileLogEntry_new (d : LogData) : Meth (Err.t + LogEntry.t) :=
  let e := LogEntry_new d in
  (* if (file) { ... } *)
  f ← this;
  let path1 := default (File.path f) (LogEntry.path e) in
  content1 ←? match LogEntry.content e with
              | Some c => ok c
              | None => content
              end;
  f ← this;
  let data1 := match LogEntry.sourceMapData e with
               | Some d => Some d
               | None => File.sourceMapData f
               end in
  let e1 :=
    LogEntry.mk (LogEntry.message e) (LogEntry.plugin e) (Some path1) (Some content1)
      (LogEntry.startLine e) (LogEntry.startColumn e) (LogEntry.endLine e)
      (LogEntry.endColumn e) (LogEntry.error e) (LogEntry.sourceMap e) data1 in
  (* if (this.sourceMap !== false && this.startLine != undefined && this.sourceMapData) *)
  e2 ←? mret (match LogEntry.startLine e, data1 with
              | Some startLine, Some d =>
                if negb (bool_decide (LogEntry.sourceMap e = Some false)) && data_truthy data1
                then FileLogEntry_remap e1 d startLine
                else inr e1
              | _, _ => inr e1
              end);
  (* if (this.content == undefined && this.path != undefined && this.startLine != undefined) *)
  match LogEntry.content e2, LogEntry.path e2, LogEntry.startLine e2 with
  | None, Some p, Some _ =>
    c ←? on_other (File_new (Some p) None None) srcContent;
    ok (LogEntry.mk (LogEntry.message e2) (LogEntry.plugin e2) (LogEntry.path e2) (Some c)
          (LogEntry.startLine e2) (LogEntry.startColumn e2) (LogEntry.endLine e2)
          (LogEntry.endColumn e2) (LogEntry.error e2) (LogEntry.sourceMap e2)
          (LogEntry.sourceMapData e2))
  | _, _, _ => ok e2
  end.

(** [this.errorCount = ++this.errorCount || 1]: an unset counter becomes 1.
    The counters are taken below 2^53, where the increment of a double is
    the increment of an integer. *)
Definition bump (n : option Z) : option Z :=
  match n with
  | None => Some 1
  | Some n => if n + 1 =? 0 then Some 1 else Some (n + 1)
  end.

(** [log(data, level)] *)
Definition log (d : LogData) (level : LogLevel.t) : Meth (Err.t + unit) :=
  entry ←? FileLogEntry_new d;
  g ← global; f ← this;
  if match Global.onLogFile g with
     | Some h => Js.is_false (h entry level f)
     | None => false
     end
  then ok tt
  else
    _ ← match level with
        | LogLevel.error | LogLevel.fatal =>
          update (fun f => File.with_errorCount (bump (File.errorCount f)) f)
        | LogLevel.warning =>
          update (fun f => File.with_warningCount (bump (File.warningCount f)) f)
        | LogLevel.log => mret tt
        end;
    _ ← emit (Log entry level);
    ok tt.

Definition error (d : LogData) : Meth (Err.t + unit) := log d LogLevel.error.
Definition warning (d : LogData) : Meth (Err.t + unit) := log d LogLevel.warning.

(** *** Load *)

(** [load(callback)] either calls back at once with a null error or issues
    the asynchronous read, whose completion is [load_readFile_cb]. *)
Inductive LoadResult : Type :=
| LoadCalled
| LoadPending (taskId : nat).

Definition load : Meth LoadResult :=
  f ← this; g ← global;
  if negb (str_truthy (File.srcPath f))
     || bool_decide (is_Some (File._destContent f))
     || bool_decide (is_Some (File._destBuffer f))
     || bool_decide (is_Some (File._srcBuffer f))
     || bool_decide (is_Some (File._srcContent f))
     || WorkingMode.has (Global.workingMode g) WorkingMode.clean
  then mret LoadCalled
  else
    taskId ← beginAsync "Read: {file}" (toString f);
    _ ← emit (ReadFile (File.srcPath f));
    mret (LoadPending taskId).

(** The callback given to [readFile]; it returns the error handed on to
    [load]'s callback.  What [this.error] throws escapes it before
    [endAsync] and before [load]'s callback. *)
Definition load_readFile_cb (taskId : nat) (r : Err.t + Buffer)
  : Meth (Err.t + option Err.t) :=
  _ ←? match r with
       | inl e => error (LogError e)
       | inr b => _ ← update (File.with_srcBuffer (Some b)); ok tt
       end;
  _ ← endAsync taskId;
  ok (match r with inl e => Some e | inr _ => None end).

(** *** Save *)

(** [/\.js$/i.test(path)] *)
Definition lower (a : Ascii.ascii) : Ascii.ascii :=
  let n := Ascii.nat_of_ascii a in
  if ((65 <=? n) && (n <=? 90))%nat then Ascii.ascii_of_nat (n + 32) else a.

Definition ends_with_js (p : string) : bool :=
  match rev (String.list_ascii_of_string p) with
  | c3 :: c2 :: c1 :: _ =>
    Ascii.eqb c1 "."%char && Ascii.eqb (lower c2) "j"%char && Ascii.eqb (lower c3) "s"%char
  | _ => false
  end.

(** The closure state of one [save] call: [savePath], [taskId] and the
    [pending] counter that [done] decrements. *)
Record PendingSave : Type := mkPendingSave {
  ps_savePath : string;
  ps_taskId : nat;
  ps_pending : Z
}.

Inductive SaveResult : Type :=
| SaveCalled (err : option Err.t) (savePath : string)
| SavePending (p : PendingSave).

(** [const done = (error) => { ... }].  What [this.error] throws escapes
    it with [pending] as it was. *)
Definition save_done (p : PendingSave) (err : option Err.t) : Meth (Err.t + SaveResult) :=
  let p' := mkPendingSave (ps_savePath p) (ps_taskId p) (ps_pending p - 1) in
  match err with
  | Some e =>
    _ ←? error (LogError e);
    if ps_pending p' >? 0 then ok (SavePending p')
    else
      _ ← endAsync (ps_taskId p);
      ok (SaveCalled err (ps_savePath p))
  | None =>
    if ps_pending p' >? 0 then ok (SavePending p')
    else
      _ ← set_globals (fun g => Global.with_fileCount (Global.fileCount g + 1) g);
      g ← global;
      _ ← when (Global.onSaveFile g) (emit (OnSaveFile (ps_savePath p)));
      _ ← endAsync (ps_taskId p);
      ok (SaveCalled err (ps_savePath p))
  end.

(** The callbacks of [deleteFile] (clean mode) and of [writeFile] /
    [copyFile] (build mode); [out] is the path the request was for. *)
Definition save_deleteFile_cb (p : PendingSave) (out : string) (err : option Err.t)
  : Meth (Err.t + SaveResult) :=
  match err with
  | Some _ => save_done p err
  | None => _ ← emit (DeleteParentDirIfEmpty out); ok (SavePending p)
  end.

Definition save_write_cb (p : PendingSave) (out : string) (err : option Err.t)
  : Meth (Err.t + SaveResult) :=
  match err with
  | Some _ => save_done p err
  | None =>
    f ← this;
    _ ← emit (UpdateCache (File.srcPath f) out);
    save_done p err
  end.

(** The [sources] loop.  [finalSourceMap.sources] is the very array
    [sourceMapObject.sources]: each element is rewritten in place, [done]
    being the elements rewritten so far and [todo] the ones still to
    rewrite.  When the file's [sourceMapData] is that object ([shared]), the
    file sees each write. *)
Fixpoint sources_loop (shared : option SourceMapObject.t) (base : Js.value)
  (done todo : list string) : Meth (Err.t + list string) :=
  match todo with
  | [] => ok done
  | s :: rest =>
    g ← global; f ← this;
    s' ←? mret (match Global.sourceMapSource g with
                | Some h => inr (h s f)
                | None => relativeUrl_loose base (Js.JStr s)
                end);
    _ ← match shared with
        | Some o =>
          update (File.with_sourceMapData
                    (Some (SMObject (SourceMapObject.with_sources (done ++ s' :: rest) o))))
        | None => mret tt
        end;
    sources_loop shared base (done ++ [s']) rest
  end.

(** The [sourcesContent] loop; [srcs] is [sourceMapObject.sources] as the
    preceding loop left it. *)
Fixpoint sourcesContent_loop (o : SourceMapObject.t) (srcs : list string) (i : nat)
  : Meth (Err.t + list (option string)) :=
  match srcs with
  | [] => ok []
  | s :: rest =>
    g ← global; f ← this;
    c ←? match Global.sourceMapSourceContent g with
         | Some h => ok (Some (h s f))
         | None =>
           match SourceMapObject.sourcesContent o with
           | Some l => ok (mjoin (l !! i))
           | None =>
             if String.eqb s (File.srcPath f)
             then c ←? srcContent; ok (Some c)
             else b ←? syncRead s;
                  ok (Some (bufferToString b (Js.JStr (Global.encoding g))))
           end
         end;
    cs ←? sourcesContent_loop o rest (S i);
    ok (c :: cs)
  end.

(** The binding [const sourceMapUrl = (this.sourceMapInline ?
    base64Uri("application/json", finalSourceMapString) : this.sourceMapUrl
    || relativeUrl(savePath, sourceMapPath))], whose value nothing reads. *)
Definition discarded_sourceMapUrl (savePath : string) (sourceMapPath_ finalSourceMapString : Js.value)
  : Meth (Err.t + Js.value) :=
  inline ← sourceMapInline;
  if Js.truthy inline then ok (Js.JStr (base64Uri "application/json" finalSourceMapString))
  else
    url ← sourceMapUrl;
    if Js.truthy url then ok url
    else
      s ←? mret (relativeUrl_loose (Js.JStr savePath) sourceMapPath_);
      ok (Js.JStr s).

(** The block [if (this.sourceMapData) { ... }] of build mode; its value is
    [finalSourceMapString].  The helpers given a path that is not a string
    and the synchronous reads of the [sourcesContent] loop may throw. *)
Definition save_sourceMap (savePath : string) (sourceMapPath_ : Js.value)
  (sourceMapEmit_ : bool) : Meth (Err.t + Js.value) :=
  f ← this;
  match File.sourceMapData f with
  | None => ok Js.JUndefined
  | Some d =>
    if negb (data_truthy (Some d)) then ok Js.JUndefined else
    let o := toSourceMapObject d in
    includeFile ← sourceMapIncludeFile;
    file ←? (if Js.truthy includeFile
             then s ←? mret (relativeUrl_loose sourceMapPath_
                               (Js.or (Js.of_option (SourceMapObject.file o))
                                      (Js.JStr savePath)));
                  ok (Some s)
             else ok None);
    root ← sourceMapRoot;
    let sourceRoot := Js.or root (Js.of_option (SourceMapObject.sourceRoot o)) in
    srcs ←? sources_loop (match d with SMObject _ => Some o | _ => None end)
              (Js.or sourceRoot sourceMapPath_) [] (SourceMapObject.sources o);
    includeSourcesContent ← sourceMapIncludeSourcesContent;
    contents ←? (if Js.truthy includeSourcesContent
                 then l ←? sourcesContent_loop o srcs 0; ok (Some l)
                 else ok None);
    includeNames ← sourceMapIncludeNames;
    let names :=
      match SourceMapObject.names o with
      | Some (n :: ns) => if Js.truthy includeNames then Some (n :: ns) else None
      | _ => None
      end in
    let finalSourceMap :=
      SourceMapObject.mk
        (if SourceMapObject.version o =? 0 then 3 else SourceMapObject.version o)
        srcs (SourceMapObject.mappings o) file
        (if Js.truthy sourceRoot then Some (Js.to_string sourceRoot) else None)
        contents names in
    g ← global; f ← this;
    let finalSourceMapString :=
      Js.or (match Global.onValidateSourceMap g with
             | Some h => h finalSourceMap f
             | None => Js.JNull
             end)
            (Js.JStr (JSON_stringify finalSourceMap)) in
    _ ←? (if sourceMapEmit_
          then discarded_sourceMapUrl savePath sourceMapPath_ finalSourceMapString
          else ok Js.JUndefined);
    ok finalSourceMapString
  end.

(** The first argument of the [writeFile] for the artifact. *)
Definition save_content (sourceMapEmit_ : bool) : Meth (Err.t + Buffer) :=
  if sourceMapEmit_ then
    c ←? content;
    inline ← sourceMapInline;
    url ← (if Js.truthy inline
           then s ← sourceMapString; mret (Js.JStr (base64Uri "application/json" s))
           else sourceMapUrl);
    f ← this;
    enc ← encoding;
    ok (stringToBuffer (emitSourceMapUrl c url (ends_with_js (File.path f))) enc)
  else
    f ← this;
    match File._destBuffer f with
    | Some b => ok b
    | None =>
      enc ← encoding;
      (* [modified] holds here, so [_destContent] is set *)
      ok (stringToBuffer (default ""%string (File._destContent f)) enc)
    end.

(** [const savePath = resolvePath(dir || ".", this.path)] *)
Definition savePath_of (dir : option string) (f : File.t) : string :=
  resolvePath (match dir with
               | Some d => if str_truthy d then d else "."%string
               | None => "."%string
               end) (File.path f).

(** The error of the overwrite guard and the diagnostic that carries it. *)
Definition EEXIST : Err.t :=
  Err.mk "EEXIST, file already exists." (Some "EEXIST"%string) (Some "17"%string).

Definition overwrite_diagnostic : LogData :=
  LogFields
    (LogEntry.mk
       (Some "Cannot overwrite source file. Use '--overwrite' to force saving."%string)
       None None None None None None None (Some EEXIST) None None).

(** [save(dir, callback)] *)
Definition save (dir : option string) : Meth (Err.t + SaveResult) :=
  f ← this; g ← global;
  let savePath := savePath_of dir f in
  (* validation hook *)
  if match Global.onValidateFile g with
     | Some h => negb (h savePath f)
     | None => false
     end
  then ok (SaveCalled None savePath)
  else
  emitFlag ← sourceMapEmit;
  let sourceMapEmit_ := data_truthy (File.sourceMapData f) && Js.truthy emitFlag in
  let modified_ := modified f || sourceMapEmit_ in
  overwrite_ ← overwrite;
  (* overwrite guard *)
  if pathEquals (File.srcPath f) savePath && negb modified_
  then ok (SaveCalled None savePath)
  else if pathEquals (File.srcPath f) savePath && negb (Js.truthy overwrite_)
  then
    _ ←? error overwrite_diagnostic;
    ok (SaveCalled (Some EEXIST) savePath)
  else
  inline ← sourceMapInline;
  ownPath ← sourceMapPath;
  let sourceMapPath_ :=
    match File.sourceMapData f with
    | None => Js.JUndefined
    | Some d =>
      if negb (data_truthy (Some d)) then Js.JStr ""
      else if Js.truthy inline then Js.JBool false
      else Js.or ownPath (Js.JStr (savePath +:+ ".map"))
    end in
  if WorkingMode.has (Global.workingMode g) WorkingMode.clean then
    taskId ← beginAsync "Clean: {file}" (getDisplayName savePath);
    _ ← emit (DeleteFile savePath);
    if Js.truthy sourceMapPath_ then
      _ ← emit (DeleteFile (Js.to_string sourceMapPath_));
      ok (SavePending (mkPendingSave savePath taskId 2))
    else ok (SavePending (mkPendingSave savePath taskId 1))
  else if WorkingMode.has (Global.workingMode g) WorkingMode.preview then
    taskId ← beginAsync "Preview: {file}" (getDisplayName savePath);
    save_done (mkPendingSave savePath taskId 1) None
  else
    taskId ← beginAsync (if modified_ then "Save: {file}" else "Copy: {file}")
                        (getDisplayName savePath);
    finalSourceMapString ←? save_sourceMap savePath sourceMapPath_ sourceMapEmit_;
    _ ←? (if modified_
          then b ←? save_content sourceMapEmit_; _ ← emit (WriteFile savePath b); ok tt
          else _ ← emit (CopyFile (File.srcPath f) savePath); ok tt);
    inline ← sourceMapInline;
    if negb (Js.truthy inline) && Js.truthy finalSourceMapString then
      _ ← emit (WriteFile (Js.to_string sourceMapPath_)
                  (stringToBuffer (Js.to_string finalSourceMapString) (Js.JStr "utf-8")));
      ok (SavePending (mkPendingSave savePath taskId 2))
    else ok (SavePending (mkPendingSave savePath taskId 1)).

(** *** Delete *)

Inductive DeleteResult : Type :=
| DeleteCalled (err : option Err.t)
| DeletePending (taskId : nat).

(** [const done = (error) => { ... }] of [delete]. *)
Definition delete_done (taskId : nat) (err : option Err.t) : Meth (Err.t + DeleteResult) :=
  _ ←? match err with
       | Some e => error (LogError e)
       | None =>
         _ ← set_globals (fun g => Global.with_fileCount (Global.fileCount g + 1) g);
         g ← global; f ← this;
         _ ← when (Global.onDeleteFile g) (emit (OnDeleteFile (File.srcPath f)));
         ok tt
       end;
  _ ← endAsync taskId;
  ok (DeleteCalled err).

(** [delete(deleteDir, callback)] and the callback it gives [deleteFile]. *)
Definition delete_ : Meth DeleteResult :=
  f ← this;
  if negb (str_truthy (File.srcPath f)) then mret (DeleteCalled None)
  else
    taskId ← beginAsync "Delete: {file} " (toString f);
    _ ← emit (DeleteFile (File.srcPath f));
    mret (DeletePending taskId).

Definition delete_deleteFile_cb (deleteDir : option bool) (taskId : nat) (err : option Err.t)
  : Meth (Err.t + DeleteResult) :=
  match err with
  | Some _ => delete_done taskId err
  | None =>
    if bool_decide (deleteDir = Some false) then delete_done taskId None
    else
      f ← this;
      _ ← emit (DeleteParentDirIfEmpty (File.srcPath f));
      ok (DeletePending taskId)
  end.

End FileClass.


(** ** Predicates used by the properties *)

Section Predicates.
Context `{Encode} `{Paths} `{SourceMaps} `{FileSystem} `{Logging}.

(** Exactly one of the two dest slots is populated. *)
Definition dest_exclusive (f : File.t) : bool :=
  xorb (bool_decide (is_Some (File._destBuffer f)))
       (bool_decide (is_Some (File._destContent f))).

(** Every dest slot populated in [f] is populated in [f']. *)
Definition dest_kept (f f' : File.t) : Prop :=
  (is_Some (File._destBuffer f) -> is_Some (File._destBuffer f')) /\
  (is_Some (File._destContent f) -> is_Some (File._destContent f')).

(** Requests that change the file system or the output cache. *)
Definition mutates (a : Action) : bool :=
  match a with
  | WriteFile _ _ | CopyFile _ _ | DeleteFile _ | DeleteParentDirIfEmpty _
  | UpdateCache _ _ => true
  | _ => false
  end.

(** From [s] to [s'] the globals are the same and the trace grew by actions
    none of which is such a request. *)
Definition harmless (s s' : File.t * World) : Prop :=
  globals (snd s') = globals (snd s)
  /\ exists l, trace (snd s') = trace (snd s) ++ l
              /\ forallb (fun a => negb (mutates a)) l = true.

(** From [s] to [s'] the diagnostic counters are the same. *)
Definition same_counts (s s' : File.t * World) : Prop :=
  File.errorCount (fst s') = File.errorCount (fst s)
  /\ File.warningCount (fst s') = File.warningCount (fst s).

(** Whether [save] will emit a source map for [f]:
    [this.sourceMapData && this.sourceMapEmit]. *)
Definition emits_sourceMap (f : File.t) (w : World) : bool :=
  data_truthy (File.sourceMapData f) && Js.truthy (fst (sourceMapEmit (f, w))).

(** The validation hook is absent or accepts the file. *)
Definition validated (dir : option string) (f : File.t) (w : World) : bool :=
  match Global.onValidateFile (globals w) with
  | Some h => h (savePath_of dir f) f
  | None => true
  end.

(** [dest_kept], lifted to the states of a method. *)
Definition keeps (s s' : File.t * World) : Prop := dest_kept (fst s) (fst s').

End Predicates.

(** [preserves R m]: running [m] relates the state before to the state
    after. *)
Definition preserves {S A : Type} (R : S -> S -> Prop) (m : State S A) : Prop :=
  forall s, R s (snd (m s)).

(** ** The operations on a file *)

Section Operations.
Context `{Encode} `{Paths} `{SourceMaps} `{FileSystem} `{Logging}.

(** The accessor pairs built on [setProperty]. *)
Inductive Flag : Type :=
| FEncoding | FSourceMap | FSourceMapPath | FSourceMapEmit | FSourceMapInline
| FSourceMapUrl | FSourceMapIncludeFile | FSourceMapRoot
| FSourceMapIncludeSourcesContent | FSourceMapIncludeNames | FOverwrite.

(** The property name of an accessor pair. *)
Definition flag_name (x : Flag) : string :=
  match x with
  | FEncoding => "encoding"
  | FSourceMap => "sourceMap"
  | FSourceMapPath => "sourceMapPath"
  | FSourceMapEmit => "sourceMapEmit"
  | FSourceMapInline => "sourceMapInline"
  | FSourceMapUrl => "sourceMapUrl"
  | FSourceMapIncludeFile => "sourceMapIncludeFile"
  | FSourceMapRoot => "sourceMapRoot"
  | FSourceMapIncludeSourcesContent => "sourceMapIncludeSourcesContent"
  | FSourceMapIncludeNames => "sourceMapIncludeNames"
  | FOverwrite => "overwrite"
  end.

(** Reading [f.x]. *)
Definition get_flag (x : Flag) : Meth Js.value :=
  match x with
  | FEncoding => encoding
  | FSourceMap => sourceMap
  | FSourceMapPath => sourceMapPath
  | FSourceMapEmit => sourceMapEmit
  | FSourceMapInline => sourceMapInline
  | FSourceMapUrl => sourceMapUrl
  | FSourceMapIncludeFile => sourceMapIncludeFile
  | FSourceMapRoot => sourceMapRoot
  | FSourceMapIncludeSourcesContent => sourceMapIncludeSourcesContent
  | FSourceMapIncludeNames => sourceMapIncludeNames
  | FOverwrite => overwrite
  end.

(** The assignment [f.x = v]. *)
Definition set_flag (x : Flag) : Js.value -> File.t -> File.t :=
  match x with
  | FEncoding => set_encoding
  | FSourceMap => set_sourceMap
  | FSourceMapPath => set_sourceMapPath
  | FSourceMapEmit => set_sourceMapEmit
  | FSourceMapInline => set_sourceMapInline
  | FSourceMapUrl => set_sourceMapUrl
  | FSourceMapIncludeFile => set_sourceMapIncludeFile
  | FSourceMapRoot => set_sourceMapRoot
  | FSourceMapIncludeSourcesContent => set_sourceMapIncludeSourcesContent
  | FSourceMapIncludeNames => set_sourceMapIncludeNames
  | FOverwrite => set_overwrite
  end.

(** The operations of the class, as what a client may do to one file. *)
Inductive FileOp : Type :=
| OpSrcBuffer | OpSrcContent
| OpBuffer | OpSetBuffer (value : Buffer)
| OpContent | OpSetContent (value : string)
| OpData | OpSetData (value : string + Buffer)
| OpGet (x : Flag) | OpSet (x : Flag) (value : Js.value)
| OpSourceMapObject | OpSourceMapString | OpSourceMapBuilder
| OpLog (d : LogData) (level : LogLevel.t)
| OpLoad | OpLoadCompleted (taskId : nat) (r : Err.t + Buffer)
| OpSave (dir : option string)
| OpSaveDone (p : PendingSave) (err : option Err.t)
| OpSaveDeleted (p : PendingSave) (out : string) (err : option Err.t)
| OpSaveWritten (p : PendingSave) (out : string) (err : option Err.t)
| OpDelete
| OpDeleteDeleted (deleteDir : option bool) (taskId : nat) (err : option Err.t)
| OpDeleteDone (taskId : nat) (err : option Err.t)
| OpClone.

(** An operation is run for what it does to the file and the world; its
    value, or the exception it throws, is dropped. *)
Definition ignore {A} (m : Meth A) : Meth unit := _ ← m; mret tt.

Definition run_op (op : FileOp) : Meth unit :=
  match op with
  | OpSrcBuffer => ignore srcBuffer
  | OpSrcContent => ignore srcContent
  | OpBuffer => ignore buffer
  | OpSetBuffer v => update (set_buffer v)
  | OpContent => ignore content
  | OpSetContent v => update (set_content v)
  | OpData => ignore data
  | OpSetData v => update (set_data v)
  | OpGet x => ignore (get_flag x)
  | OpSet x v => update (set_flag x v)
  | OpSourceMapObject => ignore sourceMapObject
  | OpSourceMapString => ignore sourceMapString
  | OpSourceMapBuilder => ignore sourceMapBuilder
  | OpLog d level => ignore (log d level)
  | OpLoad => ignore load
  | OpLoadCompleted taskId r => ignore (load_readFile_cb taskId r)
  | OpSave dir => ignore (save dir)
  | OpSaveDone p err => ignore (save_done p err)
  | OpSaveDeleted p out err => ignore (save_deleteFile_cb p out err)
  | OpSaveWritten p out err => ignore (save_write_cb p out err)
  | OpDelete => ignore delete_
  | OpDeleteDeleted deleteDir taskId err => ignore (delete_deleteFile_cb deleteDir taskId err)
  | OpDeleteDone taskId err => ignore (delete_done taskId err)
  | OpClone => ignore clone
  end.

(** The operations that write a dest slot. *)
Definition writes_dest (op : FileOp) : bool :=
  match op with
  | OpSetBuffer _ | OpSetContent _ | OpSetData _ => true
  | _ => false
  end.

End Operations.

(** ** Inputs used to run [save] in build mode *)

(** A modified file [a.js] with text [c] that carries the source map [o];
    no per-file override is installed. *)
Definition mapped (o : SourceMapObject.t) (c : string) : File.t :=
  File.mk "/src/a.js" "a.js" None None None (Some c) None (Some (SMObject o))
          None None ∅.

(** The initial globals (build mode, [sourceMapEmit] on, [sourceMapInline]
    off, no [sourceMapUrl] hook) with [overwrite] enabled. *)
Definition overwriting : World :=
  mkWorld (Global.with_overwrite true Global.initial) 0 [].


(** ** The [FileList] class *)

(** A file in a list is a reference to a [File] object. *)
Definition FileRef : Type := nat.

Module FileList.

(** The listeners of the model: the ones a [pipe] stage registers (its
    [data] and [end] handlers on the upstream list, the barrier's [done] on
    the result list) and the listeners of other clients, known by an id. *)
Inductive Listener : Type :=
| PipeData
| PipeEnd
| BarrierDone
| External (id : nat).

#[global] Instance Listener_eq_dec : EqDecision Listener.
Proof. solve_decision. Defined.

(** What a listener is called with: a file ([data]) or the list's [files]
    array ([end]). *)
Inductive Arg : Type :=
| ArgFile (r : FileRef)
| ArgFiles (rs : list FileRef).

#[global] Instance Arg_eq_dec : EqDecision Arg.
Proof. solve_decision. Defined.

Record Call : Type := mkCall { listener : Listener; arg : Arg }.

#[global] Instance Call_eq_dec : EqDecision Call.
Proof. solve_decision. Defined.

(** [files], [ended], and the emitter's listeners in registration order. *)
Record t : Type := mk {
  files : list FileRef;
  ended : bool;
  listeners : list (string * Listener)
}.

(** [new FileList()] *)
Definition empty : t := mk [] false [].

(** [emit(event, arg)]: the calls made, in registration order. *)
Definition emit (event : string) (a : Arg) (l : t) : list Call :=
  (fun p => mkCall (snd p) a) <$> filter (fun p => fst p = event) (listeners l).

(** [add(file) { this.files.push(file); this.emit("data", file); }] *)
Definition add (r : FileRef) (l : t) : t * list Call :=
  let l' := mk (files l ++ [r]) (ended l) (listeners l) in
  (l', emit "data" (ArgFile r) l').

(** [end() { this.ended = true; this.emit("end", this.files); }] *)
Definition end_ (l : t) : t * list Call :=
  let l' := mk (files l) true (listeners l) in
  (l', emit "end" (ArgFiles (files l')) l').

(** [on(event, listener)]: registers, then replays to the new listener. *)
Definition on (event : string) (h : Listener) (l : t) : t * list Call :=
  let l' := mk (files l) (ended l) (listeners l ++ [(event, h)]) in
  (l',
   if String.eqb event "data" then (fun r => mkCall h (ArgFile r)) <$> files l'
   else if String.eqb event "end" then
     (if ended l' then [mkCall h (ArgFiles (files l'))] else [])
   else []).

(** A list as its producer and other clients left it: some files, maybe
    ended, listeners of other clients only. *)
Definition upstream (fs : list FileRef) (e : bool) (others : list (string * nat)) : t :=
  mk fs e ((fun p => (fst p, External (snd p))) <$> others).

(** The operations a client performs on a list. *)
Inductive Op : Type :=
| OpAdd (r : FileRef)
| OpEnd
| OpOn (event : string) (h : Listener).

Definition run_op (o : Op) (l : t) : t * list Call :=
  match o with
  | OpAdd r => add r l
  | OpEnd => end_ l
  | OpOn event h => on event h l
  end.

(** The list after a sequence of operations. *)
Definition run (ops : list Op) (l : t) : t :=
  fold_left (fun l o => fst (run_op o l)) ops l.

(** The files a sequence of operations adds, in order, and whether it ends
    the list. *)
Definition adds (ops : list Op) : list FileRef :=
  omap (fun o => match o with OpAdd r => Some r | _ => None end) ops.

Definition ends (ops : list Op) : bool :=
  existsb (fun o => match o with OpEnd => true | _ => false end) ops.

End FileList.

(** ** [FileList.pipe] with a function processor

    A stage is the upstream list ([this]), the result list, the [pending]
    counter of the per-file modes, and the requests in flight.  It moves by
    events: the upstream producer's [add] and [end], the barrier running the
    continuation given to [then], the completion of a [readFile], and a
    processor invoking [done] after its call returned.

    Modelled from the spec: [then] of [builder/then] -- "when the counter
    drops to zero, queued continuations execute"; "enqueuing when the
    counter is already zero runs the continuation immediately".  The
    continuation runs once, at a moment the barrier chooses: the event
    [ThenRun]. *)

(** What one invocation of a processor does besides changing the file and
    the world: it calls [done] [dones] times before it returns or throws
    [thrown]; a processor that takes [destList] passes it [added]; with
    [later], [done] is called once more after the invocation is over.  An
    exception that escapes a call of [done] is not caught by the processor:
    it ends the invocation in place of [thrown]. *)
Record Outcome : Type := mkOutcome {
  dones : nat;
  later : bool;
  thrown : option Err.t;
  added : list FileRef
}.

(** A function processor: its [name], its [length] (declared parameters)
    and its body, run with the file as receiver. *)
Module Processor.
Record t : Type := mk {
  name : string;
  length : nat;
  body : FileRef -> Meth Outcome
}.
End Processor.

(** What the stage's log records; [Escaped] is an exception that left a
    handler of the stage for its caller (the producer's [add] or [end], the
    barrier, the completion of a request). *)
Inductive Observation : Type :=
| Invoked (r : FileRef)
| Completed (r : FileRef)
| Threw (r : FileRef) (e : Err.t)
| LoadFailed (r : FileRef)
| Called (c : FileList.Call)
| Escaped (e : Err.t).

(** The part of a stage that is not file contents. *)
Record Net : Type := mkNet {
  src : FileList.t;
  result : FileList.t;
  pending : Z;
  thenQueued : bool;
  loads : list (FileRef * nat * nat);
  waits : list (FileRef * nat * nat);
  seen : list Observation
}.

Record Stage : Type := mkStage {
  heap : gmap FileRef File.t;
  world : World;
  net : Net
}.

Inductive Event : Type :=
| SrcAdd (r : FileRef)
| SrcEnd
| ThenRun
| ReadDone (k : nat) (res : Err.t + Buffer)
| ProcDone (k : nat).

#[global] Instance File_inhabited : Inhabited File.t :=
  populate (File.mk "" "" None None None None None None None None ∅).

(** A handler of a stage: it may let an exception escape. *)
Abbreviation Handler := (State Stage (Err.t + unit)).

(** [m], [n] times over, up to the first exception. *)
Fixpoint times {S} (n : nat) (m : State S (Err.t + unit)) : State S (Err.t + unit) :=
  match n with
  | O => ok tt
  | S n' => _ ←? m; times n' m
  end.

Section Pipe.
Context `{Encode} `{Paths} `{SourceMaps} `{FileSystem} `{Logging}.
Variable p : Processor.t.

Definition set_src (l : FileList.t) (n : Net) : Net :=
  mkNet l (result n) (pending n) (thenQueued n) (loads n) (waits n) (seen n).
Definition set_result (l : FileList.t) (n : Net) : Net :=
  mkNet (src n) l (pending n) (thenQueued n) (loads n) (waits n) (seen n).
Definition set_pending (v : Z) (n : Net) : Net :=
  mkNet (src n) (result n) v (thenQueued n) (loads n) (waits n) (seen n).
Definition set_thenQueued (v : bool) (n : Net) : Net :=
  mkNet (src n) (result n) (pending n) v (loads n) (waits n) (seen n).
Definition set_loads (v : list (FileRef * nat * nat)) (n : Net) : Net :=
  mkNet (src n) (result n) (pending n) (thenQueued n) v (waits n) (seen n).
Definition set_waits (v : list (FileRef * nat * nat)) (n : Net) : Net :=
  mkNet (src n) (result n) (pending n) (thenQueued n) (loads n) v (seen n).
Definition observe (o : list Observation) (n : Net) : Net :=
  mkNet (src n) (result n) (pending n) (thenQueued n) (loads n) (waits n) (seen n ++ o).

Definition on_net (u : Net -> Net) (st : Stage) : Stage :=
  mkStage (heap st) (world st) (u (net st)).

(** Runs a method on the file [r] refers to (a reference the heap does not
    hold reads as an empty generated file). *)
Definition with_file {A} (r : FileRef) (m : Meth A) (st : Stage) : A * Stage :=
  let '(a, s) := m (heap st !!! r, world st) in
  (a, mkStage (<[r := fst s]> (heap st)) (snd s) (net st)).

(** A handler called from outside the stage: an exception that escapes it
    goes to the log, the stage is left as it was at the throw. *)
Definition absorb (m : Handler) (st : Stage) : Stage :=
  let '(r, st') := m st in
  match r with
  | inl e => on_net (observe [Escaped e]) st'
  | inr _ => st'
  end.

(** [begin(label, { file, processor })] and [end(taskId)] of the progress
    display. *)
Definition progress_begin (r : FileRef) (st : Stage) : nat * Stage :=
  let w := world st in
  (nextTask w,
   mkStage (heap st)
     (mkWorld (globals w) (S (nextTask w))
        (trace w ++ [ProgressBegin (nextTask w)
                       (if str_truthy (Processor.name p) then "{processor}: {file}" else "Process: {file}")
                       (Processor.name p) (toString (heap st !!! r))]))
     (net st)).

Definition progress_end (taskId : nat) (st : Stage) : Stage :=
  let w := world st in
  mkStage (heap st) (mkWorld (globals w) (nextTask w) (trace w ++ [ProgressEnd taskId]))
          (net st).

(** [result.add(file)] and [result.end()]: the calls to the result's
    listeners go to the log. *)
Definition result_add (r : FileRef) (n : Net) : Net :=
  let '(l, calls) := FileList.add r (result n) in
  observe (Called <$> calls) (set_result l n).

Definition result_end (n : Net) : Net :=
  let '(l, calls) := FileList.end_ (result n) in
  observe (Called <$> calls) (set_result l n).

(** [if (--pending > 0) return; result.end();] *)
Definition settle (n : Net) : Net :=
  let n' := set_pending (pending n - 1) n in
  if pending n' >? 0 then n' else result_end n'.

(** The diagnostic of the [catch] blocks. *)
Definition caught_diagnostic (f : File.t) (e : Err.t) : LogData :=
  LogFields (LogEntry.mk None (Some (Processor.name p)) (Some (File.srcPath f)) None
               None None None None (Some e) None None).

(** [catch (e) { file.error({ plugin, path: file.srcPath, error: e }); }];
    what [file.error] throws escapes the block. *)
Definition caught (r : FileRef) (e : Err.t) : Handler :=
  _ ← modify (on_net (observe [Threw r e]));
  with_file r (f ← this; error (caught_diagnostic f e)).

(** *** Per-file modes ([processor.length < 4]) *)

(** [function done() { end(taskId); result.add(file); if (--pending > 0)
    return; result.end(); }] *)
Definition done_each (r : FileRef) (taskId : nat) (st : Stage) : Stage :=
  on_net (fun n => settle (result_add r (observe [Completed r] n)))
         (progress_end taskId st).

(** The callback given to [file.load]. *)
Definition loaded_each (r : FileRef) (err : option Err.t) : Handler :=
  match err with
  | Some _ => _ ← modify (on_net (fun n => settle (observe [LoadFailed r] n))); ok tt
  | None =>
    taskId ← progress_begin r;
    _ ← modify (on_net (observe [Invoked r]));
    out ← with_file r (Processor.body p r);
    if (Processor.length p <? 3)%nat then
      (* try { processor(file, options, null, ...) } catch (e) { ... } done(); *)
      _ ←? match thrown out with
           | Some e => caught r e
           | None => ok tt
           end;
      _ ← modify (done_each r taskId);
      ok tt
    else
      (* try { processor(file, options, done, ...) } catch (e) { ...; done(); } *)
      _ ← modify (Nat.iter (dones out) (done_each r taskId));
      _ ← when (later out)
            (modify (on_net (fun n => set_waits (waits n ++ [(r, taskId, 0%nat)]) n)));
      match thrown out with
      | Some e => _ ←? caught r e; _ ← modify (done_each r taskId); ok tt
      | None => ok tt
      end
  end.

(** The [data] listener: [file => { pending++; file.load(...) }]. *)
Definition on_data (r : FileRef) : Handler :=
  _ ← modify (on_net (fun n => set_pending (pending n + 1) n));
  res ← with_file r load;
  match res with
  | LoadCalled => loaded_each r None
  | LoadPending taskId =>
    _ ← modify (on_net (fun n => set_loads (loads n ++ [(r, taskId, 0%nat)]) n));
    ok tt
  end.

(** *** Whole-list mode ([processor.length >= 4]) *)

(** [function done() { if (processor.length < 5) { result.add(file); }
    end(taskId); proc(index + 1); }], with [next] for [proc(index + 1)]. *)
Definition done_all (next : Handler) (r : FileRef) (taskId : nat) : Handler :=
  _ ← modify (on_net (observe [Completed r]));
  _ ← when (Processor.length p <? 5)%nat (modify (on_net (result_add r)));
  _ ← modify (progress_end taskId);
  next.

(** The callback given to [files[index].load]:
    [try { processor(file, options, function done() { ... }, this, result); }
    catch (e) { file.error({ ... }); end(taskId); proc(index + 1); }].  The
    [catch] block adds nothing to the result list. *)
Definition loaded_all (next : Handler) (index : nat) (r : FileRef) (err : option Err.t)
  : Handler :=
  match err with
  | Some _ => _ ← modify (on_net (observe [LoadFailed r])); next
  | None =>
    taskId ← progress_begin r;
    _ ← modify (on_net (observe [Invoked r]));
    out ← with_file r (Processor.body p r);
    _ ← when (5 <=? Processor.length p)%nat
          (modify (fun st => fold_left (fun st r' => on_net (result_add r') st) (added out) st));
    sync ← times (dones out) (done_all next r taskId);
    _ ← when (later out)
          (modify (on_net (fun n => set_waits (waits n ++ [(r, taskId, index)]) n)));
    match (match sync with inl e => Some e | inr _ => thrown out end) with
    | Some e =>
      _ ←? caught r e;
      _ ← modify (progress_end taskId);
      next
    | None => ok tt
    end
  end.

(** [const proc = (index) => { ... }] over [rest], the files from [index]
    on. *)
Fixpoint proc (rest : list FileRef) (index : nat) (st : Stage) : (Err.t + unit) * Stage :=
  if FileList.ended (result (net st)) then (inr tt, st)
  else
    match rest with
    | [] => (inr tt, on_net result_end st)
    | r :: rest' =>
      match with_file r load st with
      | (LoadCalled, st) => loaded_all (proc rest' (S index)) index r None st
      | (LoadPending taskId, st) =>
        (inr tt, on_net (fun n => set_loads (loads n ++ [(r, taskId, index)]) n) st)
      end
    end.

(** [proc(index)] on the upstream [files] array as it is when called (the
    [end] listener receives the array itself, not a copy). *)
Definition proc_at (index : nat) : Handler :=
  fun st => proc (drop index (FileList.files (src (net st)))) index st.

(** *** Events *)

(** A call that an emit or a replay of the upstream list makes. *)
Definition handle (c : FileList.Call) : Handler :=
  match FileList.listener c, FileList.arg c with
  | FileList.PipeData, FileList.ArgFile r => on_data r
  | FileList.PipeEnd, _ =>
    if (Processor.length p <? 4)%nat then _ ← modify (on_net settle); ok tt
    else proc_at 0
  | _, _ => ok tt
  end.

(** The calls of one emit, in order; an exception that escapes a listener
    ends the emit. *)
Fixpoint dispatch (calls : list FileList.Call) : Handler :=
  match calls with
  | [] => ok tt
  | c :: calls' => _ ←? handle c; dispatch calls'
  end.

Definition step (st : Stage) (ev : Event) : Stage :=
  match ev with
  | SrcAdd r =>
    let '(l, calls) := FileList.add r (src (net st)) in
    absorb (dispatch calls) (on_net (set_src l) st)
  | SrcEnd =>
    let '(l, calls) := FileList.end_ (src (net st)) in
    absorb (dispatch calls) (on_net (set_src l) st)
  | ThenRun =>
    (* done => { result.on("end", done); this.on("end", ...); } *)
    if thenQueued (net st) then
      let st := on_net (set_thenQueued false) st in
      let '(l, calls) := FileList.on "end" FileList.BarrierDone (result (net st)) in
      let st := on_net (fun n => observe (Called <$> calls) (set_result l n)) st in
      let '(l, calls) := FileList.on "end" FileList.PipeEnd (src (net st)) in
      absorb (dispatch calls) (on_net (set_src l) st)
    else st
  | ReadDone k res =>
    match loads (net st) !! k with
    | Some (r, taskId, index) =>
      absorb
        (err ←? with_file r (load_readFile_cb taskId res);
         if (Processor.length p <? 4)%nat then loaded_each r err
         else loaded_all (proc_at (S index)) index r err)
        (on_net (fun n => set_loads (delete k (loads n)) n) st)
    | None => st
    end
  | ProcDone k =>
    match waits (net st) !! k with
    | Some (r, taskId, index) =>
      let st := on_net (fun n => set_waits (delete k (waits n)) n) st in
      if (Processor.length p <? 4)%nat then done_each r taskId st
      else absorb (done_all (proc_at (S index)) r taskId) st
    | None => st
    end
  end.

Definition run (evs : list Event) (st : Stage) : Stage := fold_left step evs st.

(** [pipe(processor)] up to its [return result]: the per-file modes
    subscribe to [data] at once (with replay); the [end] subscriptions are
    in the continuation given to [then].  When the replay lets an exception
    escape, [pipe] throws it before [then(...)] is reached; the
    continuation stays queued here, and the runs in which it never fires
    are those of the source. *)
Definition pipe (upstream : FileList.t) (h : gmap FileRef File.t) (w : World) : Stage :=
  let st := mkStage h w (mkNet upstream FileList.empty 1 true [] [] []) in
  if (Processor.length p <? 4)%nat then
    let '(l, calls) := FileList.on "data" FileList.PipeData upstream in
    absorb (dispatch calls) (on_net (set_src l) st)
  else st.

End Pipe.

(** A processor body that throws [e] at once on the files [bad] picks, and
    calls [done] once, during the invocation, on every other file; it
    leaves the file and the world as they are. *)
Definition throws_on (bad : FileRef -> bool) (e : Err.t) : FileRef -> Meth Outcome :=
  fun r => mret (if bad r then mkOutcome 0 false (Some e) [] else mkOutcome 1 false None []).

(** ** The plugin loader ([lib/builder/plugin.ts]) *)

Module Plugin.

(** Node's module system: [require.resolve] answers a file name or throws
    ([None]); [require] answers the module's exports or throws. *)
Class Node : Type := {
  require_resolve : string -> option string;
  require : string -> Err.t + Js.value
}.

(** What a call of [plugin] does, in order. *)
Inductive Step : Type :=
| Begin (label name : string)
| End_
| Resolve (request : string)
| Require (path : string).

#[global] Instance Step_eq_dec : EqDecision Step.
Proof. solve_decision. Defined.

(** [const plugins = { __proto__: null }] and the steps taken so far. *)
Record Loader : Type := mkLoader {
  plugins : gmap string Js.value;
  steps : list Step
}.

Definition fresh : Loader := mkLoader ∅ [].

(** [\w] *)
Definition is_word (a : Ascii.ascii) : bool :=
  let n := Ascii.nat_of_ascii a in
  (((48 <=? n) && (n <=? 57)) || ((65 <=? n) && (n <=? 90))
   || ((97 <=? n) && (n <=? 122)) || (n =? 95))%nat.

(** [^\w+\:], with [seen] telling whether a word character was read. *)
Fixpoint word_colon (s : string) (seen : bool) : bool :=
  match s with
  | EmptyString => false
  | String a rest =>
    if is_word a then word_colon rest true
    else seen && Ascii.eqb a ":"%char
  end.

(** [/^[\.\/\\]|^\w+\:/.test(name)] *)
Definition isRelative (name : string) : bool :=
  match name with
  | EmptyString => false
  | String a _ =>
    Ascii.eqb a "."%char || Ascii.eqb a "/"%char || Ascii.eqb a (Ascii.ascii_of_nat 92)
    || word_colon name false
  end.

Section Loader.
Context `{Paths} `{Node}.

Definition say (x : Step) : State Loader unit :=
  modify (fun l => mkLoader (plugins l) (steps l ++ [x])).

Definition resolve (request : string) : State Loader (option string) :=
  _ ← say (Resolve request); mret (require_resolve request).

(** [plugin(name)]: the exports, or the error thrown. *)
Definition plugin (name : string) : State Loader (Err.t + Js.value) :=
  l ← get;
  let loaded := default Js.JUndefined (plugins l !! name) in
  if Js.truthy loaded then mret (inr loaded)
  else
    _ ← say (Begin "Load plugin: {plugin}" name);
    first ← resolve (resolvePath (if isRelative name then "." else "node_modules") name);
    resolved ← match first with
               | Some n => mret (Some n)
               | None => resolve name
               end;
    match resolved with
    | None =>
      _ ← say End_;
      mret (inl (Err.mk
                   (if isRelative name
                    then "Cannot find plugin '" +:+ name +:+ "'."
                    else "Cannot find plugin '" +:+ name +:+ "'. Use 'npm install "
                         +:+ name +:+ "' to install it.")
                   None None))
    | Some n =>
      (* try { return plugins[name] = require(name); } finally { end(taskId); } *)
      _ ← say (Require n);
      match require n with
      | inr exports =>
        _ ← modify (fun l => mkLoader (<[n := exports]> (plugins l)) (steps l));
        _ ← say End_;
        mret (inr exports)
      | inl e =>
        _ ← say End_;
        mret (inl e)
      end
    end.

End Loader.

End Plugin.


(** ** Predicates on stages *)

(** The files of the requests in flight. *)
Definition refs (l : list (FileRef * nat * nat)) : list FileRef :=
  (fun x => fst (fst x)) <$> l.

(** The files whose load failed, whose processor was invoked, threw, or
    completed through [done], in the order the log has them, and the
    exceptions that escaped the stage. *)
Definition load_failed (o : list Observation) : list FileRef :=
  omap (fun x => match x with LoadFailed r => Some r | _ => None end) o.
Definition invoked (o : list Observation) : list FileRef :=
  omap (fun x => match x with Invoked r => Some r | _ => None end) o.
Definition failed (o : list Observation) : list FileRef :=
  omap (fun x => match x with Threw r _ => Some r | _ => None end) o.
Definition completed (o : list Observation) : list FileRef :=
  omap (fun x => match x with Completed r => Some r | _ => None end) o.
Definition escaped (o : list Observation) : list Err.t :=
  omap (fun x => match x with Escaped e => Some e | _ => None end) o.

(** The producer of the upstream list adds no file after [end] and ends the
    list once; [e] tells whether the list is ended already. *)
Fixpoint src_protocol (e : bool) (evs : list Event) : bool :=
  match evs with
  | [] => true
  | SrcAdd _ :: evs => negb e && src_protocol e evs
  | SrcEnd :: evs => negb e && src_protocol true evs
  | _ :: evs => src_protocol e evs
  end.

(** The share of [pending] that stands for the [end] event: 1 until the
    [end] listener has run. *)
Definition base (n : Net) : Z :=
  if negb (thenQueued n) && FileList.ended (src n) then 0 else 1.

(** The counting invariant of the per-file modes, with [hand] the files the
    running handler holds and [k] their share of [pending]. *)
Definition counted (hand : list FileRef) (k : Z) (n : Net) : Prop :=
  pending n = base n + Z.of_nat (List.length (loads n)) + Z.of_nat (List.length (waits n)) + k
  /\ FileList.files (src n)
     ≡ₚ FileList.files (result n) ++ load_failed (seen n) ++ refs (loads n)
        ++ refs (waits n) ++ hand
  /\ (FileList.ended (result n) = true -> pending n <= 0).

(** The listeners of the upstream list of a stage: those of other clients,
    the stage's [data] listener in the per-file modes, and its [end]
    listener once the continuation given to [then] has run. *)
Definition wired (p : Processor.t) (others : list (string * nat)) (n : Net) : Prop :=
  FileList.listeners (src n)
  = ((fun x => (fst x, FileList.External (snd x))) <$> others)
    ++ (if (Processor.length p <? 4)%nat then [("data"%string, FileList.PipeData)] else [])
    ++ (if thenQueued n then [] else [("end"%string, FileList.PipeEnd)]).

(** The wiring of the upstream list is not the handlers' to change. *)
Definition same_wiring (n n' : Net) : Prop :=
  src n' = src n /\ thenQueued n' = thenQueued n.

(** The stage that [pipe] creates on an upstream list, after the events. *)
Definition piped `{Encode} `{Paths} `{SourceMaps} `{FileSystem} `{Logging}
  (p : Processor.t) (fs : list FileRef) (e : bool)
  (others : list (string * nat)) (h : gmap FileRef File.t) (w : World)
  (evs : list Event) : Stage :=
  run p evs (pipe p (FileList.upstream fs e others) h w).

(** ** A concrete environment

    Stand-ins for the capabilities, used to run the model on concrete
    inputs: text is its own encoding, paths are compared as strings, a path
    helper given something else than strings throws, the file system holds
    the one file [/a.txt], a builder has no segment for any position, and
    [emitSourceMapUrl] follows the comment styles of the specification. *)

Module Demo.

#[export] Instance encode : Encode := {|
  stringToBuffer s _ := String.list_byte_of_string s;
  bufferToString b _ := String.string_of_list_byte b;
  base64Uri mime payload := "data:" +:+ mime +:+ ";base64," +:+ Js.to_string payload
|}.

Definition TypeError : Err.t := Err.mk "Path must be a string" None None.

#[export] Instance paths : Paths := {|
  resolvePath1 p := default ""%string p;
  resolvePath a b :=
    match b with
    | String "/"%char _ => b
    | _ => a +:+ "/" +:+ b
    end;
  pathEquals := String.eqb;
  pathEquals_loose a b :=
    match a, b with
    | Some a, Some b => inr (String.eqb a b)
    | _, _ => inl TypeError
    end;
  pathEquals_loose_strings _ _ := eq_refl;
  relativeUrl _ to := to;
  relativeUrl_loose base to :=
    match base, to with
    | Js.JStr _, Js.JStr to => inr to
    | _, _ => inl TypeError
    end;
  relativeUrl_loose_strings _ _ := eq_refl;
  getDisplayName p := p;
  format s := s
|}.

Definition emptyObject : SourceMapObject.t :=
  SourceMapObject.mk 3 [] "" None None None None.

#[export] Instance sourceMaps : SourceMaps := {|
  toSourceMapObject d := match d with SMObject o => o | _ => emptyObject end;
  toSourceMapObject_object _ := eq_refl;
  toSourceMapBuilder _ := 0%nat;
  getSource _ l c := mkSourceLocation None None l c;
  emitSourceMapUrl c url singleLine :=
    if Js.truthy url then
      if singleLine then c +:+ "//# sourceMappingURL=" +:+ Js.to_string url
      else c +:+ "/*# sourceMappingURL=" +:+ Js.to_string url +:+ " */"
    else c;
  JSON_stringify _ := "{}"%string
|}.

Definition ENOENT : Err.t := Err.mk "ENOENT, no such file" (Some "ENOENT"%string) None.

#[export] Instance fileSystem : FileSystem := {|
  readFileSync p :=
    if String.eqb p "/a.txt" then inr (String.list_byte_of_string "hello") else inl ENOENT;
  existsFileSync p := String.eqb p "/a.txt"
|}.

#[export] Instance logging : Logging := {|
  LogEntry_new d :=
    match d with
    | LogMessage s =>
      LogEntry.mk (Some s) None None None None None None None None None None
    | LogError e =>
      LogEntry.mk (Some (Err.message e)) None None None None None None None (Some e) None None
    | LogFields e => e
    end
|}.

(** A module system with one installed package. *)
#[export] Instance node : Plugin.Node := {|
  Plugin.require_resolve request :=
    if String.eqb request "node_modules/digo-sass"
    then Some "/node_modules/digo-sass/index.js"%string
    else None;
  Plugin.require path := inr (Js.JObj 1)
|}.

(** The world a fresh process starts in. *)
Definition world : World := mkWorld Global.initial 0 [].

(** A world whose validation hook rejects every file. *)
Definition rejecting : World :=
  mkWorld (Global.with_onValidateFile (Some (fun _ _ => false)) Global.initial) 0 [].

(** The source file [/a.txt], not loaded yet, and the same file with its
    text rewritten. *)
Definition source : File.t := File_new (Some "/a.txt"%string) None None.
Definition edited : File.t := set_content "hi" source.

(** A generated file whose text was written, and one that nothing was
    written to. *)
Definition blank : File.t := File_new None None None.
Definition written : File.t := set_content "x" blank.

(** A source file that is not on the disk, not loaded. *)
Definition missing : File.t := File_new (Some "/gone.txt"%string) None None.

(** The same file carrying a source map: [save] onto its own source is
    denied, and reporting the denial needs the content of the file. *)
Definition stale : File.t :=
  File.with_sourceMapData (Some (SMObject emptyObject)) missing.

(** A modified file [a.js] with a source map that is to be inlined. *)
Definition inlined : File.t :=
  set_sourceMapInline (Js.JBool true) (mapped emptyObject "x").

(** A synchronous processor and a whole-list processor that calls [done]
    during each invocation; neither changes the file. *)
Definition touch : Processor.t :=
  Processor.mk "touch" 2 (fun _ => mret (mkOutcome 0 false None [])).
Definition upper : Processor.t :=
  Processor.mk "upper" 4 (fun _ => mret (mkOutcome 1 false None [])).

(** What a processor throws. *)
Definition boom : Err.t := Err.mk "boom" None None.

(** A whole-list processor that throws on the file it is given at [1] and
    calls [done] during the invocation on every other file, and the same
    body handed [done] in per-file mode. *)
Definition picky : Processor.t := Processor.mk "picky" 4 (throws_on (Nat.eqb 1) boom).
Definition picky_each : Processor.t := Processor.mk "picky" 3 (throws_on (Nat.eqb 1) boom).

(** Three generated files with text. *)
Definition b : File.t := File_new None (Some "b"%string) (Some (inl "b"%string)).
Definition a : File.t := File_new None (Some "a"%string) (Some (inl "a"%string)).
Definition c : File.t := File_new None (Some "c"%string) (Some (inl "c"%string)).
Definition bac : gmap FileRef File.t := <[0%nat := b]> (<[1%nat := a]> (<[2%nat := c]> ∅)).

End Demo.


(** ** What the properties of the content getters speak of *)

Section SourceReadModel.
Context `{Encode} `{Paths} `{SourceMaps} `{FileSystem} `{Logging}.

(** Whether reading the source of [f] goes to the disk. *)
Definition reads_disk (f : File.t) (w : World) : bool :=
  str_truthy (File.srcPath f)
  && negb (WorkingMode.has (Global.workingMode (globals w)) WorkingMode.clean).

(** The world after the synchronous read of the source of [f], in a task
    of its own. *)
Definition after_read (f : File.t) (w : World) : World :=
  mkWorld (globals w) (S (nextTask w))
    (trace w ++ [BeginAsync (nextTask w) "Read: {file}" (toString f);
                 ReadFileSync (File.srcPath f); EndAsync (nextTask w)]).

End SourceReadModel.

(** No source slot is loaded. *)
Definition unloaded (f : File.t) : bool :=
  bool_decide (File._srcBuffer f = None) && bool_decide (File._srcContent f = None).

Section ReadableModel.
Context `{Encode} `{Paths} `{SourceMaps} `{FileSystem} `{Logging}.

(** Whether a read of [buffer], [content] or [data] goes to the disk:
    nothing is in memory and there is a source to read. *)
Definition needs_disk (f : File.t) (w : World) : bool :=
  negb (modified f) && unloaded f && reads_disk f w.

(** The content of [f] can be had: it is in memory, or there is nothing to
    read, or the source can be read. *)
Definition content_ready (f : File.t) (w : World) : bool :=
  negb (needs_disk f w) || negb (threw (readFileSync (File.srcPath f))).

(** The diagnostic built from [d] has no position: the [FileLogEntry]
    constructor looks nothing up in a source map and reads no other
    file. *)
Definition positionless (d : LogData) : bool :=
  bool_decide (LogEntry.startLine (LogEntry_new d) = None).

End ReadableModel.

(** Reading through the getter [m] in the state [s] and then again: a read
    that returns has cached its value, the second read yields it and
    changes nothing; a read that throws has cached nothing, the file is as
    before, and the second read goes to the disk again and throws the
    same. *)
Definition read_twice `{Encode} `{Paths} {A : Type} (m : Meth (Err.t + A)) (s : File.t * World) : Prop :=
  match fst (m s) with
  | inr a => m (snd (m s)) = (inr a, snd (m s))
  | inl e =>
    fst (snd (m s)) = fst s
    /\ m (snd (m s)) = (inl e, (fst s, after_read (fst s) (snd (snd (m s)))))
  end.

(** The accessors whose getter calls a global hook with the file. *)
Definition hooked (y : Flag) : bool :=
  match y with FSourceMapPath | FSourceMapUrl => true | _ => false end.

(** ** Processors that throw *)

(** The processor with the body [throws_on bad e]: in whole-list mode
    (arity 4), and in per-file mode handed [done] (arity 3). *)
Definition throwing_whole (name : string) (bad : FileRef -> bool) (e : Err.t) : Processor.t :=
  Processor.mk name 4 (throws_on bad e).
Definition throwing_each (name : string) (bad : FileRef -> bool) (e : Err.t) : Processor.t :=
  Processor.mk name 3 (throws_on bad e).

(** The files [fs] are in memory in the heap [h], and the diagnostic of the
    [catch] block for each file that [bad] picks has no position. *)
Definition in_memory `{Logging} (p : Processor.t) (bad : FileRef -> bool) (e : Err.t)
  (h : gmap FileRef File.t) (fs : list FileRef) : bool :=
  forallb (fun r => modified (h !!! r)
                    && implb (bad r) (positionless (caught_diagnostic p (h !!! r) e))) fs.

(** What the log of a stage gets for one file from a processor with the
    body [throws_on bad e]: in whole-list mode, where a file whose processor
    threw is not completed, and in per-file mode with [done] handed over. *)
Definition seen_whole (bad : FileRef -> bool) (e : Err.t) (r : FileRef) : list Observation :=
  if bad r then [Invoked r; Threw r e] else [Invoked r; Completed r].
Definition seen_each (bad : FileRef -> bool) (e : Err.t) (r : FileRef) : list Observation :=
  if bad r then [Invoked r; Threw r e; Completed r] else [Invoked r; Completed r].

(** The net after the files [out] were added to the result list and [o] to
    the log. *)
Definition advanced (out : list FileRef) (o : list Observation) (n : Net) : Net :=
  mkNet (src n)
    (FileList.mk (FileList.files (result n) ++ out) (FileList.ended (result n))
       (FileList.listeners (result n)))
    (pending n) (thenQueued n) (loads n) (waits n) (seen n ++ o).

(** From [h] to [h'] every file keeps its source path, and stays in memory
    if it was. *)
Definition still (h h' : gmap FileRef File.t) : Prop :=
  forall r,
    (modified (h !!! r) = true -> modified (h' !!! r) = true)
    /\ File.srcPath (h' !!! r) = File.srcPath (h !!! r).

(** Nobody listens to the [data] events of the list. *)
Definition unheard (l : FileList.t) : Prop :=
  filter (fun q => fst q = "data"%string) (FileList.listeners l) = [].

(** ** What a method adds to the trace *)

(** From [s] to [s'] the trace grew by actions that all satisfy [P]. *)
Definition grows (P : Action -> bool) (s s' : File.t * World) : Prop :=
  exists l, trace (snd s') = trace (snd s) ++ l /\ forallb P l = true.

(** The actions of a synchronous read: its task and the read itself. *)
Definition reading (a : Action) : bool :=
  match a with
  | BeginAsync _ _ _ | EndAsync _ | ReadFileSync _ => true
  | _ => false
  end.

(** [onLogFile] is absent or never answers [false]; [onLogFile] always
    answers [false]. *)
Definition log_hook_passes (g : Global.t) : Prop :=
  match Global.onLogFile g with
  | Some h => forall e l f, Js.is_false (h e l f) = false
  | None => True
  end.

Definition log_hook_drops (g : Global.t) : Prop :=
  match Global.onLogFile g with
  | Some h => forall e l f, Js.is_false (h e l f) = true
  | None => False
  end.

Section ReportModel.
Context `{Encode} `{Paths} `{SourceMaps} `{FileSystem} `{Logging}.

(** The state after the diagnostics [ds] were reported through
    [file.error], one after the other, whether a call returned or threw. *)
Definition report (ds : list LogData) (s : File.t * World) : File.t * World :=
  fold_left (fun s d => snd (error d s)) ds s.

(** How many of these calls returned. *)
Fixpoint reported (ds : list LogData) (s : File.t * World) : nat :=
  match ds with
  | [] => 0
  | d :: ds' =>
    (if threw (fst (error d s)) then 0 else 1) + reported ds' (snd (error d s))
  end%nat.

End ReportModel.

(** A world whose [onLogFile] hook rejects every entry. *)
Definition muted : World :=
  mkWorld (Global.mk WorkingMode.build "utf-8" false true None None None None false true ""
             false true true None 0 None false false (Some (fun _ _ _ => Js.JBool false)))
          0 [].

(** The source-map data a diagnostic built for [f] from the base entry [e]
    carries, and whether its position is rewritten through it:
    [this.sourceMap !== false && this.startLine != undefined &&
    this.sourceMapData]. *)
Definition entry_data (e : LogEntry.t) (f : File.t) : option SourceMapData :=
  match LogEntry.sourceMapData e with
  | Some d => Some d
  | None => File.sourceMapData f
  end.

Definition remapped (e : LogEntry.t) (f : File.t) : bool :=
  bool_decide (is_Some (LogEntry.startLine e))
  && negb (bool_decide (LogEntry.sourceMap e = Some false))
  && data_truthy (entry_data e f).

(** ** The requests of [save] and [delete], and their completions *)

(** The requests whose completion [save] waits for. *)
Definition requested (a : Action) : bool :=
  match a with
  | WriteFile _ _ | CopyFile _ _ | DeleteFile _ => true
  | _ => false
  end.

Definition requests (t : list Action) : Z := Z.of_nat (length (List.filter requested t)).

(** What [save] may ask of the file system in working mode [mode]: deletions
    when cleaning, nothing when previewing, a write or a copy when
    building; it never removes a directory nor touches the cache itself. *)
Definition allowed (mode : Z) (a : Action) : bool :=
  match a with
  | DeleteFile _ => WorkingMode.has mode WorkingMode.clean
  | WriteFile _ _ | CopyFile _ _ =>
    negb (WorkingMode.has mode WorkingMode.clean)
    && negb (WorkingMode.has mode WorkingMode.preview)
  | DeleteParentDirIfEmpty _ | UpdateCache _ _ => false
  | _ => true
  end.

(** The completions [save] waits for: of a [writeFile] or [copyFile], of
    a [deleteFile], and of the [deleteParentDirIfEmpty] that a successful
    [deleteFile] is followed by. *)
Inductive Completion : Type :=
| Written (out : string) (err : option Err.t)
| Deleted (out : string) (err : option Err.t)
| DirRemoved (err : option Err.t).

Definition completion_error (c : Completion) : option Err.t :=
  match c with Written _ e | Deleted _ e | DirRemoved e => e end.

(** Whether a completion reaches [done]: a successful [deleteFile] goes on
    to remove the directory first. *)
Definition settles (c : Completion) : bool :=
  match c with Deleted _ None => false | _ => true end.

Section SaveCompletionModel.
Context `{Encode} `{Paths} `{SourceMaps} `{FileSystem} `{Logging}.

(** The callback that a completion runs, on the closure [p] of the save. *)
Definition complete (p : PendingSave) (c : Completion) : Meth (Err.t + SaveResult) :=
  match c with
  | Written out err => save_write_cb p out err
  | Deleted out err => save_deleteFile_cb p out err
  | DirRemoved err => save_done p err
  end.

(** The completions [cs] arriving one after the other; none is expected
    once the callback was called.  A completion whose callback lets an
    exception escape leaves the closure as it was. *)
Fixpoint completions (r : SaveResult) (cs : list Completion) : Meth SaveResult :=
  match cs with
  | [] => mret r
  | c :: cs' =>
    match r with
    | SavePending p =>
      r' ← complete p c;
      completions (match r' with inr r'' => r'' | inl _ => r end) cs'
    | SaveCalled _ _ => mret r
    end
  end.

(** The errors that the completions [cs] bring. *)
Definition completion_errors (cs : list Completion) : list Err.t :=
  omap completion_error cs.

End SaveCompletionModel.

(** The error [delete] calls back with, and whether it asks for the parent
    directory to be removed, [e1] being the outcome of [deleteFile] and [e2]
    that of [deleteParentDirIfEmpty]. *)
Definition delete_error (deleteDir : option bool) (e1 e2 : option Err.t) : option Err.t :=
  match e1 with
  | Some e => Some e
  | None => if bool_decide (deleteDir = Some false) then None else e2
  end.

Definition removes_dir (deleteDir : option bool) (e1 : option Err.t) : bool :=
  match e1 with
  | Some _ => false
  | None => negb (bool_decide (deleteDir = Some false))
  end.

Section DeleteModel.
Context `{Encode} `{Paths} `{SourceMaps} `{FileSystem} `{Logging}.

(** [delete(deleteDir, callback)] with the completions of its requests. *)
Definition delete_through (deleteDir : option bool) (e1 e2 : option Err.t)
  : Meth (Err.t + DeleteResult) :=
  r ← delete_;
  match r with
  | DeleteCalled _ => ok r
  | DeletePending taskId =>
    r ←? delete_deleteFile_cb deleteDir taskId e1;
    match r with
    | DeleteCalled _ => ok r
    | DeletePending taskId => delete_done taskId e2
    end
  end.

End DeleteModel.

(** ** Steps of the plugin loader, relative names *)

(** The steps between the begin and the end of a load. *)
Definition is_lookup (x : Plugin.Step) : bool :=
  match x with Plugin.Resolve _ | Plugin.Require _ => true | _ => false end.

(** [name] starts with one or more word characters followed by a colon. *)
Definition word_prefix (name : string) : Prop :=
  exists w rest,
    name = w +:+ String ":"%char rest /\ w <> ""%string
    /\ forallb Plugin.is_word (String.list_ascii_of_string w) = true.

(** ** Calls made while a list is operated on *)

(** The calls that a sequence of operations makes, in order. *)
Fixpoint list_calls (ops : list FileList.Op) (l : FileList.t) : list FileList.Call :=
  match ops with
  | [] => []
  | o :: ops' => snd (FileList.run_op o l) ++ list_calls ops' (fst (FileList.run_op o l))
  end.

(** The files that the listener [h] was called with. *)
Definition data_calls (h : FileList.Listener) (cs : list FileList.Call) : list FileRef :=
  omap (fun c => if decide (FileList.listener c = h)
                 then match FileList.arg c with
                      | FileList.ArgFile r => Some r
                      | FileList.ArgFiles _ => None
                      end
                 else None) cs.

(** How often [h] is registered for [data], and whether an operation
    registers it. *)
Definition registered (h : FileList.Listener) (l : FileList.t) : nat :=
  length (filter (fun p => p = ("data"%string, h)) (FileList.listeners l)).

Definition subscribes (h : FileList.Listener) (o : FileList.Op) : bool :=
  match o with
  | FileList.OpOn event h' => String.eqb event "data" && bool_decide (h' = h)
  | _ => false
  end.

(** [get(path)]: the first file of the list whose path equals the resolved
    [path]; the files are the objects of the heap [h]. *)
Definition FileList_get `{Paths} (h : gmap FileRef File.t) (path : string) (l : FileList.t)
  : option FileRef :=
  List.find (fun r => pathEquals (File.path (h !!! r)) (resolvePath1 (Some path)))
            (FileList.files l).

(** ** [FileList.src] and [pipe] to another list

    Both forward the [data] events of the upstream list to a second list
    at once, and its [end] event from the continuation given to [then].
    The stage is the upstream list and the second list; the counter of
    the net is not used. *)

Section Relay.
(** Whether a file is forwarded. *)
Variable keep : File.t -> bool.

Definition relay_handle (c : FileList.Call) (st : Stage) : Stage :=
  match FileList.listener c, FileList.arg c with
  | FileList.PipeData, FileList.ArgFile r =>
    if keep (heap st !!! r) then on_net (result_add r) st else st
  | FileList.PipeEnd, _ => on_net result_end st
  | _, _ => st
  end.

Definition relay_dispatch (calls : list FileList.Call) (st : Stage) : Stage :=
  fold_left (fun st c => relay_handle c st) calls st.

(** The events of the upstream producer and of the barrier; a stage of
    this kind has no request in flight. *)
Definition relay_step (st : Stage) (ev : Event) : Stage :=
  match ev with
  | SrcAdd r =>
    let '(l, calls) := FileList.add r (src (net st)) in
    relay_dispatch calls (on_net (set_src l) st)
  | SrcEnd =>
    let '(l, calls) := FileList.end_ (src (net st)) in
    relay_dispatch calls (on_net (set_src l) st)
  | ThenRun =>
    if thenQueued (net st) then
      let st := on_net (set_thenQueued false) st in
      let '(l, calls) := FileList.on "end" FileList.BarrierDone (result (net st)) in
      let st := on_net (fun n => observe (Called <$> calls) (set_result l n)) st in
      let '(l, calls) := FileList.on "end" FileList.PipeEnd (src (net st)) in
      relay_dispatch calls (on_net (set_src l) st)
    else st
  | _ => st
  end.

Definition relay_run (evs : list Event) (st : Stage) : Stage := fold_left relay_step evs st.

(** Up to the [return]: the [data] listener is registered at once, with
    replay. *)
Definition relay (upstream down : FileList.t) (h : gmap FileRef File.t) (w : World) : Stage :=
  let st := mkStage h w (mkNet upstream down 0 true [] [] []) in
  let '(l, calls) := FileList.on "data" FileList.PipeData upstream in
  relay_dispatch calls (on_net (set_src l) st).

End Relay.

(** [src(...patterns)], with [test] for [new Matcher(patterns).test]:
    [file => { if (matcher.test(file.path)) { result.add(file); } }]. *)
Definition FileList_src (test : string -> bool) (upstream : FileList.t)
  (h : gmap FileRef File.t) (w : World) : Stage :=
  relay (fun f => test (File.path f)) upstream FileList.empty h w.

(** [pipe(processor)] with [processor] a list, distinct from the receiver:
    [file => processor.add(file)]; the list returned is [processor]. *)
Definition pipe_list (processor upstream : FileList.t) (h : gmap FileRef File.t) (w : World)
  : Stage :=
  relay (fun _ => true) upstream processor h w.

(** The listeners of the upstream list of a stage that listens to [data]
    from the start. *)
Definition wired_each (others : list (string * nat)) (n : Net) : Prop :=
  FileList.listeners (src n)
  = ((fun x => (fst x, FileList.External (snd x))) <$> others)
    ++ [("data"%string, FileList.PipeData)]
    ++ (if thenQueued n then [] else [("end"%string, FileList.PipeEnd)]).

(** The calls of the barrier's [done], each with the files it was given. *)
Definition barrier_calls (o : list Observation) : list (list FileRef) :=
  omap (fun x => match x with
                 | Called (FileList.mkCall FileList.BarrierDone (FileList.ArgFiles fs)) => Some fs
                 | _ => None
                 end) o.

(** The barrier was released once if the result list has ended, with the
    files the list holds, and not at all otherwise. *)
Definition released (n : Net) : Prop :=
  barrier_calls (seen n)
  = if FileList.ended (result n) then [FileList.files (result n)] else [].

(** The files of [fs] that a relay with [keep] forwards. *)
Definition kept (keep : File.t -> bool) (h : gmap FileRef File.t) (fs : list FileRef)
  : list FileRef :=
  List.filter (fun r => keep (h !!! r)) fs.

Section RelayInvariant.
Variable keep : File.t -> bool.
Variable others : list (string * nat).
Variable h0 : gmap FileRef File.t.
Variable down : FileList.t.

(** What holds of a relay at every moment. *)
Definition inv_relay (st : Stage) : Prop :=
  heap st = h0
  /\ wired_each others (net st)
  /\ FileList.files (result (net st))
     = FileList.files down ++ kept keep h0 (FileList.files (src (net st)))
  /\ FileList.ended (result (net st))
     = FileList.ended down || (negb (thenQueued (net st)) && FileList.ended (src (net st))).

End RelayInvariant.

(** The files the upstream producer adds, in order, and whether it ends
    the list or the barrier runs the continuation. *)
Definition arrivals (evs : list Event) : list FileRef :=
  omap (fun ev => match ev with SrcAdd r => Some r | _ => None end) evs.

Definition src_ends (evs : list Event) : bool :=
  existsb (fun ev => match ev with SrcEnd => true | _ => false end) evs.

Definition continued (evs : list Event) : bool :=
  existsb (fun ev => match ev with ThenRun => true | _ => false end) evs.

(** The result list of a stage has the barrier's [done] as its only
    listener, from the moment the continuation given to [then] ran. *)
Definition result_wired (n : Net) : Prop :=
  FileList.listeners (result n)
  = if thenQueued n then [] else [("end"%string, FileList.BarrierDone)].

(** The barrier of a relay is as [released] says and the result list is
    wired to it. *)
Definition inv_barrier (st : Stage) : Prop :=
  released (net st) /\ result_wired (net st).

(** ** [FileList.dest] and [FileList.delete]

    Each saves, or deletes, every file of the upstream list and passes it
    on to the result list from the callback of the operation; [pending]
    counts as in the per-file modes of [pipe].  Besides the stage, a sink
    holds the operations in flight: the saves with the state of their
    closure, the deletions with their task; and the files it lost: those
    whose [save] threw in the [data] listener, after [pending++] and with no
    request issued, so that no callback will ever pass them on. *)

Record Sink : Type := mkSink {
  stage : Stage;
  saving : list (FileRef * PendingSave);
  deleting : list (FileRef * nat);
  lost : list FileRef
}.

(** [dest(dir)], with [dir] applied to the file (a constant function for a
    string), or [delete(deleteDir)]. *)
Inductive SinkKind : Type :=
| Dest (dir : File.t -> option string)
| Delete (deleteDir : option bool).

(** The events of a sink: those of the upstream producer and the barrier,
    a completion for the save in flight at [k], the completion of the
    [deleteFile] or of the [deleteParentDirIfEmpty] of the deletion in
    flight at [k]. *)
Inductive SinkEvent : Type :=
| SinkAdd (r : FileRef)
| SinkEnd
| SinkThen
| SaveCompletes (k : nat) (c : Completion)
| DeleteCompletes (k : nat) (err : option Err.t)
| DirRemoves (k : nat) (err : option Err.t).

Section Sinks.
Context `{Encode} `{Paths} `{SourceMaps} `{FileSystem} `{Logging}.
Variable kind : SinkKind.

Definition on_stage (u : Stage -> Stage) (s : Sink) : Sink :=
  mkSink (u (stage s)) (saving s) (deleting s) (lost s).

(** The callback of [save] and of [delete]:
    [(error, file) => { result.add(file); if (--pending > 0) return;
    result.end(); }] *)
Definition passed_on (r : FileRef) (st : Stage) : Stage :=
  on_net (fun n => settle (result_add r n)) st.

(** An exception left a handler of the sink for its caller. *)
Definition sink_escaped (e : Err.t) (st : Stage) : Stage :=
  on_net (observe [Escaped e]) st.

(** The [data] listener: [file => { pending++; file.save(..., callback) }],
    or [file.delete(deleteDir, callback)]; what [save] throws escapes the
    listener. *)
Definition sink_data (r : FileRef) (s : Sink) : (Err.t + unit) * Sink :=
  let st := on_net (fun n => set_pending (pending n + 1) n) (stage s) in
  match kind with
  | Dest dir =>
    match with_file r (save (dir (heap st !!! r))) st with
    | (inr (SaveCalled _ _), st) =>
      (inr tt, mkSink (passed_on r st) (saving s) (deleting s) (lost s))
    | (inr (SavePending p), st) =>
      (inr tt, mkSink st (saving s ++ [(r, p)]) (deleting s) (lost s))
    | (inl e, st) =>
      (inl e, mkSink st (saving s) (deleting s) (lost s ++ [r]))
    end
  | Delete _ =>
    match with_file r delete_ st with
    | (DeleteCalled _, st) =>
      (inr tt, mkSink (passed_on r st) (saving s) (deleting s) (lost s))
    | (DeletePending taskId, st) =>
      (inr tt, mkSink st (saving s) (deleting s ++ [(r, taskId)]) (lost s))
    end
  end.

Definition sink_handle (c : FileList.Call) (s : Sink) : (Err.t + unit) * Sink :=
  match FileList.listener c, FileList.arg c with
  | FileList.PipeData, FileList.ArgFile r => sink_data r s
  | FileList.PipeEnd, _ => (inr tt, on_stage (on_net settle) s)
  | _, _ => (inr tt, s)
  end.

(** The calls of one emit, or of one replay, in order; an exception that
    escapes a listener ends it and goes to the log. *)
Fixpoint sink_dispatch (calls : list FileList.Call) (s : Sink) : Sink :=
  match calls with
  | [] => s
  | c :: calls' =>
    match sink_handle c s with
    | (inr _, s') => sink_dispatch calls' s'
    | (inl e, s') => on_stage (sink_escaped e) s'
    end
  end.

(** The end of a deletion: [delete_done] has called the callback, or an
    exception escaped it before the callback, and the deletion stays as it
    was. *)
Definition deleted (k : nat) (r : FileRef) (res : (Err.t + DeleteResult) * Stage) (s : Sink)
  : Sink :=
  match res with
  | (inr (DeleteCalled _), st) =>
    mkSink (passed_on r st) (saving s) (delete k (deleting s)) (lost s)
  | (inr (DeletePending _), st) => mkSink st (saving s) (deleting s) (lost s)
  | (inl e, st) => mkSink (sink_escaped e st) (saving s) (deleting s) (lost s)
  end.

Definition sink_step (s : Sink) (ev : SinkEvent) : Sink :=
  match ev with
  | SinkAdd r =>
    let '(l, calls) := FileList.add r (src (net (stage s))) in
    sink_dispatch calls (on_stage (on_net (set_src l)) s)
  | SinkEnd =>
    let '(l, calls) := FileList.end_ (src (net (stage s))) in
    sink_dispatch calls (on_stage (on_net (set_src l)) s)
  | SinkThen =>
    if thenQueued (net (stage s)) then
      let s := on_stage (on_net (set_thenQueued false)) s in
      let '(l, calls) := FileList.on "end" FileList.BarrierDone (result (net (stage s))) in
      let s := on_stage (on_net (fun n => observe (Called <$> calls) (set_result l n))) s in
      let '(l, calls) := FileList.on "end" FileList.PipeEnd (src (net (stage s))) in
      sink_dispatch calls (on_stage (on_net (set_src l)) s)
    else s
  | SaveCompletes k c =>
    match saving s !! k with
    | Some (r, p) =>
      match with_file r (complete p c) (stage s) with
      | (inr (SaveCalled _ _), st) =>
        mkSink (passed_on r st) (delete k (saving s)) (deleting s) (lost s)
      | (inr (SavePending p'), st) =>
        mkSink st (<[k := (r, p')]> (saving s)) (deleting s) (lost s)
      | (inl e, st) => mkSink (sink_escaped e st) (saving s) (deleting s) (lost s)
      end
    | None => s
    end
  | DeleteCompletes k err =>
    match kind, deleting s !! k with
    | Delete deleteDir, Some (r, taskId) =>
      deleted k r (with_file r (delete_deleteFile_cb deleteDir taskId err) (stage s)) s
    | _, _ => s
    end
  | DirRemoves k err =>
    match deleting s !! k with
    | Some (r, taskId) => deleted k r (with_file r (delete_done taskId err) (stage s)) s
    | None => s
    end
  end.

Definition sink_run (evs : list SinkEvent) (s : Sink) : Sink := fold_left sink_step evs s.

(** Up to the [return result].  When the replay of [on("data", ...)] lets
    an exception escape, [dest] throws it before [then(...)] is reached;
    the continuation stays queued here, and the runs in which it never
    fires are those of the source. *)
Definition sink (upstream : FileList.t) (h : gmap FileRef File.t) (w : World) : Sink :=
  let s := mkSink (mkStage h w (mkNet upstream FileList.empty 1 true [] [] [])) [] [] [] in
  let '(l, calls) := FileList.on "data" FileList.PipeData upstream in
  sink_dispatch calls (on_stage (on_net (set_src l)) s).

End Sinks.

(** The files the producer adds during the events. *)
Definition sink_added (evs : list SinkEvent) : list FileRef :=
  omap (fun ev => match ev with SinkAdd r => Some r | _ => None end) evs.

(** The producer of the upstream list of a sink adds no file after [end]
    and ends the list once. *)
Fixpoint sink_protocol (e : bool) (evs : list SinkEvent) : bool :=
  match evs with
  | [] => true
  | SinkAdd _ :: evs => negb e && sink_protocol e evs
  | SinkEnd :: evs => negb e && sink_protocol true evs
  | _ :: evs => sink_protocol e evs
  end.

(** The files of the operations in flight. *)
Definition in_flight (s : Sink) : list FileRef :=
  (fst <$> saving s) ++ (fst <$> deleting s).

(** The counting of a stage that runs one operation per file, with the
    barrier: [hand] are the files whose operation is not over, [k] their
    share of [pending]. *)
Definition sound (hand : list FileRef) (k : Z) (n : Net) : Prop :=
  counted hand k n /\ released n /\ result_wired n
  /\ load_failed (seen n) = [] /\ loads n = [] /\ waits n = [].

(** The counting of a sink that lost a file: [pending] stays above what
    the [end] event and the [k] operations in flight account for, and the
    result list has not ended. *)
Definition loose (k : Z) (n : Net) : Prop :=
  base n + k < pending n /\ FileList.ended (result n) = false.

(** The counting of a sink, by whether it lost a file. *)
Definition tracked (lossy : bool) (hand : list FileRef) (k : Z) (n : Net) : Prop :=
  if lossy then loose k n else sound hand k n.

Definition lossy (s : Sink) : bool :=
  match lost s with [] => false | _ :: _ => true end.

(** What holds of a sink at every moment: the upstream list is wired to
    it, and the counting above, for the operations in flight. *)
Definition inv_sink (others : list (string * nat)) (s : Sink) : Prop :=
  wired_each others (net (stage s))
  /\ tracked (lossy s) (in_flight s) (Z.of_nat (length (in_flight s))) (net (stage s)).

(** ** [FileList.concat]

    The result list of [concat] listens to the receiver and to every list
    among [others]; the same list may be given more than once, and may be
    the receiver.  The lists are therefore kept in a store and named by
    their index; a file among [others] is named by its reference. *)

Record Join : Type := mkJoin {
  lists : list FileList.t;
  joined : FileList.t;
  jpending : Z;
  jseen : list Observation
}.

(** The events of the producers of the lists of the store. *)
Inductive JoinEvent : Type :=
| JoinAdd (i : nat) (r : FileRef)
| JoinEnd (i : nat).

(** [result.add(file)] and [result.end()]. *)
Definition join_add (r : FileRef) (j : Join) : Join :=
  let '(l, calls) := FileList.add r (joined j) in
  mkJoin (lists j) l (jpending j) (jseen j ++ (Called <$> calls)).

Definition join_end (j : Join) : Join :=
  let '(l, calls) := FileList.end_ (joined j) in
  mkJoin (lists j) l (jpending j) (jseen j ++ (Called <$> calls)).

(** [() => { if (--pending > 0) return; result.end(); }] *)
Definition join_settle (j : Join) : Join :=
  let j' := mkJoin (lists j) (joined j) (jpending j - 1) (jseen j) in
  if jpending j' >? 0 then j' else join_end j'.

(** The listeners [addList] registers: [file => result.add(file)] for
    [data] and the counting listener for [end]. *)
Definition join_handle (c : FileList.Call) (j : Join) : Join :=
  match FileList.listener c, FileList.arg c with
  | FileList.PipeData, FileList.ArgFile r => join_add r j
  | FileList.PipeEnd, _ => join_settle j
  | _, _ => j
  end.

Definition join_dispatch (calls : list FileList.Call) (j : Join) : Join :=
  fold_left (fun j c => join_handle c j) calls j.

(** An operation on the list at [i], with the calls it makes. *)
Definition on_list (i : nat) (op : FileList.t -> FileList.t * list FileList.Call) (j : Join)
  : Join :=
  match lists j !! i with
  | Some l =>
    let '(l', calls) := op l in
    join_dispatch calls (mkJoin (<[i := l']> (lists j)) (joined j) (jpending j) (jseen j))
  | None => j
  end.

(** [function addList(list) { pending++; list.on("data", ...);
    list.on("end", ...); }] *)
Definition addList (i : nat) (j : Join) : Join :=
  let j := mkJoin (lists j) (joined j) (jpending j + 1) (jseen j) in
  let j := on_list i (FileList.on "data" FileList.PipeData) j in
  on_list i (FileList.on "end" FileList.PipeEnd) j.

(** [if (other instanceof File) { result.add(other); } else
    { addList(other); }] *)
Definition join_item (x : FileRef + nat) (j : Join) : Join :=
  match x with
  | inl r => join_add r j
  | inr i => addList i j
  end.

(** [concat(...others)] on the list at [self], once the continuation given
    to [then] has run on the store [ls]; until then the result is empty and
    listens to nothing. *)
Definition FileList_concat (self : nat) (others : list (FileRef + nat)) (ls : list FileList.t)
  : Join :=
  let '(l, calls) := FileList.on "end" FileList.BarrierDone FileList.empty in
  let j := mkJoin ls l 1 (Called <$> calls) in
  let j := fold_left (fun j x => join_item x j) (inr self :: others) j in
  let j := mkJoin (lists j) (joined j) (jpending j - 1) (jseen j) in
  if jpending j <=? 0 then join_end j else j.

Definition join_step (j : Join) (ev : JoinEvent) : Join :=
  match ev with
  | JoinAdd i r => on_list i (FileList.add r) j
  | JoinEnd i => on_list i FileList.end_ j
  end.

Definition join_run (evs : list JoinEvent) (j : Join) : Join := fold_left join_step evs j.

(** The producers add to lists of the store that have not ended, and end
    such lists. *)
Fixpoint join_protocol (flags : list bool) (evs : list JoinEvent) : bool :=
  match evs with
  | [] => true
  | JoinAdd i _ :: evs =>
    match flags !! i with
    | Some false => join_protocol flags evs
    | _ => false
    end
  | JoinEnd i :: evs =>
    match flags !! i with
    | Some false => join_protocol (<[i := true]> flags) evs
    | _ => false
    end
  end.

(** The lists [concat] listens to, once for each time they are given. *)
Definition regs_of (xs : list (FileRef + nat)) : list nat :=
  omap (fun x => match x with inr i => Some i | inl _ => None end) xs.

(** How often the list at [i] is listened to. *)
Definition taps (i : nat) (rs : list nat) : nat := length (List.filter (Nat.eqb i) rs).

(** What an argument of [concat] contributes when the continuation runs. *)
Definition item_files (ls : list FileList.t) (x : FileRef + nat) : list FileRef :=
  match x with
  | inl r => [r]
  | inr i => match ls !! i with Some l => FileList.files l | None => [] end
  end.

(** What the additions of [evs] contribute. *)
Definition delivered (rs : list nat) (evs : list JoinEvent) : list FileRef :=
  flat_map (fun ev => match ev with
                      | JoinAdd i r => replicate (taps i rs) r
                      | JoinEnd _ => []
                      end) evs.

(** Whether the list at [i] has not ended, and how many of the lists
    listened to have not. *)
Definition is_open (ls : list FileList.t) (i : nat) : bool :=
  match ls !! i with
  | Some l => negb (FileList.ended l)
  | None => true
  end.

Definition opens (ls : list FileList.t) (rs : list nat) : Z :=
  Z.of_nat (length (List.filter (is_open ls) rs)).

(** The two listeners of one [addList], and a list with [n] of them added. *)
Definition tap : list (string * FileList.Listener) :=
  [("data"%string, FileList.PipeData); ("end"%string, FileList.PipeEnd)].

Definition wired_n (n : nat) (l : FileList.t) : FileList.t :=
  FileList.mk (FileList.files l) (FileList.ended l)
    (FileList.listeners l ++ concat (replicate n tap)).

(** A store of lists that have listeners of other clients only. *)
Definition upstreams (specs : list (list FileRef * bool * list (string * nat)))
  : list FileList.t :=
  (fun s => FileList.upstream (fst (fst s)) (snd (fst s)) (snd s)) <$> specs.

(** What holds of a [concat] at every moment after the continuation. *)
Definition joining (rs : list nat) (j : Join) : Prop :=
  (forall i l, lists j !! i = Some l ->
     exists ext, FileList.listeners l
                 = ((fun x => (fst x, FileList.External (snd x))) <$> ext)
                   ++ concat (replicate (taps i rs) tap))
  /\ jpending j = opens (lists j) rs
  /\ FileList.ended (joined j) = (jpending j =? 0)
  /\ FileList.listeners (joined j) = [("end"%string, FileList.BarrierDone)]
  /\ barrier_calls (jseen j)
     = if FileList.ended (joined j) then [FileList.files (joined j)] else [].

(** What holds while the continuation goes through the arguments of
    [concat], [rs] being the lists met so far. *)
Definition looping (ls : list FileList.t) (rs : list nat) (j : Join) : Prop :=
  (forall i, lists j !! i = wired_n (taps i rs) <$> ls !! i)
  /\ jpending j = 1 + opens ls rs
  /\ FileList.ended (joined j) = false
  /\ FileList.listeners (joined j) = [("end"%string, FileList.BarrierDone)]
  /\ jseen j = [].


(** * Properties *)

(** ** Relational reasoning about methods

    For a preorder [R], [preserves R] goes through [mret] and [mbind], which
    reduces a method to its primitive steps. *)

Section Preserves.
Context {S : Type} (R : S -> S -> Prop) `{!PreOrder R}.

Lemma preserves_ret {A} (a : A) : preserves R (mret a).
Proof. intros s. reflexivity. Qed.

Lemma preserves_bind {A B} (m : State S A) (k : A -> State S B) :
  preserves R m -> (forall a, preserves R (k a)) -> preserves R (m ≫= k).
Proof.
  intros Hm Hk s. unfold mbind, State_bind.
  specialize (Hm s). destruct (m s) as [a s1]. simpl in Hm.
  etransitivity; [exact Hm | apply Hk].
Qed.

Lemma preserves_when (b : bool) (m : State S unit) :
  preserves R m -> preserves R (when b m).
Proof. intros Hm. destruct b; [exact Hm | apply preserves_ret]. Qed.

Lemma preserves_ok {A} (a : A) : preserves R (ok a).
Proof. apply preserves_ret. Qed.

Lemma preserves_throw {A} (e : Err.t) : preserves R (throw (A := A) e).
Proof. apply preserves_ret. Qed.

Lemma preserves_mtry {A B} (m : State S (Err.t + A)) (k : A -> State S (Err.t + B)) :
  preserves R m -> (forall a, preserves R (k a)) -> preserves R (mtry m k).
Proof.
  intros Hm Hk. unfold mtry. apply preserves_bind; [exact Hm | ].
  intros [e | a]; [apply preserves_throw | apply Hk].
Qed.

End Preserves.

(** Splits a method into its steps; the leaves are closed from the hint
    database [pres]. *)
Create HintDb pres discriminated.

Ltac pres_step :=
  lazymatch goal with
  | |- preserves _ (mret _) => apply preserves_ret; typeclasses eauto
  | |- preserves _ (ok _) => apply preserves_ok; typeclasses eauto
  | |- preserves _ (throw _) => apply preserves_throw; typeclasses eauto
  | |- preserves _ (mtry _ _) =>
    apply preserves_mtry; [ try typeclasses eauto .. | intros ? ]
  | |- preserves _ (_ ≫= _) =>
    apply preserves_bind; [ try typeclasses eauto .. | intros ? ]
  | |- preserves _ (when _ _) => apply preserves_when; try typeclasses eauto
  | |- preserves _ (match ?x with _ => _ end) => destruct x eqn:?
  | |- preserves _ (let _ := _ in _) => cbv zeta
  | |- _ => solve [ eauto with pres ]
  end.

Ltac pres := repeat pres_step.

(** ** Content slots, [modified] and [clone] *)

Section ContentProperties.
Context `{Encode} `{Paths} `{SourceMaps} `{FileSystem} `{Logging}.

Lemma dest_kept_refl f : dest_kept f f.
Proof. split; auto. Qed.

Lemma dest_kept_trans f g h : dest_kept f g -> dest_kept g h -> dest_kept f h.
Proof. intros [a b] [c d]; split; auto. Qed.

Lemma dest_kept_modified f f' : dest_kept f f' -> modified f = true -> modified f' = true.
Proof.
  unfold modified; intros [Hb Hc] Hm.
  apply orb_true_iff in Hm as [Hm | Hm]; apply bool_decide_eq_true in Hm;
    apply orb_true_iff; [left | right]; apply bool_decide_eq_true; auto.
Qed.

Lemma modified_set_data d f : modified (set_data d f) = true.
Proof. destruct d; reflexivity. Qed.

Lemma modified_File_new sp p d : modified (File_new sp p (Some d)) = true.
Proof. unfold File_new. apply modified_set_data. Qed.

#[local] Instance keeps_preorder : PreOrder keeps.
Proof.
  split.
  - intros s. apply dest_kept_refl.
  - intros a b c. apply dest_kept_trans.
Qed.

Lemma keeps_same_file {A} (m : Meth A) :
  (forall s, fst (snd (m s)) = fst s) -> preserves keeps m.
Proof. intros E s. unfold keeps. rewrite E. apply dest_kept_refl. Qed.

Lemma keeps_this : preserves keeps this.
Proof. apply keeps_same_file; reflexivity. Qed.
Lemma keeps_global : preserves keeps global.
Proof. apply keeps_same_file; reflexivity. Qed.
Lemma keeps_emit a : preserves keeps (emit a).
Proof. apply keeps_same_file; reflexivity. Qed.
Lemma keeps_set_globals u : preserves keeps (set_globals u).
Proof. apply keeps_same_file; reflexivity. Qed.
Lemma keeps_beginAsync l a : preserves keeps (beginAsync l a).
Proof. apply keeps_same_file; reflexivity. Qed.
Lemma keeps_endAsync i : preserves keeps (endAsync i).
Proof. apply keeps_same_file; reflexivity. Qed.
Lemma keeps_syncRead p : preserves keeps (syncRead p).
Proof. apply keeps_same_file; reflexivity. Qed.
Lemma keeps_on_other {A} f' (m : Meth A) : preserves keeps (on_other f' m).
Proof.
  apply keeps_same_file. intros s. unfold on_other.
  destruct (m (f', snd s)); reflexivity.
Qed.

Lemma keeps_update u : (forall f, dest_kept f (u f)) -> preserves keeps (update u).
Proof. intros Hu s. apply Hu. Qed.

Lemma dest_kept_same u :
  (forall f, File._destBuffer (u f) = File._destBuffer f) ->
  (forall f, File._destContent (u f) = File._destContent f) ->
  forall f, dest_kept f (u f).
Proof. intros Eb Ec f. split; rewrite ?Eb, ?Ec; auto. Qed.

Lemma dest_kept_fill_buffer b f : dest_kept f (File.with_destBuffer (Some b) f).
Proof. split; simpl; eauto. Qed.
Lemma dest_kept_fill_content c f : dest_kept f (File.with_destContent (Some c) f).
Proof. split; simpl; eauto. Qed.

#[local] Hint Resolve keeps_this keeps_global keeps_emit keeps_set_globals
  keeps_beginAsync keeps_endAsync keeps_syncRead keeps_on_other : pres.
#[local] Hint Extern 1 (preserves keeps (update _)) =>
  apply keeps_update;
  first [ apply dest_kept_fill_buffer | apply dest_kept_fill_content
        | apply dest_kept_same; reflexivity ] : pres.

Lemma keeps_read name g : preserves keeps g -> preserves keeps (read name g).
Proof. intros Hg. unfold read. pres. Qed.
#[local] Hint Resolve keeps_read : pres.

Lemma keeps_get_flag x : preserves keeps (get_flag x).
Proof.
  destruct x; cbn [get_flag];
    unfold encoding, sourceMap, sourceMapPath, sourceMapEmit, sourceMapInline,
      sourceMapUrl, sourceMapIncludeFile, sourceMapRoot, sourceMapIncludeSourcesContent,
      sourceMapIncludeNames, overwrite, global_flag;
    apply keeps_read; pres.
Qed.

Lemma keeps_encoding : preserves keeps encoding.
Proof. apply (keeps_get_flag FEncoding). Qed.
Lemma keeps_sourceMapEmit : preserves keeps sourceMapEmit.
Proof. apply (keeps_get_flag FSourceMapEmit). Qed.
Lemma keeps_sourceMapInline : preserves keeps sourceMapInline.
Proof. apply (keeps_get_flag FSourceMapInline). Qed.
Lemma keeps_sourceMapUrl : preserves keeps sourceMapUrl.
Proof. apply (keeps_get_flag FSourceMapUrl). Qed.
Lemma keeps_sourceMapPath : preserves keeps sourceMapPath.
Proof. apply (keeps_get_flag FSourceMapPath). Qed.
Lemma keeps_sourceMapIncludeFile : preserves keeps sourceMapIncludeFile.
Proof. apply (keeps_get_flag FSourceMapIncludeFile). Qed.
Lemma keeps_sourceMapRoot : preserves keeps sourceMapRoot.
Proof. apply (keeps_get_flag FSourceMapRoot). Qed.
Lemma keeps_sourceMapIncludeSourcesContent : preserves keeps sourceMapIncludeSourcesContent.
Proof. apply (keeps_get_flag FSourceMapIncludeSourcesContent). Qed.
Lemma keeps_sourceMapIncludeNames : preserves keeps sourceMapIncludeNames.
Proof. apply (keeps_get_flag FSourceMapIncludeNames). Qed.
Lemma keeps_overwrite : preserves keeps overwrite.
Proof. apply (keeps_get_flag FOverwrite). Qed.
#[local] Hint Resolve keeps_encoding keeps_sourceMapEmit keeps_sourceMapInline
  keeps_sourceMapUrl keeps_sourceMapPath keeps_sourceMapIncludeFile keeps_sourceMapRoot
  keeps_sourceMapIncludeSourcesContent keeps_sourceMapIncludeNames keeps_overwrite : pres.

Lemma keeps_srcBuffer : preserves keeps srcBuffer.
Proof. unfold srcBuffer. pres. Qed.
Lemma keeps_srcContent : preserves keeps srcContent.
Proof. unfold srcContent. pres. Qed.
#[local] Hint Resolve keeps_srcBuffer keeps_srcContent : pres.

Lemma keeps_buffer : preserves keeps buffer.
Proof. unfold buffer. pres. Qed.
Lemma keeps_content : preserves keeps content.
Proof. unfold content. pres. Qed.
#[local] Hint Resolve keeps_buffer keeps_content : pres.

Lemma keeps_data : preserves keeps data.
Proof. unfold data. pres. Qed.
Lemma keeps_sourceMapObject : preserves keeps sourceMapObject.
Proof. unfold sourceMapObject. pres. Qed.
Lemma keeps_sourceMapBuilder : preserves keeps sourceMapBuilder.
Proof. unfold sourceMapBuilder. pres. Qed.
#[local] Hint Resolve keeps_data keeps_sourceMapObject keeps_sourceMapBuilder : pres.
Lemma keeps_sourceMapString : preserves keeps sourceMapString.
Proof. unfold sourceMapString. pres. Qed.
#[local] Hint Resolve keeps_sourceMapString : pres.

Lemma keeps_FileLogEntry_new d : preserves keeps (FileLogEntry_new d).
Proof. unfold FileLogEntry_new. pres. Qed.
#[local] Hint Resolve keeps_FileLogEntry_new : pres.

Lemma keeps_log d level : preserves keeps (log d level).
Proof. unfold log. pres. Qed.
#[local] Hint Resolve keeps_log : pres.

Lemma keeps_error d : preserves keeps (error d).
Proof. apply keeps_log. Qed.
#[local] Hint Resolve keeps_error : pres.

Lemma keeps_load : preserves keeps load.
Proof. unfold load. pres. Qed.
Lemma keeps_load_readFile_cb i r : preserves keeps (load_readFile_cb i r).
Proof. unfold load_readFile_cb. pres. Qed.

Lemma keeps_save_done p e : preserves keeps (save_done p e).
Proof. unfold save_done. pres. Qed.
#[local] Hint Resolve keeps_save_done : pres.
Lemma keeps_save_deleteFile_cb p o e : preserves keeps (save_deleteFile_cb p o e).
Proof. unfold save_deleteFile_cb. pres. Qed.
Lemma keeps_save_write_cb p o e : preserves keeps (save_write_cb p o e).
Proof. unfold save_write_cb. pres. Qed.

Lemma keeps_sourcesContent_loop o srcs i : preserves keeps (sourcesContent_loop o srcs i).
Proof. revert i. induction srcs as [|s rest IH]; intros i; cbn [sourcesContent_loop]; pres. Qed.
#[local] Hint Resolve keeps_sourcesContent_loop : pres.

Lemma keeps_sources_loop sh base done todo :
  preserves keeps (sources_loop sh base done todo).
Proof. revert done. induction todo as [|s rest IH]; intros done; cbn [sources_loop]; pres. Qed.
Lemma keeps_discarded_sourceMapUrl sp smp fsm :
  preserves keeps (discarded_sourceMapUrl sp smp fsm).
Proof. unfold discarded_sourceMapUrl. pres. Qed.
#[local] Hint Resolve keeps_sources_loop keeps_discarded_sourceMapUrl : pres.

Lemma keeps_save_sourceMap sp smp em : preserves keeps (save_sourceMap sp smp em).
Proof. unfold save_sourceMap. pres. Qed.
Lemma keeps_save_content b : preserves keeps (save_content b).
Proof. unfold save_content. pres. Qed.
#[local] Hint Resolve keeps_save_sourceMap keeps_save_content : pres.

Lemma keeps_save dir : preserves keeps (save dir).
Proof. unfold save. pres. Qed.

Lemma keeps_delete_done i e : preserves keeps (delete_done i e).
Proof. unfold delete_done. pres. Qed.
#[local] Hint Resolve keeps_delete_done : pres.
Lemma keeps_delete : preserves keeps delete_.
Proof. unfold delete_. pres. Qed.
Lemma keeps_delete_deleteFile_cb d i e : preserves keeps (delete_deleteFile_cb d i e).
Proof. unfold delete_deleteFile_cb. pres. Qed.

Lemma keeps_clone : preserves keeps clone.
Proof. unfold clone. pres. Qed.

Lemma keeps_run_op op : writes_dest op = false -> preserves keeps (run_op op).
Proof.
  destruct op; cbn [writes_dest run_op]; intros Hw; try discriminate; unfold ignore;
    first
      [ apply preserves_bind;
        [ typeclasses eauto
        | eauto using keeps_get_flag, keeps_load, keeps_load_readFile_cb, keeps_save, keeps_log,
            keeps_save_deleteFile_cb, keeps_save_write_cb, keeps_delete,
            keeps_delete_deleteFile_cb, keeps_clone with pres
        | intros ?; apply preserves_ret; typeclasses eauto ]
      | apply keeps_update; apply dest_kept_same; intros f; destruct x; cbn [set_flag];
        unfold set_encoding, set_sourceMap, set_sourceMapPath, set_sourceMapEmit,
          set_sourceMapInline, set_sourceMapUrl, set_sourceMapIncludeFile,
          set_sourceMapRoot, set_sourceMapIncludeSourcesContent,
          set_sourceMapIncludeNames, set_overwrite, assign, setProperty;
        destruct (File.own f !! _); reflexivity ].
Qed.

Lemma writes_dest_exclusive op f w :
  writes_dest op = true ->
  dest_exclusive (fst (snd (run_op op (f, w)))) = true
  /\ modified (fst (snd (run_op op (f, w)))) = true.
Proof.
  destruct op; cbn [writes_dest]; intros Hw; try discriminate; cbn.
  - split; reflexivity.
  - split; reflexivity.
  - destruct value; split; reflexivity.
Qed.

(** The lazy conversion of [get buffer]: with only [_destContent] set, the
    read fills [_destBuffer] and leaves the text in place. *)
Lemma buffer_fills_destBuffer f w c :
  File._destBuffer f = None -> File._destContent f = Some c ->
  File._destBuffer (fst (snd (buffer (f, w))))
    = Some (stringToBuffer c (fst (encoding (f, w))))
  /\ File._destContent (fst (snd (buffer (f, w)))) = Some c.
Proof.
  intros Hb Hc.
  assert (E : snd (encoding (f, w)) = (f, w)).
  { unfold encoding, read, this, global, mbind, State_bind, mret, State_ret; simpl.
    destruct (File.own f !! "encoding"); reflexivity. }
  unfold buffer, this, update, mbind, State_bind, mret, State_ret; simpl.
  rewrite Hb, Hc.
  destruct (encoding (f, w)) as [enc s] eqn:Eenc; simpl in *; subst s; simpl.
  rewrite Hc. auto.
Qed.

(** The lazy conversion of [get content]. *)
Lemma content_fills_destContent f w b :
  File._destContent f = None -> File._destBuffer f = Some b ->
  File._destContent (fst (snd (content (f, w))))
    = Some (bufferToString b (fst (encoding (f, w))))
  /\ File._destBuffer (fst (snd (content (f, w)))) = Some b.
Proof.
  intros Hc Hb.
  assert (E : snd (encoding (f, w)) = (f, w)).
  { unfold encoding, read, this, global, mbind, State_bind, mret, State_ret; simpl.
    destruct (File.own f !! "encoding"); reflexivity. }
  unfold content, this, update, mbind, State_bind, mret, State_ret; simpl.
  rewrite Hb, Hc.
  destruct (encoding (f, w)) as [enc s] eqn:Eenc; simpl in *; subst s; simpl.
  rewrite Hb. auto.
Qed.


End ContentProperties.

Section ContentExamples.
Import Demo.



End ContentExamples.

(** ** The content getters, case by case *)

Section Getters.
Context `{Encode} `{Paths} `{SourceMaps} `{FileSystem} `{Logging}.

Lemma read_pure name (g : Meth Js.value) s :
  (forall s, snd (g s) = s) -> snd (read name g s) = s.
Proof.
  intros Hg. unfold read, this, mbind, State_bind, mret, State_ret; simpl.
  destruct (File.own (fst s) !! name); [reflexivity | apply Hg].
Qed.

Lemma encoding_pure s : snd (encoding s) = s.
Proof. apply read_pure. intros [f w]; reflexivity. Qed.

Lemma encoding_value s : encoding s = (fst (encoding s), s).
Proof. rewrite <- (encoding_pure s) at 3. destruct (encoding s); reflexivity. Qed.

Lemma encoding_own_only f f' w w' :
  File.own f' = File.own f -> globals w' = globals w ->
  fst (encoding (f', w')) = fst (encoding (f, w)).
Proof.
  intros Ho Hg. unfold encoding, read, this, global, mbind, State_bind, mret, State_ret; simpl.
  rewrite Ho. destruct (File.own f !! "encoding"%string); simpl; congruence.
Qed.

Lemma srcBuffer_spec f w :
  srcBuffer (f, w)
  = match File._srcBuffer f, File._srcContent f with
    | Some b, _ => (inr b, (f, w))
    | None, Some c =>
      (inr (stringToBuffer c (fst (encoding (f, w)))),
       (File.with_srcBuffer (Some (stringToBuffer c (fst (encoding (f, w))))) f, w))
    | None, None =>
      if reads_disk f w
      then match readFileSync (File.srcPath f) with
           | inr b => (inr b, (File.with_srcBuffer (Some b) f, after_read f w))
           | inl e => (inl e, (f, after_read f w))
           end
      else (inr [], (File.with_srcBuffer (Some []) f, w))
    end.
Proof.
  unfold srcBuffer, reads_disk, after_read, mtry, ok, throw, this, global, update,
    beginAsync, syncRead, endAsync, emit, mbind, State_bind, mret, State_ret; simpl.
  destruct (File._srcBuffer f) as [b|]; simpl; [reflexivity |].
  destruct (File._srcContent f) as [c|]; simpl.
  - rewrite (encoding_value (f, w)). reflexivity.
  - destruct (str_truthy (File.srcPath f) && _); simpl; [ | reflexivity].
    destruct (readFileSync (File.srcPath f)); simpl; rewrite <- !app_assoc; reflexivity.
Qed.

Lemma srcContent_spec f w :
  srcContent (f, w)
  = match File._srcContent f, File._srcBuffer f with
    | Some c, _ => (inr c, (f, w))
    | None, Some b =>
      (inr (bufferToString b (fst (encoding (f, w)))),
       (File.with_srcContent (Some (bufferToString b (fst (encoding (f, w))))) f, w))
    | None, None =>
      if reads_disk f w
      then match readFileSync (File.srcPath f) with
           | inr b =>
             (inr (bufferToString b (fst (encoding (f, w)))),
              (File.with_srcContent (Some (bufferToString b (fst (encoding (f, w))))) f,
               after_read f w))
           | inl e => (inl e, (f, after_read f w))
           end
      else (inr ""%string, (File.with_srcContent (Some ""%string) f, w))
    end.
Proof.
  unfold srcContent, reads_disk, after_read, mtry, ok, throw, this, global, update,
    beginAsync, syncRead, endAsync, emit, mbind, State_bind, mret, State_ret; simpl.
  destruct (File._srcContent f) as [c|]; simpl; [reflexivity |].
  destruct (File._srcBuffer f) as [b|]; simpl.
  - rewrite (encoding_value (f, w)). reflexivity.
  - destruct (str_truthy (File.srcPath f) && _); simpl; [ | reflexivity].
    destruct (readFileSync (File.srcPath f)); simpl.
    + rewrite <- !app_assoc. reflexivity.
    + match goal with |- context [encoding (f, ?w')] =>
        rewrite (encoding_value (f, w')), (encoding_own_only f f w w' eq_refl eq_refl) end.
      simpl. rewrite <- !app_assoc. reflexivity.
Qed.

Lemma buffer_spec f w :
  buffer (f, w)
  = match File._destBuffer f, File._destContent f with
    | Some b, _ => (inr b, (f, w))
    | None, Some c =>
      (inr (stringToBuffer c (fst (encoding (f, w)))),
       (File.with_destBuffer (Some (stringToBuffer c (fst (encoding (f, w))))) f, w))
    | None, None => srcBuffer (f, w)
    end.
Proof.
  unfold buffer, ok, this, update, mbind, State_bind, mret, State_ret; simpl.
  destruct (File._destBuffer f) as [b|]; simpl; [reflexivity |].
  destruct (File._destContent f) as [c|]; simpl; [ | reflexivity].
  rewrite (encoding_value (f, w)). reflexivity.
Qed.

Lemma content_spec f w :
  content (f, w)
  = match File._destContent f, File._destBuffer f with
    | Some c, _ => (inr c, (f, w))
    | None, Some b =>
      (inr (bufferToString b (fst (encoding (f, w)))),
       (File.with_destContent (Some (bufferToString b (fst (encoding (f, w))))) f, w))
    | None, None => srcContent (f, w)
    end.
Proof.
  unfold content, ok, this, update, mbind, State_bind, mret, State_ret; simpl.
  destruct (File._destContent f) as [c|]; simpl; [reflexivity |].
  destruct (File._destBuffer f) as [b|]; simpl; [ | reflexivity].
  rewrite (encoding_value (f, w)). reflexivity.
Qed.

Lemma data_spec f w :
  data (f, w)
  = match File._destContent f with
    | Some c => (inr (inl c), (f, w))
    | None =>
      (match fst (buffer (f, w)) with inr b => inr (inr b) | inl e => inl e end,
       snd (buffer (f, w)))
    end.
Proof.
  unfold data, mtry, ok, throw, this, mbind, State_bind, mret, State_ret; simpl.
  destruct (File._destContent f) as [c|]; simpl; [reflexivity |].
  destruct (buffer (f, w)) as [[e|b] s]; reflexivity.
Qed.

Lemma clone_spec f w :
  clone (f, w)
  = (match fst (data (f, w)) with
     | inr d => inr (File_new (Some (File.srcPath f)) (Some (File.path f)) (Some d))
     | inl e => inl e
     end, snd (data (f, w))).
Proof.
  unfold clone, mtry, ok, throw, this, mbind, State_bind, mret, State_ret; simpl.
  destruct (data (f, w)) as [[e|d] s]; reflexivity.
Qed.

Lemma modified_false f :
  modified f = false -> File._destContent f = None /\ File._destBuffer f = None.
Proof.
  unfold modified. intros Hm. apply orb_false_iff in Hm as [Hc Hb].
  apply bool_decide_eq_false in Hc, Hb.
  destruct (File._destContent f); [exfalso; eauto |].
  destruct (File._destBuffer f); [exfalso; eauto |]. auto.
Qed.

(** The data written is the data read back. *)
Lemma data_set_data d f w : data (set_data d f, w) = (inr d, (set_data d f, w)).
Proof. destruct d; reflexivity. Qed.

Lemma data_File_new sp p d w :
  data (File_new sp p (Some d), w) = (inr d, (File_new sp p (Some d), w)).
Proof. unfold File_new. apply data_set_data. Qed.

End Getters.

(** ** [clone] *)

Section CloneProperties.
Context `{Encode} `{Paths} `{SourceMaps} `{FileSystem} `{Logging}.

(** C10 (amended): when the receiver's [data] can be had, [clone] answers
    [new File(srcPath, path, data)], a file that is modified whatever the
    receiver was and whose [data] is the receiver's: the dest text, else the
    dest bytes, else the source bytes.  For an unmodified receiver the
    source bytes are materialized into [_srcBuffer]: the bytes loaded, the
    encoded source text, the bytes read from the disk, or no bytes when
    there is nothing to read.  When the read of the source throws, [clone]
    throws the same: no file is answered and the receiver is left as it
    was. *)
Theorem clone_is_modified (f : File.t) (w : World) :
  match fst (data (f, w)) with
  | inr d =>
    clone (f, w)
    = (inr (File_new (Some (File.srcPath f)) (Some (File.path f)) (Some d)),
       snd (data (f, w)))
    /\ modified (File_new (Some (File.srcPath f)) (Some (File.path f)) (Some d)) = true
    /\ data (File_new (Some (File.srcPath f)) (Some (File.path f)) (Some d), w)
       = (inr d, (File_new (Some (File.srcPath f)) (Some (File.path f)) (Some d), w))
    /\ match File._destContent f, File._destBuffer f with
       | Some c, _ => d = inl c
       | None, Some b => d = inr b
       | None, None =>
         exists b,
           d = inr b
           /\ File._srcBuffer (fst (snd (clone (f, w)))) = Some b
           /\ match File._srcBuffer f, File._srcContent f with
              | Some b0, _ => b = b0
              | None, Some c => b = stringToBuffer c (fst (encoding (f, w)))
              | None, None =>
                if reads_disk f w then readFileSync (File.srcPath f) = inr b else b = []
              end
       end
  | inl e =>
    clone (f, w) = (inl e, (f, after_read f w))
    /\ needs_disk f w = true
    /\ readFileSync (File.srcPath f) = inl e
  end.
Proof.
  rewrite clone_spec. rewrite (data_spec f w), (buffer_spec f w), (srcBuffer_spec f w).
  unfold needs_disk, unloaded, modified.
  destruct (File._destContent f) as [c|] eqn:Ec; simpl.
  { repeat split; try apply modified_File_new; try apply data_File_new. }
  destruct (File._destBuffer f) as [b|] eqn:Eb; simpl.
  { repeat split; try apply modified_File_new; try apply data_File_new. }
  destruct (File._srcBuffer f) as [b0|] eqn:Esb; simpl.
  { repeat split; try apply modified_File_new; try apply data_File_new.
    exists b0. rewrite Esb. auto. }
  destruct (File._srcContent f) as [c|] eqn:Esc; simpl.
  { repeat split; try apply modified_File_new; try apply data_File_new. eauto. }
  destruct (reads_disk f w) eqn:Er; simpl.
  - destruct (readFileSync (File.srcPath f)) as [e|b] eqn:Erd; simpl.
    + auto.
    + repeat split; try apply modified_File_new; try apply data_File_new. eauto.
  - repeat split; try apply modified_File_new; try apply data_File_new. eauto.
Qed.

End CloneProperties.

Section CloneExamples.
Import Demo.

(** C10 (as stated) fails: the clone of a file that is not modified, not
    loaded, and whose source cannot be read is no file at all: the read
    throws, and the receiver's source is not materialized. *)
Lemma clone_of_unreadable_file_throws :
  modified Demo.missing = false
  /\ clone (Demo.missing, Demo.world)
     = (inl Demo.ENOENT, (Demo.missing, after_read Demo.missing Demo.world))
  /\ File._srcBuffer (fst (snd (clone (Demo.missing, Demo.world)))) = None.
Proof. repeat split; vm_compute; reflexivity. Qed.

Lemma clone_is_modified_witness :
  clone (Demo.source, Demo.world)
  = (inr (File_new (Some "/a.txt"%string) (Some "/a.txt"%string)
            (Some (inr (String.list_byte_of_string "hello")))),
     (File.with_srcBuffer (Some (String.list_byte_of_string "hello")) Demo.source,
      after_read Demo.source Demo.world))
  /\ modified (File_new (Some "/a.txt"%string) (Some "/a.txt"%string)
                 (Some (inr (String.list_byte_of_string "hello")))) = true.
Proof.
  pose proof (clone_is_modified Demo.source Demo.world) as T.
  destruct T as (Hc & Hm & _). split; [exact Hc | exact Hm].
Defined.

End CloneExamples.

(** ** Per-file overrides *)

Section FlagProperties.
Context `{Encode} `{Paths} `{SourceMaps} `{FileSystem} `{Logging}.

Lemma own_File_new sp p d : File.own (File_new sp p d) = ∅.
Proof. unfold File_new. destruct d as [[c|b]|]; reflexivity. Qed.

Lemma read_own name g f w v :
  File.own f !! name = Some v -> fst (read name g (f, w)) = v.
Proof.
  intros E. unfold read, this, mbind, State_bind, mret, State_ret; simpl.
  rewrite E. reflexivity.
Qed.

Lemma read_getter name g f w :
  File.own f !! name = None -> read name g (f, w) = g (f, w).
Proof.
  intros E. unfold read, this, mbind, State_bind, mret, State_ret; simpl.
  rewrite E. reflexivity.
Qed.

Lemma own_assign name v f :
  File.own (assign name (setProperty name) v f) = <[name := v]> (File.own f).
Proof. unfold assign, setProperty. destruct (File.own f !! name); reflexivity. Qed.

Ltac unfold_flags :=
  unfold encoding, sourceMap, sourceMapPath, sourceMapEmit, sourceMapInline,
    sourceMapUrl, sourceMapIncludeFile, sourceMapRoot, sourceMapIncludeSourcesContent,
    sourceMapIncludeNames, overwrite, global_flag,
    set_encoding, set_sourceMap, set_sourceMapPath, set_sourceMapEmit,
    set_sourceMapInline, set_sourceMapUrl, set_sourceMapIncludeFile,
    set_sourceMapRoot, set_sourceMapIncludeSourcesContent,
    set_sourceMapIncludeNames, set_overwrite.

(** Every accessor pair but [sourceMapUrl] reads back what was assigned. *)
Lemma flag_round_trip x v f w :
  x <> FSourceMapUrl -> fst (get_flag x (set_flag x v f, w)) = v.
Proof.
  intros Hx. destruct x; try congruence; cbn [get_flag set_flag]; unfold_flags;
    apply read_own; rewrite own_assign; apply lookup_insert_eq.
Qed.

(** An assignment to one of them leaves the other properties alone. *)
Lemma flag_frame x y v f :
  x <> FSourceMapUrl -> flag_name y <> flag_name x ->
  File.own (set_flag x v f) !! flag_name y = File.own f !! flag_name y.
Proof.
  intros Hx Hy. destruct x; try congruence; cbn [set_flag]; unfold_flags;
    rewrite own_assign; apply lookup_insert_ne; cbn [flag_name] in Hy; congruence.
Qed.

(** With no own property a getter answers the global. *)
Lemma flag_default x f w :
  File.own f !! flag_name x = None ->
  get_flag x (f, w)
  = (match x with
     | FEncoding => Js.JStr (Global.encoding (globals w))
     | FSourceMap => Js.JBool (Global.sourceMap (globals w))
     | FSourceMapPath =>
       match Global.sourceMapPath (globals w) with
       | Some h => Js.JStr (h f)
       | None => Js.JUndefined
       end
     | FSourceMapEmit => Js.JBool (Global.sourceMapEmit (globals w))
     | FSourceMapInline => Js.JBool (Global.sourceMapInline (globals w))
     | FSourceMapUrl =>
       match Global.sourceMapUrl (globals w) with
       | Some h => Js.JStr (h f)
       | None => Js.JUndefined
       end
     | FSourceMapIncludeFile => Js.JBool (Global.sourceMapIncludeFile (globals w))
     | FSourceMapRoot => Js.JStr (Global.sourceMapRoot (globals w))
     | FSourceMapIncludeSourcesContent =>
       Js.JBool (Global.sourceMapIncludeSourcesContent (globals w))
     | FSourceMapIncludeNames => Js.JBool (Global.sourceMapIncludeNames (globals w))
     | FOverwrite => Js.JBool (Global.overwrite (globals w))
     end, (f, w)).
Proof.
  intros E. destruct x; cbn [get_flag flag_name] in *; unfold_flags;
    rewrite read_getter by exact E; reflexivity.
Qed.

(** C7 (the code at the failing input): on a freshly constructed file,
    [f.sourceMapUrl = v] installs [v] as the own property [sourceMapInline];
    [f.sourceMapUrl] still answers what the global hook gives, and
    [f.sourceMapInline] answers [v]. *)
Theorem set_sourceMapUrl_writes_sourceMapInline
  (sp p : option string) (d : option (string + Buffer)) (v : Js.value) (w : World) :
  File.own (set_sourceMapUrl v (File_new sp p d)) = {[ "sourceMapInline"%string := v ]}
  /\ fst (sourceMapUrl (set_sourceMapUrl v (File_new sp p d), w))
     = match Global.sourceMapUrl (globals w) with
       | Some h => Js.JStr (h (set_sourceMapUrl v (File_new sp p d)))
       | None => Js.JUndefined
       end
  /\ fst (sourceMapInline (set_sourceMapUrl v (File_new sp p d), w)) = v.
Proof.
  assert (E : File.own (set_sourceMapUrl v (File_new sp p d))
              = {[ "sourceMapInline"%string := v ]}).
  { unfold set_sourceMapUrl, assign, setProperty.
    pose proof (own_File_new sp p d) as E0.
    destruct (File.own (File_new sp p d) !! "sourceMapUrl"%string) eqn:El.
    - rewrite E0, lookup_empty in El. discriminate.
    - cbn [File.own File.with_own]. rewrite E0. apply insert_empty. }
  split; [exact E |]. split.
  - unfold sourceMapUrl. rewrite read_getter.
    + reflexivity.
    + rewrite E. apply lookup_singleton_ne. discriminate.
  - unfold sourceMapInline, global_flag. apply read_own.
    rewrite E. apply lookup_singleton_eq.
Qed.

End FlagProperties.

(** ** [load] *)

Section LoadProperties.
Context `{Encode} `{Paths} `{SourceMaps} `{FileSystem} `{Logging}.

(** [load] on a file with a source, nothing in memory, outside clean mode. *)
Lemma load_pending f w :
  needs_disk f w = true ->
  load (f, w)
  = (LoadPending (nextTask w),
     (f, mkWorld (globals w) (S (nextTask w))
           (trace w ++ [BeginAsync (nextTask w) "Read: {file}" (toString f);
                        ReadFile (File.srcPath f)]))).
Proof.
  unfold needs_disk, unloaded, reads_disk. intros Hn.
  apply andb_true_iff in Hn as [Hn Hr]. apply andb_true_iff in Hn as [Hm Hu].
  apply andb_true_iff in Hr as [Hp Hc]. apply andb_true_iff in Hu as [Hsb Hsc].
  apply negb_true_iff, modified_false in Hm as [Edc Edb].
  apply bool_decide_eq_true in Hsb, Hsc. apply negb_true_iff in Hc.
  unfold load, this, global, beginAsync, emit, mbind, State_bind, mret, State_ret; simpl.
  rewrite Hp, Edc, Edb, Hsb, Hsc, Hc. simpl. rewrite <- app_assoc. reflexivity.
Qed.

(** [this.error(error)] on such a file, for an error whose log entry
    brings no content: the entry's content is read from the source. *)
Lemma FileLogEntry_new_unreadable d f w e :
  LogEntry.content (LogEntry_new d) = None ->
  needs_disk f w = true ->
  readFileSync (File.srcPath f) = inl e ->
  FileLogEntry_new d (f, w) = (inl e, (f, after_read f w)).
Proof.
  intros Hc Hn Hr.
  unfold FileLogEntry_new, mtry, throw, this, mbind, State_bind, mret, State_ret; simpl.
  rewrite Hc. rewrite content_spec.
  unfold needs_disk, unloaded in Hn.
  apply andb_true_iff in Hn as [Hn Hd]. apply andb_true_iff in Hn as [Hm Hu].
  apply andb_true_iff in Hu as [Hsb Hsc].
  apply negb_true_iff, modified_false in Hm as [Edc Edb].
  apply bool_decide_eq_true in Hsb, Hsc.
  rewrite Edc, Edb, srcContent_spec, Hsb, Hsc, Hd, Hr. reflexivity.
Qed.

Lemma log_unreadable d level f w e :
  LogEntry.content (LogEntry_new d) = None ->
  needs_disk f w = true ->
  readFileSync (File.srcPath f) = inl e ->
  log d level (f, w) = (inl e, (f, after_read f w)).
Proof.
  intros Hc Hn Hr. unfold log, mtry, throw, mbind, State_bind, mret, State_ret.
  rewrite (FileLogEntry_new_unreadable d f w e Hc Hn Hr). reflexivity.
Qed.

(** C9 (the code at the failing input): for a file with a source, nothing
    in memory, outside clean mode, [load] issues the asynchronous read.
    When that read fails with [e] and the source cannot be read
    synchronously either, the completion calls [this.error(e)], which reads
    the file's content to build the log entry; the read throws [e'], and the
    exception leaves the completion before [endAsync(taskId)] and before
    [load]'s callback: the task of the load is never ended, nothing is
    logged, nothing is counted, and the callback is never called. *)
Theorem load_read_error_aborts (taskId : nat) (e e' : Err.t) (f : File.t) (w : World) :
  LogEntry.content (LogEntry_new (LogError e)) = None ->
  needs_disk f w = true ->
  readFileSync (File.srcPath f) = inl e' ->
  load (f, w)
  = (LoadPending (nextTask w),
     (f, mkWorld (globals w) (S (nextTask w))
           (trace w ++ [BeginAsync (nextTask w) "Read: {file}" (toString f);
                        ReadFile (File.srcPath f)])))
  /\ load_readFile_cb taskId (inl e) (f, w) = (inl e', (f, after_read f w))
  /\ trace (after_read f w)
     = trace w ++ [BeginAsync (nextTask w) "Read: {file}" (toString f);
                   ReadFileSync (File.srcPath f); EndAsync (nextTask w)].
Proof.
  intros Hc Hn Hr. split; [apply load_pending; exact Hn |]. split; [ | reflexivity].
  unfold load_readFile_cb, error, mtry, throw, mbind, State_bind, mret, State_ret.
  rewrite (log_unreadable _ _ f w e' Hc Hn Hr). reflexivity.
Qed.

End LoadProperties.

Section LoadExamples.
Import Demo.

Lemma load_read_error_aborts_witness :
  load_readFile_cb 0 (inl Demo.ENOENT) (Demo.missing, Demo.world)
  = (inl Demo.ENOENT, (Demo.missing, after_read Demo.missing Demo.world)).
Proof.
  apply (load_read_error_aborts 0 Demo.ENOENT Demo.ENOENT Demo.missing Demo.world);
    reflexivity.
Defined.

End LoadExamples.

(** ** [save]: the overwrite guard *)

Section SaveGuard.
Context `{Encode} `{Paths} `{SourceMaps} `{FileSystem} `{Logging}.

#[local] Instance harmless_preorder : PreOrder harmless.
Proof.
  split.
  - intros s. split; [reflexivity |]. exists []. rewrite app_nil_r. auto.
  - intros a b c [Hg1 (l1 & Ht1 & Hl1)] [Hg2 (l2 & Ht2 & Hl2)]. split.
    + congruence.
    + exists (l1 ++ l2). rewrite Ht2, Ht1, app_assoc. split; [reflexivity |].
      rewrite forallb_app, Hl1, Hl2. reflexivity.
Qed.

#[local] Instance same_counts_preorder : PreOrder same_counts.
Proof.
  split.
  - intros s. split; reflexivity.
  - intros a b c [H5 H6] [H7 H8]. split; congruence.
Qed.

Lemma harmless_same_world {A} (m : Meth A) :
  (forall s, snd (snd (m s)) = snd s) -> preserves harmless m.
Proof.
  intros E s. unfold harmless. rewrite E. split; [reflexivity |].
  exists []. rewrite app_nil_r. auto.
Qed.

Lemma harmless_emit a : mutates a = false -> preserves harmless (emit a).
Proof.
  intros Ha s. split; [reflexivity |]. exists [a]. split; [reflexivity |].
  simpl. rewrite Ha. reflexivity.
Qed.

Lemma harmless_beginAsync l a : preserves harmless (beginAsync l a).
Proof. intros s. split; [reflexivity |]. eexists [_]. split; reflexivity. Qed.

Lemma harmless_on_other {A} f' (m : Meth A) :
  preserves harmless m -> preserves harmless (on_other f' m).
Proof.
  intros Hm s. specialize (Hm (f', snd s)). unfold on_other.
  destruct (m (f', snd s)) as [a s']. exact Hm.
Qed.

Lemma same_counts_same_file {A} (m : Meth A) :
  (forall s, fst (snd (m s)) = fst s) -> preserves same_counts m.
Proof. intros E s. unfold same_counts. rewrite E. split; reflexivity. Qed.

Lemma same_counts_update u :
  (forall f, File.errorCount (u f) = File.errorCount f) ->
  (forall f, File.warningCount (u f) = File.warningCount f) ->
  preserves same_counts (update u).
Proof. intros He Hw s. split; [apply He | apply Hw]. Qed.

Lemma same_counts_on_other {A} f' (m : Meth A) : preserves same_counts (on_other f' m).
Proof.
  apply same_counts_same_file. intros s. unfold on_other.
  destruct (m (f', snd s)); reflexivity.
Qed.

#[local] Hint Extern 1 (preserves harmless this) =>
  apply harmless_same_world; reflexivity : pres.
#[local] Hint Extern 1 (preserves harmless global) =>
  apply harmless_same_world; reflexivity : pres.
#[local] Hint Extern 1 (preserves harmless (update _)) =>
  apply harmless_same_world; reflexivity : pres.
#[local] Hint Extern 1 (preserves harmless (emit _)) =>
  apply harmless_emit; reflexivity : pres.
#[local] Hint Extern 1 (preserves harmless (endAsync _)) =>
  apply harmless_emit; reflexivity : pres.
#[local] Hint Resolve harmless_beginAsync harmless_on_other : pres.
#[local] Hint Extern 1 (preserves same_counts this) =>
  apply same_counts_same_file; reflexivity : pres.
#[local] Hint Extern 1 (preserves same_counts global) =>
  apply same_counts_same_file; reflexivity : pres.
#[local] Hint Extern 1 (preserves same_counts (emit _)) =>
  apply same_counts_same_file; reflexivity : pres.
#[local] Hint Extern 1 (preserves same_counts (endAsync _)) =>
  apply same_counts_same_file; reflexivity : pres.
#[local] Hint Extern 1 (preserves same_counts (beginAsync _ _)) =>
  apply same_counts_same_file; reflexivity : pres.
#[local] Hint Extern 1 (preserves same_counts (update _)) =>
  apply same_counts_update; reflexivity : pres.
#[local] Hint Resolve same_counts_on_other : pres.

Lemma harmless_syncRead p : preserves harmless (syncRead p).
Proof. unfold syncRead. pres. Qed.
Lemma same_counts_syncRead p : preserves same_counts (syncRead p).
Proof. unfold syncRead. pres. Qed.
#[local] Hint Resolve harmless_syncRead same_counts_syncRead : pres.

Lemma harmless_encoding : preserves harmless encoding.
Proof. unfold encoding, read. pres. Qed.
Lemma same_counts_encoding : preserves same_counts encoding.
Proof. unfold encoding, read. pres. Qed.
#[local] Hint Resolve harmless_encoding same_counts_encoding : pres.

Lemma harmless_srcContent : preserves harmless srcContent.
Proof. unfold srcContent. pres. Qed.
Lemma same_counts_srcContent : preserves same_counts srcContent.
Proof. unfold srcContent. pres. Qed.
#[local] Hint Resolve harmless_srcContent same_counts_srcContent : pres.

Lemma harmless_content : preserves harmless content.
Proof. unfold content. pres. Qed.
Lemma same_counts_content : preserves same_counts content.
Proof. unfold content. pres. Qed.
#[local] Hint Resolve harmless_content same_counts_content : pres.

Lemma harmless_FileLogEntry_new d : preserves harmless (FileLogEntry_new d).
Proof. unfold FileLogEntry_new. pres. Qed.
Lemma same_counts_FileLogEntry_new d : preserves same_counts (FileLogEntry_new d).
Proof. unfold FileLogEntry_new. pres. Qed.
#[local] Hint Resolve harmless_FileLogEntry_new : pres.

(** A diagnostic issues no request that changes the file system. *)
Lemma harmless_log d level : preserves harmless (log d level).
Proof. unfold log. pres. Qed.

(** [log], after the entry was built or failed to be. *)
Lemma log_after_entry d level f w :
  log d level (f, w)
  = match FileLogEntry_new d (f, w) with
    | (inl e, s) => (inl e, s)
    | (inr entry, (f1, w1)) =>
      if match Global.onLogFile (globals w1) with
         | Some h => Js.is_false (h entry level f1)
         | None => false
         end
      then (inr tt, (f1, w1))
      else (inr tt,
            (match level with
             | LogLevel.error | LogLevel.fatal =>
               File.with_errorCount (bump (File.errorCount f1)) f1
             | LogLevel.warning => File.with_warningCount (bump (File.warningCount f1)) f1
             | LogLevel.log => f1
             end,
             mkWorld (globals w1) (nextTask w1) (trace w1 ++ [Log entry level])))
    end.
Proof.
  unfold log, mtry, ok, throw, this, global, update, emit, mbind, State_bind, mret, State_ret.
  destruct (FileLogEntry_new d (f, w)) as [[e|entry] [f1 w1]]; simpl; [reflexivity |].
  destruct (match Global.onLogFile (globals w1) with
            | Some h => Js.is_false (h entry level f1)
            | None => false
            end); [reflexivity |].
  destruct level; reflexivity.
Qed.

(** Unless [onLogFile] is registered, a call of [file.error] that returns
    has bumped [errorCount] and logged the entry at level [error]; a call
    that throws has counted and logged nothing. *)
Lemma error_counts d f w :
  Global.onLogFile (globals w) = None ->
  match fst (error d (f, w)) with
  | inr _ =>
    File.errorCount (fst (snd (error d (f, w)))) = bump (File.errorCount f)
    /\ exists entry, last (trace (snd (snd (error d (f, w))))) = Some (Log entry LogLevel.error)
  | inl e =>
    fst (FileLogEntry_new (d) (f, w)) = inl e
    /\ snd (error d (f, w)) = snd (FileLogEntry_new d (f, w))
    /\ same_counts (f, w) (snd (error d (f, w)))
  end.
Proof.
  intros Hhook.
  pose proof (harmless_FileLogEntry_new d (f, w)) as [Hg _].
  pose proof (same_counts_FileLogEntry_new d (f, w)) as Hs.
  unfold error. rewrite log_after_entry.
  destruct (FileLogEntry_new d (f, w)) as [[e|entry] [f1 w1]]; simpl in *; [auto |].
  rewrite Hg, Hhook. simpl. destruct Hs as [He _]. simpl in He. rewrite He.
  split; [reflexivity |]. exists entry. apply last_snoc.
Qed.

Lemma get_flag_pure x s : snd (get_flag x s) = s.
Proof.
  destruct x; cbn [get_flag];
    unfold encoding, sourceMap, sourceMapPath, sourceMapEmit, sourceMapInline,
      sourceMapUrl, sourceMapIncludeFile, sourceMapRoot, sourceMapIncludeSourcesContent,
      sourceMapIncludeNames, overwrite, global_flag;
    apply read_pure; intros [f w]; reflexivity.
Qed.

(** [content] returns exactly when the content is ready. *)
Lemma content_ready_spec f w :
  content_ready f w = negb (threw (fst (content (f, w)))).
Proof.
  unfold content_ready, needs_disk, unloaded, modified.
  rewrite content_spec.
  destruct (File._destContent f) as [c|]; simpl; [reflexivity |].
  destruct (File._destBuffer f) as [b|]; simpl; [reflexivity |].
  rewrite srcContent_spec.
  destruct (File._srcContent f) as [c|]; simpl; [destruct (File._srcBuffer f); reflexivity |].
  destruct (File._srcBuffer f) as [b|]; simpl; [reflexivity |].
  destruct (reads_disk f w); simpl; [ | reflexivity].
  destruct (readFileSync (File.srcPath f)); reflexivity.
Qed.

(** A diagnostic without a position, for a file whose content is ready, is
    built without an exception. *)
Lemma FileLogEntry_new_returns d f w :
  content_ready f w = true -> positionless d = true ->
  threw (fst (FileLogEntry_new d (f, w))) = false.
Proof.
  intros Hc Hp. rewrite content_ready_spec in Hc. apply negb_true_iff in Hc.
  unfold positionless in Hp. apply bool_decide_eq_true in Hp.
  unfold FileLogEntry_new, mtry, ok, throw, this, mbind, State_bind, mret, State_ret; simpl.
  rewrite Hp.
  destruct (LogEntry.content (LogEntry_new d)) as [c|]; simpl.
  - destruct (match LogEntry.sourceMapData (LogEntry_new d) with
              | Some d0 => Some d0
              | None => File.sourceMapData f
              end); reflexivity.
  - destruct (content (f, w)) as [[e|c] [f1 w1]]; simpl in *; [discriminate |].
    destruct (match LogEntry.sourceMapData (LogEntry_new d) with
              | Some d0 => Some d0
              | None => File.sourceMapData f1
              end); reflexivity.
Qed.

Lemma error_returns d f w :
  content_ready f w = true -> positionless d = true ->
  fst (error d (f, w)) = inr tt.
Proof.
  intros Hc Hp. pose proof (FileLogEntry_new_returns d f w Hc Hp) as Hr.
  unfold error. rewrite log_after_entry.
  destruct (FileLogEntry_new d (f, w)) as [[e|entry] [f1 w1]]; simpl in *; [discriminate |].
  destruct (match Global.onLogFile (globals w1) with
            | Some h => Js.is_false (h entry LogLevel.error f1)
            | None => false
            end); reflexivity.
Qed.

(** The part of [save] up to and including the overwrite guard. *)
Lemma save_guarded dir f w :
  save dir (f, w)
  = if negb (validated dir f w) then (inr (SaveCalled None (savePath_of dir f)), (f, w))
    else if pathEquals (File.srcPath f) (savePath_of dir f)
            && negb (modified f || emits_sourceMap f w)
    then (inr (SaveCalled None (savePath_of dir f)), (f, w))
    else if pathEquals (File.srcPath f) (savePath_of dir f)
            && negb (Js.truthy (fst (overwrite (f, w))))
    then (match fst (error overwrite_diagnostic (f, w)) with
          | inr _ => inr (SaveCalled (Some EEXIST) (savePath_of dir f))
          | inl e => inl e
          end, snd (error overwrite_diagnostic (f, w)))
    else save dir (f, w).
Proof.
  destruct (negb (validated dir f w)) eqn:Hv.
  { unfold validated in Hv. unfold save, ok, this, global, mbind, State_bind, mret, State_ret.
    simpl. destruct (Global.onValidateFile (globals w)) as [h|]; [ | discriminate].
    rewrite Hv. reflexivity. }
  destruct (pathEquals (File.srcPath f) (savePath_of dir f)) eqn:Hp; [ | reflexivity].
  simpl.
  destruct (negb (modified f || emits_sourceMap f w)) eqn:Hm;
    [ | destruct (negb (Js.truthy (fst (overwrite (f, w))))) eqn:Ho; [ | reflexivity ] ];
    unfold save, mtry, ok, throw, this, global, mbind, State_bind, mret, State_ret; simpl;
    unfold validated in Hv; destruct (Global.onValidateFile (globals w)) as [h|];
    rewrite ?Hv; simpl;
    pose proof (get_flag_pure FSourceMapEmit (f, w)) as E1;
    pose proof (get_flag_pure FOverwrite (f, w)) as E2;
    cbn [get_flag] in E1, E2; unfold emits_sourceMap in Hm;
    destruct (sourceMapEmit (f, w)) as [ev s1]; simpl in *; subst s1;
    destruct (overwrite (f, w)) as [ov s2]; simpl in *; subst s2;
    rewrite Hp; simpl; rewrite Hm; simpl; try reflexivity;
    rewrite Ho; destruct (error overwrite_diagnostic (f, w)) as [[e|[]] s]; reflexivity.
Qed.


End SaveGuard.

Section SaveGuardExamples.
Import Demo.



End SaveGuardExamples.


(** ** The plugin loader *)

Section PluginProperties.
Context `{Paths} `{Plugin.Node}.

(** A plugin loaded through resolution is stored under the resolved file
    name, whatever name it was asked by. *)
Lemma plugin_stores_resolved_name name l n v :
  Js.truthy (default Js.JUndefined (Plugin.plugins l !! name)) = false ->
  Plugin.require_resolve
    (resolvePath (if Plugin.isRelative name then "." else "node_modules") name) = Some n ->
  Plugin.require n = inr v ->
  fst (Plugin.plugin name l) = inr v
  /\ Plugin.plugins (snd (Plugin.plugin name l)) = <[n := v]> (Plugin.plugins l)
  /\ Plugin.steps (snd (Plugin.plugin name l))
     = Plugin.steps l
       ++ [Plugin.Begin "Load plugin: {plugin}" name;
           Plugin.Resolve
             (resolvePath (if Plugin.isRelative name then "." else "node_modules") name);
           Plugin.Require n; Plugin.End_].
Proof.
  intros Hmiss Hres Hreq.
  unfold Plugin.plugin, Plugin.resolve, Plugin.say, get, modify, mbind, State_bind,
    mret, State_ret; simpl.
  rewrite Hmiss. simpl. rewrite Hres. simpl. rewrite Hreq. simpl.
  repeat split. rewrite <- !app_assoc. reflexivity.
Qed.

(** A call that misses the store resolves the name, relative names against
    the working directory and bare names against [node_modules]. *)
Lemma plugin_miss_resolves name l :
  Js.truthy (default Js.JUndefined (Plugin.plugins l !! name)) = false ->
  exists rest,
    Plugin.steps (snd (Plugin.plugin name l))
    = Plugin.steps l
      ++ Plugin.Begin "Load plugin: {plugin}" name
         :: Plugin.Resolve
              (resolvePath (if Plugin.isRelative name then "." else "node_modules") name)
         :: rest.
Proof.
  intros Hmiss.
  unfold Plugin.plugin, Plugin.resolve, Plugin.say, get, modify, mbind, State_bind,
    mret, State_ret; simpl.
  rewrite Hmiss. simpl.
  destruct (Plugin.require_resolve (resolvePath _ name)) as [n|]; simpl;
    [ | destruct (Plugin.require_resolve name) as [n|]; simpl ];
    try destruct (Plugin.require n); simpl; rewrite <- ?app_assoc; simpl; eauto.
Qed.

(** A call that hits the store answers the stored value and does nothing. *)
Lemma plugin_hit name l v :
  Plugin.plugins l !! name = Some v -> Js.truthy v = true ->
  Plugin.plugin name l = (inr v, l).
Proof.
  intros Hl Hv.
  unfold Plugin.plugin, get, mbind, State_bind, mret, State_ret; simpl.
  rewrite Hl. simpl. rewrite Hv. reflexivity.
Qed.

End PluginProperties.

Section PluginExamples.
Import Demo.

(** C8 (the code at the failing input): the first [plugin("digo-sass")]
    resolves the bare name against [node_modules] and stores the exports
    under the resolved file name; nothing is stored under ["digo-sass"], so
    the second call misses the store and begins, resolves and requires
    again. *)
Theorem plugin_second_call_resolves_again :
  fst (Plugin.plugin "digo-sass" Plugin.fresh) = inr (Js.JObj 1)
  /\ Plugin.plugins (snd (Plugin.plugin "digo-sass" Plugin.fresh)) !! "digo-sass"%string = None
  /\ Plugin.plugins (snd (Plugin.plugin "digo-sass" Plugin.fresh))
       !! "/node_modules/digo-sass/index.js"%string = Some (Js.JObj 1)
  /\ Plugin.steps (snd (Plugin.plugin "digo-sass" Plugin.fresh))
     = [Plugin.Begin "Load plugin: {plugin}" "digo-sass";
        Plugin.Resolve "node_modules/digo-sass";
        Plugin.Require "/node_modules/digo-sass/index.js"; Plugin.End_]
  /\ Plugin.steps
       (snd (Plugin.plugin "digo-sass" (snd (Plugin.plugin "digo-sass" Plugin.fresh))))
     = Plugin.steps (snd (Plugin.plugin "digo-sass" Plugin.fresh))
       ++ [Plugin.Begin "Load plugin: {plugin}" "digo-sass";
           Plugin.Resolve "node_modules/digo-sass";
           Plugin.Require "/node_modules/digo-sass/index.js"; Plugin.End_].
Proof. repeat split; vm_compute; reflexivity. Qed.

End PluginExamples.

(** ** [FileList]: replay to late listeners *)

Section Replay.

Lemma files_run ops l :
  FileList.files (FileList.run ops l) = FileList.files l ++ FileList.adds ops.
Proof.
  revert l. induction ops as [|o ops IH]; intros l.
  - simpl. rewrite app_nil_r. reflexivity.
  - change (FileList.run (o :: ops) l) with (FileList.run ops (fst (FileList.run_op o l))).
    rewrite IH. destruct o; simpl; rewrite <- ?app_assoc; reflexivity.
Qed.

Lemma ended_run ops l :
  FileList.ended (FileList.run ops l) = FileList.ended l || FileList.ends ops.
Proof.
  revert l. induction ops as [|o ops IH]; intros l.
  - simpl. rewrite orb_false_r. reflexivity.
  - change (FileList.run (o :: ops) l) with (FileList.run ops (fst (FileList.run_op o l))).
    rewrite IH. destruct o; simpl; rewrite ?orb_true_r; reflexivity.
Qed.


End Replay.


(** ** [pipe]: what the handlers do to the net *)

Section NetFacts.

Lemma load_failed_app a b : load_failed (a ++ b) = load_failed a ++ load_failed b.
Proof. apply omap_app. Qed.

Lemma load_failed_called cs : load_failed (Called <$> cs) = [].
Proof. induction cs as [|c cs IH]; [reflexivity | exact IH]. Qed.

Lemma src_settle n : src (settle n) = src n.
Proof. unfold settle. destruct (_ >? _); reflexivity. Qed.

Lemma thenQueued_settle n : thenQueued (settle n) = thenQueued n.
Proof. unfold settle. destruct (_ >? _); reflexivity. Qed.

Lemma counted_observe o h k n :
  load_failed o = [] -> counted h k n -> counted h k (observe o n).
Proof.
  intros Ho (Hp & Hf & He). split; [exact Hp |]. split; [ | exact He].
  simpl. rewrite load_failed_app, Ho, app_nil_r. exact Hf.
Qed.

Lemma counted_fail r h k n :
  counted (r :: h) k n -> counted h k (observe [LoadFailed r] n).
Proof.
  intros (Hp & Hf & He). split; [exact Hp |]. split; [ | exact He].
  simpl. rewrite load_failed_app. simpl. rewrite Hf.
  solve_Permutation.
Qed.

Lemma counted_result_add r h k n :
  counted (r :: h) k n -> counted h k (result_add r n).
Proof.
  intros (Hp & Hf & He). split; [exact Hp |]. split; [ | exact He].
  simpl. rewrite load_failed_app, load_failed_called, app_nil_r. rewrite Hf.
  solve_Permutation.
Qed.

Lemma counted_settle h k n : counted h k n -> counted h (k - 1) (settle n).
Proof.
  intros (Hp & Hf & He). unfold settle.
  destruct (pending (set_pending (pending n - 1) n) >? 0) eqn:Hpos.
  - split; [simpl; unfold base in *; simpl; lia |]. split; [exact Hf |].
    simpl. intros Hr. specialize (He Hr). simpl in Hpos. lia.
  - split; [simpl; unfold base in *; simpl; lia |]. split.
    + simpl. rewrite load_failed_app, load_failed_called, app_nil_r. exact Hf.
    + simpl. intros _. simpl in Hpos. lia.
Qed.

Lemma counted_more h k n :
  counted h k n -> 1 <= pending n -> counted h (k + 1) (set_pending (pending n + 1) n).
Proof.
  intros (Hp & Hf & He) Hpos.
  split; [simpl; unfold base in *; simpl; lia |]. split; [exact Hf |].
  simpl. intros Hr. specialize (He Hr). lia.
Qed.

Lemma counted_load r t i h k n :
  counted (r :: h) (k + 1) n -> counted h k (set_loads (loads n ++ [(r, t, i)]) n).
Proof.
  intros (Hp & Hf & He). split; [ | split; [ | exact He]].
  - simpl. unfold base in *. simpl. rewrite length_app. simpl. lia.
  - simpl. unfold refs. rewrite fmap_app. simpl. rewrite Hf. unfold refs.
    solve_Permutation.
Qed.

Lemma counted_wait r t i h k n :
  counted (r :: h) (k + 1) n -> counted h k (set_waits (waits n ++ [(r, t, i)]) n).
Proof.
  intros (Hp & Hf & He). split; [ | split; [ | exact He]].
  - simpl. unfold base in *. simpl. rewrite length_app. simpl. lia.
  - simpl. unfold refs. rewrite fmap_app. simpl. rewrite Hf. unfold refs.
    solve_Permutation.
Qed.

Lemma refs_delete j l r t i :
  l !! j = Some (r, t, i) -> refs l ≡ₚ r :: refs (delete j l).
Proof.
  intros Hl. unfold refs. rewrite (delete_Permutation l j (r, t, i) Hl) at 1.
  reflexivity.
Qed.

Lemma length_delete_Some {A} (l : list A) j x :
  l !! j = Some x -> List.length l = S (List.length (delete j l)).
Proof.
  intros Hl. rewrite length_delete by eauto.
  apply lookup_lt_Some in Hl. lia.
Qed.

Lemma counted_unload j r t i h k n :
  loads n !! j = Some (r, t, i) ->
  counted h k n -> counted (r :: h) (k + 1) (set_loads (delete j (loads n)) n).
Proof.
  intros Hl (Hp & Hf & He). split; [ | split; [ | exact He]].
  - simpl. unfold base in *. simpl. rewrite (length_delete_Some _ _ _ Hl) in Hp. lia.
  - simpl. rewrite Hf. rewrite (refs_delete _ _ _ _ _ Hl). solve_Permutation.
Qed.

Lemma counted_unwait j r t i h k n :
  waits n !! j = Some (r, t, i) ->
  counted h k n -> counted (r :: h) (k + 1) (set_waits (delete j (waits n)) n).
Proof.
  intros Hl (Hp & Hf & He). split; [ | split; [ | exact He]].
  - simpl. unfold base in *. simpl. rewrite (length_delete_Some _ _ _ Hl) in Hp. lia.
  - simpl. rewrite Hf. rewrite (refs_delete _ _ _ _ _ Hl). solve_Permutation.
Qed.

End NetFacts.

Section StageFacts.
Context `{Encode} `{Paths} `{SourceMaps} `{FileSystem} `{Logging}.
Variable p : Processor.t.

Lemma net_with_file {A} r (m : Meth A) st : net (snd (with_file r m st)) = net st.
Proof. unfold with_file. destruct (m _) as [a s]. reflexivity. Qed.

Lemma net_done_each r t st :
  net (done_each r t st) = settle (result_add r (observe [Completed r] (net st))).
Proof. reflexivity. Qed.

Lemma counted_done_each r t h k st :
  counted (r :: h) k (net st) -> counted h (k - 1) (net (done_each r t st)).
Proof.
  intros Hc. rewrite net_done_each.
  apply counted_settle, counted_result_add, counted_observe; [reflexivity | exact Hc].
Qed.

Lemma same_wiring_refl n : same_wiring n n.
Proof. split; reflexivity. Qed.

Lemma same_wiring_trans a b c : same_wiring a b -> same_wiring b c -> same_wiring a c.
Proof. intros [? ?] [? ?]. split; congruence. Qed.

Lemma same_wiring_settle n : same_wiring n (settle n).
Proof. split; [apply src_settle | apply thenQueued_settle]. Qed.

Lemma same_wiring_done_each r t st : same_wiring (net st) (net (done_each r t st)).
Proof.
  rewrite net_done_each.
  eapply same_wiring_trans; [ | apply same_wiring_settle]. split; reflexivity.
Qed.

Lemma counted_nonneg h n : counted h 0 n -> base n = 1 -> 1 <= pending n.
Proof. intros (Hp & _) Hb. lia. Qed.

Lemma counted_src_add r h k n :
  counted h k n ->
  counted (h ++ [r]) k
    (set_src (FileList.mk (FileList.files (src n) ++ [r]) (FileList.ended (src n))
                (FileList.listeners (src n))) n).
Proof.
  intros (Hp & Hf & He). split; [exact Hp |]. split; [ | exact He].
  simpl. rewrite Hf. rewrite !app_assoc. reflexivity.
Qed.

Lemma base_false n : FileList.ended (src n) = false -> base n = 1.
Proof. unfold base. intros ->. rewrite andb_false_r. reflexivity. Qed.

Lemma base_queued n : thenQueued n = true -> base n = 1.
Proof. unfold base. intros ->. reflexivity. Qed.

End StageFacts.

(** ** [pipe]: a processor that throws *)

Section Throwing.
Context `{Encode} `{Paths} `{SourceMaps} `{FileSystem} `{Logging}.

Lemma load_modified f w : modified f = true -> load (f, w) = (LoadCalled, (f, w)).
Proof.
  intros Hm. unfold load, this, global, mbind, State_bind, mret, State_ret; simpl.
  unfold modified in Hm. apply orb_true_iff in Hm as [Hm | Hm]; rewrite Hm;
    rewrite ?orb_true_r; reflexivity.
Qed.

(** [file.error] on a file with content in memory, for a diagnostic
    without a position: it returns, the file stays in memory, with its
    source path. *)
Lemma error_in_memory d f w :
  modified f = true -> positionless d = true ->
  fst (error d (f, w)) = inr tt
  /\ modified (fst (snd (error d (f, w)))) = true
  /\ File.srcPath (fst (snd (error d (f, w)))) = File.srcPath f.
Proof.
  intros Hm Hp. split; [ | split].
  - apply error_returns; [ | exact Hp]. unfold content_ready, needs_disk. rewrite Hm. reflexivity.
  - apply (dest_kept_modified f); [ | exact Hm]. apply (keeps_error d (f, w)).
  - unfold positionless in Hp. apply bool_decide_eq_true in Hp.
    unfold error. rewrite log_after_entry.
    unfold FileLogEntry_new, mtry, ok, throw, this, mbind, State_bind, mret, State_ret; simpl.
    rewrite Hp.
    assert (Ec : File.srcPath (fst (snd (content (f, w)))) = File.srcPath f
                 /\ exists c, fst (content (f, w)) = inr c).
    { rewrite content_spec. apply orb_true_iff in Hm as [Hm | Hm];
        apply bool_decide_eq_true in Hm; destruct Hm as [x Hx]; rewrite Hx.
      - eauto.
      - destruct (File._destContent f); simpl; eauto. }
    destruct Ec as [Ep [c Ec]].
    destruct (LogEntry.content (LogEntry_new d)) as [c0|]; simpl.
    + destruct (match LogEntry.sourceMapData (LogEntry_new d) with
                | Some d0 => Some d0
                | None => File.sourceMapData f
                end); simpl;
        destruct (match Global.onLogFile (globals w) with
                  | Some h => _
                  | None => false
                  end); reflexivity.
    + destruct (content (f, w)) as [[e'|c'] [f1 w1]]; simpl in *; [discriminate |].
      destruct (match LogEntry.sourceMapData (LogEntry_new d) with
                | Some d0 => Some d0
                | None => File.sourceMapData f1
                end); simpl;
        destruct (match Global.onLogFile (globals w1) with
                  | Some h => _
                  | None => false
                  end); simpl; exact Ep.
Qed.

End Throwing.

Section ThrowingRuns.
Context `{Encode} `{Paths} `{SourceMaps} `{FileSystem} `{Logging}.
Variable name : string.
Variable bad : FileRef -> bool.
Variable e : Err.t.

Lemma still_refl h : still h h.
Proof. intros r. auto. Qed.

Lemma still_trans a b c : still a b -> still b c -> still a c.
Proof. intros H5 H6 r. destruct (H5 r), (H6 r). split; [auto | congruence]. Qed.

Lemma still_insert h r f :
  (modified (h !!! r) = true -> modified f = true) ->
  File.srcPath f = File.srcPath (h !!! r) ->
  still h (<[r := f]> h).
Proof.
  intros Hm Hp r'. destruct (decide (r = r')) as [<- | Hne].
  - rewrite lookup_total_insert_eq. auto.
  - rewrite lookup_total_insert_ne by exact Hne. auto.
Qed.

Lemma still_same h r : still h (<[r := h !!! r]> h).
Proof. apply still_insert; auto. Qed.

Lemma in_memory_still p h h' fs :
  still h h' -> in_memory p bad e h fs = true -> in_memory p bad e h' fs = true.
Proof.
  intros Hs. unfold in_memory. rewrite !forallb_forall. intros Hi r Hr.
  specialize (Hi r Hr). apply andb_true_iff in Hi as [Hm Hp].
  destruct (Hs r) as [Hk Hsp]. apply andb_true_iff. split; [auto |].
  unfold caught_diagnostic in *. rewrite Hsp. exact Hp.
Qed.

Lemma in_memory_cons p h r fs :
  in_memory p bad e h (r :: fs) = true ->
  modified (h !!! r) = true
  /\ (bad r = true -> positionless (caught_diagnostic p (h !!! r) e) = true)
  /\ in_memory p bad e h fs = true.
Proof.
  unfold in_memory. cbn [forallb]. intros Hi.
  apply andb_true_iff in Hi as [Hr Hi]. apply andb_true_iff in Hr as [Hm Hp].
  split; [exact Hm |]. split; [ | exact Hi]. intros Hb. rewrite Hb in Hp. exact Hp.
Qed.

Lemma advanced_nil n : advanced [] [] n = n.
Proof. destruct n as [s [fs en ls] pe tq lo wa se]. unfold advanced. simpl. rewrite !app_nil_r. reflexivity. Qed.

Lemma advanced_advanced a o a' o' n :
  advanced a' o' (advanced a o n) = advanced (a ++ a') (o ++ o') n.
Proof. unfold advanced. simpl. rewrite !app_assoc. reflexivity. Qed.

Lemma result_add_unheard r n :
  unheard (result n) -> result_add r n = advanced [r] [] n.
Proof.
  intros Hu. unfold result_add, FileList.add, FileList.emit, advanced, observe, set_result.
  simpl. unfold unheard in Hu. rewrite Hu. reflexivity.
Qed.

(** [catch (e) { file.error(...) }] on a file in memory. *)
Lemma caught_in_memory p r st :
  modified (heap st !!! r) = true ->
  positionless (caught_diagnostic p (heap st !!! r) e) = true ->
  exists st1,
    caught p r e st = (inr tt, st1)
    /\ net st1 = advanced [] [Threw r e] (net st)
    /\ still (heap st) (heap st1).
Proof.
  intros Hm Hp.
  destruct (error_in_memory (caught_diagnostic p (heap st !!! r) e) (heap st !!! r) (world st)
              Hm Hp) as (Hr & Hm1 & Hs1).
  unfold caught, with_file, modify, this, mbind, State_bind, mret, State_ret. simpl.
  destruct (error _ _) as [res [f1 w1]]. simpl in *. subst res.
  eexists. split; [reflexivity |]. split.
  - unfold advanced, observe. simpl. rewrite app_nil_r. destruct (result (net st)); reflexivity.
  - simpl. apply still_insert; auto.
Qed.



(** One file in whole-list mode, with [next] for [proc(index + 1)]. *)
Lemma loaded_all_throws_on next index r st :
  modified (heap st !!! r) = true ->
  (bad r = true -> positionless (caught_diagnostic (throwing_whole name bad e) (heap st !!! r) e) = true) ->
  unheard (result (net st)) ->
  exists st1,
    net st1 = advanced (if bad r then [] else [r]) (seen_whole bad e r) (net st)
    /\ still (heap st) (heap st1)
    /\ forall st2, next st1 = (inr tt, st2) ->
                   loaded_all (throwing_whole name bad e) next index r None st = (inr tt, st2).
Proof.
  intros Hm Hp Hu.
  unfold loaded_all, seen_whole. cbn [Processor.body Processor.length throwing_whole].
  unfold throws_on at 1.
  unfold mbind, State_bind, mret, State_ret, when, modify, progress_begin, with_file.
  cbn [fst snd heap world net Nat.leb on_net].
  destruct (bad r) eqn:Hb; cbn [dones later thrown added times].
  - set (st0 := mkStage (<[r := heap st !!! r]> (heap st)) _ _).
    destruct (caught_in_memory (throwing_whole name bad e) r st0) as (st1 & Ec & En & Hs).
    { unfold st0. simpl. rewrite lookup_total_insert_eq. exact Hm. }
    { unfold st0. simpl. rewrite lookup_total_insert_eq. apply Hp. reflexivity. }
    exists (progress_end (nextTask (world st)) st1). split; [ | split].
    + simpl. rewrite En. unfold st0, advanced, observe. simpl.
      rewrite !app_nil_r, <- !app_assoc. reflexivity.
    + eapply still_trans; [ | exact Hs]. unfold st0. simpl. apply still_same.
    + intros st2 Hn. unfold ok, mtry, mbind, State_bind, mret, State_ret. simpl.
      fold st0. rewrite Ec. simpl. exact Hn.
  - set (st0 := mkStage (<[r := heap st !!! r]> (heap st)) _ _).
    exists (progress_end (nextTask (world st))
              (on_net (result_add r) (on_net (observe [Completed r]) st0))).
    split; [ | split].
    + unfold st0. simpl. rewrite result_add_unheard by exact Hu.
      unfold advanced, observe. simpl. rewrite <- !app_assoc. reflexivity.
    + unfold st0. simpl. apply still_same.
    + intros st2 Hn.
      unfold done_all, ok, mtry, when, modify, mbind, State_bind, mret, State_ret.
      cbn [Processor.length throwing_whole Nat.ltb Nat.leb fst snd]. fold st0. rewrite Hn. reflexivity.
Qed.


(** [proc(index)] over files in memory: every file is invoked in turn; the
    result list gets the files the processor did not throw on. *)
Lemma proc_throws_on rest : forall index st,
  in_memory (throwing_whole name bad e) bad e (heap st) rest = true ->
  unheard (result (net st)) ->
  FileList.ended (result (net st)) = false ->
  exists st',
    proc (throwing_whole name bad e) rest index st = (inr tt, st')
    /\ net st'
       = result_end (advanced (List.filter (fun r => negb (bad r)) rest)
                       (flat_map (seen_whole bad e) rest) (net st))
    /\ still (heap st) (heap st').
Proof.
  induction rest as [|r rest IH]; intros index st Hi Hu He; cbn [proc]; rewrite He.
  - eexists. split; [reflexivity |]. split; [ | apply still_refl].
    simpl. rewrite advanced_nil. reflexivity.
  - apply in_memory_cons in Hi as (Hm & Hp & Hi).
    unfold with_file at 1. rewrite (load_modified _ _ Hm). cbn [fst snd].
    set (st1 := mkStage (<[r := heap st !!! r]> (heap st)) (world st) (net st)).
    assert (Hs1 : still (heap st) (heap st1)) by apply still_same.
    destruct (loaded_all_throws_on (proc (throwing_whole name bad e) rest (S index)) index r st1)
      as (st2 & En & Hs2 & Hl).
    { apply Hs1, Hm. }
    { intros Hb. unfold caught_diagnostic. destruct (Hs1 r) as [_ ->]. apply Hp, Hb. }
    { exact Hu. }
    destruct (IH (S index) st2) as (st' & Ep & En' & Hs').
    { eapply in_memory_still; [ | exact Hi]. eapply still_trans; eassumption. }
    { rewrite En. exact Hu. }
    { rewrite En. exact He. }
    exists st'. split; [apply Hl, Ep |]. split.
    + rewrite En', En. unfold st1. cbn [net]. rewrite advanced_advanced.
      cbn [List.filter flat_map]. destruct (bad r); reflexivity.
    + eapply still_trans; [exact Hs1 |]. eapply still_trans; eassumption.
Qed.


(** The [data] listener of the per-file mode that hands [done] over, on a
    file in memory: the file is passed on whether the processor threw or
    not. *)
Lemma on_data_throws_on r st :
  modified (heap st !!! r) = true ->
  (bad r = true -> positionless (caught_diagnostic (throwing_each name bad e) (heap st !!! r) e) = true) ->
  unheard (result (net st)) ->
  1 <= pending (net st) ->
  exists st1,
    on_data (throwing_each name bad e) r st = (inr tt, st1)
    /\ net st1 = advanced [r] (seen_each bad e r) (net st)
    /\ still (heap st) (heap st1).
Proof.
  intros Hm Hp Hu Hn.
  assert (Hset : forall n, unheard (result n) -> 1 <= pending n - 1 ->
                 settle (result_add r n)
                 = set_pending (pending n - 1) (advanced [r] [] n)).
  { intros n Hun Hpn. rewrite result_add_unheard by exact Hun.
    unfold settle. cbn [pending advanced set_pending].
    destruct (pending n - 1 >? 0) eqn:E; [reflexivity |].
    rewrite Z.gtb_ltb in E. apply Z.ltb_ge in E. lia. }
  unfold on_data, mbind, State_bind, mret, State_ret, modify. cbn [fst snd].
  unfold with_file at 1. cbn [heap world on_net]. rewrite (load_modified _ _ Hm). cbn [fst snd].
  unfold loaded_each, seen_each. cbn [Processor.body Processor.length throwing_each].
  unfold throws_on at 1.
  unfold mbind, State_bind, mret, State_ret, when, modify, progress_begin, with_file.
  cbn [fst snd heap world net Nat.ltb Nat.leb on_net].
  rewrite !lookup_total_insert_eq.
  destruct (bad r) eqn:Hb; cbn [dones later thrown added Nat.iter nat_rect].
  - set (st0 := mkStage _ _ _).
    destruct (caught_in_memory (throwing_each name bad e) r st0) as (st1 & Ec & En & Hs).
    { unfold st0. simpl. rewrite lookup_total_insert_eq. exact Hm. }
    { unfold st0. simpl. rewrite lookup_total_insert_eq. apply Hp. reflexivity. }
    unfold ok, mtry, mbind, State_bind, mret, State_ret. rewrite Ec. cbn [fst snd].
    eexists. split; [reflexivity |]. split.
    + rewrite net_done_each, En. unfold st0. cbn [net].
      rewrite Hset.
      * unfold advanced, observe, set_pending. simpl.
        rewrite !app_nil_r, <- !app_assoc. f_equal. lia.
      * exact Hu.
      * simpl. lia.
    + unfold done_each. cbn [heap on_net progress_end].
      eapply still_trans; [ | exact Hs]. unfold st0. cbn [heap].
      eapply still_trans; [apply still_same |].
      apply still_insert; rewrite lookup_total_insert_eq; auto.
  - unfold ok, mret, State_ret. eexists. split; [reflexivity |]. split.
    + rewrite net_done_each. cbn [net].
      rewrite Hset.
      * unfold advanced, observe, set_pending. simpl.
        rewrite !app_nil_r, <- !app_assoc. f_equal. lia.
      * exact Hu.
      * simpl. lia.
    + unfold done_each. cbn [heap on_net progress_end].
      eapply still_trans; [apply still_same |].
      apply still_insert; rewrite lookup_total_insert_eq; auto.
Qed.

Lemma dispatch_data_throws_on fs : forall st,
  in_memory (throwing_each name bad e) bad e (heap st) fs = true ->
  unheard (result (net st)) ->
  1 <= pending (net st) ->
  exists st',
    dispatch (throwing_each name bad e) ((fun r => FileList.mkCall FileList.PipeData (FileList.ArgFile r)) <$> fs) st
    = (inr tt, st')
    /\ net st' = advanced fs (flat_map (seen_each bad e) fs) (net st)
    /\ still (heap st) (heap st').
Proof.
  induction fs as [|r fs IH]; intros st Hi Hu Hn.
  - exists st. split; [reflexivity |]. split; [ | apply still_refl].
    simpl. rewrite advanced_nil. reflexivity.
  - apply in_memory_cons in Hi as (Hm & Hp & Hi).
    destruct (on_data_throws_on r st Hm Hp Hu Hn) as (st1 & E1 & En1 & Hs1).
    destruct (IH st1) as (st' & E' & En' & Hs').
    { eapply in_memory_still; eassumption. }
    { rewrite En1. exact Hu. }
    { rewrite En1. exact Hn. }
    exists st'. split; [ | split].
    + rewrite fmap_cons. cbn [dispatch]. unfold mtry, mbind, State_bind.
      change (handle (throwing_each name bad e) (FileList.mkCall FileList.PipeData (FileList.ArgFile r)))
        with (on_data (throwing_each name bad e) r).
      rewrite E1. exact E'.
    + rewrite En', En1, advanced_advanced. reflexivity.
    + eapply still_trans; eassumption.
Qed.

Lemma failed_app a b : failed (a ++ b) = failed a ++ failed b.
Proof. apply omap_app. Qed.
Lemma invoked_app a b : invoked (a ++ b) = invoked a ++ invoked b.
Proof. apply omap_app. Qed.
Lemma escaped_app a b : escaped (a ++ b) = escaped a ++ escaped b.
Proof. apply omap_app. Qed.
Lemma failed_called cs : failed (Called <$> cs) = [].
Proof. induction cs as [|c cs IH]; [reflexivity | exact IH]. Qed.
Lemma invoked_called cs : invoked (Called <$> cs) = [].
Proof. induction cs as [|c cs IH]; [reflexivity | exact IH]. Qed.
Lemma escaped_called cs : escaped (Called <$> cs) = [].
Proof. induction cs as [|c cs IH]; [reflexivity | exact IH]. Qed.

Lemma seen_whole_facts fs :
  invoked (flat_map (seen_whole bad e) fs) = fs
  /\ failed (flat_map (seen_whole bad e) fs) = List.filter bad fs
  /\ escaped (flat_map (seen_whole bad e) fs) = [].
Proof.
  induction fs as [|r fs (IH1 & IH2 & IH3)]; [repeat split |].
  cbn [flat_map List.filter]. rewrite invoked_app, failed_app, escaped_app, IH1, IH2, IH3.
  unfold seen_whole. destruct (bad r); repeat split.
Qed.

Lemma seen_each_facts fs :
  invoked (flat_map (seen_each bad e) fs) = fs
  /\ failed (flat_map (seen_each bad e) fs) = List.filter bad fs
  /\ escaped (flat_map (seen_each bad e) fs) = [].
Proof.
  induction fs as [|r fs (IH1 & IH2 & IH3)]; [repeat split |].
  cbn [flat_map List.filter]. rewrite invoked_app, failed_app, escaped_app, IH1, IH2, IH3.
  unfold seen_each. destruct (bad r); repeat split.
Qed.

Lemma observe_nil n : observe [] n = n.
Proof. destruct n. unfold observe. simpl. rewrite app_nil_r. reflexivity. Qed.

Lemma emit_end_whole a fs en :
  FileList.emit "end" a (FileList.mk fs en [("end"%string, FileList.PipeEnd)])
  = [FileList.mkCall FileList.PipeEnd a].
Proof. vm_compute. reflexivity. Qed.

Lemma emit_end_each a fs en :
  FileList.emit "end" a
    (FileList.mk fs en [("data"%string, FileList.PipeData); ("end"%string, FileList.PipeEnd)])
  = [FileList.mkCall FileList.PipeEnd a].
Proof. vm_compute. reflexivity. Qed.

Lemma emit_end_barrier a fs en :
  FileList.emit "end" a (FileList.mk fs en [("end"%string, FileList.BarrierDone)])
  = [FileList.mkCall FileList.BarrierDone a].
Proof. vm_compute. reflexivity. Qed.

(** The continuation given to [then], run while neither list has ended:
    it subscribes and nothing is replayed. *)
Lemma step_then_open p h w fs ls rs rl pe lo wa se :
  step p (mkStage h w (mkNet (FileList.mk fs false ls) (FileList.mk rs false rl)
                         pe true lo wa se)) ThenRun
  = mkStage h w (mkNet (FileList.mk fs false (ls ++ [("end"%string, FileList.PipeEnd)]))
                   (FileList.mk rs false (rl ++ [("end"%string, FileList.BarrierDone)]))
                   pe false lo wa se).
Proof.
  unfold step, FileList.on. cbn [net thenQueued on_net set_thenQueued result src].
  change (String.eqb "end" "data") with false. change (String.eqb "end" "end") with true.
  cbn [FileList.ended FileList.files FileList.listeners fmap list_fmap].
  unfold absorb, observe, set_result, set_src, on_net, set_thenQueued.
  cbn [dispatch ok mret State_ret heap world net src result pending thenQueued loads waits seen].
  rewrite app_nil_r. reflexivity.
Qed.

(** The end of the upstream list. *)
Lemma step_src_end p h w fs ls res pe tq lo wa se :
  step p (mkStage h w (mkNet (FileList.mk fs false ls) res pe tq lo wa se)) SrcEnd
  = absorb (dispatch p (FileList.emit "end" (FileList.ArgFiles fs) (FileList.mk fs true ls)))
      (mkStage h w (mkNet (FileList.mk fs true ls) res pe tq lo wa se)).
Proof. reflexivity. Qed.

(** The stage of a whole-list processor with the body [throws_on bad e],
    piped from the files [fs], all in memory, once the continuation ran and
    the upstream list ended. *)
Lemma whole_throws_on_run fs h w :
  in_memory (throwing_whole name bad e) bad e h fs = true ->
  net (piped (throwing_whole name bad e) fs false [] h w [ThenRun; SrcEnd])
  = result_end
      (advanced (List.filter (fun r => negb (bad r)) fs) (flat_map (seen_whole bad e) fs)
         (mkNet (FileList.mk fs true [("end"%string, FileList.PipeEnd)])
            (FileList.mk [] false [("end"%string, FileList.BarrierDone)])
            1 false [] [] [])).
Proof.
  intros Hi.
  set (st0 := mkStage h w
                (mkNet (FileList.mk fs true [("end"%string, FileList.PipeEnd)])
                   (FileList.mk [] false [("end"%string, FileList.BarrierDone)])
                   1 false [] [] [])).
  assert (E : piped (throwing_whole name bad e) fs false [] h w [ThenRun; SrcEnd]
              = absorb (dispatch (throwing_whole name bad e)
                          [FileList.mkCall FileList.PipeEnd (FileList.ArgFiles fs)]) st0).
  { unfold piped, pipe, run, FileList.upstream, FileList.empty.
    cbn [Processor.length throwing_whole Nat.ltb Nat.leb fold_left fmap list_fmap].
    rewrite step_then_open. cbn [app]. rewrite step_src_end, emit_end_whole. reflexivity. }
  rewrite E. clear E.
  destruct (proc_throws_on fs 0 st0) as (st' & Ep & En & _);
    [exact Hi | reflexivity | reflexivity |].
  unfold absorb. cbn [dispatch]. unfold mtry, mbind, State_bind.
  change (handle (throwing_whole name bad e) (FileList.mkCall FileList.PipeEnd (FileList.ArgFiles fs)) st0)
    with (proc (throwing_whole name bad e) fs 0 st0).
  rewrite Ep. cbn [ok mret State_ret]. exact En.
Qed.

(** The same for the per-file processor that is handed [done]. *)
Lemma each_throws_on_run fs h w :
  in_memory (throwing_each name bad e) bad e h fs = true ->
  net (piped (throwing_each name bad e) fs false [] h w [ThenRun; SrcEnd])
  = result_end
      (set_pending 0
         (advanced fs (flat_map (seen_each bad e) fs)
            (mkNet (FileList.mk fs true [("data"%string, FileList.PipeData);
                                         ("end"%string, FileList.PipeEnd)])
               (FileList.mk [] false [("end"%string, FileList.BarrierDone)])
               1 false [] [] []))).
Proof.
  intros Hi.
  set (st0 := mkStage h w
                (mkNet (FileList.mk fs false [("data"%string, FileList.PipeData)])
                   FileList.empty 1 true [] [] [])).
  assert (E : pipe (throwing_each name bad e) (FileList.upstream fs false []) h w
              = absorb (dispatch (throwing_each name bad e)
                          ((fun r => FileList.mkCall FileList.PipeData (FileList.ArgFile r))
                             <$> fs)) st0).
  { unfold pipe, FileList.upstream, FileList.on.
    cbn [Processor.length throwing_each Nat.ltb Nat.leb fmap list_fmap app
         FileList.files FileList.ended FileList.listeners].
    change (String.eqb "data" "data") with true. reflexivity. }
  unfold piped. rewrite E. clear E.
  destruct (dispatch_data_throws_on fs st0) as (st' & Ed & En & _);
    [exact Hi | reflexivity | simpl; lia |].
  unfold absorb. rewrite Ed.
  destruct st' as [h' w' n']. cbn [net] in En. subst n'.
  unfold run, st0, advanced, FileList.empty.
  cbn [fold_left net src result pending thenQueued loads waits seen
       FileList.files FileList.ended FileList.listeners app].
  rewrite step_then_open. cbn [app]. rewrite step_src_end, emit_end_each.
  unfold absorb. cbn [dispatch]. unfold handle, mtry, ok, throw, modify, mbind, State_bind,
    mret, State_ret.
  cbn [FileList.listener FileList.arg Processor.length throwing_each Nat.ltb Nat.leb fst snd net on_net].
  unfold settle, set_pending. cbn [pending]. change (1 - 1 >? 0) with false.
  reflexivity.
Qed.

Lemma filter_split (fs : list FileRef) :
  (length (List.filter (fun r => negb (bad r)) fs) + length (List.filter bad fs)
   = length fs)%nat.
Proof.
  induction fs as [|r fs IH]; [reflexivity |].
  cbn [List.filter]. destruct (bad r); cbn [negb length]; lia.
Qed.

(** C4 (the code at the failing input): a processor that throws on some of
    the files it is given ([bad]) and calls [done] on the others, piped
    from files that are in memory.  With arity 4 (whole-list mode, which
    adds the file from [done]), the [catch] block reports the exception
    and goes on to the next file without adding the current one: when the
    result list ends it lacks one file for each invocation that threw.
    With arity 3 (per-file mode) the same processor's [catch] block calls
    [done()], and the result list holds every file. *)
Theorem pipe_drops_files_of_throwing_processor
  (fs : list FileRef) (h : gmap FileRef File.t) (w : World) :
  in_memory (Processor.mk name 4 (throws_on bad e)) bad e h fs = true ->
  FileList.ended (result (net (piped (Processor.mk name 4 (throws_on bad e))
                                 fs false [] h w [ThenRun; SrcEnd]))) = true
  /\ (length (FileList.files (result (net (piped (Processor.mk name 4 (throws_on bad e))
                                            fs false [] h w [ThenRun; SrcEnd]))))
      + length (List.filter bad fs) = length fs)%nat
  /\ FileList.ended (result (net (piped (Processor.mk name 3 (throws_on bad e))
                                    fs false [] h w [ThenRun; SrcEnd]))) = true
  /\ FileList.files (result (net (piped (Processor.mk name 3 (throws_on bad e))
                                    fs false [] h w [ThenRun; SrcEnd]))) = fs.
Proof.
  intros Hi.
  pose proof (whole_throws_on_run fs h w Hi) as Ew.
  pose proof (each_throws_on_run fs h w Hi) as Ee.
  unfold throwing_whole in Ew. unfold throwing_each in Ee. rewrite Ew, Ee.
  unfold result_end, FileList.end_, advanced, observe, set_result, set_pending.
  cbn [result net FileList.files FileList.ended fst snd app].
  repeat split. apply filter_split.
Qed.

(** C5 (the code at the failing input): a whole-list processor (arity 4)
    that throws on some of the files it is given ([bad]) and calls [done]
    on the others, piped from the files [fs], all in memory.  Once the
    upstream list has ended, every file was handed to the processor, in
    upstream order; the result list has ended and holds, in upstream order,
    only the files the processor did not throw on: the [catch] block of
    whole-list mode calls [proc(index + 1)] without [result.add(file)]. *)
Theorem whole_list_skips_files_of_throwing_processor
  (fs : list FileRef) (h : gmap FileRef File.t) (w : World) :
  in_memory (Processor.mk name 4 (throws_on bad e)) bad e h fs = true ->
  FileList.ended (result (net (piped (Processor.mk name 4 (throws_on bad e))
                                 fs false [] h w [ThenRun; SrcEnd]))) = true
  /\ FileList.files (result (net (piped (Processor.mk name 4 (throws_on bad e))
                                    fs false [] h w [ThenRun; SrcEnd])))
     = List.filter (fun r => negb (bad r)) fs
  /\ invoked (seen (net (piped (Processor.mk name 4 (throws_on bad e))
                           fs false [] h w [ThenRun; SrcEnd]))) = fs
  /\ failed (seen (net (piped (Processor.mk name 4 (throws_on bad e))
                          fs false [] h w [ThenRun; SrcEnd]))) = List.filter bad fs
  /\ escaped (seen (net (piped (Processor.mk name 4 (throws_on bad e))
                           fs false [] h w [ThenRun; SrcEnd]))) = [].
Proof.
  intros Hi. pose proof (whole_throws_on_run fs h w Hi) as Ew. unfold throwing_whole in Ew.
  rewrite Ew. destruct (seen_whole_facts fs) as (E1 & E2 & E3).
  unfold result_end, FileList.end_, advanced, observe, set_result.
  cbn [result net seen FileList.files FileList.ended fst snd app].
  rewrite invoked_app, failed_app, escaped_app, invoked_called, failed_called, escaped_called,
    E1, E2, E3, !app_nil_r.
  repeat split.
Qed.

End ThrowingRuns.

Section ThrowingExamples.
Import Demo.

Lemma pipe_drops_files_of_throwing_processor_witness :
  FileList.files (result (net (piped Demo.picky [1%nat] false [] Demo.bac Demo.world
                                 [ThenRun; SrcEnd]))) = []
  /\ FileList.files (result (net (piped Demo.picky_each [1%nat] false [] Demo.bac Demo.world
                                    [ThenRun; SrcEnd]))) = [1%nat].
Proof.
  destruct (pipe_drops_files_of_throwing_processor "picky" (Nat.eqb 1) Demo.boom
              [1%nat] Demo.bac Demo.world) as (_ & Hw & _ & He); [reflexivity |].
  split; [ | exact He].
  unfold Demo.picky. apply length_zero_iff_nil.
  change (length (List.filter (Nat.eqb 1) [1%nat])) with 1%nat in Hw.
  change (length [1%nat]) with 1%nat in Hw. lia.
Defined.

Lemma whole_list_skips_files_of_throwing_processor_witness :
  FileList.files (result (net (piped Demo.picky [0; 1; 2]%nat false [] Demo.bac Demo.world
                                 [ThenRun; SrcEnd]))) = [0; 2]%nat.
Proof.
  destruct (whole_list_skips_files_of_throwing_processor "picky" (Nat.eqb 1) Demo.boom
              [0; 1; 2]%nat Demo.bac Demo.world) as (_ & Hf & _); [reflexivity |].
  exact Hf.
Defined.

End ThrowingExamples.

(** ** Content getters, overrides and diagnostics *)

Section ContentRoundTrip.
Context `{Encode} `{Paths} `{SourceMaps} `{FileSystem} `{Logging}.

(** X1: What is written to data, buffer or content is what is read back,
    also after the other representation was read in between: after
    file.buffer = b, reading content and then buffer still yields b; after
    file.content = s, reading buffer and then content yields s. data answers
    the dest text as soon as one exists: after file.buffer = b it yields b,
    but once content was read it yields the decoded string. *)
Theorem data_round_trip (f : File.t) (w : World) :
  (forall d, data (set_data d f, w) = (inr d, (set_data d f, w)))
  /\ (forall b,
        fst (data (set_buffer b f, w)) = inr (inr b)
        /\ fst (buffer (snd (content (set_buffer b f, w)))) = inr b
        /\ fst (data (snd (content (set_buffer b f, w))))
           = inr (inl (bufferToString b (fst (encoding (set_buffer b f, w))))))
  /\ (forall s,
        fst (content (snd (buffer (set_content s f, w)))) = inr s
        /\ fst (data (snd (buffer (set_content s f, w)))) = inr (inl s))
  /\ (forall sp p d,
        data (File_new sp p (Some d), w) = (inr d, (File_new sp p (Some d), w))).
Proof.
  split; [intros d; apply data_set_data |].
  split; [ | split; [ | intros sp p d; apply data_File_new] ].
  - intros b. split; [reflexivity |].
    rewrite content_spec. simpl. split; reflexivity.
  - intros s. rewrite buffer_spec. simpl. split; reflexivity.
Qed.

Lemma reads_disk_after_read f g w : reads_disk f (after_read g w) = reads_disk f w.
Proof. reflexivity. Qed.

Lemma srcBuffer_twice f w : read_twice srcBuffer (f, w).
Proof.
  unfold read_twice. rewrite (srcBuffer_spec f w).
  destruct (File._srcBuffer f) as [b|] eqn:Eb; cbn [fst snd].
  { rewrite srcBuffer_spec, Eb. reflexivity. }
  destruct (File._srcContent f) as [c|] eqn:Ec; cbn [fst snd].
  { rewrite srcBuffer_spec. reflexivity. }
  destruct (reads_disk f w) eqn:Er; cbn [fst snd].
  - destruct (readFileSync (File.srcPath f)) as [e|b] eqn:Erd; cbn [fst snd].
    + split; [reflexivity |].
      rewrite srcBuffer_spec, Eb, Ec, reads_disk_after_read, Er, Erd. reflexivity.
    + rewrite srcBuffer_spec. reflexivity.
  - rewrite srcBuffer_spec. reflexivity.
Qed.

Lemma srcContent_twice f w : read_twice srcContent (f, w).
Proof.
  unfold read_twice. rewrite (srcContent_spec f w).
  destruct (File._srcContent f) as [c|] eqn:Ec; cbn [fst snd].
  { rewrite srcContent_spec, Ec. reflexivity. }
  destruct (File._srcBuffer f) as [b|] eqn:Eb; cbn [fst snd].
  { rewrite srcContent_spec. reflexivity. }
  destruct (reads_disk f w) eqn:Er; cbn [fst snd].
  - destruct (readFileSync (File.srcPath f)) as [e|b] eqn:Erd; cbn [fst snd].
    + split; [reflexivity |].
      rewrite srcContent_spec, Eb, Ec, reads_disk_after_read, Er, Erd. reflexivity.
    + rewrite srcContent_spec. reflexivity.
  - rewrite srcContent_spec. reflexivity.
Qed.

(** A source getter leaves the dest slots as they are. *)
Lemma srcBuffer_dest f w :
  File._destBuffer (fst (snd (srcBuffer (f, w)))) = File._destBuffer f
  /\ File._destContent (fst (snd (srcBuffer (f, w)))) = File._destContent f.
Proof.
  rewrite srcBuffer_spec.
  destruct (File._srcBuffer f), (File._srcContent f), (reads_disk f w),
    (readFileSync (File.srcPath f)); auto.
Qed.

Lemma srcContent_dest f w :
  File._destBuffer (fst (snd (srcContent (f, w)))) = File._destBuffer f
  /\ File._destContent (fst (snd (srcContent (f, w)))) = File._destContent f.
Proof.
  rewrite srcContent_spec.
  destruct (File._srcContent f), (File._srcBuffer f), (reads_disk f w),
    (readFileSync (File.srcPath f)); auto.
Qed.

Lemma buffer_twice f w : read_twice buffer (f, w).
Proof.
  unfold read_twice. rewrite (buffer_spec f w).
  destruct (File._destBuffer f) as [b|] eqn:Eb; cbn [fst snd].
  { rewrite buffer_spec, Eb. reflexivity. }
  destruct (File._destContent f) as [c|] eqn:Ec; cbn [fst snd].
  { rewrite buffer_spec. reflexivity. }
  pose proof (srcBuffer_twice f w) as Ht. unfold read_twice in Ht.
  destruct (srcBuffer_dest f w) as [Hb Hc]. rewrite Eb in Hb. rewrite Ec in Hc.
  destruct (srcBuffer (f, w)) as [[e|b] [f1 w1]]; cbn [fst snd] in *.
  - destruct Ht as [-> Ht]. split; [reflexivity |]. rewrite buffer_spec, Eb, Ec. exact Ht.
  - rewrite buffer_spec, Hb, Hc. exact Ht.
Qed.

Lemma content_twice f w : read_twice content (f, w).
Proof.
  unfold read_twice. rewrite (content_spec f w).
  destruct (File._destContent f) as [c|] eqn:Ec; cbn [fst snd].
  { rewrite content_spec, Ec. reflexivity. }
  destruct (File._destBuffer f) as [b|] eqn:Eb; cbn [fst snd].
  { rewrite content_spec. reflexivity. }
  pose proof (srcContent_twice f w) as Ht. unfold read_twice in Ht.
  destruct (srcContent_dest f w) as [Hb Hc]. rewrite Eb in Hb. rewrite Ec in Hc.
  destruct (srcContent (f, w)) as [[e|c] [f1 w1]]; cbn [fst snd] in *.
  - destruct Ht as [-> Ht]. split; [reflexivity |]. rewrite content_spec, Eb, Ec. exact Ht.
  - rewrite content_spec, Hb, Hc. exact Ht.
Qed.

Lemma data_twice f w : read_twice data (f, w).
Proof.
  unfold read_twice. rewrite (data_spec f w).
  destruct (File._destContent f) as [c|] eqn:Ec; cbn [fst snd].
  { rewrite data_spec, Ec. reflexivity. }
  pose proof (buffer_twice f w) as Ht. unfold read_twice in Ht.
  assert (Hc : File._destContent (fst (snd (buffer (f, w)))) = None).
  { rewrite buffer_spec, Ec. destruct (File._destBuffer f); [exact Ec |].
    destruct (srcBuffer_dest f w) as [_ ->]. exact Ec. }
  destruct (buffer (f, w)) as [[e|b] [f1 w1]]; cbn [fst snd] in *.
  - destruct Ht as [-> Ht]. split; [reflexivity |]. rewrite data_spec, Ec, Ht. reflexivity.
  - rewrite data_spec, Hc, Ht. reflexivity.
Qed.

(** X2: Each content getter (srcBuffer, srcContent, buffer, content, data)
    is idempotent when it returns: read a second time it yields the same
    value and changes neither the file nor the world (no second disk read,
    no second conversion). When the read of the source throws, nothing is
    cached: the file is as before, and a second read goes to the disk again,
    in a task of its own, and throws the same. *)
Theorem content_getters_idempotent (s : File.t * World) :
  read_twice srcBuffer s
  /\ read_twice srcContent s
  /\ read_twice buffer s
  /\ read_twice content s
  /\ read_twice data s.
Proof.
  destruct s as [f w].
  split; [apply srcBuffer_twice |]. split; [apply srcContent_twice |].
  split; [apply buffer_twice |]. split; [apply content_twice | apply data_twice].
Qed.

End ContentRoundTrip.

Section SourceReads.
Context `{Encode} `{Paths} `{SourceMaps} `{FileSystem} `{Logging}.

Lemma srcBuffer_world f w :
  snd (snd (srcBuffer (f, w))) = if unloaded f && reads_disk f w then after_read f w else w.
Proof.
  rewrite srcBuffer_spec. unfold unloaded.
  destruct (File._srcBuffer f), (File._srcContent f); simpl; try reflexivity.
  destruct (reads_disk f w); [ | reflexivity].
  destruct (readFileSync (File.srcPath f)); reflexivity.
Qed.

Lemma srcContent_world f w :
  snd (snd (srcContent (f, w))) = if unloaded f && reads_disk f w then after_read f w else w.
Proof.
  rewrite srcContent_spec. unfold unloaded.
  destruct (File._srcBuffer f), (File._srcContent f); simpl; try reflexivity.
  destruct (reads_disk f w); [ | reflexivity].
  destruct (readFileSync (File.srcPath f)); reflexivity.
Qed.

Lemma buffer_world f w :
  snd (snd (buffer (f, w)))
  = if negb (modified f) && unloaded f && reads_disk f w then after_read f w else w.
Proof.
  rewrite buffer_spec. unfold modified.
  destruct (File._destBuffer f), (File._destContent f); simpl; try reflexivity.
  apply srcBuffer_world.
Qed.

Lemma content_world f w :
  snd (snd (content (f, w)))
  = if negb (modified f) && unloaded f && reads_disk f w then after_read f w else w.
Proof.
  rewrite content_spec. unfold modified.
  destruct (File._destBuffer f), (File._destContent f); simpl; try reflexivity.
  apply srcContent_world.
Qed.

(** X3: A content getter reads the source from disk (one synchronous read
    inside a task of its own, which is ended whether the read returns or
    throws) exactly when neither source slot is loaded, the file has a
    source path and the working mode is not clean, and, for buffer, content
    and data, when moreover no dest slot is set; in every other case the
    world is left as it was. With nothing loaded, srcBuffer and srcContent
    yield what the read yields or throw what it throws, and with nothing to
    read the source is empty. *)
Theorem source_read_exactly_when_needed (f : File.t) (w : World) :
  snd (snd (srcBuffer (f, w))) = (if unloaded f && reads_disk f w then after_read f w else w)
  /\ snd (snd (srcContent (f, w))) = (if unloaded f && reads_disk f w then after_read f w else w)
  /\ snd (snd (buffer (f, w)))
     = (if negb (modified f) && unloaded f && reads_disk f w then after_read f w else w)
  /\ snd (snd (content (f, w)))
     = (if negb (modified f) && unloaded f && reads_disk f w then after_read f w else w)
  /\ snd (snd (data (f, w)))
     = (if negb (modified f) && unloaded f && reads_disk f w then after_read f w else w)
  /\ (if unloaded f
      then fst (srcBuffer (f, w))
           = (if reads_disk f w then readFileSync (File.srcPath f) else inr [])
           /\ fst (srcContent (f, w))
              = (if reads_disk f w
                 then match readFileSync (File.srcPath f) with
                      | inr b => inr (bufferToString b (fst (encoding (f, w))))
                      | inl e => inl e
                      end
                 else inr ""%string)
      else True).
Proof.
  split; [apply srcBuffer_world |]. split; [apply srcContent_world |].
  split; [apply buffer_world |]. split; [apply content_world |]. split.
  - rewrite data_spec. destruct (File._destContent f) eqn:Ec; simpl.
    + unfold modified. rewrite Ec. reflexivity.
    + apply buffer_world.
  - unfold unloaded. rewrite srcBuffer_spec, srcContent_spec.
    destruct (File._srcBuffer f), (File._srcContent f); simpl; try exact I.
    destruct (reads_disk f w); [ | split; reflexivity].
    destruct (readFileSync (File.srcPath f)); split; reflexivity.
Qed.

(** [data] throws exactly what the read of the source throws. *)
Lemma data_throws f w e :
  fst (data (f, w)) = inl e ->
  needs_disk f w = true /\ readFileSync (File.srcPath f) = inl e.
Proof.
  rewrite data_spec, buffer_spec, srcBuffer_spec. unfold needs_disk, unloaded, modified.
  destruct (File._destContent f); simpl; [discriminate |].
  destruct (File._destBuffer f); simpl; [discriminate |].
  destruct (File._srcBuffer f); simpl; [discriminate |].
  destruct (File._srcContent f); simpl; [discriminate |].
  destruct (reads_disk f w); simpl; [ | discriminate].
  destruct (readFileSync (File.srcPath f)); simpl; [ | discriminate].
  intros [= ->]. auto.
Qed.

(** X4: When clone() returns, it yields a file with the receiver's data, its
    resolved source path and its path (the resolved source path when path is
    empty), and with none of the receiver's own flag overrides, source-map
    data, diagnostic counts or loaded source. It throws exactly what reading
    the receiver's data throws: then the receiver is not modified, has
    nothing loaded, and the synchronous read of its source fails. *)
Theorem clone_copies_paths_and_data (f : File.t) (w : World) :
  match fst (clone (f, w)) with
  | inr c =>
    fst (data (c, w)) = fst (data (f, w))
    /\ File.srcPath c = resolvePath1 (Some (File.srcPath f))
    /\ File.path c
       = (if str_truthy (File.path f) then File.path f
          else resolvePath1 (Some (File.srcPath f)))
    /\ File.own c = ∅
    /\ File.sourceMapData c = None
    /\ File.errorCount c = None
    /\ File.warningCount c = None
    /\ File._srcBuffer c = None
    /\ File._srcContent c = None
  | inl e =>
    fst (data (f, w)) = inl e
    /\ needs_disk f w = true
    /\ readFileSync (File.srcPath f) = inl e
  end.
Proof.
  rewrite clone_spec. cbn [fst].
  destruct (fst (data (f, w))) as [e|d] eqn:Ed.
  - split; [reflexivity |]. apply (data_throws f w e Ed).
  - rewrite data_File_new. destruct d as [c|b]; repeat split; reflexivity.
Qed.

End SourceReads.

Section FlagOverrides.
Context `{Encode} `{Paths} `{SourceMaps} `{FileSystem} `{Logging}.

(** X5: For every per-file flag other than sourceMapUrl, the setter installs
    the own property of the flag's name: the getter then yields the value
    set, and every other flag whose getter calls no global hook reads as
    before. *)
Theorem flag_override_round_trip (x y : Flag) (v : Js.value) (f : File.t) (w : World) :
  x <> FSourceMapUrl ->
  fst (get_flag x (set_flag x v f, w)) = v
  /\ (flag_name y <> flag_name x -> hooked y = false ->
      fst (get_flag y (set_flag x v f, w)) = fst (get_flag y (f, w)))
  /\ set_flag x v f = File.with_own (<[flag_name x := v]> (File.own f)) f.
Proof.
  intros Hx. split; [apply flag_round_trip; exact Hx |].
  assert (E : set_flag x v f = File.with_own (<[flag_name x := v]> (File.own f)) f).
  { destruct x; try congruence; cbn [set_flag flag_name];
      unfold set_encoding, set_sourceMap, set_sourceMapPath, set_sourceMapEmit,
        set_sourceMapInline, set_sourceMapIncludeFile, set_sourceMapRoot,
        set_sourceMapIncludeSourcesContent, set_sourceMapIncludeNames, set_overwrite,
        assign, setProperty;
      match goal with |- context [File.own f !! ?k] => destruct (File.own f !! k) end;
      reflexivity. }
  split; [ | exact E].
  intros Hy Hh. pose proof (flag_frame x y v f Hx Hy) as Hf.
  destruct (File.own f !! flag_name y) as [u|] eqn:Eu.
  - destruct y; cbn [get_flag flag_name] in *;
      unfold encoding, sourceMap, sourceMapPath, sourceMapEmit, sourceMapInline,
        sourceMapUrl, sourceMapIncludeFile, sourceMapRoot, sourceMapIncludeSourcesContent,
        sourceMapIncludeNames, overwrite, global_flag;
      rewrite (read_own _ _ _ _ u Hf), (read_own _ _ _ _ u Eu); reflexivity.
  - rewrite (flag_default y _ w Hf), (flag_default y f w Eu).
    destruct y; try discriminate; reflexivity.
Qed.

End FlagOverrides.

Section FlagExamples.
Import Demo.

Lemma flag_override_round_trip_witness :
  fst (get_flag FOverwrite (set_flag FOverwrite (Js.JBool true) Demo.blank, Demo.world))
  = Js.JBool true
  /\ fst (get_flag FEncoding (set_flag FOverwrite (Js.JBool true) Demo.blank, Demo.world))
     = Js.JStr "utf-8".
Proof.
  destruct (flag_override_round_trip FOverwrite FEncoding (Js.JBool true) Demo.blank Demo.world)
    as (Hr & Hf & _); [discriminate |].
  split; [exact Hr |]. rewrite Hf; [reflexivity | discriminate | reflexivity].
Defined.

End FlagExamples.

Section Grows.
Context `{Encode} `{Paths} `{SourceMaps} `{FileSystem} `{Logging}.

#[local] Instance grows_preorder P : PreOrder (grows P).
Proof.
  split.
  - intros s. exists []. rewrite app_nil_r. auto.
  - intros a b c (l1 & Ht1 & Hl1) (l2 & Ht2 & Hl2).
    exists (l1 ++ l2). rewrite Ht2, Ht1, app_assoc. split; [reflexivity |].
    rewrite forallb_app, Hl1, Hl2. reflexivity.
Qed.

Lemma grows_weaken (P Q : Action -> bool) s s' :
  (forall a, P a = true -> Q a = true) -> grows P s s' -> grows Q s s'.
Proof.
  intros HPQ (l & Ht & Hl). exists l. split; [exact Ht |].
  apply forallb_forall. intros a Ha. apply HPQ.
  rewrite forallb_forall in Hl. apply Hl, Ha.
Qed.

Lemma grows_same_world P {A} (m : Meth A) :
  (forall s, snd (snd (m s)) = snd s) -> preserves (grows P) m.
Proof. intros E s. exists []. rewrite E, app_nil_r. auto. Qed.

Lemma grows_emit (P : Action -> bool) a : P a = true -> preserves (grows P) (emit a).
Proof. intros Ha s. exists [a]. split; [reflexivity |]. simpl. rewrite Ha. reflexivity. Qed.

Lemma grows_beginAsync (P : Action -> bool) l a :
  (forall i, P (BeginAsync i l a) = true) -> preserves (grows P) (beginAsync l a).
Proof. intros Ha s. eexists [_]. split; [reflexivity |]. simpl. rewrite Ha. reflexivity. Qed.

Lemma grows_set_globals P u : preserves (grows P) (set_globals u).
Proof. intros s. exists []. simpl. rewrite app_nil_r. auto. Qed.

Lemma grows_on_other P {A} f' (m : Meth A) :
  preserves (grows P) m -> preserves (grows P) (on_other f' m).
Proof.
  intros Hm s. specialize (Hm (f', snd s)). unfold on_other.
  destruct (m (f', snd s)) as [a s']. exact Hm.
Qed.

#[local] Hint Extern 1 (preserves (grows _) this) =>
  apply grows_same_world; reflexivity : pres.
#[local] Hint Extern 1 (preserves (grows _) global) =>
  apply grows_same_world; reflexivity : pres.
#[local] Hint Extern 1 (preserves (grows _) (update _)) =>
  apply grows_same_world; reflexivity : pres.
#[local] Hint Extern 1 (preserves (grows _) (emit _)) =>
  apply grows_emit; reflexivity : pres.
#[local] Hint Extern 1 (preserves (grows _) (endAsync _)) =>
  apply grows_emit; reflexivity : pres.
#[local] Hint Extern 1 (preserves (grows _) (beginAsync _ _)) =>
  apply grows_beginAsync; reflexivity : pres.
#[local] Hint Resolve grows_set_globals grows_on_other : pres.

Lemma grows_get_flag P x : preserves (grows P) (get_flag x).
Proof. apply grows_same_world. intros s. rewrite get_flag_pure. reflexivity. Qed.

Lemma reads_encoding : preserves (grows reading) encoding.
Proof. apply (grows_get_flag _ FEncoding). Qed.
#[local] Hint Resolve reads_encoding : pres.

Lemma reads_syncRead p : preserves (grows reading) (syncRead p).
Proof. unfold syncRead. pres. Qed.
#[local] Hint Resolve reads_syncRead : pres.

Lemma reads_srcBuffer : preserves (grows reading) srcBuffer.
Proof. unfold srcBuffer. pres. Qed.
Lemma reads_srcContent : preserves (grows reading) srcContent.
Proof. unfold srcContent. pres. Qed.
#[local] Hint Resolve reads_srcBuffer reads_srcContent : pres.

Lemma reads_buffer : preserves (grows reading) buffer.
Proof. unfold buffer. pres. Qed.
Lemma reads_content : preserves (grows reading) content.
Proof. unfold content. pres. Qed.
#[local] Hint Resolve reads_buffer reads_content : pres.

Lemma reads_FileLogEntry_new d : preserves (grows reading) (FileLogEntry_new d).
Proof. unfold FileLogEntry_new. pres. Qed.

#[local] Hint Extern 1 (preserves (grows ?P) ?m) =>
  first [ apply (grows_get_flag P FEncoding) | apply (grows_get_flag P FSourceMap)
        | apply (grows_get_flag P FSourceMapPath) | apply (grows_get_flag P FSourceMapEmit)
        | apply (grows_get_flag P FSourceMapInline) | apply (grows_get_flag P FSourceMapUrl)
        | apply (grows_get_flag P FSourceMapIncludeFile)
        | apply (grows_get_flag P FSourceMapRoot)
        | apply (grows_get_flag P FSourceMapIncludeSourcesContent)
        | apply (grows_get_flag P FSourceMapIncludeNames)
        | apply (grows_get_flag P FOverwrite) ] : pres.

Lemma reads_sourceMapObject : preserves (grows reading) sourceMapObject.
Proof. unfold sourceMapObject. pres. Qed.
#[local] Hint Resolve reads_sourceMapObject : pres.

Lemma reads_sourceMapString : preserves (grows reading) sourceMapString.
Proof. unfold sourceMapString. pres. Qed.
#[local] Hint Resolve reads_sourceMapString : pres.

Lemma reads_sourcesContent_loop o srcs i :
  preserves (grows reading) (sourcesContent_loop o srcs i).
Proof. revert i. induction srcs as [|s srcs IH]; intros i; simpl; pres. Qed.
#[local] Hint Resolve reads_sourcesContent_loop : pres.

Lemma reads_sources_loop sh base done todo :
  preserves (grows reading) (sources_loop sh base done todo).
Proof. revert done. induction todo as [|s rest IH]; intros done; cbn [sources_loop]; pres. Qed.
Lemma reads_discarded_sourceMapUrl sp smp fsm :
  preserves (grows reading) (discarded_sourceMapUrl sp smp fsm).
Proof. unfold discarded_sourceMapUrl. pres. Qed.
#[local] Hint Resolve reads_sources_loop reads_discarded_sourceMapUrl : pres.

Lemma reads_save_sourceMap sp smp em : preserves (grows reading) (save_sourceMap sp smp em).
Proof. unfold save_sourceMap. pres. Qed.

Lemma reads_save_content b : preserves (grows reading) (save_content b).
Proof. unfold save_content. pres. Qed.

End Grows.

Section Diagnostics.
Context `{Encode} `{Paths} `{SourceMaps} `{FileSystem} `{Logging}.

Lemma log_passed (d : LogData) (level : LogLevel.t) (f : File.t) (w : World) :
  log_hook_passes (globals w) ->
  match fst (FileLogEntry_new d (f, w)) with
  | inr entry =>
    fst (log d level (f, w)) = inr tt
    /\ File.errorCount (fst (snd (log d level (f, w))))
       = match level with
         | LogLevel.error | LogLevel.fatal => bump (File.errorCount f)
         | _ => File.errorCount f
         end
    /\ File.warningCount (fst (snd (log d level (f, w))))
       = match level with
         | LogLevel.warning => bump (File.warningCount f)
         | _ => File.warningCount f
         end
    /\ exists l,
         trace (snd (snd (log d level (f, w)))) = trace w ++ l ++ [Log entry level]
         /\ forallb reading l = true
  | inl e =>
    log d level (f, w) = (inl e, snd (FileLogEntry_new d (f, w)))
    /\ same_counts (f, w) (snd (log d level (f, w)))
    /\ grows reading (f, w) (snd (log d level (f, w)))
  end.
Proof.
  intros Hh.
  pose proof (harmless_FileLogEntry_new d (f, w)) as [Hg _].
  pose proof (same_counts_FileLogEntry_new d (f, w)) as Hs.
  pose proof (reads_FileLogEntry_new d (f, w)) as Hr.
  rewrite log_after_entry.
  destruct (FileLogEntry_new d (f, w)) as [[e|entry] [f1 w1]]; simpl in *; [auto |].
  replace (match Global.onLogFile (globals w1) with
           | Some h => Js.is_false (h entry level f1)
           | None => false
           end) with false.
  2:{ unfold log_hook_passes in Hh. rewrite Hg.
      destruct (Global.onLogFile (globals w)); [ | reflexivity]. symmetry. apply Hh. }
  destruct Hs as [He Hw]. simpl in He, Hw. destruct Hr as (l & Ht & Hl). simpl in Ht.
  simpl. split; [reflexivity |].
  split; [destruct level; simpl; congruence |].
  split; [destruct level; simpl; congruence |].
  exists l. rewrite Ht, <- app_assoc. auto.
Qed.

(** X6: When onLogFile is absent or does not answer false and the
    FileLogEntry can be built, log(data, level) returns, bumps errorCount
    for error and fatal, warningCount for warning and neither for log, and
    ends by logging the entry at that level; before that it does nothing
    but, at most, read the source. When building the entry throws, log
    throws the same and stops there: no counter changes, nothing is logged. *)
Theorem log_counts_by_level (d : LogData) (level : LogLevel.t) (f : File.t) (w : World) :
  log_hook_passes (globals w) ->
  match fst (FileLogEntry_new d (f, w)) with
  | inr entry =>
    fst (log d level (f, w)) = inr tt
    /\ File.errorCount (fst (snd (log d level (f, w))))
       = match level with
         | LogLevel.error | LogLevel.fatal => bump (File.errorCount f)
         | _ => File.errorCount f
         end
    /\ File.warningCount (fst (snd (log d level (f, w))))
       = match level with
         | LogLevel.warning => bump (File.warningCount f)
         | _ => File.warningCount f
         end
    /\ exists l,
         trace (snd (snd (log d level (f, w)))) = trace w ++ l ++ [Log entry level]
         /\ forallb reading l = true
  | inl e =>
    log d level (f, w) = (inl e, snd (FileLogEntry_new d (f, w)))
    /\ same_counts (f, w) (snd (log d level (f, w)))
    /\ grows reading (f, w) (snd (log d level (f, w)))
  end.
Proof. apply log_passed. Qed.

(** X7: When onLogFile answers false, log leaves both diagnostic counters as
    they were and logs nothing: the state is the one after the FileLogEntry
    was built. *)
Theorem log_dropped_by_hook (d : LogData) (level : LogLevel.t) (f : File.t) (w : World) :
  log_hook_drops (globals w) ->
  same_counts (f, w) (snd (log d level (f, w)))
  /\ grows reading (f, w) (snd (log d level (f, w)))
  /\ snd (log d level (f, w)) = snd (FileLogEntry_new d (f, w)).
Proof.
  intros Hh.
  pose proof (harmless_FileLogEntry_new d (f, w)) as [Hg _].
  pose proof (same_counts_FileLogEntry_new d (f, w)) as Hc.
  pose proof (reads_FileLogEntry_new d (f, w)) as Hr.
  rewrite log_after_entry.
  destruct (FileLogEntry_new d (f, w)) as [[e|entry] [f1 w1]]; simpl in *; [auto |].
  unfold log_hook_drops in Hh. rewrite Hg.
  destruct (Global.onLogFile (globals w)) as [h|]; [ | contradiction].
  rewrite Hh. auto.
Qed.

(** A diagnostic without a position, reported on a file whose content is
    ready, leaves the content ready. *)
Lemma error_keeps_ready d f w :
  content_ready f w = true -> positionless d = true ->
  fst (error d (f, w)) = inr tt
  /\ content_ready (fst (snd (error d (f, w)))) (snd (snd (error d (f, w)))) = true.
Proof.
  intros Hc Hp. split; [apply error_returns; assumption |].
  pose proof (content_twice f w) as Ht. unfold read_twice in Ht.
  rewrite content_ready_spec in Hc. apply negb_true_iff in Hc.
  unfold positionless in Hp. apply bool_decide_eq_true in Hp.
  unfold error. rewrite log_after_entry.
  unfold FileLogEntry_new, mtry, ok, throw, this, mbind, State_bind, mret, State_ret; simpl.
  rewrite Hp.
  assert (Hready :
            content_ready (fst (snd (content (f, w)))) (snd (snd (content (f, w)))) = true).
  { rewrite content_ready_spec.
    destruct (content (f, w)) as [[e'|c] [f1 w1]]; simpl in *; [discriminate |].
    rewrite Ht. reflexivity. }
  destruct (LogEntry.content (LogEntry_new d)) as [c0|]; simpl.
  - assert (Hc0 : content_ready f w = true)
      by (rewrite content_ready_spec, Hc; reflexivity).
    destruct (match LogEntry.sourceMapData (LogEntry_new d) with
              | Some d0 => Some d0
              | None => File.sourceMapData f
              end); simpl;
      destruct (match Global.onLogFile (globals w) with
                | Some h => _
                | None => false
                end); simpl; exact Hc0.
  - destruct (content (f, w)) as [[e'|c'] [f1 w1]]; simpl in *; [discriminate |].
    destruct (match LogEntry.sourceMapData (LogEntry_new d) with
              | Some d0 => Some d0
              | None => File.sourceMapData f1
              end); simpl;
      destruct (match Global.onLogFile (globals w1) with
                | Some h => _
                | None => false
                end); simpl; exact Hready.
Qed.

Lemma reported_all ds : forall f w,
  content_ready f w = true -> forallb positionless ds = true ->
  reported ds (f, w) = length ds.
Proof.
  induction ds as [|d ds IH]; intros f w Hc Hp; [reflexivity |].
  cbn [forallb] in Hp. apply andb_true_iff in Hp as [Hd Hp].
  destruct (error_keeps_ready d f w Hc Hd) as [Hr Hk].
  cbn [reported length]. rewrite Hr. cbn [threw].
  destruct (snd (error d (f, w))) as [f1 w1] eqn:E. cbn [fst snd] in Hk.
  rewrite (IH f1 w1 Hk Hp). reflexivity.
Qed.

Lemma report_counts ds : forall f w k,
  log_hook_passes (globals w) -> 0 <= k ->
  (File.errorCount f = if k =? 0 then None else Some k) ->
  File.errorCount (fst (report ds (f, w)))
  = (if k + Z.of_nat (reported ds (f, w)) =? 0 then None
     else Some (k + Z.of_nat (reported ds (f, w))))
  /\ File.warningCount (fst (report ds (f, w))) = File.warningCount f.
Proof.
  induction ds as [|d ds IH]; intros f w k Hh Hk Hc.
  - simpl. rewrite Z.add_0_r. auto.
  - change (report (d :: ds) (f, w)) with (report ds (snd (error d (f, w)))).
    cbn [reported].
    pose proof (log_passed d LogLevel.error f w Hh) as Hl.
    pose proof (harmless_log d LogLevel.error (f, w)) as [Hg _].
    unfold error in *.
    assert (Ee : fst (log d LogLevel.error (f, w))
                 = match fst (FileLogEntry_new d (f, w)) with
                   | inr _ => inr tt
                   | inl e => inl e
                   end).
    { destruct (fst (FileLogEntry_new d (f, w))); [destruct Hl as [-> _] | destruct Hl as [-> _]];
        reflexivity. }
    rewrite Ee.
    destruct (fst (FileLogEntry_new d (f, w))) as [e|entry]; cbn [threw].
    + destruct Hl as (_ & [He Hw] & _).
      destruct (log d LogLevel.error (f, w)) as [r [f1 w1]]. simpl in *.
      destruct (IH f1 w1 k) as [IH1 IH2]; [rewrite Hg; exact Hh | exact Hk | congruence |].
      split; [exact IH1 | congruence].
    + destruct Hl as (_ & He & Hw & _).
      destruct (log d LogLevel.error (f, w)) as [r [f1 w1]]. simpl in *.
      destruct (IH f1 w1 (k + 1)) as [IH1 IH2].
      * rewrite Hg. exact Hh.
      * lia.
      * rewrite He, Hc. destruct (k =? 0) eqn:E; simpl.
        -- apply Z.eqb_eq in E. subst k. reflexivity.
        -- apply Z.eqb_neq in E. destruct (k + 1 =? 0) eqn:E1; [lia | reflexivity].
      * rewrite IH1, IH2.
        replace (k + 1 + Z.of_nat (reported ds (f1, w1)))
          with (k + Z.of_nat (1 + reported ds (f1, w1))) by lia.
        split; [reflexivity | exact Hw].
Qed.

(** X8: Diagnostics reported one after the other through file.error on a
    file that has no errorCount yet leave errorCount equal to the number of
    calls that returned (still unset when none did) and warningCount as it
    was (onLogFile absent or not answering false). Every call returns, so
    that errorCount is the number of diagnostics, when the content of the
    file is ready and no diagnostic has a position. *)
Theorem errorCount_counts_errors (ds : list LogData) (f : File.t) (w : World) :
  log_hook_passes (globals w) -> File.errorCount f = None ->
  File.errorCount (fst (report ds (f, w)))
  = (if (reported ds (f, w) =? 0)%nat then None else Some (Z.of_nat (reported ds (f, w))))
  /\ File.warningCount (fst (report ds (f, w))) = File.warningCount f
  /\ (content_ready f w = true -> forallb positionless ds = true ->
      reported ds (f, w) = length ds).
Proof.
  intros Hh Hc.
  destruct (report_counts ds f w 0 Hh) as [E1 E2]; [lia | exact Hc |].
  split; [ | split; [exact E2 | apply reported_all] ].
  rewrite E1. cbn [Z.add].
  destruct (reported ds (f, w)) as [|n]; reflexivity.
Qed.

End Diagnostics.

Section DiagnosticsExamples.
Import Demo.

Lemma log_counts_by_level_witness :
  File.errorCount (fst (snd (log (LogMessage "bad") LogLevel.fatal (Demo.written, Demo.world))))
  = Some 1
  /\ File.warningCount
       (fst (snd (log (LogMessage "bad") LogLevel.fatal (Demo.written, Demo.world)))) = None.
Proof.
  pose proof (log_counts_by_level (LogMessage "bad") LogLevel.fatal Demo.written Demo.world I)
    as T.
  destruct T as (_ & He & Hw & _).
  split; [rewrite He | rewrite Hw]; reflexivity.
Defined.

Lemma log_dropped_by_hook_witness :
  File.errorCount (fst (snd (log (LogMessage "bad") LogLevel.error (Demo.written, muted))))
  = None.
Proof.
  destruct (log_dropped_by_hook (LogMessage "bad") LogLevel.error Demo.written muted)
    as ([He _] & _ & _); [intros e l f; reflexivity |].
  exact He.
Defined.

Lemma errorCount_counts_errors_witness :
  File.errorCount
    (fst (report [LogMessage "a"; LogMessage "b"; LogMessage "c"] (Demo.written, Demo.world)))
  = Some 3.
Proof.
  destruct (errorCount_counts_errors [LogMessage "a"; LogMessage "b"; LogMessage "c"]
              Demo.written Demo.world) as (He & _ & Hn); [exact I | reflexivity |].
  rewrite He, Hn; reflexivity.
Defined.

End DiagnosticsExamples.

Section LogEntries.
Context `{Encode} `{Paths} `{SourceMaps} `{FileSystem} `{Logging}.

Lemma content_sourceMapData f w :
  File.sourceMapData (fst (snd (content (f, w)))) = File.sourceMapData f
  /\ File.path (fst (snd (content (f, w)))) = File.path f.
Proof.
  rewrite content_spec.
  destruct (File._destContent f), (File._destBuffer f); simpl; auto.
  rewrite srcContent_spec.
  destruct (File._srcContent f), (File._srcBuffer f); simpl; auto.
  destruct (reads_disk f w); simpl; auto.
  destruct (readFileSync (File.srcPath f)); simpl; auto.
Qed.

(** The entry before the final read of the source content. *)
Lemma FileLogEntry_new_unfold d f w :
  FileLogEntry_new d (f, w)
  = let e := LogEntry_new d in
    match (match LogEntry.content e with
           | Some c => (inr c, (f, w))
           | None => content (f, w)
           end) with
    | (inl x, s) => (inl x, s)
    | (inr c1, s1) =>
      let e1 :=
        LogEntry.mk (LogEntry.message e) (LogEntry.plugin e)
          (Some (default (File.path f) (LogEntry.path e))) (Some c1)
          (LogEntry.startLine e) (LogEntry.startColumn e) (LogEntry.endLine e)
          (LogEntry.endColumn e) (LogEntry.error e) (LogEntry.sourceMap e)
          (entry_data e f) in
      match (if remapped e f
             then match LogEntry.startLine e, entry_data e f with
                  | Some sl, Some b => FileLogEntry_remap e1 b sl
                  | _, _ => inr e1
                  end
             else inr e1) with
      | inl x => (inl x, s1)
      | inr e2 =>
        match LogEntry.content e2, LogEntry.path e2, LogEntry.startLine e2 with
        | None, Some p, Some _ =>
          match on_other (File_new (Some p) None None) srcContent s1 with
          | (inl x, s2) => (inl x, s2)
          | (inr c, s2) =>
            (inr (LogEntry.mk (LogEntry.message e2) (LogEntry.plugin e2) (LogEntry.path e2)
                    (Some c) (LogEntry.startLine e2) (LogEntry.startColumn e2)
                    (LogEntry.endLine e2) (LogEntry.endColumn e2) (LogEntry.error e2)
                    (LogEntry.sourceMap e2) (LogEntry.sourceMapData e2)), s2)
          end
        | _, _, _ => (inr e2, s1)
        end
      end
    end.
Proof.
  cbv zeta. unfold FileLogEntry_new, remapped, entry_data.
  generalize (LogEntry_new d). intros e.
  unfold mtry, ok, throw, this, mbind, State_bind, mret, State_ret. cbn [fst snd].
  assert (Hd : forall c s, (match LogEntry.content e with
                            | Some c => (inr c, (f, w))
                            | None => content (f, w)
                            end) = (inr c, s) ->
               File.sourceMapData (fst s) = File.sourceMapData f).
  { intros c s E. destruct (LogEntry.content e).
    - inversion E. reflexivity.
    - destruct (content_sourceMapData f w) as [Hs _]. rewrite E in Hs. exact Hs. }
  destruct (LogEntry.content e) as [c0|] eqn:Ec.
  - cbn [fst snd].
    destruct (LogEntry.startLine e) as [sl|] eqn:Esl;
      destruct (LogEntry.sourceMapData e) as [b|] eqn:Eb;
      try destruct (File.sourceMapData f) as [b'|] eqn:Ef;
      destruct (bool_decide (LogEntry.sourceMap e = Some false));
      cbn -[FileLogEntry_remap on_other data_truthy]; rewrite ?Ec, ?Esl; try reflexivity.
    all: repeat match goal with
                | |- context [data_truthy ?x] => destruct (data_truthy x)
                end; cbn -[FileLogEntry_remap on_other]; rewrite ?Ec, ?Esl; try reflexivity.
    all: match goal with
         | |- context [FileLogEntry_remap ?a ?b ?c] =>
           destruct (FileLogEntry_remap a b c) as [x|e2]; [reflexivity |]
         end.
    all: destruct (LogEntry.content e2), (LogEntry.path e2), (LogEntry.startLine e2);
      try reflexivity.
    all: destruct (on_other _ _ _) as [[x|c] s2]; reflexivity.
  - destruct (content (f, w)) as [[x|c1] [f1 w1]] eqn:Econ; cbn [fst snd]; [reflexivity |].
    specialize (Hd c1 (f1, w1) eq_refl). cbn [fst] in Hd. rewrite Hd.
    destruct (LogEntry.startLine e) as [sl|] eqn:Esl;
      destruct (LogEntry.sourceMapData e) as [b|] eqn:Eb;
      try destruct (File.sourceMapData f) as [b'|] eqn:Ef;
      destruct (bool_decide (LogEntry.sourceMap e = Some false));
      cbn -[FileLogEntry_remap on_other data_truthy]; rewrite ?Ec, ?Esl; try reflexivity.
    all: repeat match goal with
                | |- context [data_truthy ?x] => destruct (data_truthy x)
                end; cbn -[FileLogEntry_remap on_other]; rewrite ?Ec, ?Esl; try reflexivity.
    all: match goal with
         | |- context [FileLogEntry_remap ?a ?b ?c] =>
           destruct (FileLogEntry_remap a b c) as [x|e2]; [reflexivity |]
         end.
    all: destruct (LogEntry.content e2), (LogEntry.path e2), (LogEntry.startLine e2);
      try reflexivity.
    all: destruct (on_other _ _ _) as [[x|c] s2]; reflexivity.
Qed.


(** What the remapping does to an entry that has a path. *)
Lemma FileLogEntry_remap_spec e b sl e2 :
  FileLogEntry_remap e b sl = inr e2 ->
  LogEntry.sourceMap e2 = Some false
  /\ LogEntry.startLine e2
     = Some (line (getSource (toSourceMapBuilder b) sl (default 0 (LogEntry.startColumn e))))
  /\ LogEntry.startColumn e2
     = Some (column (getSource (toSourceMapBuilder b) sl (default 0 (LogEntry.startColumn e))))
  /\ (exists same,
        pathEquals_loose (LogEntry.path e)
          (sourcePath (getSource (toSourceMapBuilder b) sl
                         (default 0 (LogEntry.startColumn e)))) = inr same
        /\ LogEntry.path e2
           = if same then LogEntry.path e
             else sourcePath (getSource (toSourceMapBuilder b) sl
                                (default 0 (LogEntry.startColumn e))))
  /\ (is_Some (LogEntry.endLine e) ->
      LogEntry.endLine e2 = None -> LogEntry.endColumn e2 = None).
Proof.
  unfold FileLogEntry_remap. cbv zeta.
  destruct (pathEquals_loose (LogEntry.path e) _) as [x|same] eqn:Ep; [discriminate |].
  destruct (LogEntry.endLine e) as [el|] eqn:Eel.
  - match goal with
    | |- context [match pathEquals_loose ?a ?b with _ => _ end] =>
      destruct (pathEquals_loose a b) as [x|sameEnd]; [discriminate |]
    end.
    intros Heq. injection Heq as Heq. subst e2. cbn. repeat split; eauto.
    destruct sameEnd; [discriminate | reflexivity].
  - intros Heq. injection Heq as Heq. subst e2. cbn. repeat split; eauto.
    intros [? ?]. discriminate.
Qed.

(** X9: new FileLogEntry(file, data) whose position is not remapped throws
    exactly when the data brings no content and the content of the file
    cannot be had. When the constructor returns and the position is remapped
    (sourceMap is not false, startLine is defined and source-map data is
    present on the entry or the file), sourceMap becomes false, the start
    line and column are those of the source location, the path stays the
    entry's path (by default the file's) if pathEquals finds it equal to the
    source path of the location and becomes that source path, which may be
    undefined, otherwise, and an end line dropped by the remap takes the end
    column with it. When it returns and the position is not remapped, the
    entry has a path, by default the file's, a content, and the positions
    given. *)
Theorem FileLogEntry_positions (d : LogData) (f : File.t) (w : World) :
  (if remapped (LogEntry_new d) f then True
   else threw (fst (FileLogEntry_new d (f, w)))
        = negb (bool_decide (is_Some (LogEntry.content (LogEntry_new d)))
                || content_ready f w))
  /\ match fst (FileLogEntry_new d (f, w)) with
     | inl _ => True
     | inr entry =>
       if remapped (LogEntry_new d) f
       then LogEntry.sourceMap entry = Some false
            /\ (exists b sl same,
                  entry_data (LogEntry_new d) f = Some b
                  /\ LogEntry.startLine (LogEntry_new d) = Some sl
                  /\ LogEntry.startLine entry
                     = Some (line (getSource (toSourceMapBuilder b) sl
                                     (default 0 (LogEntry.startColumn (LogEntry_new d)))))
                  /\ LogEntry.startColumn entry
                     = Some (column (getSource (toSourceMapBuilder b) sl
                                       (default 0 (LogEntry.startColumn (LogEntry_new d)))))
                  /\ pathEquals_loose
                       (Some (default (File.path f) (LogEntry.path (LogEntry_new d))))
                       (sourcePath (getSource (toSourceMapBuilder b) sl
                                      (default 0 (LogEntry.startColumn (LogEntry_new d)))))
                     = inr same
                  /\ LogEntry.path entry
                     = if same
                       then Some (default (File.path f) (LogEntry.path (LogEntry_new d)))
                       else sourcePath (getSource (toSourceMapBuilder b) sl
                                          (default 0 (LogEntry.startColumn (LogEntry_new d)))))
            /\ (is_Some (LogEntry.endLine (LogEntry_new d)) ->
                LogEntry.endLine entry = None -> LogEntry.endColumn entry = None)
       else LogEntry.path entry
            = Some (default (File.path f) (LogEntry.path (LogEntry_new d)))
            /\ is_Some (LogEntry.content entry)
            /\ LogEntry.startLine entry = LogEntry.startLine (LogEntry_new d)
            /\ LogEntry.startColumn entry = LogEntry.startColumn (LogEntry_new d)
            /\ LogEntry.endLine entry = LogEntry.endLine (LogEntry_new d)
            /\ LogEntry.endColumn entry = LogEntry.endColumn (LogEntry_new d)
     end.
Proof.
  rewrite FileLogEntry_new_unfold. cbv zeta.
  generalize (LogEntry_new d). intros e.
  rewrite content_ready_spec.
  set (first := match LogEntry.content e with
                | Some c => (inr c, (f, w))
                | None => content (f, w)
                end).
  assert (Hfirst : threw (fst first)
                   = negb (bool_decide (is_Some (LogEntry.content e))
                           || negb (threw (fst (content (f, w)))))).
  { unfold first. destruct (LogEntry.content e) as [c|].
    - rewrite bool_decide_eq_true_2 by eauto. reflexivity.
    - rewrite bool_decide_eq_false_2 by (intros [? ?]; discriminate).
      simpl. rewrite negb_involutive. reflexivity. }
  destruct first as [[x|c1] s1]; cbn [fst threw] in Hfirst.
  { split; [ | exact I]. destruct (remapped e f); [exact I | exact Hfirst]. }
  destruct (remapped e f) eqn:Er.
  - split; [exact I |].
    unfold remapped in Er. apply andb_true_iff in Er as [Er Hdt].
    apply andb_true_iff in Er as [Hsl Hsm]. apply bool_decide_eq_true in Hsl as [sl Hsl].
    rewrite Hsl.
    destruct (entry_data e f) as [b|] eqn:Eb; [ | discriminate].
    set (e1 := LogEntry.mk _ _ _ _ _ _ _ _ _ _ _).
    pose proof (FileLogEntry_remap_spec e1 b sl) as Hspec.
    destruct (FileLogEntry_remap e1 b sl) as [x|e2]; [exact I |].
    destruct (Hspec e2 eq_refl) as (H5 & H6 & H7 & (same & H8 & H9) & H10).
    assert (Hgoal : forall entry,
              LogEntry.sourceMap entry = LogEntry.sourceMap e2 ->
              LogEntry.startLine entry = LogEntry.startLine e2 ->
              LogEntry.startColumn entry = LogEntry.startColumn e2 ->
              LogEntry.path entry = LogEntry.path e2 ->
              LogEntry.endLine entry = LogEntry.endLine e2 ->
              LogEntry.endColumn entry = LogEntry.endColumn e2 ->
              LogEntry.sourceMap entry = Some false
              /\ (exists b0 sl0 same0,
                    Some b = Some b0 /\ Some sl = Some sl0
                    /\ LogEntry.startLine entry
                       = Some (line (getSource (toSourceMapBuilder b0) sl0
                                       (default 0 (LogEntry.startColumn e))))
                    /\ LogEntry.startColumn entry
                       = Some (column (getSource (toSourceMapBuilder b0) sl0
                                         (default 0 (LogEntry.startColumn e))))
                    /\ pathEquals_loose (Some (default (File.path f) (LogEntry.path e)))
                         (sourcePath (getSource (toSourceMapBuilder b0) sl0
                                        (default 0 (LogEntry.startColumn e)))) = inr same0
                    /\ LogEntry.path entry
                       = if same0 then Some (default (File.path f) (LogEntry.path e))
                         else sourcePath (getSource (toSourceMapBuilder b0) sl0
                                            (default 0 (LogEntry.startColumn e))))
              /\ (is_Some (LogEntry.endLine e) ->
                  LogEntry.endLine entry = None -> LogEntry.endColumn entry = None)).
    { intros entry E1 E2 E3 E4 E5 E6. rewrite E1, E2, E3, E4, E5, E6.
      split; [exact H5 |]. split; [ | exact H10].
      exists b, sl, same. repeat split; assumption. }
    destruct (LogEntry.content e2) eqn:Ec2, (LogEntry.path e2) eqn:Ep2,
      (LogEntry.startLine e2) eqn:Es2;
      cbn [fst]; try (apply Hgoal; congruence).
    match goal with
    | |- context [on_other ?a ?b ?c] => destruct (on_other a b c) as [[x|c0] s2]
    end; cbn [fst]; [exact I |].
    apply Hgoal; cbn; congruence.
  - split; [exact Hfirst |]. cbn. repeat split. eauto.
Qed.

End LogEntries.

Section FlagValues.
Context `{Encode} `{Paths} `{SourceMaps} `{FileSystem} `{Logging}.

Lemma flag_value x s : get_flag x s = (fst (get_flag x s), s).
Proof. rewrite <- (get_flag_pure x s) at 3. destruct (get_flag x s); reflexivity. Qed.

End FlagValues.

(** Replaces a read of the accessor [x] by its value; the state is the
    same after it. *)
Ltac pure_flag x s :=
  let E := fresh in
  pose proof (flag_value x s) as E; cbn [get_flag] in E; rewrite E; clear E.

Section SaveBuildMode.
Context `{Encode} `{Paths} `{SourceMaps} `{FileSystem} `{Logging}.

(** [save] past its guards when building: the task, the source-map block,
    the write or the copy of the artifact, the write of the map. *)
Lemma save_build dir f w :
  validated dir f w = true ->
  pathEquals (File.srcPath f) (savePath_of dir f)
  && negb (modified f || emits_sourceMap f w) = false ->
  pathEquals (File.srcPath f) (savePath_of dir f)
  && negb (Js.truthy (fst (overwrite (f, w)))) = false ->
  WorkingMode.has (Global.workingMode (globals w)) WorkingMode.clean = false ->
  WorkingMode.has (Global.workingMode (globals w)) WorkingMode.preview = false ->
  save dir (f, w)
  = let sp := savePath_of dir f in
    let smp := match File.sourceMapData f with
               | None => Js.JUndefined
               | Some d =>
                 if negb (data_truthy (Some d)) then Js.JStr ""
                 else if Js.truthy (fst (sourceMapInline (f, w))) then Js.JBool false
                 else Js.or (fst (sourceMapPath (f, w))) (Js.JStr (sp +:+ ".map"))
               end in
    let em := emits_sourceMap f w in
    let w1 := mkWorld (globals w) (S (nextTask w))
                (trace w ++ [BeginAsync (nextTask w)
                               (if modified f || em then "Save: {file}" else "Copy: {file}")
                               (getDisplayName sp)]) in
    match save_sourceMap sp smp em (f, w1) with
    | (inl e, s) => (inl e, s)
    | (inr fin, s1) =>
      match (if modified f || em
             then match save_content em s1 with
                  | (inl e, s) => (inl e, s)
                  | (inr b, s) =>
                    (inr tt, (fst s, mkWorld (globals (snd s)) (nextTask (snd s))
                                       (trace (snd s) ++ [WriteFile sp b])))
                  end
             else (inr tt, (fst s1, mkWorld (globals (snd s1)) (nextTask (snd s1))
                                      (trace (snd s1) ++ [CopyFile (File.srcPath f) sp]))))
      with
      | (inl e, s) => (inl e, s)
      | (inr _, s2) =>
        if negb (Js.truthy (fst (sourceMapInline s2))) && Js.truthy fin
        then (inr (SavePending (mkPendingSave sp (nextTask w) 2)),
              (fst s2, mkWorld (globals (snd s2)) (nextTask (snd s2))
                         (trace (snd s2)
                          ++ [WriteFile (Js.to_string smp)
                                (stringToBuffer (Js.to_string fin) (Js.JStr "utf-8"))])))
        else (inr (SavePending (mkPendingSave sp (nextTask w) 1)), s2)
      end
    end.
Proof.
  intros Hv Hg1 Hg2 Hc Hpr. cbv zeta. unfold emits_sourceMap in *.
  unfold save, mtry, ok, throw, this, global, beginAsync, emit, mbind, State_bind, mret, State_ret.
  cbn [fst snd].
  unfold validated in Hv. rewrite Hc, Hpr.
  destruct (Global.onValidateFile (globals w)) as [h|]; rewrite ?Hv; cbn [negb].
  all: pure_flag FSourceMapEmit (f, w); cbn [fst snd];
    pure_flag FOverwrite (f, w); cbn [fst snd]; rewrite Hg1, Hg2;
    pure_flag FSourceMapInline (f, w); cbn [fst snd];
    pure_flag FSourceMapPath (f, w); cbn [fst snd].
  all: match goal with
       | |- context [save_sourceMap ?a ?b ?c ?s] =>
         destruct (save_sourceMap a b c s) as [[e|fin] s1]; [reflexivity |]
       end.
  all: destruct (modified f || _); cbn [fst snd].
  all: try match goal with
           | |- context [save_content ?c ?s] =>
             destruct (save_content c s) as [[e|b] s2]; [reflexivity |]
           end.
  all: match goal with |- context [sourceMapInline ?s] => pure_flag FSourceMapInline s end;
    cbn [fst snd];
    match goal with |- context [if ?c then _ else _] => destruct c end; reflexivity.
Qed.

End SaveBuildMode.

Section SaveEmission.
Context `{Encode} `{Paths} `{SourceMaps} `{FileSystem} `{Logging}.

Lemma with_sourceMapData_same f : File.with_sourceMapData (File.sourceMapData f) f = f.
Proof. destruct f; reflexivity. Qed.

(** With a string for base, the [sources] loop returns; it touches nothing
    but the file's source-map data. *)
Lemma sources_loop_strings sh b todo : forall done f w,
  exists srcs sm,
    sources_loop sh (Js.JStr b) done todo (f, w)
    = (inr srcs, (File.with_sourceMapData sm f, w)).
Proof.
  induction todo as [|s rest IH]; intros done f w; cbn [sources_loop].
  - exists done, (File.sourceMapData f). rewrite with_sourceMapData_same. reflexivity.
  - unfold mtry, ok, throw, this, global, update, mbind, State_bind, mret, State_ret; simpl.
    assert (E : exists s', match Global.sourceMapSource (globals w) with
                           | Some h => inr (h s f)
                           | None => relativeUrl_loose (Js.JStr b) (Js.JStr s)
                           end = inr s').
    { destruct (Global.sourceMapSource (globals w)); [eauto |].
      rewrite relativeUrl_loose_strings. eauto. }
    destruct E as [s' ->].
    destruct sh as [o|].
    + destruct (IH (done ++ [s'])
                  (File.with_sourceMapData
                     (Some (SMObject (SourceMapObject.with_sources (done ++ s' :: rest) o))) f) w)
        as (srcs & sm & E).
      exists srcs, sm. simpl. rewrite E. reflexivity.
    + destruct (IH (done ++ [s']) f w) as (srcs & sm & E).
      exists srcs, sm. simpl. rewrite E. reflexivity.
Qed.

Lemma or_strings a b : exists x, Js.or (Js.of_option a) (Js.JStr b) = Js.JStr x.
Proof. destruct a as [a|]; unfold Js.or; simpl; [destruct (negb _) |]; eauto. Qed.

Lemma or_root_strings (r : string) a b :
  exists x, Js.or (Js.or (Js.JStr r) (Js.of_option a)) (Js.JStr b) = Js.JStr x.
Proof.
  unfold Js.or at 2. destruct (Js.truthy (Js.JStr r)) eqn:E.
  - unfold Js.or. rewrite E. eauto.
  - apply or_strings.
Qed.

(** The source-map block of [save] on the file [mapped o c]: it returns,
    and touches nothing but the file's source-map data. *)
Lemma save_sourceMap_mapped o c sp mp n t :
  exists fin sm,
    save_sourceMap sp (Js.JStr mp) true (mapped o c, mkWorld (globals overwriting) n t)
    = (inr fin, (File.with_sourceMapData sm (mapped o c), mkWorld (globals overwriting) n t)).
Proof.
  unfold save_sourceMap, sourceMapIncludeFile, sourceMapRoot, global_flag, read, mtry, ok, throw,
    this, global, mbind, State_bind, mret, State_ret, mapped, overwriting.
  cbn [fst snd File.sourceMapData File.own data_truthy negb].
  rewrite lookup_empty, toSourceMapObject_object.
  cbn [globals Global.with_overwrite Global.initial Global.sourceMapIncludeFile
       Global.sourceMapRoot Js.truthy snd fst].
  destruct (or_strings (SourceMapObject.file o) sp) as [x ->].
  rewrite relativeUrl_loose_strings. cbn [File.own fst snd]. rewrite lookup_empty.
  cbn [Global.sourceMapRoot snd globals].
  destruct (or_root_strings (Global.sourceMapRoot (Global.with_overwrite true Global.initial))
              (SourceMapObject.sourceRoot o) mp) as [y ->].
  destruct (sources_loop_strings (Some o) y (SourceMapObject.sources o) []
              (mapped o c) (mkWorld (globals overwriting) n t)) as (srcs & sm & E).
  unfold mapped, overwriting in E. cbn [globals Global.with_overwrite Global.initial] in E.
  rewrite E. clear E.
  unfold sourceMapIncludeSourcesContent, sourceMapIncludeNames, discarded_sourceMapUrl,
    sourceMapInline, sourceMapUrl, global_flag, read, mtry, ok, throw,
    this, global, mbind, State_bind, mret, State_ret.
  cbn [fst snd File.own File.with_sourceMapData]. rewrite !lookup_empty.
  cbn [globals Global.sourceMapIncludeSourcesContent Global.sourceMapIncludeNames
       Global.sourceMapInline Global.sourceMapUrl Global.onValidateSourceMap Js.truthy
       snd fst File.own].
  rewrite relativeUrl_loose_strings.
  eexists _, sm. reflexivity.
Qed.

(** The artifact that [save] writes for [mapped o c], whatever the loop
    made of the file's source-map data. *)
Lemma save_content_mapped o c sm n t :
  save_content true (File.with_sourceMapData sm (mapped o c), mkWorld (globals overwriting) n t)
  = (inr (stringToBuffer (emitSourceMapUrl c Js.JUndefined true) (Js.JStr "utf-8")),
     (File.with_sourceMapData sm (mapped o c), mkWorld (globals overwriting) n t)).
Proof.
  unfold save_content, content, sourceMapInline, sourceMapUrl, encoding, global_flag, read,
    mtry, ok, throw, this, global, mbind, State_bind, mret, State_ret.
  cbn. rewrite !lookup_empty. reflexivity.
Qed.

(** C2 (the code at the failing input): in build mode, for a modified
    [a.js] with source-map data, emission on, inlining off and no
    [sourceMapUrl] supplied, the artifact written to [savePath] is
    [emitSourceMapUrl(content, undefined, true)]: the URL argument is
    [this.sourceMapUrl], which is undefined.  The URL relative from
    [savePath] to the map's path is what the unused binding holds. *)
Theorem save_emits_undefined_url (o : SourceMapObject.t) (c : string) :
  trace (snd (snd (save None (mapped o c, overwriting)))) !! 1%nat
  = Some (WriteFile (savePath_of None (mapped o c))
            (stringToBuffer (emitSourceMapUrl c Js.JUndefined true) (Js.JStr "utf-8")))
  /\ forall finalSourceMapString,
      fst (discarded_sourceMapUrl (savePath_of None (mapped o c))
             (Js.JStr (savePath_of None (mapped o c) +:+ ".map")) finalSourceMapString
             (mapped o c, overwriting))
      = inr (Js.JStr (relativeUrl (savePath_of None (mapped o c))
                        (savePath_of None (mapped o c) +:+ ".map"))).
Proof.
  split.
  - assert (Hem : emits_sourceMap (mapped o c) overwriting = true).
    { unfold emits_sourceMap, sourceMapEmit, global_flag, read, this, global, mbind,
        State_bind, mret, State_ret. cbn. rewrite lookup_empty. reflexivity. }
    assert (Hin : fst (sourceMapInline (mapped o c, overwriting)) = Js.JBool false).
    { unfold sourceMapInline, global_flag, read, this, global, mbind,
        State_bind, mret, State_ret. cbn. rewrite lookup_empty. reflexivity. }
    assert (Hpa : fst (sourceMapPath (mapped o c, overwriting)) = Js.JUndefined).
    { unfold sourceMapPath, global_flag, read, this, global, mbind,
        State_bind, mret, State_ret. cbn. rewrite lookup_empty. reflexivity. }
    assert (Hov : fst (overwrite (mapped o c, overwriting)) = Js.JBool true).
    { unfold overwrite, global_flag, read, this, global, mbind,
        State_bind, mret, State_ret. cbn. rewrite lookup_empty. reflexivity. }
    rewrite save_build; [ | reflexivity | | | reflexivity | reflexivity ].
    2: { rewrite Hem. apply andb_false_r. }
    2: { rewrite Hov. apply andb_false_r. }
    cbv zeta. rewrite Hem, Hin, Hpa.
    change (modified (mapped o c)) with true.
    cbn [orb File.sourceMapData mapped data_truthy negb Js.truthy Js.or].
    fold (mapped o c).
    change overwriting with (mkWorld (globals overwriting) 0 []) at 1 2 3.
    cbn [globals nextTask trace app].
    destruct (save_sourceMap_mapped o c (savePath_of None (mapped o c))
                (savePath_of None (mapped o c) +:+ ".map") 1
                [BeginAsync 0 "Save: {file}" (getDisplayName (savePath_of None (mapped o c)))])
      as (fin & sm & E).
    change (nextTask overwriting) with 0%nat.
    rewrite E, save_content_mapped. cbn [fst snd globals nextTask trace app].
    destruct (negb _ && _); reflexivity.
  - intros finalSourceMapString.
    unfold discarded_sourceMapUrl, sourceMapInline, sourceMapUrl, global_flag, read,
      mtry, ok, throw, this, global, mbind, State_bind, mret, State_ret.
    cbn. rewrite !lookup_empty. cbn. rewrite relativeUrl_loose_strings. reflexivity.
Qed.

End SaveEmission.

(** ** [save]: requests, working mode and completions *)

Section SaveRequests.
Context `{Encode} `{Paths} `{SourceMaps} `{FileSystem} `{Logging}.

Lemma requests_app a b : requests (a ++ b) = requests a + requests b.
Proof. unfold requests. rewrite List.filter_app, length_app. lia. Qed.

Lemma requests_none (P : Action -> bool) l :
  (forall a, P a = true -> requested a = false) -> forallb P l = true -> requests l = 0.
Proof.
  intros HP Hl. unfold requests. induction l as [|a l IH]; [reflexivity |].
  simpl in *. apply andb_true_iff in Hl as [Ha Hl]. rewrite (HP a Ha). auto.
Qed.

Lemma requests_reading l : forallb reading l = true -> requests l = 0.
Proof. apply requests_none. intros []; simpl; congruence. Qed.

Lemma requests_harmless l : forallb (fun a => negb (mutates a)) l = true -> requests l = 0.
Proof. apply requests_none. intros []; simpl; congruence. Qed.

Lemma allowed_reading mode l : forallb reading l = true -> forallb (allowed mode) l = true.
Proof.
  intros Hl. apply forallb_forall. intros a Ha. rewrite forallb_forall in Hl.
  specialize (Hl a Ha). destruct a; simpl in *; congruence.
Qed.

Lemma allowed_harmless mode l :
  forallb (fun a => negb (mutates a)) l = true -> forallb (allowed mode) l = true.
Proof.
  intros Hl. apply forallb_forall. intros a Ha. rewrite forallb_forall in Hl.
  specialize (Hl a Ha). destruct a; simpl in *; congruence.
Qed.

Lemma save_trace dir f w :
  exists l,
    trace (snd (snd (save dir (f, w)))) = trace w ++ l
    /\ forallb (allowed (Global.workingMode (globals w))) l = true
    /\ match fst (save dir (f, w)) with
       | inr (SaveCalled _ savePath) => savePath = savePath_of dir f /\ requests l = 0
       | inr (SavePending p) =>
         ps_savePath p = savePath_of dir f /\ requests l = ps_pending p
         /\ 1 <= ps_pending p <= 2
       | inl _ => requests l = 0
       end.
Proof.
  unfold save, mtry, ok, throw, this, global, mbind, State_bind, mret, State_ret. simpl.
  destruct (match Global.onValidateFile (globals w) with
            | Some h => negb (h (savePath_of dir f) f)
            | None => false
            end).
  { exists []. rewrite app_nil_r. repeat split. }
  pure_flag FSourceMapEmit (f, w). cbn [fst snd].
  pure_flag FOverwrite (f, w). cbn [fst snd].
  destruct (pathEquals (File.srcPath f) (savePath_of dir f) && negb _).
  { exists []. rewrite app_nil_r. repeat split. }
  destruct (pathEquals (File.srcPath f) (savePath_of dir f) && negb _).
  { pose proof (harmless_log overwrite_diagnostic LogLevel.error (f, w)) as [_ (l & Ht & Hl)].
    unfold error. destruct (log _ _ _) as [[e|[]] s']; simpl in *.
    all: exists l; split; [exact Ht |]; split; [apply allowed_harmless, Hl |].
    - apply requests_harmless, Hl.
    - split; [reflexivity | apply requests_harmless, Hl]. }
  pure_flag FSourceMapInline (f, w). cbn [fst snd].
  pure_flag FSourceMapPath (f, w). cbn [fst snd].
  set (smp := match File.sourceMapData f with
              | Some d => _
              | None => Js.JUndefined
              end).
  destruct (WorkingMode.has (Global.workingMode (globals w)) WorkingMode.clean) eqn:Ecl.
  { unfold beginAsync, emit, mbind, State_bind, mret, State_ret. cbn [fst snd].
    destruct (Js.truthy smp); simpl; rewrite <- ?app_assoc;
      (eexists; split; [reflexivity |]); simpl; rewrite Ecl; repeat split; lia. }
  destruct (WorkingMode.has (Global.workingMode (globals w)) WorkingMode.preview) eqn:Epr.
  { unfold save_done, beginAsync, set_globals, global, when, endAsync, emit, ok, mbind,
      State_bind, mret, State_ret.
    simpl. destruct (Global.onSaveFile (globals w)); simpl; rewrite <- ?app_assoc;
      (eexists; split; [reflexivity |]); repeat split. }
  unfold beginAsync, emit, mbind, State_bind, mret, State_ret. cbn [fst snd].
  match goal with
  | |- context [save_sourceMap ?a ?b ?c ?s] =>
    pose proof (reads_save_sourceMap a b c s) as (l1 & Ht1 & Hl1);
      destruct (save_sourceMap a b c s) as [[e|fin] [f1 w1]]
  end.
  { simpl in Ht1. cbn [fst snd]. rewrite Ht1, <- app_assoc.
    eexists; split; [reflexivity |].
    rewrite forallb_app, (allowed_reading _ _ Hl1). split; [reflexivity |].
    rewrite requests_app, (requests_reading _ Hl1). reflexivity. }
  simpl in Ht1.
  pose proof (allowed_reading (Global.workingMode (globals w)) _ Hl1) as Ha1.
  apply requests_reading in Hl1.
  destruct (modified f || _).
  - match goal with
    | |- context [save_content ?b ?s] =>
      pose proof (reads_save_content b s) as (l2 & Ht2 & Hl2);
        destruct (save_content b s) as [[e|buf] [f2 w2]]
    end.
    { simpl in Ht2. cbn [fst snd]. rewrite Ht2, Ht1, <- !app_assoc.
      eexists; split; [reflexivity |].
      rewrite !forallb_app, Ha1, (allowed_reading _ _ Hl2). split; [reflexivity |].
      rewrite !requests_app, Hl1, (requests_reading _ Hl2). reflexivity. }
    simpl in Ht2.
    pose proof (allowed_reading (Global.workingMode (globals w)) _ Hl2) as Ha2.
    apply requests_reading in Hl2. cbn [fst snd].
    match goal with |- context [sourceMapInline ?s] => pure_flag FSourceMapInline s end.
    cbn [fst snd].
    match goal with |- context [if ?c then _ else _] => destruct c end;
      cbn [fst snd trace]; rewrite Ht2, Ht1, <- ?app_assoc;
      (eexists; split; [reflexivity |]); cbn [fst ps_savePath ps_pending];
      (split; [rewrite ?forallb_app, Ha1, Ha2; simpl; rewrite Ecl, Epr; reflexivity |]);
      (split; [reflexivity |]);
      rewrite ?requests_app, Hl1, Hl2;
      (split; [reflexivity | lia]).
  - cbn [fst snd].
    match goal with |- context [sourceMapInline ?s] => pure_flag FSourceMapInline s end.
    cbn [fst snd].
    match goal with |- context [if ?c then _ else _] => destruct c end;
      cbn [fst snd trace]; rewrite Ht1, <- ?app_assoc;
      (eexists; split; [reflexivity |]); cbn [fst ps_savePath ps_pending];
      (split; [rewrite ?forallb_app, Ha1; simpl; rewrite Ecl, Epr; reflexivity |]);
      (split; [reflexivity |]);
      rewrite ?requests_app, Hl1;
      (split; [reflexivity | lia]).
Qed.

(** X10: save issues exactly as many write, copy or delete requests as its
    callback waits for: none when it calls back at once, one or two when the
    callback is pending; in both cases the path it reports is
    resolvePath(dir || '.', path). When save throws instead (file.error, the
    source-map block or the read of the content threw), it has issued no
    request. *)
Theorem save_awaits_its_requests (dir : option string) (f : File.t) (w : World) :
  exists l,
    trace (snd (snd (save dir (f, w)))) = trace w ++ l
    /\ match fst (save dir (f, w)) with
       | inr (SaveCalled _ savePath) => savePath = savePath_of dir f /\ requests l = 0
       | inr (SavePending p) =>
         ps_savePath p = savePath_of dir f /\ requests l = ps_pending p
         /\ 1 <= ps_pending p <= 2
       | inl _ => requests l = 0
       end.
Proof. destruct (save_trace dir f w) as (l & Ht & _ & Hr). eauto. Qed.

(** X11: Whatever save asks of the file system fits the working mode: it
    deletes only in clean mode, writes or copies only when building (neither
    clean nor preview), and the call itself never removes a directory nor
    updates the cache. *)
Theorem save_respects_working_mode (dir : option string) (f : File.t) (w : World) :
  exists l,
    trace (snd (snd (save dir (f, w)))) = trace w ++ l
    /\ forallb (allowed (Global.workingMode (globals w))) l = true.
Proof. destruct (save_trace dir f w) as (l & Ht & Ha & _). eauto. Qed.

End SaveRequests.
Section SaveCompletions.
Context `{Encode} `{Paths} `{SourceMaps} `{FileSystem} `{Logging}.

Lemma error_globals d s : globals (snd (snd (error d s))) = globals (snd s).
Proof. destruct s as [f w]. apply (harmless_log d LogLevel.error (f, w)). Qed.

(** Whether the content of a file is ready depends on the world through
    the working mode only. *)
Lemma content_ready_world f w w' :
  Global.workingMode (globals w') = Global.workingMode (globals w) ->
  content_ready f w' = content_ready f w.
Proof. intros E. unfold content_ready, needs_disk, reads_disk. rewrite E. reflexivity. Qed.


Lemma save_done_spec p err s :
  match err with Some e => fst (error (LogError e) s) = inr tt | None => True end ->
  if ps_pending p - 1 >? 0
  then fst (save_done p err s)
       = inr (SavePending (mkPendingSave (ps_savePath p) (ps_taskId p) (ps_pending p - 1)))
       /\ globals (snd (snd (save_done p err s))) = globals (snd s)
  else fst (save_done p err s) = inr (SaveCalled err (ps_savePath p))
       /\ Global.fileCount (globals (snd (snd (save_done p err s))))
          = Global.fileCount (globals (snd s)) + (match err with Some _ => 0 | None => 1 end)
       /\ last (trace (snd (snd (save_done p err s)))) = Some (EndAsync (ps_taskId p)).
Proof.
  intros Hr.
  unfold save_done, set_globals, global, when, endAsync, emit, mtry, ok, throw, mbind,
    State_bind, mret, State_ret. simpl.
  destruct err as [e|]; simpl in *.
  - pose proof (error_globals (LogError e) s) as Hg.
    destruct (error (LogError e) s) as [[x|[]] [f1 w1]]; simpl in *; [discriminate |].
    destruct (ps_pending p - 1 >? 0); simpl.
    + auto.
    + rewrite Hg, last_snoc. split; [reflexivity |]. split; [lia | reflexivity].
  - destruct (ps_pending p - 1 >? 0); simpl; [auto |].
    destruct (Global.onSaveFile (globals (snd s))); simpl; rewrite last_snoc; auto.
Qed.

(** The file after [done], and the working mode. *)
Lemma save_done_state p err s :
  fst (snd (save_done p err s))
  = match err with Some e => fst (snd (error (LogError e) s)) | None => fst s end
  /\ Global.workingMode (globals (snd (snd (save_done p err s))))
     = Global.workingMode (globals (snd s)).
Proof.
  unfold save_done, set_globals, global, when, endAsync, emit, mtry, ok, throw, mbind,
    State_bind, mret, State_ret. simpl.
  destruct err as [e|]; simpl in *.
  - pose proof (error_globals (LogError e) s) as Hg.
    destruct (error (LogError e) s) as [[x|[]] [f1 w1]]; simpl in *; [rewrite Hg; auto |].
    destruct (ps_pending p - 1 >? 0); simpl; rewrite Hg; auto.
  - destruct (ps_pending p - 1 >? 0); simpl; [auto |].
    destruct (Global.onSaveFile (globals (snd s))); simpl; auto.
Qed.

(** [done] throws what [this.error] throws. *)
Lemma save_done_throws p e s :
  threw (fst (save_done p (Some e) s)) = threw (fst (error (LogError e) s)).
Proof.
  unfold save_done, endAsync, emit, mtry, ok, throw, mbind, State_bind, mret, State_ret.
  destruct (error (LogError e) s) as [[x|[]] [f1 w1]]; simpl; [reflexivity |].
  destruct (ps_pending p - 1 >? 0); reflexivity.
Qed.

Lemma save_done_returns p s : threw (fst (save_done p None s)) = false.
Proof.
  unfold save_done, set_globals, global, when, endAsync, emit, mtry, ok, throw, mbind,
    State_bind, mret, State_ret. simpl.
  destruct (_ >? 0); [reflexivity |]. simpl.
  destruct (Global.onSaveFile (globals (snd s))); reflexivity.
Qed.

Lemma complete_throws p c s :
  threw (fst (complete p c s))
  = match completion_error c with
    | Some e => threw (fst (error (LogError e) s))
    | None => false
    end.
Proof.
  destruct c as [out [e|] | out [e|] | [e|]];
    unfold complete, save_write_cb, save_deleteFile_cb, this, emit, ok, mbind, State_bind, mret,
      State_ret; cbn [completion_error fst snd threw]; try apply save_done_throws;
    try apply save_done_returns; reflexivity.
Qed.

Lemma complete_spec p c s :
  threw (fst (complete p c s)) = false ->
  if (ps_pending p - (if settles c then 1 else 0) >? 0) || negb (settles c)
  then fst (complete p c s)
       = inr (SavePending (mkPendingSave (ps_savePath p) (ps_taskId p)
                             (ps_pending p - (if settles c then 1 else 0))))
       /\ globals (snd (snd (complete p c s))) = globals (snd s)
  else fst (complete p c s) = inr (SaveCalled (completion_error c) (ps_savePath p))
       /\ Global.fileCount (globals (snd (snd (complete p c s))))
          = Global.fileCount (globals (snd s)) + (match completion_error c with Some _ => 0 | None => 1 end)
       /\ last (trace (snd (snd (complete p c s)))) = Some (EndAsync (ps_taskId p)).
Proof.
  rewrite complete_throws. intros Hr.
  assert (Hret : forall e, completion_error c = Some e -> fst (error (LogError e) s) = inr tt).
  { intros e E. rewrite E in Hr. destruct (fst (error (LogError e) s)) as [x|[]];
      [discriminate | reflexivity]. }
  clear Hr.
  destruct c as [out [e|] | out [e|] | err];
    unfold complete, save_write_cb, save_deleteFile_cb, this, emit, ok, mbind, State_bind, mret,
      State_ret; cbn [settles completion_error fst snd negb] in *; rewrite ?orb_false_r.
  - apply (save_done_spec p (Some e) s), Hret; reflexivity.
  - match goal with |- context [save_done p None ?s'] =>
      pose proof (save_done_spec p None s' I) as Hd end.
    simpl in Hd. exact Hd.
  - apply (save_done_spec p (Some e) s), Hret; reflexivity.
  - rewrite orb_true_r. simpl. destruct p. simpl. rewrite Z.sub_0_r. auto.
  - apply (save_done_spec p err s). destruct err; [apply Hret; reflexivity | exact I].
Qed.

(** A completion whose error has no position keeps the content ready, and
    its callback returns. *)
Lemma complete_keeps_ready p c s :
  content_ready (fst s) (snd s) = true ->
  forallb positionless (map LogError (completion_errors [c])) = true ->
  threw (fst (complete p c s)) = false
  /\ content_ready (fst (snd (complete p c s))) (snd (snd (complete p c s))) = true.
Proof.
  intros Hc Hp. rewrite complete_throws.
  assert (Herr : forall e, completion_error c = Some e ->
                           fst (error (LogError e) s) = inr tt
                           /\ content_ready (fst (snd (error (LogError e) s)))
                                (snd (snd (error (LogError e) s))) = true).
  { intros e E. destruct s as [f w]. apply error_keeps_ready; [exact Hc |].
    unfold completion_errors in Hp. simpl in Hp. rewrite E in Hp. simpl in Hp.
    apply andb_true_iff in Hp as [Hp _]. exact Hp. }
  assert (Hdone : forall err, completion_error c = err ->
            content_ready (fst (snd (save_done p err s))) (snd (snd (save_done p err s))) = true).
  { intros err E. destruct (save_done_state p err s) as [Hf Hw].
    rewrite Hf. destruct err as [e|].
    - destruct (Herr e E) as [_ Hk].
      rewrite (content_ready_world _ (snd (snd (error (LogError e) s))));
        [exact Hk | rewrite Hw, error_globals; reflexivity].
    - rewrite (content_ready_world _ (snd s)); [exact Hc | exact Hw]. }
  split.
  - destruct (completion_error c) as [e|] eqn:E; [ | reflexivity].
    destruct (Herr e eq_refl) as [-> _]. reflexivity.
  - destruct c as [out [e|] | out [e|] | err];
      unfold complete, save_write_cb, save_deleteFile_cb, this, emit, ok, mbind, State_bind,
        mret, State_ret; cbn [settles completion_error fst snd negb] in *.
    + apply Hdone; reflexivity.
    + match goal with |- context [save_done p None ?s'] =>
        destruct (save_done_state p None s') as [Hf Hw] end.
      rewrite Hf. cbn [fst snd] in *.
      rewrite (content_ready_world _ (snd s)); [exact Hc | exact Hw].
    + apply Hdone; reflexivity.
    + exact Hc.
    + apply Hdone; reflexivity.
Qed.

Lemma completions_waiting cs : forall p s,
  Z.of_nat (length (List.filter settles cs)) < ps_pending p ->
  content_ready (fst s) (snd s) = true ->
  forallb positionless (map LogError (completion_errors cs)) = true ->
  fst (completions (SavePending p) cs s)
  = SavePending (mkPendingSave (ps_savePath p) (ps_taskId p)
                   (ps_pending p - Z.of_nat (length (List.filter settles cs))))
  /\ globals (snd (snd (completions (SavePending p) cs s))) = globals (snd s)
  /\ content_ready (fst (snd (completions (SavePending p) cs s)))
       (snd (snd (completions (SavePending p) cs s))) = true.
Proof.
  induction cs as [|c cs IH]; intros p s Hn Hc Hp.
  - simpl. destruct p. rewrite Z.sub_0_r. auto.
  - cbn [completions]. unfold mbind, State_bind.
    assert (Hp1 : forallb positionless (map LogError (completion_errors [c])) = true
                  /\ forallb positionless (map LogError (completion_errors cs)) = true).
    { unfold completion_errors in *. cbn [omap list_omap] in Hp |- *.
      destruct (completion_error c); cbn [map forallb] in Hp |- *; [ | auto].
      apply andb_true_iff in Hp as [-> ->]. auto. }
    destruct Hp1 as [Hpc Hpcs].
    destruct (complete_keeps_ready p c s Hc Hpc) as [Hret Hk].
    pose proof (complete_spec p c s Hret) as Hs.
    destruct (complete p c s) as [r s1]. cbn [fst snd] in Hs, Hk, Hret.
    cbn [List.filter] in Hn |- *.
    destruct (settles c) eqn:Es; cbn [length negb] in Hn, Hs |- *;
      rewrite ?Nat2Z.inj_succ in Hn |- *.
    + rewrite orb_false_r in Hs.
      destruct (ps_pending p - 1 >? 0) eqn:E;
        [ | rewrite Z.gtb_ltb in E; apply Z.ltb_ge in E; lia ].
      destruct Hs as [-> Hg].
      destruct (IH (mkPendingSave (ps_savePath p) (ps_taskId p) (ps_pending p - 1)) s1)
        as (E1 & E2 & E3); [cbn [ps_pending]; lia | exact Hk | exact Hpcs |].
      cbn [ps_pending ps_savePath ps_taskId] in E1. rewrite E1, E2.
      split; [f_equal; f_equal; lia | split; [exact Hg | exact E3]].
    + rewrite orb_true_r in Hs. destruct Hs as [-> Hg].
      destruct (IH (mkPendingSave (ps_savePath p) (ps_taskId p) (ps_pending p - 0)) s1)
        as (E1 & E2 & E3); [cbn [ps_pending]; lia | exact Hk | exact Hpcs |].
      cbn [ps_pending ps_savePath ps_taskId] in E1. rewrite E1, E2.
      split; [f_equal; f_equal; lia | split; [exact Hg | exact E3]].
Qed.

Lemma completions_app cs1 cs2 r s :
  completions r (cs1 ++ cs2) s
  = completions (fst (completions r cs1 s)) cs2 (snd (completions r cs1 s)).
Proof.
  revert r s. induction cs1 as [|c cs1 IH]; intros r s; [reflexivity |].
  destruct r as [e sp | p].
  - simpl. destruct cs2; reflexivity.
  - cbn [completions app]. unfold mbind, State_bind.
    destruct (complete p c s) as [r1 s1]. apply IH.
Qed.

(** X12: A pending save, on a file whose content is ready and with earlier
    completions whose errors have no position (so that this.error returns on
    them), stays pending until the last completion it waits for arrives (a
    successful deleteFile is not one: it goes on to remove the parent
    directory). When the callback of that last completion returns, the
    callback of save gets that completion's error, fileCount grows by one
    exactly when there is none, and the task is ended last; when it throws
    (this.error threw on the completion's error), the save stays pending and
    its callback is not called. It returns whenever the completion's error
    has no position. *)
Theorem save_calls_back_after_last_completion
  (p : PendingSave) (cs : list Completion) (c : Completion) (s : File.t * World) :
  settles c = true ->
  ps_pending p = Z.of_nat (length (List.filter settles cs)) + 1 ->
  content_ready (fst s) (snd s) = true ->
  forallb positionless (map LogError (completion_errors cs)) = true ->
  fst (completions (SavePending p) cs s)
  = SavePending (mkPendingSave (ps_savePath p) (ps_taskId p) 1)
  /\ (if threw (fst (complete (mkPendingSave (ps_savePath p) (ps_taskId p) 1) c
                       (snd (completions (SavePending p) cs s))))
      then fst (completions (SavePending p) (cs ++ [c]) s)
           = SavePending (mkPendingSave (ps_savePath p) (ps_taskId p) 1)
      else fst (completions (SavePending p) (cs ++ [c]) s)
           = SaveCalled (completion_error c) (ps_savePath p)
           /\ Global.fileCount
                (globals (snd (snd (completions (SavePending p) (cs ++ [c]) s))))
              = Global.fileCount (globals (snd s))
                + (match completion_error c with Some _ => 0 | None => 1 end)
           /\ last (trace (snd (snd (completions (SavePending p) (cs ++ [c]) s))))
              = Some (EndAsync (ps_taskId p)))
  /\ (forallb positionless (map LogError (completion_errors [c])) = true ->
      threw (fst (complete (mkPendingSave (ps_savePath p) (ps_taskId p) 1) c
                    (snd (completions (SavePending p) cs s)))) = false).
Proof.
  intros Hc Hn Hready Hpos.
  destruct (completions_waiting cs p s) as (E1 & E2 & E3); [lia | exact Hready | exact Hpos |].
  replace (ps_pending p - Z.of_nat (length (List.filter settles cs))) with 1 in E1 by lia.
  split; [exact E1 |].
  rewrite completions_app, E1. cbn [completions]. unfold mbind, State_bind.
  set (p1 := mkPendingSave _ _ _). set (s1 := snd (completions (SavePending p) cs s)) in *.
  split.
  - pose proof (complete_spec p1 c s1) as Hs.
    destruct (complete p1 c s1) as [[x|r] s2]; cbn [fst snd threw] in *; [reflexivity |].
    specialize (Hs eq_refl). rewrite Hc in Hs. simpl in Hs.
    destruct Hs as (Hr & Hf & Hl). injection Hr as ->.
    simpl. rewrite Hf, E2. auto.
  - intros Hpc. apply (complete_keeps_ready p1 c s1 E3 Hpc).
Qed.

End SaveCompletions.
Section SaveBuild.
Context `{Encode} `{Paths} `{SourceMaps} `{FileSystem} `{Logging}.

(** Without source-map data the source-map block of [save] does
    nothing. *)
Lemma save_sourceMap_none sp smp em f w :
  data_truthy (File.sourceMapData f) = false ->
  save_sourceMap sp smp em (f, w) = (inr Js.JUndefined, (f, w)).
Proof.
  intros Hd. unfold save_sourceMap, ok, this, mbind, State_bind, mret, State_ret. simpl.
  destruct (File.sourceMapData f) as [d|]; [ | reflexivity].
  simpl in Hd |- *. rewrite Hd. reflexivity.
Qed.

(** X13: In build mode, a validated file without source-map data saved to a
    path other than its source issues one request and leaves the callback
    pending on it: a modified file is written with its buffer under a task
    Save, an unmodified one is copied from srcPath under a task Copy; the
    file itself is unchanged. *)
Theorem save_writes_buffer_or_copies (dir : option string) (f : File.t) (w : World) :
  validated dir f w = true ->
  pathEquals (File.srcPath f) (savePath_of dir f) = false ->
  data_truthy (File.sourceMapData f) = false ->
  WorkingMode.has (Global.workingMode (globals w)) WorkingMode.clean = false ->
  WorkingMode.has (Global.workingMode (globals w)) WorkingMode.preview = false ->
  if modified f
  then exists b,
      fst (buffer (f, w)) = inr b
      /\ save dir (f, w)
         = (inr (SavePending (mkPendingSave (savePath_of dir f) (nextTask w) 1)),
            (f, mkWorld (globals w) (S (nextTask w))
                  (trace w
                   ++ [BeginAsync (nextTask w) "Save: {file}"
                         (getDisplayName (savePath_of dir f));
                       WriteFile (savePath_of dir f) b])))
  else save dir (f, w)
       = (inr (SavePending (mkPendingSave (savePath_of dir f) (nextTask w) 1)),
          (f, mkWorld (globals w) (S (nextTask w))
                (trace w
                 ++ [BeginAsync (nextTask w) "Copy: {file}"
                       (getDisplayName (savePath_of dir f));
                     CopyFile (File.srcPath f) (savePath_of dir f)]))).
Proof.
  intros Hv Hp Hd Hc Hpr.
  assert (Hem : emits_sourceMap f w = false) by (unfold emits_sourceMap; rewrite Hd; reflexivity).
  rewrite save_build by (rewrite ?Hp; auto). cbv zeta.
  rewrite Hem, orb_false_r, save_sourceMap_none by exact Hd.
  destruct (modified f) eqn:Hm.
  - rewrite buffer_spec.
    unfold save_content, ok, this, mbind, State_bind, mret, State_ret. cbn [fst snd].
    destruct (File._destBuffer f) as [b|] eqn:Eb.
    + exists b. split; [reflexivity |]. cbn [fst snd globals nextTask trace].
      match goal with |- context [sourceMapInline ?s] => pure_flag FSourceMapInline s end.
      cbn [fst snd]. rewrite andb_false_r, <- app_assoc. reflexivity.
    + destruct (File._destContent f) as [c|] eqn:Ec.
      * exists (stringToBuffer c (fst (encoding (f, w)))). split; [reflexivity |].
        match goal with
        | |- context [encoding (f, ?w')] =>
          rewrite (encoding_value (f, w')), (encoding_own_only f f w w' eq_refl eq_refl)
        end.
        cbn [fst snd globals nextTask trace default].
        match goal with |- context [sourceMapInline ?s] => pure_flag FSourceMapInline s end.
        cbn [fst snd]. rewrite andb_false_r, <- app_assoc. reflexivity.
      * unfold modified in Hm. rewrite Eb, Ec in Hm. discriminate.
  - cbn [fst snd globals nextTask trace].
    match goal with |- context [sourceMapInline ?s] => pure_flag FSourceMapInline s end.
    cbn [fst snd]. rewrite andb_false_r, <- app_assoc. reflexivity.
Qed.

End SaveBuild.

Section LoadedSource.
Context `{Encode} `{Paths} `{SourceMaps} `{FileSystem} `{Logging}.

(** X14: After load's readFile callback delivered a buffer b, a further load
    calls back at once without reading, srcBuffer yields b without touching
    the disk, and for an unmodified file buffer yields b and neither buffer
    nor content touches the disk. *)
Theorem loaded_source_is_served_from_memory
  (taskId : nat) (b : Buffer) (f : File.t) (w : World) :
  load (snd (load_readFile_cb taskId (inr b) (f, w)))
  = (LoadCalled, snd (load_readFile_cb taskId (inr b) (f, w)))
  /\ srcBuffer (snd (load_readFile_cb taskId (inr b) (f, w)))
     = (inr b, snd (load_readFile_cb taskId (inr b) (f, w)))
  /\ (if modified f then True
      else fst (buffer (snd (load_readFile_cb taskId (inr b) (f, w)))) = inr b
           /\ snd (snd (buffer (snd (load_readFile_cb taskId (inr b) (f, w)))))
              = snd (snd (load_readFile_cb taskId (inr b) (f, w)))
           /\ snd (snd (content (snd (load_readFile_cb taskId (inr b) (f, w)))))
              = snd (snd (load_readFile_cb taskId (inr b) (f, w)))).
Proof.
  change (load_readFile_cb taskId (inr b) (f, w))
    with (@inr Err.t _ (@None Err.t),
          (File.with_srcBuffer (Some b) f,
           mkWorld (globals w) (nextTask w) (trace w ++ [EndAsync taskId]))).
  cbn [snd]. split; [ | split].
  - unfold load, this, global, mbind, State_bind, mret, State_ret; simpl.
    rewrite !orb_true_r. reflexivity.
  - rewrite srcBuffer_spec. reflexivity.
  - destruct (modified f) eqn:Hm; [exact I |].
    apply modified_false in Hm as [Hc Hb].
    rewrite buffer_world, content_world, buffer_spec, srcBuffer_spec.
    unfold unloaded. simpl. rewrite Hc, Hb. simpl. rewrite andb_false_r. auto.
Qed.

End LoadedSource.
Section SaveExamples.
Import Demo.

Lemma save_calls_back_after_last_completion_witness :
  fst (completions (SavePending (mkPendingSave "/out/a.js" 0 2))
         [Written "/out/a.js" (Some Demo.ENOENT); Written "/out/a.js.map" None]
         (Demo.written, Demo.world))
  = SaveCalled None "/out/a.js"
  /\ Global.fileCount
       (globals (snd (snd (completions (SavePending (mkPendingSave "/out/a.js" 0 2))
                             [Written "/out/a.js" (Some Demo.ENOENT);
                              Written "/out/a.js.map" None]
                             (Demo.written, Demo.world))))) = 1.
Proof.
  destruct (save_calls_back_after_last_completion (mkPendingSave "/out/a.js" 0 2)
              [Written "/out/a.js" (Some Demo.ENOENT)] (Written "/out/a.js.map" None)
              (Demo.written, Demo.world)) as (_ & Hm & Hr);
    [reflexivity | reflexivity | reflexivity | reflexivity |].
  specialize (Hr eq_refl). rewrite Hr in Hm. destruct Hm as (Hc & Hn & _).
  split; [exact Hc | exact Hn].
Defined.

(** A copy of a source that is not on the disk fails; [this.error] reads
    the content for the entry, the read throws, and the save stays
    pending: its callback is never called. *)
Lemma save_stays_pending_when_error_throws :
  completions (SavePending (mkPendingSave "/out/gone.txt" 0 1))
    [Written "/out/gone.txt" (Some Demo.ENOENT)] (Demo.missing, Demo.world)
  = (SavePending (mkPendingSave "/out/gone.txt" 0 1),
     (Demo.missing,
      mkWorld Global.initial 1
        [BeginAsync 0 "Read: {file}" (toString Demo.missing);
         ReadFileSync "/gone.txt"; EndAsync 0])).
Proof. vm_compute. reflexivity. Qed.

Lemma save_writes_buffer_or_copies_witness :
  fst (save (Some "out"%string) (Demo.written, Demo.world))
  = inr (SavePending (mkPendingSave (savePath_of (Some "out"%string) Demo.written) 0 1)).
Proof.
  destruct (save_writes_buffer_or_copies (Some "out"%string) Demo.written Demo.world)
    as (b & _ & E); [reflexivity | reflexivity | reflexivity | reflexivity | reflexivity |].
  rewrite E. reflexivity.
Defined.

End SaveExamples.

(** ** The plugin loader and the basic operations of a list *)

Section PluginTask.
Context `{Paths} `{Plugin.Node}.

(** X15: plugin(name) either answers a cached truthy value without any step,
    or begins one task, performs only resolve and require steps and ends
    that task last, whether it returns or throws; the cache is left as it
    was or gains one entry, which holds the value returned. *)
Theorem plugin_ends_the_task_it_begins (name : string) (l : Plugin.Loader) :
  (if Js.truthy (default Js.JUndefined (Plugin.plugins l !! name))
   then Plugin.plugin name l = (inr (default Js.JUndefined (Plugin.plugins l !! name)), l)
   else exists mid,
       Plugin.steps (snd (Plugin.plugin name l))
       = Plugin.steps l ++ Plugin.Begin "Load plugin: {plugin}" name :: mid ++ [Plugin.End_]
       /\ forallb is_lookup mid = true)
  /\ match fst (Plugin.plugin name l) with
     | inl _ => Plugin.plugins (snd (Plugin.plugin name l)) = Plugin.plugins l
     | inr v =>
       Plugin.plugins (snd (Plugin.plugin name l)) = Plugin.plugins l
       \/ exists n, Plugin.plugins (snd (Plugin.plugin name l)) = <[n := v]> (Plugin.plugins l)
     end.
Proof.
  unfold Plugin.plugin, Plugin.resolve, Plugin.say, get, modify, mbind, State_bind, mret,
    State_ret; simpl.
  destruct (Js.truthy (default Js.JUndefined (Plugin.plugins l !! name))); simpl; [auto |].
  destruct (Plugin.require_resolve (resolvePath _ name)) as [n|]; simpl;
    [ | destruct (Plugin.require_resolve name) as [n|]; simpl ];
    try destruct (Plugin.require n) as [e|v]; simpl; rewrite <- ?app_assoc; simpl;
    (split; [ | eauto ]).
  all: match goal with
       | |- exists mid, ?a ++ ?b :: ?rest = ?a ++ ?b :: mid ++ [Plugin.End_] /\ _ =>
         first [ exists [] ; split; reflexivity
               | eexists [_]; split; reflexivity
               | eexists [_; _]; split; reflexivity
               | eexists [_; _; _]; split; reflexivity ]
       end.
Qed.

(** X16: After plugin(name) resolved name to the file n and required a
    truthy export v from it, plugin(n) answers v from the cache without
    beginning a task. *)
Theorem plugin_memoizes_under_resolved_name (name n : string) (v : Js.value) (l : Plugin.Loader) :
  Js.truthy (default Js.JUndefined (Plugin.plugins l !! name)) = false ->
  Plugin.require_resolve
    (resolvePath (if Plugin.isRelative name then "." else "node_modules") name) = Some n ->
  Plugin.require n = inr v ->
  Js.truthy v = true ->
  fst (Plugin.plugin name l) = inr v
  /\ Plugin.plugin n (snd (Plugin.plugin name l)) = (inr v, snd (Plugin.plugin name l)).
Proof.
  intros Hmiss Hres Hreq Hv.
  destruct (plugin_stores_resolved_name name l n v Hmiss Hres Hreq) as (Hr & Hp & _).
  split; [exact Hr |].
  apply plugin_hit; [ | exact Hv]. rewrite Hp. apply lookup_insert_eq.
Qed.

End PluginTask.

Section PluginTaskExamples.
Import Demo.

Lemma plugin_memoizes_under_resolved_name_witness :
  fst (Plugin.plugin "/node_modules/digo-sass/index.js"
         (snd (Plugin.plugin "digo-sass" Plugin.fresh))) = inr (Js.JObj 1)
  /\ Plugin.steps (snd (Plugin.plugin "/node_modules/digo-sass/index.js"
                          (snd (Plugin.plugin "digo-sass" Plugin.fresh))))
     = Plugin.steps (snd (Plugin.plugin "digo-sass" Plugin.fresh)).
Proof.
  destruct (plugin_memoizes_under_resolved_name "digo-sass" "/node_modules/digo-sass/index.js"
              (Js.JObj 1) Plugin.fresh) as [_ Hhit]; try reflexivity.
  rewrite Hhit. split; reflexivity.
Defined.

End PluginTaskExamples.

Section RelativeNames.

Lemma word_colon_iff s seen :
  Plugin.word_colon s seen = true
  <-> exists w rest,
      s = w +:+ String ":"%char rest
      /\ forallb Plugin.is_word (String.list_ascii_of_string w) = true
      /\ (seen = true \/ w <> ""%string).
Proof.
  revert seen. induction s as [|a s IH]; intros seen; simpl.
  - split; [discriminate |]. intros (w & rest & E & _). destruct w; discriminate.
  - destruct (Plugin.is_word a) eqn:Ea.
    + rewrite IH. split.
      * intros (w & rest & -> & Hw & _). exists (String a w), rest. simpl.
        rewrite Ea, Hw. split; [reflexivity |]. split; [reflexivity |]. right. discriminate.
      * intros (w & rest & E & Hw & _). destruct w as [|b w]; simpl in *.
        -- inversion E; subst. vm_compute in Ea. discriminate.
        -- inversion E; subst. apply andb_true_iff in Hw as [_ Hw]. eauto 10.
    + split.
      * intros Hc. apply andb_true_iff in Hc as [-> Hc]. apply Ascii.eqb_eq in Hc. subst a.
        exists ""%string, s. simpl. auto.
      * intros (w & rest & E & Hw & Hs). destruct w as [|b w]; simpl in *.
        -- inversion E; subst. destruct Hs as [-> | Hs]; [reflexivity | congruence].
        -- inversion E; subst. rewrite Ea in Hw. discriminate.
Qed.

(** X17: The test /^[\.\/\\]|^\w+\:/ holds of a name exactly when the name
    starts with '.', '/' or a backslash, or with one or more word characters
    followed by ':'. *)
Theorem isRelative_iff (name : string) :
  Plugin.isRelative name = true
  <-> (exists c rest,
         name = String c rest
         /\ (c = "."%char \/ c = "/"%char \/ c = Ascii.ascii_of_nat 92))
      \/ word_prefix name.
Proof.
  unfold Plugin.isRelative, word_prefix. destruct name as [|a s].
  - split; [discriminate |]. intros [(c & rest & E & _) | (w & rest & E & _)];
      [discriminate | destruct w; discriminate].
  - rewrite !orb_true_iff, !Ascii.eqb_eq, word_colon_iff. split.
    + intros [[[-> | ->] | ->] | (w & rest & E & Hw & [Hs | Hs])]; eauto 10; discriminate.
    + intros [(c & rest & E & Hc) | (w & rest & E & Hn & Hw)].
      * inversion E; subst. tauto.
      * right. eauto 10.
Qed.

End RelativeNames.

Section ListCalls.

Lemma data_calls_app h a b : data_calls h (a ++ b) = data_calls h a ++ data_calls h b.
Proof. apply omap_app. Qed.

Lemma data_calls_cons h c cs :
  data_calls h (c :: cs)
  = (if decide (FileList.listener c = h)
     then match FileList.arg c with
          | FileList.ArgFile r => [r]
          | FileList.ArgFiles _ => []
          end
     else []) ++ data_calls h cs.
Proof.
  unfold data_calls. simpl. destruct (decide (FileList.listener c = h)); [ | reflexivity].
  destruct (FileList.arg c); reflexivity.
Qed.

Lemma data_calls_emit_data h r l :
  data_calls h (FileList.emit "data" (FileList.ArgFile r) l) = replicate (registered h l) r.
Proof.
  unfold FileList.emit, registered. induction (FileList.listeners l) as [|[e k] ls IH];
    [reflexivity |].
  rewrite !filter_cons.
  destruct (decide ((e, k).1 = "data"%string)) as [He|He];
    destruct (decide ((e, k) = ("data"%string, h))) as [Hk|Hk]; simpl in He.
  - inversion Hk; subst. rewrite fmap_cons, data_calls_cons, IH. simpl.
    rewrite decide_True by reflexivity. reflexivity.
  - rewrite fmap_cons, data_calls_cons, IH. simpl.
    rewrite decide_False by (subst; congruence). reflexivity.
  - inversion Hk; subst. congruence.
  - exact IH.
Qed.

Lemma data_calls_emit_end h a l :
  data_calls h (FileList.emit "end" (FileList.ArgFiles a) l) = [].
Proof.
  unfold FileList.emit.
  induction (filter _ (FileList.listeners l)) as [|p ls IH]; [reflexivity |].
  rewrite fmap_cons, data_calls_cons, IH. simpl. destruct (decide (p.2 = h)); reflexivity.
Qed.

Lemma data_calls_replay h k fs :
  data_calls h ((fun r => FileList.mkCall k (FileList.ArgFile r)) <$> fs)
  = if decide (k = h) then fs else [].
Proof.
  induction fs as [|r fs IH]; [destruct (decide (k = h)); reflexivity |].
  rewrite fmap_cons, data_calls_cons, IH. simpl. destruct (decide (k = h)); reflexivity.
Qed.

Lemma registered_run_op h o l :
  registered h (fst (FileList.run_op o l))
  = (registered h l + if subscribes h o then 1 else 0)%nat.
Proof.
  destruct o as [r | | event k]; simpl; unfold registered; simpl; try lia.
  rewrite filter_app, length_app. f_equal.
  rewrite filter_cons, filter_nil.
  destruct (String.eqb event "data") eqn:Ee; simpl.
  - apply String.eqb_eq in Ee. subst event.
    destruct (decide (k = h)) as [->|Hk].
    + rewrite bool_decide_eq_true_2, decide_True by reflexivity. reflexivity.
    + rewrite bool_decide_eq_false_2, decide_False by congruence. reflexivity.
  - apply String.eqb_neq in Ee. rewrite decide_False by congruence. reflexivity.
Qed.

(** While [h] is registered [k] times and no operation registers it, each
    file added is delivered to it [k] times. *)
Lemma data_calls_steady h ops : forall l,
  forallb (fun o => negb (subscribes h o)) ops = true ->
  data_calls h (list_calls ops l)
  = concat ((fun r => replicate (registered h l) r) <$> FileList.adds ops)
  /\ registered h (FileList.run ops l) = registered h l.
Proof.
  induction ops as [|o ops IH]; intros l Hs; [split; reflexivity |].
  simpl in Hs. apply andb_true_iff in Hs as [Ho Hs]. apply negb_true_iff in Ho.
  change (FileList.run (o :: ops) l) with (FileList.run ops (fst (FileList.run_op o l))).
  cbn [list_calls]. rewrite data_calls_app.
  destruct (IH (fst (FileList.run_op o l)) Hs) as [IH1 IH2].
  rewrite IH1, IH2, registered_run_op, Ho, Nat.add_0_r. split; [ | reflexivity].
  destruct o as [r | | event k]; simpl.
  - rewrite data_calls_emit_data. reflexivity.
  - rewrite data_calls_emit_end. reflexivity.
  - simpl in Ho. destruct (String.eqb event "data") eqn:Ee; simpl in *.
    + apply bool_decide_eq_false in Ho. rewrite data_calls_replay, decide_False by exact Ho.
      reflexivity.
    + destruct (String.eqb event "end"); [destruct (FileList.ended l) |]; simpl;
        try reflexivity.
      destruct (decide (k = h)); reflexivity.
Qed.

Lemma concat_replicate_1 {A} (l : list A) : concat ((fun r => replicate 1 r) <$> l) = l.
Proof. induction l as [|a l IH]; [reflexivity |]. rewrite fmap_cons. simpl. f_equal. exact IH. Qed.

Lemma concat_replicate_0 {A} (l : list A) : concat ((fun r => replicate 0 r) <$> l) = [].
Proof. induction l as [|a l IH]; [reflexivity |]. rewrite fmap_cons. simpl. exact IH. Qed.

Lemma list_calls_app a b l :
  list_calls (a ++ b) l = list_calls a l ++ list_calls b (FileList.run a l).
Proof.
  revert l. induction a as [|o a IH]; intros l; [reflexivity |].
  change (FileList.run (o :: a) l) with (FileList.run a (fst (FileList.run_op o l))).
  simpl. rewrite IH, app_assoc. reflexivity.
Qed.

Lemma adds_app a b : FileList.adds (a ++ b) = FileList.adds a ++ FileList.adds b.
Proof. apply omap_app. Qed.


End ListCalls.

Section ListCallsExamples.


End ListCallsExamples.

Section ListGet.
Context `{Paths}.

(** X19: get(path) answers the first file of the list whose path equals the
    resolved path, and undefined when there is none (so always on an empty
    list); adding a file changes the answer only when there was none. *)
Theorem get_answers_first_match (h : gmap FileRef File.t) (path : string) (l : FileList.t)
  (r : FileRef) :
  match FileList_get h path l with
  | Some r' =>
    exists l1 l2,
      FileList.files l = l1 ++ r' :: l2
      /\ pathEquals (File.path (h !!! r')) (resolvePath1 (Some path)) = true
      /\ Forall (fun x => pathEquals (File.path (h !!! x)) (resolvePath1 (Some path)) = false) l1
  | None =>
    Forall (fun x => pathEquals (File.path (h !!! x)) (resolvePath1 (Some path)) = false)
           (FileList.files l)
  end
  /\ FileList_get h path FileList.empty = None
  /\ FileList_get h path (fst (FileList.add r l))
     = match FileList_get h path l with
       | Some r' => Some r'
       | None => if pathEquals (File.path (h !!! r)) (resolvePath1 (Some path))
                 then Some r else None
       end.
Proof.
  unfold FileList_get. split; [ | split; [reflexivity |] ].
  - induction (FileList.files l) as [|x fs IH]; simpl; [constructor |].
    destruct (pathEquals (File.path (h !!! x)) (resolvePath1 (Some path))) eqn:Ex.
    + exists [], fs. auto.
    + destruct (List.find _ fs) as [r'|].
      * destruct IH as (l1 & l2 & -> & Hm & Hn). exists (x :: l1), l2. auto.
      * constructor; assumption.
  - simpl. induction (FileList.files l) as [|x fs IH]; simpl.
    + destruct (pathEquals _ _); reflexivity.
    + destruct (pathEquals (File.path (h !!! x)) _); [reflexivity | exact IH].
Qed.

End ListGet.

(** ** [src] and [pipe] to a list *)

Section Handlers.
Context {St : Type} (hd : FileList.Call -> St -> St).
Hypothesis Hext : forall i a st, hd (FileList.mkCall (FileList.External i) a) st = st.

Lemma fold_externals (P : string * FileList.Listener -> Prop) `{!forall x, Decision (P x)}
  (others : list (string * nat)) a st :
  fold_left (fun st c => hd c st)
    ((fun q => FileList.mkCall (snd q) a)
       <$> filter P ((fun x => (fst x, FileList.External (snd x))) <$> others)) st
  = st.
Proof.
  induction others as [|o os IH]; [reflexivity |].
  rewrite fmap_cons, filter_cons. case_decide; [ | exact IH].
  rewrite fmap_cons. simpl. rewrite Hext. exact IH.
Qed.

(** What an emit of a list wired as [wired_each] says amounts to. *)
Lemma fold_emit_data (others : list (string * nat)) r l (queued : bool) st :
  FileList.listeners l
  = ((fun x => (fst x, FileList.External (snd x))) <$> others)
    ++ [("data"%string, FileList.PipeData)]
    ++ (if queued then [] else [("end"%string, FileList.PipeEnd)]) ->
  fold_left (fun st c => hd c st) (FileList.emit "data" (FileList.ArgFile r) l) st
  = hd (FileList.mkCall FileList.PipeData (FileList.ArgFile r)) st.
Proof.
  intros El. unfold FileList.emit. rewrite El.
  rewrite !filter_app, !fmap_app, !fold_left_app, fold_externals.
  destruct queued; reflexivity.
Qed.

Lemma fold_emit_end (others : list (string * nat)) a l (queued : bool) st :
  FileList.listeners l
  = ((fun x => (fst x, FileList.External (snd x))) <$> others)
    ++ [("data"%string, FileList.PipeData)]
    ++ (if queued then [] else [("end"%string, FileList.PipeEnd)]) ->
  fold_left (fun st c => hd c st) (FileList.emit "end" a l) st
  = if queued then st else hd (FileList.mkCall FileList.PipeEnd a) st.
Proof.
  intros El. unfold FileList.emit. rewrite El.
  rewrite !filter_app, !fmap_app, !fold_left_app, fold_externals.
  destruct queued; reflexivity.
Qed.

End Handlers.

Section RelayFacts.
Variable keep : File.t -> bool.
Variable others : list (string * nat).
Variable h0 : gmap FileRef File.t.
Variable down : FileList.t.

Lemma kept_app a b : kept keep h0 (a ++ b) = kept keep h0 a ++ kept keep h0 b.
Proof. apply List.filter_app. Qed.

Lemma relay_handle_ext i a st : relay_handle keep (FileList.mkCall (FileList.External i) a) st = st.
Proof. reflexivity. Qed.

Lemma relay_data r st :
  heap st = h0 ->
  FileList.files (result (net st))
  = FileList.files down ++ kept keep h0 (FileList.files (src (net st))) ->
  forall l',
    l' = FileList.mk (FileList.files (src (net st)) ++ [r]) (FileList.ended (src (net st)))
           (FileList.listeners (src (net st))) ->
    let st' := relay_handle keep (FileList.mkCall FileList.PipeData (FileList.ArgFile r))
                 (on_net (set_src l') st) in
    heap st' = h0
    /\ FileList.files (result (net st'))
       = FileList.files down ++ kept keep h0 (FileList.files l')
    /\ src (net st') = l' /\ thenQueued (net st') = thenQueued (net st)
    /\ FileList.ended (result (net st')) = FileList.ended (result (net st)).
Proof.
  intros Hh Hf l' ->. cbv zeta. unfold relay_handle. cbn [FileList.listener FileList.arg].
  cbn [on_net heap]. rewrite Hh.
  destruct (keep (h0 !!! r)) eqn:Hk; cbn [on_net heap net result_add FileList.add set_src
    set_result observe src result thenQueued FileList.files FileList.ended fst snd];
    rewrite kept_app; unfold kept at 2; simpl; rewrite Hk.
  - rewrite Hf, <- app_assoc. auto.
  - rewrite app_nil_r. auto.
Qed.

Lemma relay_step_inv st ev :
  inv_relay keep others h0 down st -> inv_relay keep others h0 down (relay_step keep st ev).
Proof.
  intros Hi. pose proof Hi as (Hh & Hw & Hf & He).
  destruct ev as [r| | |j res|j]; cbn [relay_step]; [ | | | exact Hi .. ].
  - cbn [FileList.add]. unfold relay_dispatch.
    rewrite (fold_emit_data (relay_handle keep) relay_handle_ext others r _
               (thenQueued (net st))) by exact Hw.
    destruct (relay_data r st Hh Hf _ eq_refl) as (H1 & H2 & H3 & H4 & H5).
    split; [exact H1 |]. split; [ | split].
    + unfold wired_each. rewrite H3, H4. exact Hw.
    + rewrite H2, H3. reflexivity.
    + rewrite H3, H4, H5. exact He.
  - cbn [FileList.end_]. unfold relay_dispatch.
    rewrite (fold_emit_end (relay_handle keep) relay_handle_ext others _ _
               (thenQueued (net st))) by exact Hw.
    destruct (thenQueued (net st)) eqn:Hq.
    + split; [exact Hh |]. split; [unfold wired_each in *; simpl; rewrite Hw; reflexivity |].
      split; [exact Hf |]. simpl. rewrite Hq, He. simpl. reflexivity.
    + unfold relay_handle. simpl.
      split; [exact Hh |]. split; [unfold wired_each in *; simpl; rewrite Hw; reflexivity |].
      split; [exact Hf |]. simpl. rewrite ?Hq. simpl. rewrite orb_true_r. reflexivity.
  - destruct (thenQueued (net st)) eqn:Hq; [ | exact Hi].
    cbn [FileList.on]. simpl String.eqb. cbv iota.
    set (st1 := on_net _ (on_net (set_thenQueued false) st)).
    set (l' := FileList.mk _ _ _).
    set (st2 := on_net (set_src l') st1).
    change (FileList.ended l') with (FileList.ended (src (net st))).
    assert (Hw2 : wired_each others (net st2)).
    { unfold wired_each in *. simpl. rewrite Hw, Hq, <- !app_assoc. reflexivity. }
    destruct (FileList.ended (src (net st))) eqn:Hend.
    + simpl relay_dispatch. unfold relay_handle. simpl.
      split; [exact Hh |]. split; [exact Hw2 |]. split; [exact Hf |].
      simpl. rewrite ?Hend. simpl. rewrite orb_true_r. reflexivity.
    + simpl relay_dispatch.
      split; [exact Hh |]. split; [exact Hw2 |]. split; [exact Hf |].
      simpl. rewrite ?Hend. simpl in He. rewrite He, ?andb_false_r. reflexivity.
Qed.

Lemma relay_run_inv evs st : inv_relay keep others h0 down st -> inv_relay keep others h0 down (relay_run keep evs st).
Proof.
  revert st. induction evs as [|ev evs IH]; intros st Hi; [exact Hi |].
  apply IH, relay_step_inv, Hi.
Qed.

End RelayFacts.

Section RelayRun.
Variable keep : File.t -> bool.
Variable others : list (string * nat).

Lemma relay_replay h0 fs : forall st,
  heap st = h0 ->
  let st' := relay_dispatch keep
               ((fun r => FileList.mkCall FileList.PipeData (FileList.ArgFile r)) <$> fs) st in
  heap st' = h0 /\ src (net st') = src (net st) /\ thenQueued (net st') = thenQueued (net st)
  /\ FileList.ended (result (net st')) = FileList.ended (result (net st))
  /\ FileList.listeners (result (net st')) = FileList.listeners (result (net st))
  /\ FileList.files (result (net st')) = FileList.files (result (net st)) ++ kept keep h0 fs
  /\ (FileList.listeners (result (net st)) = [] -> seen (net st') = seen (net st)).
Proof.
  unfold relay_dispatch.
  induction fs as [|r fs IH]; intros st Hh; cbv zeta.
  - simpl. rewrite app_nil_r. auto 10.
  - rewrite fmap_cons. cbn [fold_left].
    set (st1 := relay_handle keep _ st).
    assert (H1 : heap st1 = h0 /\ src (net st1) = src (net st)
                 /\ thenQueued (net st1) = thenQueued (net st)
                 /\ FileList.ended (result (net st1)) = FileList.ended (result (net st))
                 /\ FileList.listeners (result (net st1)) = FileList.listeners (result (net st))
                 /\ FileList.files (result (net st1))
                    = FileList.files (result (net st)) ++ kept keep h0 [r]
                 /\ (FileList.listeners (result (net st)) = [] -> seen (net st1) = seen (net st))).
    { unfold st1, relay_handle, kept. simpl. rewrite Hh.
      destruct (keep (h0 !!! r)); simpl; rewrite ?app_nil_r; repeat split; auto.
      intros Hl. unfold FileList.emit. rewrite Hl. simpl. rewrite app_nil_r. reflexivity. }
    destruct H1 as (A1 & A2 & A3 & A4 & A5 & A6 & A7).
    destruct (IH st1 A1) as (B1 & B2 & B3 & B4 & B5 & B6 & B7).
    split; [exact B1 |]. split; [rewrite B2; exact A2 |]. split; [rewrite B3; exact A3 |].
    split; [rewrite B4; exact A4 |]. split; [rewrite B5; exact A5 |]. split.
    + rewrite B6, A6, <- app_assoc. f_equal. symmetry. apply (kept_app keep h0 [r] fs).
    + intros Hl. rewrite B7, A7; [reflexivity | exact Hl | rewrite A5; exact Hl].
Qed.

Lemma relay_init fs e down h w :
  inv_relay keep others h down (relay keep (FileList.upstream fs e others) down h w)
  /\ src (net (relay keep (FileList.upstream fs e others) down h w))
     = FileList.mk fs e (((fun x => (fst x, FileList.External (snd x))) <$> others)
                         ++ [("data"%string, FileList.PipeData)])
  /\ thenQueued (net (relay keep (FileList.upstream fs e others) down h w)) = true
  /\ FileList.listeners (result (net (relay keep (FileList.upstream fs e others) down h w)))
     = FileList.listeners down
  /\ (FileList.listeners down = [] ->
      seen (net (relay keep (FileList.upstream fs e others) down h w)) = []).
Proof.
  unfold relay, FileList.upstream.
  cbn [FileList.on FileList.files FileList.ended FileList.listeners].
  simpl String.eqb. cbv iota.
  set (st := on_net _ _).
  destruct (relay_replay h fs st eq_refl) as (B1 & B2 & B3 & B4 & B5 & B6 & B7).
  split; [ | split; [exact B2 | split; [exact B3 | split; [exact B5 | exact B7]]]].
  split; [exact B1 |]. split; [ | split].
  - unfold wired_each. rewrite B2, B3. simpl. rewrite ?app_nil_r. reflexivity.
  - rewrite B6, B2. reflexivity.
  - rewrite B4, B3. simpl. rewrite orb_false_r. reflexivity.
Qed.

Lemma relay_handle_src c st :
  src (net (relay_handle keep c st)) = src (net st)
  /\ thenQueued (net (relay_handle keep c st)) = thenQueued (net st).
Proof.
  unfold relay_handle. destruct (FileList.listener c), (FileList.arg c); simpl; auto.
  all: destruct (keep _); auto.
Qed.

Lemma relay_dispatch_src cs : forall st,
  src (net (relay_dispatch keep cs st)) = src (net st)
  /\ thenQueued (net (relay_dispatch keep cs st)) = thenQueued (net st).
Proof.
  unfold relay_dispatch. induction cs as [|c cs IH]; intros st; [auto |].
  simpl. destruct (IH (relay_handle keep c st)) as [-> ->]. apply relay_handle_src.
Qed.

Lemma relay_step_track st ev :
  FileList.files (src (net (relay_step keep st ev)))
  = FileList.files (src (net st)) ++ arrivals [ev]
  /\ FileList.ended (src (net (relay_step keep st ev)))
     = FileList.ended (src (net st)) || src_ends [ev]
  /\ thenQueued (net (relay_step keep st ev)) = thenQueued (net st) && negb (continued [ev]).
Proof.
  destruct ev as [r| | |j res|j]; cbn [relay_step].
  - cbn [FileList.add]. destruct (relay_dispatch_src (FileList.emit "data" (FileList.ArgFile r)
      (FileList.mk (FileList.files (src (net st)) ++ [r]) (FileList.ended (src (net st)))
         (FileList.listeners (src (net st)))))
      (on_net (set_src (FileList.mk (FileList.files (src (net st)) ++ [r])
                          (FileList.ended (src (net st)))
                          (FileList.listeners (src (net st))))) st)) as [-> ->].
    simpl. rewrite orb_false_r, andb_true_r. auto.
  - cbn [FileList.end_].
    match goal with |- context [relay_dispatch keep ?cs ?s] =>
      destruct (relay_dispatch_src cs s) as [-> ->] end.
    simpl. rewrite app_nil_r, orb_true_r, andb_true_r. auto.
  - destruct (thenQueued (net st)) eqn:Hq.
    + cbn [FileList.on]. simpl String.eqb. cbv iota.
      match goal with |- context [relay_dispatch keep ?cs ?s] =>
        destruct (relay_dispatch_src cs s) as [-> ->] end.
      simpl. rewrite app_nil_r, orb_false_r. auto.
    + simpl. rewrite app_nil_r, orb_false_r, Hq. auto.
  - simpl. rewrite app_nil_r, orb_false_r, andb_true_r. auto.
  - simpl. rewrite app_nil_r, orb_false_r, andb_true_r. auto.
Qed.

Lemma arrivals_cons ev evs : arrivals (ev :: evs) = arrivals [ev] ++ arrivals evs.
Proof. destruct ev; reflexivity. Qed.

Lemma src_ends_cons ev evs : src_ends (ev :: evs) = src_ends [ev] || src_ends evs.
Proof. simpl. rewrite orb_false_r. reflexivity. Qed.

Lemma continued_cons ev evs : continued (ev :: evs) = continued [ev] || continued evs.
Proof. simpl. rewrite orb_false_r. reflexivity. Qed.

Lemma relay_run_track evs : forall st,
  FileList.files (src (net (relay_run keep evs st)))
  = FileList.files (src (net st)) ++ arrivals evs
  /\ FileList.ended (src (net (relay_run keep evs st)))
     = FileList.ended (src (net st)) || src_ends evs
  /\ thenQueued (net (relay_run keep evs st)) = thenQueued (net st) && negb (continued evs).
Proof.
  induction evs as [|ev evs IH]; intros st.
  - simpl. rewrite app_nil_r, orb_false_r, andb_true_r. auto.
  - change (relay_run keep (ev :: evs) st) with (relay_run keep evs (relay_step keep st ev)).
    destruct (IH (relay_step keep st ev)) as (-> & -> & ->).
    destruct (relay_step_track st ev) as (-> & -> & ->).
    rewrite (arrivals_cons ev evs), <- app_assoc, (src_ends_cons ev evs),
      (continued_cons ev evs), negb_orb, orb_assoc, andb_assoc. auto.
Qed.

Lemma relay_result fs e down h w evs :
  FileList.files (result (net (relay_run keep evs
                                 (relay keep (FileList.upstream fs e others) down h w))))
  = FileList.files down ++ kept keep h (fs ++ arrivals evs)
  /\ FileList.files (src (net (relay_run keep evs
                                 (relay keep (FileList.upstream fs e others) down h w))))
     = fs ++ arrivals evs
  /\ FileList.ended (result (net (relay_run keep evs
                                    (relay keep (FileList.upstream fs e others) down h w))))
     = FileList.ended down || (continued evs && (e || src_ends evs)).
Proof.
  destruct (relay_init fs e down h w) as (Hi & Hs & Hq & _).
  pose proof (relay_run_inv keep others h down evs _ Hi) as (_ & _ & Hf & He).
  destruct (relay_run_track evs (relay keep (FileList.upstream fs e others) down h w))
    as (Tf & Te & Tq).
  rewrite Hs in Tf, Te. rewrite Hq in Tq. simpl in Tf, Te, Tq.
  rewrite Hf, He, Tf, Te, Tq, negb_involutive. auto.
Qed.

End RelayRun.

Section RelayTheorems.

(** X20: After any events, the list returned by src(patterns) holds exactly
    the upstream files whose path the matcher accepts, in upstream order
    (those present at the call and those added since), and it has ended
    exactly when the continuation given to then has run and the upstream
    list has ended. *)
Theorem src_forwards_matching_files
  (test : string -> bool) (fs : list FileRef) (e : bool) (others : list (string * nat))
  (h : gmap FileRef File.t) (w : World) (evs : list Event) :
  FileList.files
    (result (net (relay_run (fun f => test (File.path f)) evs
                    (FileList_src test (FileList.upstream fs e others) h w))))
  = List.filter (fun r => test (File.path (h !!! r))) (fs ++ arrivals evs)
  /\ FileList.files
       (src (net (relay_run (fun f => test (File.path f)) evs
                    (FileList_src test (FileList.upstream fs e others) h w))))
     = fs ++ arrivals evs
  /\ FileList.ended
       (result (net (relay_run (fun f => test (File.path f)) evs
                       (FileList_src test (FileList.upstream fs e others) h w))))
     = continued evs && (e || src_ends evs).
Proof.
  unfold FileList_src.
  destruct (relay_result (fun f => test (File.path f)) others fs e FileList.empty h w evs)
    as (Hf & Hs & He).
  rewrite Hf, Hs, He. auto.
Qed.

(** X21: pipe(otherList) returns otherList, which then holds its own files
    followed by every upstream file in upstream order, and has ended if it
    had before, or once the continuation given to then has run and the
    upstream list has ended. *)
Theorem pipe_list_forwards_every_file
  (processor : FileList.t) (fs : list FileRef) (e : bool) (others : list (string * nat))
  (h : gmap FileRef File.t) (w : World) (evs : list Event) :
  FileList.files
    (result (net (relay_run (fun _ => true) evs
                    (pipe_list processor (FileList.upstream fs e others) h w))))
  = FileList.files processor ++ fs ++ arrivals evs
  /\ FileList.ended
       (result (net (relay_run (fun _ => true) evs
                       (pipe_list processor (FileList.upstream fs e others) h w))))
     = FileList.ended processor || (continued evs && (e || src_ends evs)).
Proof.
  unfold pipe_list.
  destruct (relay_result (fun _ => true) others fs e processor h w evs) as (Hf & _ & He).
  rewrite Hf, He. split; [ | reflexivity]. f_equal. clear Hf He.
  unfold kept. induction (fs ++ arrivals evs) as [|r l IH]; [reflexivity |].
  simpl. f_equal. exact IH.
Qed.

End RelayTheorems.

Section Barrier.

Lemma barrier_calls_app a b : barrier_calls (a ++ b) = barrier_calls a ++ barrier_calls b.
Proof. apply omap_app. Qed.

Lemma released_result_add r n :
  result_wired n -> FileList.ended (result n) = false -> released n ->
  released (result_add r n) /\ result_wired (result_add r n)
  /\ FileList.ended (result (result_add r n)) = false.
Proof.
  unfold released, result_wired, result_add. intros Hl He Hr. cbn [FileList.add].
  unfold FileList.emit. cbn [FileList.listeners]. rewrite Hl.
  destruct (thenQueued n) eqn:Hq; simpl; rewrite ?Hq, ?He, ?app_nil_r;
    rewrite He in Hr; auto.
Qed.

Lemma released_result_end n :
  result_wired n -> thenQueued n = false -> FileList.ended (result n) = false ->
  released n ->
  released (result_end n) /\ result_wired (result_end n)
  /\ FileList.ended (result (result_end n)) = true.
Proof.
  unfold released, result_wired, result_end. intros Hl Hq He Hr. cbn [FileList.end_].
  unfold FileList.emit. cbn [FileList.listeners]. rewrite Hl, Hq. simpl.
  rewrite Hq, barrier_calls_app, Hr, He. auto.
Qed.

End Barrier.

Section SrcProtocol.

Lemma src_protocol_head e ev evs :
  src_protocol e (ev :: evs) = true ->
  src_protocol e [ev] = true
  /\ src_protocol (e || match ev with SrcEnd => true | _ => false end) evs = true.
Proof.
  destruct ev; simpl; rewrite ?andb_true_r, ?orb_false_r, ?orb_true_r; auto;
    intros Hp; apply andb_true_iff in Hp as [-> Hp]; auto.
Qed.

End SrcProtocol.

Section RelayBarrier.
Variable keep : File.t -> bool.
Variable others : list (string * nat).
Variable h0 : gmap FileRef File.t.

Lemma relay_step_barrier st ev :
  inv_relay keep others h0 FileList.empty st -> inv_barrier st ->
  src_protocol (FileList.ended (src (net st))) [ev] = true ->
  inv_barrier (relay_step keep st ev).
Proof.
  intros (Hh & Hw & Hf & He) [Hr Hl] Hpr. simpl in He.
  destruct ev as [r| | |j res|j]; cbn [relay_step]; [ | | | split; assumption .. ].
  - simpl in Hpr. rewrite andb_true_r in Hpr. apply negb_true_iff in Hpr.
    rewrite Hpr, andb_false_r in He.
    cbn [FileList.add]. unfold relay_dispatch.
    rewrite (fold_emit_data (relay_handle keep) (relay_handle_ext keep) others r _
               (thenQueued (net st))) by exact Hw.
    unfold relay_handle. cbn [FileList.listener FileList.arg].
    destruct (keep _); [ | split; assumption].
    destruct (released_result_add r (net st) Hl He Hr) as (A1 & A2 & _).
    split; assumption.
  - simpl in Hpr. rewrite andb_true_r in Hpr. apply negb_true_iff in Hpr.
    rewrite Hpr, andb_false_r in He.
    cbn [FileList.end_]. unfold relay_dispatch.
    rewrite (fold_emit_end (relay_handle keep) (relay_handle_ext keep) others _ _
               (thenQueued (net st))) by exact Hw.
    destruct (thenQueued (net st)) eqn:Hq; [split; assumption |].
    unfold relay_handle. cbn [FileList.listener FileList.arg].
    destruct (released_result_end (net st) Hl Hq He Hr) as (A1 & A2 & _).
    split; assumption.
  - destruct (thenQueued (net st)) eqn:Hq; [ | split; assumption].
    simpl in He.
    cbn [FileList.on]. simpl String.eqb. cbv iota.
    set (st1 := on_net _ (on_net (set_thenQueued false) st)).
    set (l' := FileList.mk _ _ _).
    set (st2 := on_net (set_src l') st1).
    change (FileList.ended l') with (FileList.ended (src (net st))).
    assert (H2 : released (net st2) /\ result_wired (net st2)
                 /\ thenQueued (net st2) = false
                 /\ FileList.ended (result (net st2)) = false).
    { unfold released, result_wired in *. simpl. rewrite He, Hl, Hq. simpl.
      rewrite He in Hr. rewrite app_nil_r. auto. }
    destruct H2 as (B1 & B2 & B3 & B4).
    destruct (FileList.ended (src (net st))) eqn:Hend.
    + simpl relay_dispatch. unfold relay_handle. cbn [FileList.listener FileList.arg].
      destruct (released_result_end (net st2) B2 B3 B4 B1) as (A1 & A2 & _).
      split; assumption.
    + simpl relay_dispatch. split; assumption.
Qed.

Lemma relay_run_barrier evs : forall st,
  inv_relay keep others h0 FileList.empty st -> inv_barrier st ->
  src_protocol (FileList.ended (src (net st))) evs = true ->
  inv_barrier (relay_run keep evs st).
Proof.
  induction evs as [|ev evs IH]; intros st Hi Hb Hpr; [exact Hb |].
  apply src_protocol_head in Hpr as [Hp1 Hp2].
  change (relay_run keep (ev :: evs) st) with (relay_run keep evs (relay_step keep st ev)).
  apply IH.
  - apply relay_step_inv, Hi.
  - apply relay_step_barrier; assumption.
  - destruct (relay_step_track keep st ev) as (_ & -> & _).
    destruct ev; simpl in *; rewrite ?orb_false_r, ?orb_true_r in *; exact Hp2.
Qed.

End RelayBarrier.

Section RelayBarrierTheorem.

(** X22: When the upstream producer adds nothing after end and ends once,
    src calls the barrier's done exactly once, when its result list ends,
    with the files the matcher accepted, and not at all before. *)
Theorem src_releases_barrier_once
  (test : string -> bool) (fs : list FileRef) (e : bool) (others : list (string * nat))
  (h : gmap FileRef File.t) (w : World) (evs : list Event) :
  src_protocol e evs = true ->
  barrier_calls
    (seen (net (relay_run (fun f => test (File.path f)) evs
                  (FileList_src test (FileList.upstream fs e others) h w))))
  = if continued evs && (e || src_ends evs)
    then [List.filter (fun r => test (File.path (h !!! r))) (fs ++ arrivals evs)]
    else [].
Proof.
  intros Hpr. unfold FileList_src.
  destruct (relay_result (fun f => test (File.path f)) others fs e FileList.empty h w evs)
    as (Hf & _ & He).
  destruct (relay_init (fun f => test (File.path f)) others fs e FileList.empty h w)
    as (Hi & Hs & Hq & Hl & Hseen).
  destruct (relay_run_barrier (fun f => test (File.path f)) others h evs _ Hi) as [Hr _].
  - split.
    + unfold released. rewrite (Hseen eq_refl).
      destruct Hi as (_ & _ & _ & Hend). rewrite Hend, Hq. reflexivity.
    + unfold result_wired. rewrite Hl, Hq. reflexivity.
  - rewrite Hs. exact Hpr.
  - unfold released in Hr. rewrite Hr, He, Hf. reflexivity.
Qed.

End RelayBarrierTheorem.

Section RelayExamples.
Import Demo.

Lemma src_releases_barrier_once_witness :
  barrier_calls
    (seen (net (relay_run (fun f => String.eqb (File.path f) "b") [SrcAdd 2%nat; ThenRun; SrcEnd]
                  (FileList_src (fun p => String.eqb p "b")
                     (FileList.upstream [0%nat; 1%nat] false []) Demo.bac Demo.world))))
  = [[0%nat]].
Proof.
  rewrite (src_releases_barrier_once (fun p => String.eqb p "b") [0%nat; 1%nat] false []
             Demo.bac Demo.world [SrcAdd 2%nat; ThenRun; SrcEnd]); reflexivity.
Defined.

End RelayExamples.


(** ** [dest] and [delete] on a list *)

Section SoundFacts.

Lemma counted_perm h h' k n : h ≡ₚ h' -> counted h k n -> counted h' k n.
Proof.
  intros Hp (Hc & Hf & He). split; [exact Hc |]. split; [ | exact He].
  rewrite Hf, Hp. reflexivity.
Qed.

Lemma sound_perm h h' k n : h ≡ₚ h' -> sound h k n -> sound h' k n.
Proof. intros Hp (Hc & Hr). split; [exact (counted_perm _ _ _ _ Hp Hc) | exact Hr]. Qed.

Lemma base_bounds n : 0 <= base n <= 1.
Proof. unfold base. destruct (_ && _); lia. Qed.

Lemma base_zero n : base n <= 0 -> thenQueued n = false.
Proof.
  unfold base. destruct (thenQueued n); simpl; [lia | reflexivity].
Qed.

Lemma sound_not_ended h k n : sound h k n -> 1 <= k -> FileList.ended (result n) = false.
Proof.
  intros ((Hp & _ & He) & _ & _ & _ & Hl & Hw) Hk.
  destruct (FileList.ended (result n)); [ | reflexivity].
  specialize (He eq_refl). pose proof (base_bounds n). rewrite Hl, Hw in Hp. simpl in Hp. lia.
Qed.

Lemma sound_result_add r h k n :
  sound (r :: h) k n -> 1 <= k -> sound h k (result_add r n).
Proof.
  intros Hs Hk. pose proof (sound_not_ended _ _ _ Hs Hk) as He.
  destruct Hs as (Hc & Hr & Hl & Hf & Hlo & Hwa).
  destruct (released_result_add r n Hl He Hr) as (A1 & A2 & _).
  split; [apply counted_result_add, Hc |]. split; [exact A1 |]. split; [exact A2 |].
  split; [ | split; assumption].
  simpl. rewrite load_failed_app, load_failed_called, Hf. reflexivity.
Qed.

Lemma sound_settle h k n :
  sound h k n -> 1 <= k -> sound h (k - 1) (settle n) /\ same_wiring n (settle n).
Proof.
  intros Hs Hk. pose proof (sound_not_ended _ _ _ Hs Hk) as He.
  destruct Hs as (Hc & Hr & Hl & Hf & Hlo & Hwa).
  split; [ | apply same_wiring_settle].
  split; [apply counted_settle, Hc |].
  unfold settle. destruct (pending (set_pending (pending n - 1) n) >? 0) eqn:Hpos.
  - repeat split; assumption.
  - simpl in Hpos. rewrite Z.gtb_ltb in Hpos. apply Z.ltb_ge in Hpos.
    destruct Hc as (Hp & _ & _). rewrite Hlo, Hwa in Hp. simpl in Hp.
    pose proof (base_bounds n).
    assert (Hq : thenQueued n = false) by (apply base_zero; lia).
    destruct (released_result_end (set_pending (pending n - 1) n)) as (A1 & A2 & _);
      [exact Hl | exact Hq | exact He | exact Hr |].
    split; [exact A1 |]. split; [exact A2 |]. split; [ | split; assumption].
    simpl. rewrite load_failed_app, load_failed_called, Hf. reflexivity.
Qed.

Lemma sound_more h k n :
  sound h k n -> 1 <= pending n -> sound h (k + 1) (set_pending (pending n + 1) n).
Proof.
  intros (Hc & Hr) Hp. split; [apply counted_more; assumption | exact Hr].
Qed.

Lemma sound_src_add r h k n :
  sound h k n ->
  sound (h ++ [r]) k
    (set_src (FileList.mk (FileList.files (src n) ++ [r]) (FileList.ended (src n))
                (FileList.listeners (src n))) n).
Proof.
  intros ((Hp & Hf & He) & Hr). split; [ | exact Hr].
  split; [exact Hp |]. split; [ | exact He].
  simpl. rewrite Hf. rewrite !app_assoc. reflexivity.
Qed.

Lemma sound_pending h k n : sound h k n -> pending n = base n + k.
Proof. intros ((Hp & _) & _ & _ & _ & Hl & Hw). rewrite Hl, Hw in Hp. simpl in Hp. lia. Qed.

Lemma sound_idle h k n :
  sound h k n -> 1 <= pending n -> FileList.ended (result n) = false.
Proof.
  intros ((_ & _ & He) & _) Hp.
  destruct (FileList.ended (result n)); [specialize (He eq_refl); lia | reflexivity].
Qed.

(** The upstream list ends. *)
Lemma sound_src_end h k n :
  sound h k n -> FileList.ended (src n) = false ->
  sound h (if thenQueued n then k else k + 1)
    (set_src (FileList.mk (FileList.files (src n)) true (FileList.listeners (src n))) n).
Proof.
  intros ((Hp & Hf & He) & Hr) Hend. split; [ | exact Hr].
  split; [ | split; [exact Hf | exact He]].
  unfold base in *. simpl. rewrite Hend, andb_false_r in Hp.
  destruct (thenQueued n); simpl; lia.
Qed.

(** The continuation given to [then] subscribes to both lists. *)
Lemma sound_then h k n :
  sound h k n -> 0 <= k -> thenQueued n = true ->
  sound h (if FileList.ended (src n) then k + 1 else k)
    (set_src (FileList.mk (FileList.files (src n)) (FileList.ended (src n))
                (FileList.listeners (src n) ++ [("end"%string, FileList.PipeEnd)]))
       (observe []
          (set_result (FileList.mk (FileList.files (result n)) (FileList.ended (result n))
                         (FileList.listeners (result n)
                          ++ [("end"%string, FileList.BarrierDone)]))
             (set_thenQueued false n))))
  /\ FileList.ended (result n) = false.
Proof.
  intros Hs Hk Hq.
  assert (Hidle : FileList.ended (result n) = false).
  { apply (sound_idle h k n Hs). rewrite (sound_pending _ _ _ Hs).
    unfold base. rewrite Hq. simpl. lia. }
  split; [ | exact Hidle].
  destruct Hs as ((Hp & Hf & He) & Hr & Hl & Hlf & Hlo & Hwa).
  unfold sound, counted, released, result_wired in *. simpl.
  rewrite app_nil_r. rewrite Hq in Hl. rewrite Hl.
  split; [ | repeat split; assumption].
  split; [ | split; assumption].
  unfold base in *. simpl. rewrite Hq in Hp. simpl in Hp.
  destruct (FileList.ended (src n)); simpl; lia.
Qed.

(** An exception that goes to the log changes no count. *)
Lemma sound_escaped e h k n : sound h k n -> sound h k (observe [Escaped e] n).
Proof.
  intros ((Hp & Hf & He) & Hr & Hl & Hlf & Hlo & Hwa).
  unfold sound, counted, released, result_wired in *. simpl.
  rewrite load_failed_app, barrier_calls_app. simpl. rewrite !app_nil_r.
  repeat split; assumption.
Qed.

End SoundFacts.

Section LooseFacts.

Lemma loose_more k n : loose k n -> loose (k + 1) (set_pending (pending n + 1) n).
Proof. intros [Hp He]. split; [unfold base in *; simpl; lia | exact He]. Qed.

Lemma loose_lose k n : loose k n -> loose k (set_pending (pending n + 1) n).
Proof. intros [Hp He]. split; [unfold base in *; simpl; lia | exact He]. Qed.

Lemma sound_lose h k n :
  sound h k n -> 1 <= pending n -> loose k (set_pending (pending n + 1) n).
Proof.
  intros Hs Hp. split.
  - rewrite (sound_pending _ _ _ Hs). unfold base. simpl. lia.
  - exact (sound_idle _ _ _ Hs Hp).
Qed.

Lemma loose_result_add r k n : loose k n -> loose k (result_add r n).
Proof. intros [Hp He]. split; [exact Hp | exact He]. Qed.

Lemma loose_settle k n :
  loose k n -> 1 <= k -> loose (k - 1) (settle n) /\ same_wiring n (settle n).
Proof.
  intros [Hp He] Hk. split; [ | apply same_wiring_settle].
  pose proof (base_bounds n) as Hb. unfold settle.
  destruct (pending (set_pending (pending n - 1) n) >? 0) eqn:Hpos.
  - split; [unfold base in *; simpl; lia | exact He].
  - simpl in Hpos. rewrite Z.gtb_ltb in Hpos. apply Z.ltb_ge in Hpos. lia.
Qed.

Lemma loose_src_add r k n :
  loose k n ->
  loose k (set_src (FileList.mk (FileList.files (src n) ++ [r]) (FileList.ended (src n))
                      (FileList.listeners (src n))) n).
Proof. intros [Hp He]. split; [exact Hp | exact He]. Qed.

Lemma loose_src_end k n :
  loose k n -> FileList.ended (src n) = false ->
  loose (if thenQueued n then k else k + 1)
    (set_src (FileList.mk (FileList.files (src n)) true (FileList.listeners (src n))) n).
Proof.
  intros [Hp He] Hend. split; [ | exact He].
  unfold base in *. simpl. rewrite Hend, andb_false_r in Hp.
  destruct (thenQueued n); simpl; lia.
Qed.

Lemma loose_then k n :
  loose k n -> thenQueued n = true ->
  loose (if FileList.ended (src n) then k + 1 else k)
    (set_src (FileList.mk (FileList.files (src n)) (FileList.ended (src n))
                (FileList.listeners (src n) ++ [("end"%string, FileList.PipeEnd)]))
       (observe []
          (set_result (FileList.mk (FileList.files (result n)) (FileList.ended (result n))
                         (FileList.listeners (result n)
                          ++ [("end"%string, FileList.BarrierDone)]))
             (set_thenQueued false n)))).
Proof.
  intros [Hp He] Hq. split; [ | exact He].
  unfold base in *. simpl. rewrite Hq in Hp. simpl in Hp.
  destruct (FileList.ended (src n)); simpl; lia.
Qed.

Lemma loose_escaped e k n : loose k n -> loose k (observe [Escaped e] n).
Proof. intros [Hp He]. split; [exact Hp | exact He]. Qed.

End LooseFacts.

Section TrackedFacts.
Variable m : bool.

Lemma tracked_perm h h' k n : h ≡ₚ h' -> tracked m h k n -> tracked m h' k n.
Proof. destruct m; [auto | apply sound_perm]. Qed.

Lemma tracked_pending h k n :
  tracked m h k n -> 0 <= k -> thenQueued n = true \/ FileList.ended (src n) = false ->
  1 <= pending n.
Proof.
  intros Ht Hk Hb. pose proof (base_bounds n).
  destruct m; [destruct Ht; lia |].
  rewrite (sound_pending _ _ _ Ht). unfold base.
  destruct Hb as [-> | ->]; rewrite ?andb_false_r; simpl; lia.
Qed.

Lemma tracked_idle h k n : tracked m h k n -> 1 <= pending n -> FileList.ended (result n) = false.
Proof. destruct m; [intros [_ He] _; exact He | apply sound_idle]. Qed.

Lemma tracked_more h k n :
  tracked m h k n -> 1 <= pending n -> tracked m h (k + 1) (set_pending (pending n + 1) n).
Proof. destruct m; [intros Hl _; apply loose_more, Hl | apply sound_more]. Qed.

Lemma tracked_lose h k n :
  tracked m h k n -> 1 <= pending n -> loose k (set_pending (pending n + 1) n).
Proof. destruct m; [intros Hl _; apply loose_lose, Hl | apply sound_lose]. Qed.

Lemma tracked_settle h k n :
  tracked m h k n -> 1 <= k -> tracked m h (k - 1) (settle n) /\ same_wiring n (settle n).
Proof. destruct m; [apply loose_settle | apply sound_settle]. Qed.

Lemma tracked_src_add r h k n :
  tracked m h k n ->
  tracked m (h ++ [r]) k
    (set_src (FileList.mk (FileList.files (src n) ++ [r]) (FileList.ended (src n))
                (FileList.listeners (src n))) n).
Proof. destruct m; [apply loose_src_add | apply sound_src_add]. Qed.

Lemma tracked_src_end h k n :
  tracked m h k n -> FileList.ended (src n) = false ->
  tracked m h (if thenQueued n then k else k + 1)
    (set_src (FileList.mk (FileList.files (src n)) true (FileList.listeners (src n))) n).
Proof. destruct m; [apply loose_src_end | apply sound_src_end]. Qed.

Lemma tracked_then h k n :
  tracked m h k n -> 0 <= k -> thenQueued n = true ->
  tracked m h (if FileList.ended (src n) then k + 1 else k)
    (set_src (FileList.mk (FileList.files (src n)) (FileList.ended (src n))
                (FileList.listeners (src n) ++ [("end"%string, FileList.PipeEnd)]))
       (observe []
          (set_result (FileList.mk (FileList.files (result n)) (FileList.ended (result n))
                         (FileList.listeners (result n)
                          ++ [("end"%string, FileList.BarrierDone)]))
             (set_thenQueued false n))))
  /\ FileList.ended (result n) = false.
Proof.
  destruct m.
  - intros Hl _ Hq. split; [apply loose_then; assumption | apply Hl].
  - apply sound_then.
Qed.

Lemma tracked_escaped e h k n : tracked m h k n -> tracked m h k (observe [Escaped e] n).
Proof. destruct m; [apply loose_escaped | apply sound_escaped]. Qed.

End TrackedFacts.

Section SinkFacts.
Context `{Encode} `{Paths} `{SourceMaps} `{FileSystem} `{Logging}.
Variable kind : SinkKind.
Variable others : list (string * nat).

Lemma passed_on_tracked m r h k st :
  tracked m (r :: h) (k + 1) (net st) -> 0 <= k ->
  tracked m h k (net (passed_on r st)) /\ same_wiring (net st) (net (passed_on r st)).
Proof.
  intros Ht Hk. unfold passed_on. cbn [on_net net].
  assert (A1 : tracked m h (k + 1) (result_add r (net st))).
  { destruct m; [apply loose_result_add, Ht | apply sound_result_add; [exact Ht | lia]]. }
  destruct (tracked_settle m h (k + 1) (result_add r (net st))) as [A2 A3]; [exact A1 | lia |].
  replace (k + 1 - 1) with k in A2 by lia.
  split; [exact A2 |]. eapply same_wiring_trans; [ | exact A3]. split; reflexivity.
Qed.

Lemma in_flight_saving st' lo r p s :
  in_flight (mkSink st' (saving s ++ [(r, p)]) (deleting s) lo) ≡ₚ r :: in_flight s.
Proof. unfold in_flight. simpl. rewrite fmap_app. simpl. solve_Permutation. Qed.

Lemma in_flight_deleting st' lo r t s :
  in_flight (mkSink st' (saving s) (deleting s ++ [(r, t)]) lo) ≡ₚ r :: in_flight s.
Proof. unfold in_flight. simpl. rewrite fmap_app. simpl. solve_Permutation. Qed.

Lemma lossy_lost st' sa de lo r : lossy (mkSink st' sa de (lo ++ [r])) = true.
Proof. unfold lossy. simpl. destruct lo; reflexivity. Qed.

(** The [data] listener of a sink, [todo] being the files still to
    replay. *)
Lemma sink_data_tracked r todo s :
  tracked (lossy s) (r :: in_flight s ++ todo) (Z.of_nat (length (in_flight s)))
    (net (stage s)) ->
  1 <= pending (net (stage s)) ->
  tracked (lossy (snd (sink_data kind r s))) (in_flight (snd (sink_data kind r s)) ++ todo)
    (Z.of_nat (length (in_flight (snd (sink_data kind r s)))))
    (net (stage (snd (sink_data kind r s))))
  /\ same_wiring (net (stage s)) (net (stage (snd (sink_data kind r s))))
  /\ (threw (fst (sink_data kind r s)) = true -> lossy (snd (sink_data kind r s)) = true).
Proof.
  intros Hs Hp. unfold sink_data.
  set (st := on_net _ (stage s)).
  assert (Hs1 : tracked (lossy s) (r :: in_flight s ++ todo)
                  (Z.of_nat (length (in_flight s)) + 1) (net st))
    by (apply tracked_more; assumption).
  assert (Hl1 : loose (Z.of_nat (length (in_flight s))) (net st))
    by (eapply tracked_lose; eassumption).
  assert (Hw1 : same_wiring (net (stage s)) (net st)) by (split; reflexivity).
  destruct kind as [dir | deleteDir].
  - destruct (with_file r (save (dir (heap st !!! r))) st) as [res st1] eqn:E.
    assert (Hn : net st1 = net st).
    { change st1 with (snd (res, st1)). rewrite <- E. apply net_with_file. }
    rewrite <- Hn in Hs1, Hw1, Hl1.
    destruct res as [e | [err sp | p]]; cbn [fst snd threw stage].
    + rewrite lossy_lost. split; [exact Hl1 | split; [exact Hw1 | reflexivity]].
    + destruct (passed_on_tracked _ r _ _ st1 Hs1) as [A1 A2]; [lia |].
      split; [exact A1 |]. split; [eapply same_wiring_trans; eassumption | discriminate].
    + split; [ | split; [exact Hw1 | discriminate]].
      change (lossy (mkSink st1 (saving s ++ [(r, p)]) (deleting s) (lost s))) with (lossy s).
      eapply tracked_perm;
        [rewrite (in_flight_saving st1 (lost s) r p s); reflexivity |].
      rewrite (Permutation_length (in_flight_saving st1 (lost s) r p s)). cbn [length].
      rewrite Nat2Z.inj_succ. replace (Z.succ (Z.of_nat (length (in_flight s))))
        with (Z.of_nat (length (in_flight s)) + 1) by lia.
      exact Hs1.
  - destruct (with_file r delete_ st) as [res st1] eqn:E.
    assert (Hn : net st1 = net st).
    { change st1 with (snd (res, st1)). rewrite <- E. apply net_with_file. }
    rewrite <- Hn in Hs1, Hw1.
    destruct res as [err | t]; cbn [fst snd threw stage].
    + destruct (passed_on_tracked _ r _ _ st1 Hs1) as [A1 A2]; [lia |].
      split; [exact A1 |]. split; [eapply same_wiring_trans; eassumption | discriminate].
    + split; [ | split; [exact Hw1 | discriminate]].
      change (lossy (mkSink st1 (saving s) (deleting s ++ [(r, t)]) (lost s))) with (lossy s).
      eapply tracked_perm;
        [rewrite (in_flight_deleting st1 (lost s) r t s); reflexivity |].
      rewrite (Permutation_length (in_flight_deleting st1 (lost s) r t s)). cbn [length].
      rewrite Nat2Z.inj_succ. replace (Z.succ (Z.of_nat (length (in_flight s))))
        with (Z.of_nat (length (in_flight s)) + 1) by lia.
      exact Hs1.
Qed.

End SinkFacts.
Section SinkDispatch.
Context `{Encode} `{Paths} `{SourceMaps} `{FileSystem} `{Logging}.
Variable kind : SinkKind.
Variable others : list (string * nat).

Lemma sink_dispatch_externals (P : string * FileList.Listener -> Prop)
  `{!forall x, Decision (P x)} (os : list (string * nat)) a rest s :
  sink_dispatch kind
    (((fun q => FileList.mkCall (snd q) a)
        <$> filter P ((fun x => (fst x, FileList.External (snd x))) <$> os)) ++ rest) s
  = sink_dispatch kind rest s.
Proof.
  induction os as [|o os IH]; [reflexivity |].
  rewrite fmap_cons, filter_cons. case_decide; [ | exact IH].
  rewrite fmap_cons. exact IH.
Qed.

(** What an emit of a list wired as [wired_each] says amounts to. *)
Lemma sink_emit_data r l (queued : bool) s :
  FileList.listeners l
  = ((fun x => (fst x, FileList.External (snd x))) <$> others)
    ++ [("data"%string, FileList.PipeData)]
    ++ (if queued then [] else [("end"%string, FileList.PipeEnd)]) ->
  sink_dispatch kind (FileList.emit "data" (FileList.ArgFile r) l) s
  = sink_dispatch kind [FileList.mkCall FileList.PipeData (FileList.ArgFile r)] s.
Proof.
  intros El. unfold FileList.emit. rewrite El.
  rewrite !filter_app, !fmap_app, sink_dispatch_externals.
  destruct queued; reflexivity.
Qed.

Lemma sink_emit_end a l (queued : bool) s :
  FileList.listeners l
  = ((fun x => (fst x, FileList.External (snd x))) <$> others)
    ++ [("data"%string, FileList.PipeData)]
    ++ (if queued then [] else [("end"%string, FileList.PipeEnd)]) ->
  sink_dispatch kind (FileList.emit "end" a l) s
  = if queued then s else on_stage (on_net settle) s.
Proof.
  intros El. unfold FileList.emit. rewrite El.
  rewrite !filter_app, !fmap_app, sink_dispatch_externals.
  destruct queued; reflexivity.
Qed.

(** The replay of the files the upstream list already holds, and the
    [data] event of one file. *)
Lemma sink_replay fs : forall s,
  tracked (lossy s) (in_flight s ++ fs) (Z.of_nat (length (in_flight s))) (net (stage s)) ->
  thenQueued (net (stage s)) = true \/ FileList.ended (src (net (stage s))) = false ->
  tracked (lossy (sink_dispatch kind
                    ((fun r => FileList.mkCall FileList.PipeData (FileList.ArgFile r)) <$> fs) s))
    (in_flight (sink_dispatch kind
                  ((fun r => FileList.mkCall FileList.PipeData (FileList.ArgFile r)) <$> fs) s))
    (Z.of_nat (length (in_flight (sink_dispatch kind
                  ((fun r => FileList.mkCall FileList.PipeData (FileList.ArgFile r)) <$> fs) s))))
    (net (stage (sink_dispatch kind
                  ((fun r => FileList.mkCall FileList.PipeData (FileList.ArgFile r)) <$> fs) s)))
  /\ same_wiring (net (stage s))
       (net (stage (sink_dispatch kind
                      ((fun r => FileList.mkCall FileList.PipeData (FileList.ArgFile r)) <$> fs) s))).
Proof.
  induction fs as [|r fs IH]; intros s Hs Hq.
  - simpl. rewrite app_nil_r in Hs. split; [exact Hs | split; reflexivity].
  - rewrite fmap_cons. cbn [sink_dispatch].
    change (sink_handle kind _ s) with (sink_data kind r s).
    destruct (sink_data_tracked kind r fs s) as (A1 & A2 & A3).
    + eapply tracked_perm; [ | exact Hs]. solve_Permutation.
    + eapply tracked_pending; [exact Hs | lia | exact Hq].
    + destruct (sink_data kind r s) as [[e|[]] s1]; cbn [fst snd threw] in *.
      * specialize (A3 eq_refl).
        change (lossy (on_stage (sink_escaped e) s1)) with (lossy s1).
        change (in_flight (on_stage (sink_escaped e) s1)) with (in_flight s1).
        rewrite A3 in A1 |- *. split; [apply loose_escaped, A1 |].
        eapply same_wiring_trans; [exact A2 | split; reflexivity].
      * destruct (IH s1 A1) as [B1 B2].
        { destruct A2 as [-> ->]. exact Hq. }
        split; [exact B1 | eapply same_wiring_trans; eassumption].
Qed.

Lemma sink_init fs e h w :
  inv_sink others (sink kind (FileList.upstream fs e others) h w)
  /\ src (net (stage (sink kind (FileList.upstream fs e others) h w)))
     = FileList.mk fs e (((fun x => (fst x, FileList.External (snd x))) <$> others)
                         ++ [("data"%string, FileList.PipeData)]).
Proof.
  unfold sink, FileList.upstream.
  cbn [FileList.on FileList.files FileList.ended FileList.listeners].
  simpl String.eqb. cbv iota.
  set (s := on_stage _ _).
  destruct (sink_replay fs s) as [A1 A2].
  - unfold s, tracked, lossy, sound, counted, released, result_wired, base. simpl.
    repeat split; try reflexivity; try discriminate.
  - left. reflexivity.
  - destruct A2 as [E1 E2]. split; [split; [ | exact A1] | rewrite E1; reflexivity].
    unfold wired_each. rewrite E1, E2. simpl. rewrite ?app_nil_r. reflexivity.
Qed.

End SinkDispatch.
Section SinkSteps.
Context `{Encode} `{Paths} `{SourceMaps} `{FileSystem} `{Logging}.
Variable kind : SinkKind.
Variable others : list (string * nat).

Lemma wired_each_same n n' : same_wiring n n' -> wired_each others n -> wired_each others n'.
Proof. unfold wired_each. intros [-> ->]. auto. Qed.

Lemma in_flight_unsave st' lo k r p s :
  saving s !! k = Some (r, p) ->
  in_flight s ≡ₚ r :: in_flight (mkSink st' (delete k (saving s)) (deleting s) lo).
Proof.
  intros Hk. unfold in_flight. simpl.
  rewrite (delete_Permutation (saving s) k (r, p) Hk) at 1. reflexivity.
Qed.

Lemma in_flight_undelete st' lo k r t s :
  deleting s !! k = Some (r, t) ->
  in_flight s ≡ₚ r :: in_flight (mkSink st' (saving s) (delete k (deleting s)) lo).
Proof.
  intros Hk. unfold in_flight. simpl.
  rewrite (delete_Permutation (deleting s) k (r, t) Hk) at 1. simpl. solve_Permutation.
Qed.

Lemma in_flight_resave st' lo k r p p' s :
  saving s !! k = Some (r, p) ->
  in_flight (mkSink st' (<[k := (r, p')]> (saving s)) (deleting s) lo) = in_flight s.
Proof.
  intros Hk. unfold in_flight. simpl. f_equal.
  rewrite list_fmap_insert. simpl. apply list_insert_id.
  rewrite list_lookup_fmap, Hk. reflexivity.
Qed.

Lemma length_in_flight s r s' :
  in_flight s ≡ₚ r :: in_flight s' ->
  Z.of_nat (length (in_flight s)) = Z.of_nat (length (in_flight s')) + 1.
Proof. intros Hp. rewrite (Permutation_length Hp). cbn [length]. lia. Qed.

Lemma deleted_inv k r t res s :
  inv_sink others s -> deleting s !! k = Some (r, t) ->
  net (snd res) = net (stage s) ->
  inv_sink others (deleted k r res s)
  /\ same_wiring (net (stage s)) (net (stage (deleted k r res s))).
Proof.
  intros [Hw Hs] Hk Hn. destruct res as [[e | [err | t']] st1]; cbn [deleted stage snd] in *.
  - split; [split | split; cbn; rewrite Hn; reflexivity].
    + unfold wired_each, sink_escaped. cbn. rewrite Hn. exact Hw.
    + change (tracked (lossy s) (in_flight s) (Z.of_nat (length (in_flight s)))
                (observe [Escaped e] (net st1))).
      rewrite Hn. apply tracked_escaped, Hs.
  - pose proof (in_flight_undelete (passed_on r st1) (lost s) k r t s Hk) as Hperm.
    destruct (passed_on_tracked (lossy s) r
                (in_flight (mkSink (passed_on r st1) (saving s) (delete k (deleting s)) (lost s)))
                (Z.of_nat (length (in_flight (mkSink (passed_on r st1) (saving s)
                                                (delete k (deleting s)) (lost s)))))
                st1) as [A1 A2]; [ | lia |].
    + rewrite Hn, <- (length_in_flight _ _ _ Hperm).
      eapply tracked_perm; [exact Hperm | exact Hs].
    + rewrite Hn in A2. split; [split; [ | exact A1] | exact A2].
      eapply wired_each_same; eassumption.
  - split; [split; cbn [stage]; rewrite Hn; [exact Hw | exact Hs] | rewrite Hn; split; reflexivity].
Qed.

Lemma wiring_src n n' b fs :
  same_wiring n n' -> FileList.ended (src n) = b -> FileList.files (src n) = fs ->
  FileList.ended (src n') = b /\ FileList.files (src n') = fs.
Proof. intros [-> _]. auto. Qed.

Lemma sink_step_inv s ev :
  inv_sink others s ->
  sink_protocol (FileList.ended (src (net (stage s)))) [ev] = true ->
  inv_sink others (sink_step kind s ev)
  /\ FileList.ended (src (net (stage (sink_step kind s ev))))
     = (FileList.ended (src (net (stage s))) || match ev with SinkEnd => true | _ => false end)
  /\ FileList.files (src (net (stage (sink_step kind s ev))))
     = FileList.files (src (net (stage s)))
       ++ match ev with SinkAdd r => [r] | _ => [] end.
Proof.
  intros Hi Hpr. pose proof Hi as [Hw Hs].
  destruct ev as [r| | |k c|k err|k err]; cbn [sink_step].
  - (* SinkAdd *)
    simpl in Hpr. rewrite andb_true_r in Hpr. apply negb_true_iff in Hpr.
    cbn [FileList.add].
    set (l' := FileList.mk _ _ _). set (s' := on_stage (on_net (set_src l')) s).
    rewrite (sink_emit_data kind others r l' (thenQueued (net (stage s)))) by exact Hw.
    destruct (sink_replay kind [r] s') as [A1 A2].
    + change (lossy s') with (lossy s). change (in_flight s') with (in_flight s).
      apply (tracked_src_add _ r), Hs.
    + right. exact Hpr.
    + cbn [fmap list_fmap] in A1, A2.
      split; [split; [ | exact A1] | ].
      * eapply wired_each_same; [exact A2 | exact Hw].
      * apply (wiring_src _ _ _ _ A2); simpl; rewrite ?orb_false_r; reflexivity.
  - (* SinkEnd *)
    simpl in Hpr. rewrite andb_true_r in Hpr. apply negb_true_iff in Hpr.
    cbn [FileList.end_].
    set (l' := FileList.mk _ _ _). set (s' := on_stage (on_net (set_src l')) s).
    rewrite (sink_emit_end kind others _ l' (thenQueued (net (stage s)))) by exact Hw.
    pose proof (tracked_src_end _ _ _ _ Hs Hpr) as Hs'.
    assert (Hw' : wired_each others (net (stage s'))) by exact Hw.
    destruct (thenQueued (net (stage s))) eqn:Hq.
    + split; [split; [exact Hw' | exact Hs'] | ]. simpl. rewrite orb_true_r, app_nil_r. auto.
    + destruct (tracked_settle _ _ _ _ Hs') as [A1 A2]; [lia |].
      replace (Z.of_nat (length (in_flight s)) + 1 - 1)
        with (Z.of_nat (length (in_flight s))) in A1 by lia.
      split; [split; [ | exact A1] | ].
      * eapply wired_each_same; [exact A2 | exact Hw'].
      * apply (wiring_src _ _ _ _ A2); simpl; rewrite ?orb_true_r, ?app_nil_r; reflexivity.
  - (* SinkThen *)
    destruct (thenQueued (net (stage s))) eqn:Hq;
      [ | split; [exact Hi | rewrite orb_false_r, app_nil_r; auto] ].
    destruct (tracked_then _ _ _ _ Hs) as [Hs' Hidle]; [lia | exact Hq |].
    cbn [FileList.on on_stage stage on_net net set_thenQueued result src].
    simpl String.eqb. cbv iota. cbn [FileList.ended FileList.files FileList.listeners].
    rewrite Hidle. rewrite Hidle in Hs'. cbn [fmap list_fmap].
    set (n3 := set_src _ _) in Hs'.
    set (s3 := on_stage (on_net (set_src _)) _).
    assert (En : net (stage s3) = n3) by reflexivity.
    assert (Hw3 : wired_each others n3).
    { unfold wired_each in *. simpl. rewrite Hw, Hq, <- !app_assoc. reflexivity. }
    change (in_flight s) with (in_flight s3) in Hs'.
    change (lossy s) with (lossy s3) in Hs'.
    repeat match goal with
    | |- context [if ?b then _ else _] =>
      progress change b with (FileList.ended (src (net (stage s))))
    end.
    assert (Ee : FileList.ended (src n3) = FileList.ended (src (net (stage s))))
      by reflexivity.
    assert (Ef : FileList.files (src n3) = FileList.files (src (net (stage s))))
      by reflexivity.
    clearbody n3 s3. rewrite orb_false_r, app_nil_r, <- Ee, <- Ef. rewrite <- Ee in Hs'.
    destruct (FileList.ended (src n3)) eqn:Hend.
    + simpl sink_dispatch. change (sink_handle kind _ s3) with (@inr Err.t unit tt, on_stage (on_net settle) s3).
      cbv iota.
      destruct (tracked_settle _ _ _ _ Hs') as [A1 A2]; [lia |].
      replace (Z.of_nat (length (in_flight s3)) + 1 - 1)
        with (Z.of_nat (length (in_flight s3))) in A1 by lia.
      unfold inv_sink, on_stage. cbn [stage on_net net]. rewrite En.
      split; [split; [ | exact A1] | ].
      * eapply wired_each_same; [exact A2 | exact Hw3].
      * apply (wiring_src _ _ _ _ A2); [exact Hend | reflexivity].
    + simpl sink_dispatch. unfold inv_sink. rewrite En. auto.
  - (* SaveCompletes *)
    destruct (saving s !! k) as [[r p]|] eqn:Hk;
      [ | split; [exact Hi | rewrite orb_false_r, app_nil_r; auto] ].
    destruct (with_file r (complete p c) (stage s)) as [res st1] eqn:E.
    assert (Hn : net st1 = net (stage s)).
    { change st1 with (snd (res, st1)). rewrite <- E. apply net_with_file. }
    destruct res as [e | [e sp | p']].
    + split; [split | ].
      * unfold wired_each, sink_escaped. cbn. rewrite Hn. exact Hw.
      * change (tracked (lossy s) (in_flight s) (Z.of_nat (length (in_flight s)))
                  (observe [Escaped e] (net st1))).
        rewrite Hn. apply tracked_escaped, Hs.
      * cbn. rewrite Hn, orb_false_r, app_nil_r. auto.
    + pose proof (in_flight_unsave (passed_on r st1) (lost s) k r p s Hk) as Hperm.
      destruct (passed_on_tracked (lossy s) r
                  (in_flight (mkSink (passed_on r st1) (delete k (saving s)) (deleting s) (lost s)))
                  (Z.of_nat (length (in_flight (mkSink (passed_on r st1)
                                                  (delete k (saving s)) (deleting s) (lost s)))))
                  st1) as [A1 A2]; [ | lia |].
      * rewrite Hn, <- (length_in_flight _ _ _ Hperm).
        eapply tracked_perm; [exact Hperm | exact Hs].
      * rewrite Hn in A2. split; [split; [ | exact A1] | ].
        -- eapply wired_each_same; eassumption.
        -- apply (wiring_src _ _ _ _ A2); rewrite ?orb_false_r, ?app_nil_r; reflexivity.
    + split; [split | ].
      * cbn [stage]. rewrite Hn. exact Hw.
      * change (lossy (mkSink st1 (<[k:=(r, p')]> (saving s)) (deleting s) (lost s)))
          with (lossy s).
        rewrite (in_flight_resave st1 (lost s) k r p p' s Hk). cbn [stage].
        rewrite Hn. exact Hs.
      * cbn [stage]. rewrite Hn, orb_false_r, app_nil_r. auto.
  - (* DeleteCompletes *)
    destruct kind as [dir | deleteDir];
      [split; [exact Hi | rewrite orb_false_r, app_nil_r; auto] |].
    destruct (deleting s !! k) as [[r t]|] eqn:Hk;
      [ | split; [exact Hi | rewrite orb_false_r, app_nil_r; auto] ].
    destruct (deleted_inv k r t (with_file r (delete_deleteFile_cb deleteDir t err) (stage s))
                s Hi Hk) as [A1 A2]; [apply net_with_file |].
    split; [exact A1 |].
    apply (wiring_src _ _ _ _ A2); rewrite ?orb_false_r, ?app_nil_r; reflexivity.
  - (* DirRemoves *)
    destruct (deleting s !! k) as [[r t]|] eqn:Hk;
      [ | split; [exact Hi | rewrite orb_false_r, app_nil_r; auto] ].
    destruct (deleted_inv k r t (with_file r (delete_done t err) (stage s)) s Hi Hk)
      as [A1 A2]; [apply net_with_file |].
    split; [exact A1 |].
    apply (wiring_src _ _ _ _ A2); rewrite ?orb_false_r, ?app_nil_r; reflexivity.
Qed.

End SinkSteps.

Section SinkRuns.
Context `{Encode} `{Paths} `{SourceMaps} `{FileSystem} `{Logging}.
Variable kind : SinkKind.
Variable others : list (string * nat).

Lemma sink_protocol_cons e ev evs :
  sink_protocol e (ev :: evs) = true ->
  sink_protocol e [ev] = true
  /\ sink_protocol (e || match ev with SinkEnd => true | _ => false end) evs = true.
Proof.
  destruct ev; simpl; rewrite ?orb_false_r, ?orb_true_r, ?andb_true_r; auto.
  all: intros [-> ?]%andb_true_iff; auto.
Qed.

Lemma sink_run_inv evs : forall s,
  inv_sink others s ->
  sink_protocol (FileList.ended (src (net (stage s)))) evs = true ->
  inv_sink others (sink_run kind evs s)
  /\ FileList.files (src (net (stage (sink_run kind evs s))))
     = FileList.files (src (net (stage s))) ++ sink_added evs.
Proof.
  unfold sink_run.
  induction evs as [|ev evs IH]; intros s Hi Hpr.
  - simpl. rewrite app_nil_r. auto.
  - destruct (sink_protocol_cons _ _ _ Hpr) as [Hp1 Hp2].
    destruct (sink_step_inv kind others s ev Hi Hp1) as (A1 & A2 & A3).
    cbn [fold_left]. destruct (IH (sink_step kind s ev) A1) as [B1 B2].
    + rewrite A2. exact Hp2.
    + split; [exact B1 |]. rewrite B2, A3, <- app_assoc. f_equal.
      destruct ev; reflexivity.
Qed.

(** X23: For dest and for delete alike, when the upstream producer adds
    nothing after end and ends once: once the result list has ended it holds
    every upstream file exactly once (in some order: a file is passed on
    when its save or deletion completes), no save or deletion is in flight,
    the upstream list has ended, and the barrier's done was called exactly
    once, with those files. *)
Theorem sink_passes_on_every_file
  (fs : list FileRef) (e : bool) (h : gmap FileRef File.t) (w : World)
  (evs : list SinkEvent) :
  sink_protocol e evs = true ->
  FileList.ended (result (net (stage (sink_run kind evs
                    (sink kind (FileList.upstream fs e others) h w))))) = true ->
  FileList.files (result (net (stage (sink_run kind evs
                    (sink kind (FileList.upstream fs e others) h w)))))
    ≡ₚ fs ++ sink_added evs
  /\ in_flight (sink_run kind evs (sink kind (FileList.upstream fs e others) h w)) = []
  /\ FileList.ended (src (net (stage (sink_run kind evs
                    (sink kind (FileList.upstream fs e others) h w))))) = true
  /\ barrier_calls (seen (net (stage (sink_run kind evs
                    (sink kind (FileList.upstream fs e others) h w)))))
     = [FileList.files (result (net (stage (sink_run kind evs
                    (sink kind (FileList.upstream fs e others) h w)))))].
Proof.
  intros Hpr Hend.
  destruct (sink_init kind others fs e h w) as [Hi Hs].
  destruct (sink_run_inv evs _ Hi) as [[_ Hsound] Hf].
  { rewrite Hs. exact Hpr. }
  rewrite Hs in Hf. cbn [FileList.files] in Hf.
  set (s := sink_run kind evs _) in *.
  unfold tracked in Hsound. destruct (lossy s).
  { destruct Hsound as [_ He]. rewrite Hend in He. discriminate. }
  destruct Hsound as ((Hp & Hfiles & He) & Hr & _ & Hlf & Hlo & Hwa).
  specialize (He Hend). rewrite Hlo, Hwa in Hp. simpl in Hp.
  pose proof (base_bounds (net (stage s))) as Hb.
  assert (Hlen : length (in_flight s) = 0%nat) by lia.
  assert (Hbase : base (net (stage s)) = 0) by lia.
  apply length_zero_iff_nil in Hlen.
  rewrite Hlf, Hlo, Hwa, Hlen in Hfiles. simpl in Hfiles. rewrite app_nil_r, Hf in Hfiles.
  split; [symmetry; exact Hfiles |]. split; [exact Hlen |]. split.
  - unfold base in Hbase.
    destruct (thenQueued (net (stage s))), (FileList.ended (src (net (stage s))));
      simpl in Hbase; first [reflexivity | discriminate].
  - unfold released in Hr. rewrite Hend in Hr. exact Hr.
Qed.

End SinkRuns.
Section SinkExamples.
Import Demo.

Lemma sink_passes_on_every_file_witness :
  FileList.files (result (net (stage (sink_run (Dest (fun _ => Some "out"%string))
      [SinkAdd 2%nat; SinkThen; SinkEnd;
       SaveCompletes 1 (Written "out/a" None); SaveCompletes 0 (Written "out/b" None);
       SaveCompletes 0 (Written "out/c" None)]
      (sink (Dest (fun _ => Some "out"%string))
         (FileList.upstream [0%nat; 1%nat] false []) Demo.bac Demo.world)))))
    ≡ₚ [0%nat; 1%nat; 2%nat]
  /\ barrier_calls (seen (net (stage (sink_run (Dest (fun _ => Some "out"%string))
      [SinkAdd 2%nat; SinkThen; SinkEnd;
       SaveCompletes 1 (Written "out/a" None); SaveCompletes 0 (Written "out/b" None);
       SaveCompletes 0 (Written "out/c" None)]
      (sink (Dest (fun _ => Some "out"%string))
         (FileList.upstream [0%nat; 1%nat] false []) Demo.bac Demo.world)))))
     = [[1%nat; 0%nat; 2%nat]].
Proof.
  destruct (sink_passes_on_every_file (Dest (fun _ => Some "out"%string)) []
              [0%nat; 1%nat] false Demo.bac Demo.world
              [SinkAdd 2%nat; SinkThen; SinkEnd;
               SaveCompletes 1 (Written "out/a" None); SaveCompletes 0 (Written "out/b" None);
               SaveCompletes 0 (Written "out/c" None)])
    as (Hf & _ & _ & Hb); [reflexivity | vm_compute; reflexivity |].
  split; [exact Hf | exact Hb].
Defined.

End SinkExamples.

(** ** [concat] *)

Section JoinFacts.

Lemma join_handle_ext i a j : join_handle (FileList.mkCall (FileList.External i) a) j = j.
Proof. reflexivity. Qed.

Lemma filter_taps_data n :
  filter (fun p : string * FileList.Listener => fst p = "data"%string) (concat (replicate n tap))
  = replicate n ("data"%string, FileList.PipeData).
Proof.
  induction n as [|n IH]; [reflexivity |].
  cbn [replicate concat tap app]. rewrite !filter_cons. cbn [fst].
  rewrite decide_True by reflexivity. rewrite decide_False by discriminate.
  f_equal. exact IH.
Qed.

Lemma filter_taps_end n :
  filter (fun p : string * FileList.Listener => fst p = "end"%string) (concat (replicate n tap))
  = replicate n ("end"%string, FileList.PipeEnd).
Proof.
  induction n as [|n IH]; [reflexivity |].
  cbn [replicate concat tap app]. rewrite !filter_cons. cbn [fst].
  rewrite decide_False by discriminate. rewrite decide_True by reflexivity.
  f_equal. exact IH.
Qed.

Lemma fold_replicate {St : Type} (hd : FileList.Call -> St -> St) c n : forall st,
  fold_left (fun st c => hd c st) (replicate n c) st = Nat.iter n (hd c) st.
Proof.
  induction n as [|n IH]; intros st; [reflexivity |].
  cbn [replicate fold_left]. rewrite IH. apply Nat.iter_swap.
Qed.

Lemma join_emit_data ext n r l j :
  FileList.listeners l
  = ((fun x => (fst x, FileList.External (snd x))) <$> ext) ++ concat (replicate n tap) ->
  join_dispatch (FileList.emit "data" (FileList.ArgFile r) l) j = Nat.iter n (join_add r) j.
Proof.
  intros Hl. unfold join_dispatch, FileList.emit. rewrite Hl.
  rewrite filter_app, fmap_app, fold_left_app, (fold_externals join_handle join_handle_ext).
  rewrite filter_taps_data, fmap_replicate, fold_replicate. reflexivity.
Qed.

Lemma join_emit_end ext n a l j :
  FileList.listeners l
  = ((fun x => (fst x, FileList.External (snd x))) <$> ext) ++ concat (replicate n tap) ->
  join_dispatch (FileList.emit "end" a l) j = Nat.iter n join_settle j.
Proof.
  intros Hl. unfold join_dispatch, FileList.emit. rewrite Hl.
  rewrite filter_app, fmap_app, fold_left_app, (fold_externals join_handle join_handle_ext).
  rewrite filter_taps_end, fmap_replicate, fold_replicate. reflexivity.
Qed.

End JoinFacts.

Section JoinCounting.

Lemma join_add_spec r j :
  lists (join_add r j) = lists j /\ jpending (join_add r j) = jpending j
  /\ FileList.files (joined (join_add r j)) = FileList.files (joined j) ++ [r]
  /\ FileList.ended (joined (join_add r j)) = FileList.ended (joined j)
  /\ FileList.listeners (joined (join_add r j)) = FileList.listeners (joined j)
  /\ (FileList.listeners (joined j) = [("end"%string, FileList.BarrierDone)] ->
      jseen (join_add r j) = jseen j).
Proof.
  unfold join_add. cbn [FileList.add]. simpl. repeat split.
  intros Hl. unfold FileList.emit. simpl. rewrite Hl. simpl. apply app_nil_r.
Qed.

Lemma iter_join_add n r j :
  lists (Nat.iter n (join_add r) j) = lists j
  /\ jpending (Nat.iter n (join_add r) j) = jpending j
  /\ FileList.files (joined (Nat.iter n (join_add r) j))
     = FileList.files (joined j) ++ replicate n r
  /\ FileList.ended (joined (Nat.iter n (join_add r) j)) = FileList.ended (joined j)
  /\ FileList.listeners (joined (Nat.iter n (join_add r) j)) = FileList.listeners (joined j)
  /\ (FileList.listeners (joined j) = [("end"%string, FileList.BarrierDone)] ->
      jseen (Nat.iter n (join_add r) j) = jseen j).
Proof.
  induction n as [|n (I1 & I2 & I3 & I4 & I5 & I6)].
  - simpl. rewrite app_nil_r. auto 10.
  - change (Nat.iter (S n) (join_add r) j) with (join_add r (Nat.iter n (join_add r) j)).
    destruct (join_add_spec r (Nat.iter n (join_add r) j)) as (A1 & A2 & A3 & A4 & A5 & A6).
    rewrite A1, A2, A3, A4, A5, I1, I2, I3, I4, I5.
    repeat split.
    + rewrite <- app_assoc. f_equal.
      change (replicate (S n) r) with ([r] ++ replicate n r).
      clear. induction n as [|n IH]; [reflexivity |]. simpl. f_equal. exact IH.
    + intros Hl. rewrite A6, I6; [reflexivity | exact Hl | rewrite I5; exact Hl].
Qed.

Lemma replay_join_add fs : forall j,
  let j' := join_dispatch ((fun r => FileList.mkCall FileList.PipeData (FileList.ArgFile r)) <$> fs)
              j in
  lists j' = lists j /\ jpending j' = jpending j
  /\ FileList.files (joined j') = FileList.files (joined j) ++ fs
  /\ FileList.ended (joined j') = FileList.ended (joined j)
  /\ FileList.listeners (joined j') = FileList.listeners (joined j)
  /\ (FileList.listeners (joined j) = [("end"%string, FileList.BarrierDone)] ->
      jseen j' = jseen j).
Proof.
  unfold join_dispatch. induction fs as [|r fs IH]; intros j; cbv zeta.
  - simpl. rewrite app_nil_r. auto 10.
  - rewrite fmap_cons. cbn [fold_left].
    change (join_handle _ j) with (join_add r j).
    destruct (join_add_spec r j) as (A1 & A2 & A3 & A4 & A5 & A6).
    destruct (IH (join_add r j)) as (I1 & I2 & I3 & I4 & I5 & I6).
    rewrite I1, I2, I3, I4, I5, A1, A2, A3, A4, A5, <- app_assoc.
    repeat split. intros Hl. rewrite I6, A6; [reflexivity | exact Hl | rewrite A5; exact Hl].
Qed.

Lemma join_end_spec j :
  FileList.listeners (joined j) = [("end"%string, FileList.BarrierDone)] ->
  lists (join_end j) = lists j /\ jpending (join_end j) = jpending j
  /\ FileList.files (joined (join_end j)) = FileList.files (joined j)
  /\ FileList.ended (joined (join_end j)) = true
  /\ FileList.listeners (joined (join_end j)) = FileList.listeners (joined j)
  /\ barrier_calls (jseen (join_end j))
     = barrier_calls (jseen j) ++ [FileList.files (joined j)].
Proof.
  intros Hl. unfold join_end. cbn [FileList.end_]. simpl. repeat split.
  unfold FileList.emit. simpl. rewrite Hl. simpl. rewrite barrier_calls_app. reflexivity.
Qed.

(** [n] lists end, of at least [n] that are awaited. *)
Lemma iter_join_settle n : forall j,
  FileList.listeners (joined j) = [("end"%string, FileList.BarrierDone)] ->
  FileList.ended (joined j) = false ->
  barrier_calls (jseen j) = [] ->
  Z.of_nat n <= jpending j ->
  lists (Nat.iter n join_settle j) = lists j
  /\ jpending (Nat.iter n join_settle j) = jpending j - Z.of_nat n
  /\ FileList.files (joined (Nat.iter n join_settle j)) = FileList.files (joined j)
  /\ FileList.listeners (joined (Nat.iter n join_settle j)) = FileList.listeners (joined j)
  /\ FileList.ended (joined (Nat.iter n join_settle j))
     = negb (Nat.eqb n 0) && (jpending j - Z.of_nat n =? 0)
  /\ barrier_calls (jseen (Nat.iter n join_settle j))
     = if negb (Nat.eqb n 0) && (jpending j - Z.of_nat n =? 0)
       then [FileList.files (joined j)] else [].
Proof.
  induction n as [|n IH]; intros j Hl He Hb Hn.
  - simpl. rewrite Z.sub_0_r. auto 10.
  - change (Nat.iter (S n) join_settle j) with (join_settle (Nat.iter n join_settle j)).
    destruct (IH j Hl He Hb) as (I1 & I2 & I3 & I4 & I5 & I6); [lia |].
    set (j1 := Nat.iter n join_settle j) in *.
    replace (negb (Nat.eqb n 0) && (jpending j - Z.of_nat n =? 0)) with false in I5, I6
      by (symmetry; apply andb_false_iff; right; apply Z.eqb_neq; lia).
    unfold join_settle. cbn [jpending]. rewrite I2.
    change (negb (Nat.eqb (S n) 0)) with true. cbn [andb].
    replace (jpending j - Z.of_nat (S n)) with (jpending j - Z.of_nat n - 1) by lia.
    destruct (jpending j - Z.of_nat n - 1 >? 0) eqn:Hpos.
    + rewrite Z.gtb_ltb in Hpos. apply Z.ltb_lt in Hpos.
      replace (jpending j - Z.of_nat n - 1 =? 0) with false
        by (symmetry; apply Z.eqb_neq; lia).
      simpl. auto 10.
    + rewrite Z.gtb_ltb in Hpos. apply Z.ltb_ge in Hpos.
      replace (jpending j - Z.of_nat n - 1 =? 0) with true
        by (symmetry; apply Z.eqb_eq; lia).
      destruct (join_end_spec (mkJoin (lists j1) (joined j1) (jpending j - Z.of_nat n - 1)
                                 (jseen j1))) as (A1 & A2 & A3 & A4 & A5 & A6).
      { cbn [joined]. rewrite I4. exact Hl. }
      rewrite A1, A2, A3, A4, A5, A6. cbn [lists joined jpending jseen].
      rewrite I6, I3, I4. auto 10.
Qed.

Lemma taps_cons i k rs : taps i (k :: rs) = ((if Nat.eqb i k then 1 else 0) + taps i rs)%nat.
Proof. unfold taps. simpl. destruct (Nat.eqb i k); reflexivity. Qed.

Lemma taps_app i a b : taps i (a ++ b) = (taps i a + taps i b)%nat.
Proof. unfold taps. rewrite List.filter_app, length_app. reflexivity. Qed.

Lemma opens_cons ls k rs : opens ls (k :: rs) = (if is_open ls k then 1 else 0) + opens ls rs.
Proof. unfold opens. simpl. destruct (is_open ls k); cbn [length]; lia. Qed.

Lemma opens_app ls a b : opens ls (a ++ b) = opens ls a + opens ls b.
Proof. unfold opens. rewrite List.filter_app, length_app. lia. Qed.

Lemma opens_nonneg ls rs : 0 <= opens ls rs.
Proof. unfold opens. lia. Qed.

Lemma opens_ext ls ls' rs :
  (forall i, is_open ls' i = is_open ls i) -> opens ls' rs = opens ls rs.
Proof.
  intros E. induction rs as [|k rs IH]; [reflexivity |].
  rewrite !opens_cons, E, IH. reflexivity.
Qed.

(** An open list is awaited once for each time it is listened to. *)
Lemma opens_ge_taps ls i rs : is_open ls i = true -> Z.of_nat (taps i rs) <= opens ls rs.
Proof.
  intros Ho. induction rs as [|k rs IH]; [unfold opens, taps; simpl; lia |].
  rewrite taps_cons, opens_cons. destruct (Nat.eqb i k) eqn:E.
  - apply Nat.eqb_eq in E. subst k. rewrite Ho. lia.
  - destruct (is_open ls k); lia.
Qed.

Lemma is_open_insert ls i l k :
  is_Some (ls !! i) ->
  is_open (<[i := l]> ls) k
  = if Nat.eqb i k then negb (FileList.ended l) else is_open ls k.
Proof.
  intros [l0 Hl]. unfold is_open. destruct (Nat.eqb i k) eqn:E.
  - apply Nat.eqb_eq in E. subst k.
    rewrite list_lookup_insert_eq by (eapply lookup_lt_Some; exact Hl). reflexivity.
  - apply Nat.eqb_neq in E. rewrite list_lookup_insert_ne by exact E. reflexivity.
Qed.

(** Ending an open list closes it once for each time it is listened to. *)
Lemma opens_close ls i l l' rs :
  ls !! i = Some l -> FileList.ended l = false -> FileList.ended l' = true ->
  opens (<[i := l']> ls) rs = opens ls rs - Z.of_nat (taps i rs).
Proof.
  intros Hl He He'. induction rs as [|k rs IH]; [reflexivity |].
  rewrite !opens_cons, taps_cons, IH, is_open_insert by (eexists; exact Hl).
  destruct (Nat.eqb i k) eqn:E.
  - apply Nat.eqb_eq in E. subst k. unfold is_open. rewrite Hl, He, He'. simpl. lia.
  - lia.
Qed.

Lemma opens_same ls i l l' rs :
  ls !! i = Some l -> FileList.ended l' = FileList.ended l ->
  opens (<[i := l']> ls) rs = opens ls rs.
Proof.
  intros Hl He. apply opens_ext. intros k.
  rewrite is_open_insert by (eexists; exact Hl).
  destruct (Nat.eqb i k) eqn:E; [ | reflexivity].
  apply Nat.eqb_eq in E. subst k. unfold is_open. rewrite Hl, He. reflexivity.
Qed.

End JoinCounting.

Section JoinSteps.
Variable rs : list nat.

Lemma joining_wires j i l l' :
  joining rs j -> lists j !! i = Some l ->
  FileList.listeners l' = FileList.listeners l ->
  forall k lk, <[i := l']> (lists j) !! k = Some lk ->
    exists ext, FileList.listeners lk
                = ((fun x => (fst x, FileList.External (snd x))) <$> ext)
                  ++ concat (replicate (taps k rs) tap).
Proof.
  intros (Hw & _) El Hl' k lk Hk. destruct (decide (i = k)) as [<-|Hne].
  - rewrite list_lookup_insert_eq in Hk by (eapply lookup_lt_Some; exact El).
    inversion Hk; subst lk. rewrite Hl'. apply (Hw i l El).
  - rewrite list_lookup_insert_ne in Hk by exact Hne. apply (Hw k lk Hk).
Qed.

Lemma join_step_inv j ev :
  joining rs j -> join_protocol (FileList.ended <$> lists j) [ev] = true ->
  joining rs (join_step j ev)
  /\ FileList.files (joined (join_step j ev)) = FileList.files (joined j) ++ delivered rs [ev]
  /\ FileList.ended <$> lists (join_step j ev)
     = match ev with
       | JoinEnd i => <[i := true]> (FileList.ended <$> lists j)
       | JoinAdd _ _ => FileList.ended <$> lists j
       end.
Proof.
  intros Hj Hpr. pose proof Hj as (Hw & Hp & He & Hl & Hb).
  destruct ev as [i r | i]; simpl in Hpr; rewrite list_lookup_fmap in Hpr;
    (destruct (lists j !! i) as [l|] eqn:El; simpl in Hpr; [ | discriminate]);
    (destruct (FileList.ended l) eqn:Eend; [discriminate |]);
    unfold join_step, on_list; rewrite El;
    destruct (Hw i l El) as [ext Hext].
  - cbn [FileList.add].
    set (l' := FileList.mk _ _ _). set (j0 := mkJoin _ _ _ _).
    rewrite (join_emit_data ext (taps i rs) r l' j0) by exact Hext.
    destruct (iter_join_add (taps i rs) r j0) as (A1 & A2 & A3 & A4 & A5 & A6).
    unfold delivered. cbn [flat_map]. rewrite app_nil_r.
    split; [ | split; [exact A3 |] ].
    + split; [ | split; [ | split; [ | split]]].
      * rewrite A1. apply (joining_wires j i l l' Hj El eq_refl).
      * rewrite A2, A1. cbn [j0 lists jpending].
        rewrite (opens_same _ i l l' rs El eq_refl). exact Hp.
      * rewrite A4, A2. exact He.
      * rewrite A5. exact Hl.
      * rewrite (A6 Hl), A4, A3. cbn [j0 joined jseen].
        destruct (FileList.ended (joined j)) eqn:Ej; [ | exact Hb].
        symmetry in He. apply Z.eqb_eq in He.
        pose proof (opens_ge_taps (lists j) i rs) as Hge.
        unfold is_open in Hge. rewrite El, Eend in Hge. specialize (Hge eq_refl).
        destruct (taps i rs); [simpl; rewrite app_nil_r; exact Hb | lia].
    + rewrite A1. cbn [j0 lists]. rewrite list_fmap_insert. apply list_insert_id.
      rewrite list_lookup_fmap, El. reflexivity.
  - cbn [FileList.end_].
    set (l' := FileList.mk _ _ _). set (j0 := mkJoin _ _ _ _).
    rewrite (join_emit_end ext (taps i rs) _ l' j0) by exact Hext.
    unfold delivered. cbn [flat_map]. rewrite app_nil_r.
    pose proof (opens_close (lists j) i l l' rs El Eend eq_refl) as Hclose.
    pose proof (opens_ge_taps (lists j) i rs) as Hge.
    unfold is_open in Hge. rewrite El, Eend in Hge. specialize (Hge eq_refl).
    destruct (taps i rs) as [|c] eqn:Et.
    + cbn [Nat.iter nat_rect]. split; [ | split; [reflexivity |] ].
      * split; [ | split; [ | split; [ | split]]]; cbn [j0 lists joined jpending jseen];
          try assumption.
        -- apply (joining_wires j i l l' Hj El eq_refl).
        -- rewrite Hclose, Hp. simpl. lia.
      * cbn [j0 lists]. rewrite list_fmap_insert. reflexivity.
    + assert (Hpos : jpending j <> 0) by lia.
      apply Z.eqb_neq in Hpos. rewrite Hpos in He. rewrite He in Hb.
      destruct (iter_join_settle (S c) j0 Hl He Hb) as (A1 & A2 & A3 & A4 & A5 & A6).
      { cbn [j0 jpending]. lia. }
      cbn [j0 jpending joined] in A2, A3, A4, A5, A6.
      change (negb (Nat.eqb (S c) 0)) with true in A5, A6. cbn [andb] in A5, A6.
      split; [ | split; [exact A3 |] ].
      * split; [ | split; [ | split; [ | split]]].
        -- rewrite A1. apply (joining_wires j i l l' Hj El eq_refl).
        -- rewrite A2, A1. cbn [j0 lists]. rewrite Hclose, Hp. reflexivity.
        -- rewrite A5, A2. reflexivity.
        -- rewrite A4. exact Hl.
        -- rewrite A6, A5, A3. reflexivity.
      * rewrite A1. cbn [j0 lists]. rewrite list_fmap_insert. reflexivity.
Qed.

Lemma join_protocol_cons flags ev evs :
  join_protocol flags (ev :: evs) = true ->
  join_protocol flags [ev] = true
  /\ join_protocol match ev with
                   | JoinEnd i => <[i := true]> flags
                   | JoinAdd _ _ => flags
                   end evs = true.
Proof.
  destruct ev as [i r | i]; simpl; destruct (flags !! i) as [[|]|]; auto; discriminate.
Qed.

Lemma delivered_cons ev evs : delivered rs (ev :: evs) = delivered rs [ev] ++ delivered rs evs.
Proof. unfold delivered. simpl. rewrite app_nil_r. reflexivity. Qed.

Lemma join_run_inv evs : forall j,
  joining rs j -> join_protocol (FileList.ended <$> lists j) evs = true ->
  joining rs (join_run evs j)
  /\ FileList.files (joined (join_run evs j)) = FileList.files (joined j) ++ delivered rs evs.
Proof.
  unfold join_run. induction evs as [|ev evs IH]; intros j Hj Hpr.
  - simpl. rewrite app_nil_r. auto.
  - apply join_protocol_cons in Hpr as [Hp1 Hp2].
    destruct (join_step_inv j ev Hj Hp1) as (A1 & A2 & A3).
    cbn [fold_left]. destruct (IH (join_step j ev) A1) as [B1 B2].
    + rewrite A3. exact Hp2.
    + split; [exact B1 |]. rewrite B2, A2, <- app_assoc, (delivered_cons ev evs). reflexivity.
Qed.

End JoinSteps.

Section JoinLoop.
Variable ls : list FileList.t.

Lemma concat_tap_snoc n : concat (replicate n tap) ++ tap = concat (replicate (S n) tap).
Proof.
  induction n as [|n IH]; [reflexivity |].
  change (replicate (S (S n)) tap) with (tap :: replicate (S n) tap).
  change (replicate (S n) tap) with (tap :: replicate n tap) at 1.
  cbn [concat]. rewrite <- app_assoc, IH. reflexivity.
Qed.

Lemma taps_snoc_same i rs : taps i (rs ++ [i]) = S (taps i rs).
Proof. rewrite taps_app. unfold taps at 2. simpl. rewrite Nat.eqb_refl. simpl. lia. Qed.

Lemma taps_snoc_other i k rs : i <> k -> taps k (rs ++ [i]) = taps k rs.
Proof.
  intros Hne. rewrite taps_app. unfold taps at 2. simpl.
  destruct (Nat.eqb k i) eqn:E; [apply Nat.eqb_eq in E; congruence | simpl; lia].
Qed.

Lemma on_list_data i j l :
  lists j !! i = Some l ->
  on_list i (FileList.on "data" FileList.PipeData) j
  = join_dispatch
      ((fun r => FileList.mkCall FileList.PipeData (FileList.ArgFile r)) <$> FileList.files l)
      (mkJoin (<[i := FileList.mk (FileList.files l) (FileList.ended l)
                        (FileList.listeners l ++ [("data"%string, FileList.PipeData)])]>
                 (lists j))
         (joined j) (jpending j) (jseen j)).
Proof. intros El. unfold on_list. rewrite El. reflexivity. Qed.

Lemma on_list_end i j l :
  lists j !! i = Some l ->
  on_list i (FileList.on "end" FileList.PipeEnd) j
  = (if FileList.ended l then join_settle else fun j => j)
      (mkJoin (<[i := FileList.mk (FileList.files l) (FileList.ended l)
                        (FileList.listeners l ++ [("end"%string, FileList.PipeEnd)])]>
                 (lists j))
         (joined j) (jpending j) (jseen j)).
Proof.
  intros El. unfold on_list. rewrite El. cbn [FileList.on]. simpl String.eqb. cbv iota.
  cbn [FileList.ended]. destruct (FileList.ended l); reflexivity.
Qed.

Lemma addList_spec rs i j :
  looping ls rs j ->
  looping ls (rs ++ [i]) (addList i j)
  /\ FileList.files (joined (addList i j)) = FileList.files (joined j) ++ item_files ls (inr i).
Proof.
  intros (Hw & Hp & He & Hl & Hs). unfold addList.
  set (j1 := mkJoin (lists j) (joined j) (jpending j + 1) (jseen j)).
  pose proof (opens_nonneg ls rs) as Hnn.
  unfold looping. cbn [item_files]. rewrite opens_app, opens_cons. unfold is_open at 1.
  change (opens ls []) with 0.
  destruct (ls !! i) as [l0|] eqn:E0.
  - assert (E1 : lists j1 !! i = Some (wired_n (taps i rs) l0)).
    { cbn [j1 lists]. rewrite Hw, E0. reflexivity. }
    rewrite (on_list_data i j1 _ E1).
    set (l1 := FileList.mk _ _ _). set (j2 := mkJoin _ _ _ _).
    destruct (replay_join_add (FileList.files (wired_n (taps i rs) l0)) j2)
      as (A1 & A2 & A3 & A4 & A5 & A6).
    set (j3 := join_dispatch _ j2) in *.
    assert (E3 : lists j3 !! i = Some l1).
    { rewrite A1. cbn [j2 lists].
      apply list_lookup_insert_eq. eapply lookup_lt_Some. exact E1. }
    rewrite (on_list_end i j3 _ E3).
    set (l2 := FileList.mk _ _ _). set (j4 := mkJoin _ _ _ _).
    assert (Hl2 : l2 = wired_n (taps i (rs ++ [i])) l0).
    { unfold l2, l1, wired_n. cbn [FileList.files FileList.ended FileList.listeners].
      rewrite taps_snoc_same, <- concat_tap_snoc, <- !app_assoc. reflexivity. }
    assert (Hlists : forall k, lists j4 !! k = wired_n (taps k (rs ++ [i])) <$> ls !! k).
    { intros k. cbn [j4 lists]. rewrite A1. cbn [j2 lists j1].
      destruct (decide (i = k)) as [<-|Hne].
      - rewrite list_lookup_insert_eq.
        + rewrite E0, Hl2. reflexivity.
        + rewrite length_insert. eapply lookup_lt_Some. exact E1.
      - rewrite !list_lookup_insert_ne by exact Hne.
        rewrite Hw, (taps_snoc_other i k rs Hne). reflexivity. }
    assert (Hj4 : jpending j4 = jpending j + 1 /\ joined j4 = joined j3 /\ jseen j4 = jseen j3).
    { cbn [j4 jpending joined jseen]. rewrite A2. auto. }
    destruct Hj4 as (P4 & J4 & S4).
    cbn [l1 FileList.ended wired_n].
    destruct (FileList.ended l0) eqn:Eend; cbn [negb].
    + unfold join_settle. cbn [jpending]. rewrite P4.
      replace (jpending j + 1 - 1 >? 0) with true
        by (symmetry; rewrite Z.gtb_ltb; apply Z.ltb_lt; lia).
      cbn [jpending joined jseen lists]. split.
      * split; [exact Hlists |]. rewrite J4, S4, A4, A5, (A6 Hl).
        cbn [j2 joined jseen j1]. repeat split; try assumption. lia.
      * rewrite J4, A3. reflexivity.
    + split.
      * split; [exact Hlists |]. rewrite P4, J4, S4, A4, A5, (A6 Hl).
        cbn [j2 joined jseen j1]. repeat split; try assumption. lia.
      * rewrite J4, A3. reflexivity.
  - assert (E1 : lists j1 !! i = None).
    { cbn [j1 lists]. rewrite Hw, E0. reflexivity. }
    unfold on_list. rewrite E1. rewrite E1. rewrite app_nil_r.
    split; [ | reflexivity].
    split; [ | cbn [j1 jpending joined jseen]; repeat split; try assumption; lia].
    intros k. cbn [j1 lists]. rewrite Hw.
    destruct (decide (i = k)) as [<-|Hne]; [rewrite E0; reflexivity |].
    rewrite (taps_snoc_other i k rs Hne). reflexivity.
Qed.

Lemma regs_of_cons x xs :
  regs_of (x :: xs) = match x with inr i => [i] | inl _ => [] end ++ regs_of xs.
Proof. destruct x; reflexivity. Qed.

Lemma join_loop xs : forall rs j,
  looping ls rs j ->
  looping ls (rs ++ regs_of xs) (fold_left (fun j x => join_item x j) xs j)
  /\ FileList.files (joined (fold_left (fun j x => join_item x j) xs j))
     = FileList.files (joined j) ++ flat_map (item_files ls) xs.
Proof.
  induction xs as [|x xs IH]; intros rs j Hj.
  - simpl. rewrite !app_nil_r. auto.
  - cbn [fold_left flat_map]. rewrite regs_of_cons.
    destruct x as [r | i]; cbn [join_item].
    + destruct (join_add_spec r j) as (A1 & A2 & A3 & A4 & A5 & A6).
      destruct Hj as (Hw & Hp & He & Hl & Hs).
      destruct (IH rs (join_add r j)) as [B1 B2].
      { split; [intros k; rewrite A1; apply Hw |].
        rewrite A2, A4, A5, (A6 Hl). auto. }
      split; [exact B1 |]. rewrite B2, A3, <- app_assoc. reflexivity.
    + destruct (addList_spec rs i j Hj) as [A1 A2].
      destruct (IH (rs ++ [i]) (addList i j) A1) as [B1 B2].
      rewrite <- app_assoc in B1. split; [exact B1 |].
      rewrite B2, A2, <- app_assoc. reflexivity.
Qed.

End JoinLoop.

Section JoinInit.

Lemma concat_init self others specs :
  joining (regs_of (inr self :: others))
    (FileList_concat self others (upstreams specs))
  /\ FileList.files (joined (FileList_concat self others (upstreams specs)))
     = flat_map (item_files (upstreams specs)) (inr self :: others)
  /\ FileList.ended <$> lists (FileList_concat self others (upstreams specs))
     = FileList.ended <$> upstreams specs.
Proof.
  unfold FileList_concat. cbn [FileList.on]. simpl String.eqb. cbv iota.
  cbn [FileList.ended FileList.empty fmap list_fmap].
  set (j0 := mkJoin (upstreams specs) _ 1 _).
  destruct (join_loop (upstreams specs) (inr self :: others) [] j0) as [(Hw & Hp & He & Hl & Hs) Hf].
  { split; [ | repeat split].
    intros i. cbn [j0 lists]. unfold taps, wired_n. simpl.
    destruct (upstreams specs !! i) as [[fs e ls]|]; simpl; rewrite ?app_nil_r; reflexivity. }
  rewrite app_nil_l in Hw, Hp.
  set (rs := regs_of (inr self :: others)) in *.
  set (j1 := fold_left _ _ j0) in *.
  assert (Hopen : forall i, is_open (lists j1) i = is_open (upstreams specs) i).
  { intros i. unfold is_open. rewrite Hw. destruct (upstreams specs !! i); reflexivity. }
  assert (Hflags : FileList.ended <$> lists j1 = FileList.ended <$> upstreams specs).
  { apply list_eq. intros i. rewrite !list_lookup_fmap, Hw.
    destruct (upstreams specs !! i); reflexivity. }
  assert (Hwires : forall i l, lists j1 !! i = Some l ->
            exists ext, FileList.listeners l
                        = ((fun x => (fst x, FileList.External (snd x))) <$> ext)
                          ++ concat (replicate (taps i rs) tap)).
  { intros i l El. rewrite Hw in El. unfold upstreams in El.
    rewrite list_lookup_fmap in El.
    destruct (specs !! i) as [[[fs e] ext]|]; [ | discriminate].
    simpl in El. inversion El; subst l. exists ext. reflexivity. }
  pose proof (opens_nonneg (upstreams specs) rs) as Hnn.
  cbn [jpending]. rewrite Hp.
  replace (1 + opens (upstreams specs) rs - 1) with (opens (upstreams specs) rs) by lia.
  destruct (opens (upstreams specs) rs <=? 0) eqn:Ez.
  - apply Z.leb_le in Ez.
    destruct (join_end_spec (mkJoin (lists j1) (joined j1) (opens (upstreams specs) rs)
                               (jseen j1))) as (A1 & A2 & A3 & A4 & A5 & A6); [exact Hl |].
    cbn [lists joined jpending jseen] in *.
    split; [ | split; [rewrite A3, Hf; reflexivity | rewrite A1; exact Hflags] ].
    split; [rewrite A1; exact Hwires |].
    rewrite A1, A2, A3, A4, A5, A6, Hs, (opens_ext _ _ rs Hopen).
    replace (opens (upstreams specs) rs) with 0 by lia. auto.
  - apply Z.leb_gt in Ez. unfold joining. cbn [lists joined jpending jseen].
    split; [ | split; [exact Hf | exact Hflags] ].
    split; [exact Hwires |].
    rewrite (opens_ext _ _ rs Hopen), He, Hs.
    replace (opens (upstreams specs) rs =? 0) with false by (symmetry; apply Z.eqb_neq; lia).
    auto.
Qed.

Lemma opens_zero ls rs :
  (opens ls rs =? 0) = forallb (fun i => negb (is_open ls i)) rs.
Proof.
  unfold opens. induction rs as [|k rs IH]; [reflexivity |].
  cbn [List.filter forallb]. destruct (is_open ls k); cbn [negb andb length].
  - apply Z.eqb_neq. lia.
  - exact IH.
Qed.

(** X24: Once the continuation of concat has run, the result holds the files
    of the receiver and of each argument, in argument order and as they were
    at that moment (a list given twice contributes twice), followed by each
    file added later, once per time its list was given; it has ended exactly
    when every list given has ended, and the barrier's done was called once,
    at that end, with the files of the result. *)
Theorem concat_joins_the_lists
  (self : nat) (others : list (FileRef + nat))
  (specs : list (list FileRef * bool * list (string * nat))) (evs : list JoinEvent) :
  join_protocol (FileList.ended <$> upstreams specs) evs = true ->
  FileList.files (joined (join_run evs (FileList_concat self others (upstreams specs))))
  = flat_map (item_files (upstreams specs)) (inr self :: others)
    ++ delivered (regs_of (inr self :: others)) evs
  /\ FileList.ended (joined (join_run evs (FileList_concat self others (upstreams specs))))
     = forallb (fun i => negb (is_open (lists (join_run evs
                                 (FileList_concat self others (upstreams specs)))) i))
         (regs_of (inr self :: others))
  /\ barrier_calls (jseen (join_run evs (FileList_concat self others (upstreams specs))))
     = if FileList.ended (joined (join_run evs
                                    (FileList_concat self others (upstreams specs))))
       then [FileList.files (joined (join_run evs
                                       (FileList_concat self others (upstreams specs))))]
       else [].
Proof.
  intros Hpr.
  destruct (concat_init self others specs) as (Hj & Hf & Hflags).
  destruct (join_run_inv (regs_of (inr self :: others)) evs _ Hj) as [(_ & Hp & He & _ & Hb) Hfiles].
  { rewrite Hflags. exact Hpr. }
  split; [rewrite Hfiles, Hf; reflexivity |]. split; [ | exact Hb].
  rewrite He, Hp. apply opens_zero.
Qed.

End JoinInit.

Section JoinExamples.

Lemma concat_joins_the_lists_witness :
  FileList.files
    (joined (join_run [JoinAdd 1 7%nat; JoinEnd 0; JoinAdd 1 8%nat; JoinEnd 1]
               (FileList_concat 0 [inl 5%nat; inr 1%nat; inr 0%nat]
                  (upstreams [([1%nat; 2%nat], false, []); ([3%nat], false, [])]))))
  = [1; 2; 5; 3; 1; 2; 7; 8]%nat
  /\ FileList.ended
       (joined (join_run [JoinAdd 1 7%nat; JoinEnd 0; JoinAdd 1 8%nat; JoinEnd 1]
                  (FileList_concat 0 [inl 5%nat; inr 1%nat; inr 0%nat]
                     (upstreams [([1%nat; 2%nat], false, []); ([3%nat], false, [])]))))
     = true.
Proof.
  destruct (concat_joins_the_lists 0 [inl 5%nat; inr 1%nat; inr 0%nat]
              [([1%nat; 2%nat], false, []); ([3%nat], false, [])]
              [JoinAdd 1 7%nat; JoinEnd 0; JoinAdd 1 8%nat; JoinEnd 1]) as (Hf & He & _);
    [reflexivity |].
  split; [exact Hf | exact He].
Defined.

End JoinExamples.


(** ** [delete] *)

Section DeleteThrough.
Context `{Encode} `{Paths} `{SourceMaps} `{FileSystem} `{Logging}.

Lemma delete_done_spec taskId err f w :
  exists l,
    forallb (fun a => negb (mutates a)) l = true
    /\ match fst (delete_done taskId err (f, w)) with
       | inr r =>
         r = DeleteCalled err
         /\ Global.fileCount (globals (snd (snd (delete_done taskId err (f, w)))))
            = Global.fileCount (globals w) + match err with Some _ => 0 | None => 1 end
         /\ trace (snd (snd (delete_done taskId err (f, w)))) = trace w ++ l ++ [EndAsync taskId]
       | inl _ =>
         is_Some err
         /\ Global.fileCount (globals (snd (snd (delete_done taskId err (f, w)))))
            = Global.fileCount (globals w)
         /\ trace (snd (snd (delete_done taskId err (f, w)))) = trace w ++ l
       end.
Proof.
  unfold delete_done, set_globals, global, this, when, endAsync, emit, mtry, ok, throw, mbind,
    State_bind, mret, State_ret.
  destruct err as [e|].
  - pose proof (harmless_log (LogError e) LogLevel.error (f, w)) as [Hg (l & Ht & Hl)].
    unfold error. destruct (log (LogError e) LogLevel.error (f, w)) as [[x|[]] [f1 w1]];
      simpl in *; exists l; (split; [exact Hl |]); rewrite Hg, Ht.
    + split; [eauto |]. split; reflexivity.
    + split; [reflexivity |]. split; [lia |]. rewrite <- app_assoc. reflexivity.
  - simpl. destruct (Global.onDeleteFile (globals w)); simpl.
    + exists [OnDeleteFile (File.srcPath f)].
      split; [reflexivity |]. split; [reflexivity |]. split; [reflexivity |].
      rewrite <- app_assoc. reflexivity.
    + exists []. split; [reflexivity |]. split; [reflexivity |]. split; reflexivity.
Qed.

(** [done] of [delete] returns when [this.error] is not called or
    returns. *)
Lemma delete_done_returns taskId err f w :
  content_ready f w = true ->
  match err with Some e => positionless (LogError e) | None => true end = true ->
  threw (fst (delete_done taskId err (f, w))) = false.
Proof.
  intros Hc Hp.
  unfold delete_done, set_globals, global, this, when, endAsync, emit, mtry, ok, throw, mbind,
    State_bind, mret, State_ret.
  destruct err as [e|].
  - pose proof (error_returns (LogError e) f w Hc Hp) as Hr.
    destruct (error (LogError e) (f, w)) as [[x|[]] s1]; simpl in *; [discriminate | reflexivity].
  - simpl. destruct (Global.onDeleteFile (globals w)); reflexivity.
Qed.

(** X25: delete on a file without source path calls back at once and does
    nothing else. Otherwise, in every working mode, it begins a task, asks
    for deleteFile(srcPath), then, when that succeeded and deleteDir is not
    false, for deleteParentDirIfEmpty(srcPath). When done returns, delete
    calls back once with the first error, fileCount grows by one exactly
    when there is none, and the task is ended last. When done throws (there
    is an error, and this.error threw on it), delete does not call back:
    fileCount is as it was and nothing follows the requests but what
    this.error did before it threw. done returns whenever the content of the
    file is ready and the error has no position. *)
Theorem delete_calls_back_once
  (deleteDir : option bool) (e1 e2 : option Err.t) (f : File.t) (w : World) :
  (if str_truthy (File.srcPath f)
   then exists l,
       forallb (fun a => negb (mutates a)) l = true
       /\ match fst (delete_through deleteDir e1 e2 (f, w)) with
          | inr r =>
            r = DeleteCalled (delete_error deleteDir e1 e2)
            /\ Global.fileCount (globals (snd (snd (delete_through deleteDir e1 e2 (f, w)))))
               = Global.fileCount (globals w)
                 + match delete_error deleteDir e1 e2 with Some _ => 0 | None => 1 end
            /\ trace (snd (snd (delete_through deleteDir e1 e2 (f, w))))
               = trace w
                 ++ [BeginAsync (nextTask w) "Delete: {file} " (toString f);
                     DeleteFile (File.srcPath f)]
                 ++ (if removes_dir deleteDir e1
                     then [DeleteParentDirIfEmpty (File.srcPath f)] else [])
                 ++ l ++ [EndAsync (nextTask w)]
          | inl _ =>
            is_Some (delete_error deleteDir e1 e2)
            /\ Global.fileCount (globals (snd (snd (delete_through deleteDir e1 e2 (f, w)))))
               = Global.fileCount (globals w)
            /\ trace (snd (snd (delete_through deleteDir e1 e2 (f, w))))
               = trace w
                 ++ [BeginAsync (nextTask w) "Delete: {file} " (toString f);
                     DeleteFile (File.srcPath f)]
                 ++ (if removes_dir deleteDir e1
                     then [DeleteParentDirIfEmpty (File.srcPath f)] else [])
                 ++ l
          end
   else delete_through deleteDir e1 e2 (f, w) = (inr (DeleteCalled None), (f, w)))
  /\ (content_ready f w = true ->
      match delete_error deleteDir e1 e2 with
      | Some e => positionless (LogError e)
      | None => true
      end = true ->
      threw (fst (delete_through deleteDir e1 e2 (f, w))) = false).
Proof.
  unfold delete_through, delete_, delete_deleteFile_cb, delete_error, removes_dir.
  unfold this, beginAsync, emit, mtry, ok, throw, mbind, State_bind, mret, State_ret.
  cbn [fst snd].
  destruct (str_truthy (File.srcPath f)); cbn [negb]; [ | split; reflexivity].
  set (w1 := mkWorld _ _ _).
  assert (Hw1 : trace w1 = trace w ++ [BeginAsync (nextTask w) "Delete: {file} " (toString f);
                                       DeleteFile (File.srcPath f)]
                /\ globals w1 = globals w).
  { unfold w1. simpl. rewrite <- app_assoc. auto. }
  destruct Hw1 as [Ht1 Hg1].
  assert (Hready : forall w', globals w' = globals w ->
                     content_ready f w = true -> content_ready f w' = true).
  { intros w' Hg Hc. rewrite (content_ready_world f w w'); [exact Hc | rewrite Hg; reflexivity]. }
  destruct e1 as [e|]; cbn [fst snd].
  - destruct (delete_done_spec (nextTask w) (Some e) f w1) as (l & Hl & A).
    pose proof (delete_done_returns (nextTask w) (Some e) f w1) as Hr.
    destruct (delete_done (nextTask w) (Some e) (f, w1)) as [[x|r] s]; cbn [fst snd threw] in *.
    + split; [ | intros Hc Hp; apply Hr; [apply Hready; assumption | exact Hp]].
      exists l. split; [exact Hl |].
      destruct A as (A1 & A2 & A3). rewrite A2, A3, Hg1, Ht1, <- !app_assoc. eauto.
    + destruct A as (-> & A2 & A3). cbn [fst snd threw]. split; [ | reflexivity].
      exists l. split; [exact Hl |]. rewrite A2, A3, Hg1, Ht1, <- !app_assoc. auto.
  - destruct (bool_decide (deleteDir = Some false)); cbn [negb fst snd].
    + destruct (delete_done_spec (nextTask w) None f w1) as (l & Hl & A).
      destruct (delete_done (nextTask w) None (f, w1)) as [[x|r] s]; cbn [fst snd threw] in *.
      * destruct A as ([? A1] & _). discriminate.
      * destruct A as (-> & A2 & A3). cbn [fst snd threw]. split; [ | reflexivity].
        exists l. split; [exact Hl |]. rewrite A2, A3, Hg1, Ht1, <- !app_assoc. auto.
    + set (w2 := mkWorld _ _ _).
      assert (Hw2 : trace w2 = trace w
                               ++ [BeginAsync (nextTask w) "Delete: {file} " (toString f);
                                   DeleteFile (File.srcPath f)]
                               ++ [DeleteParentDirIfEmpty (File.srcPath f)]
                    /\ globals w2 = globals w).
      { unfold w2. simpl. rewrite <- !app_assoc. auto. }
      destruct Hw2 as [Ht2 Hg2].
      destruct (delete_done_spec (nextTask w) e2 f w2) as (l & Hl & A).
      pose proof (delete_done_returns (nextTask w) e2 f w2) as Hr.
      destruct (delete_done (nextTask w) e2 (f, w2)) as [[x|r] s]; cbn [fst snd threw] in *.
      * split; [ | intros Hc Hp; apply Hr; [apply Hready; assumption | exact Hp]].
        exists l. split; [exact Hl |].
        destruct A as (A1 & A2 & A3). rewrite A2, A3, Hg2, Ht2, <- !app_assoc. auto.
      * destruct A as (-> & A2 & A3). cbn [fst snd threw]. split; [ | reflexivity].
        exists l. split; [exact Hl |]. rewrite A2, A3, Hg2, Ht2, <- !app_assoc. auto.
Qed.

End DeleteThrough.

Section DeleteExamples.
Import Demo.

(** Deleting a source that is not on the disk: [deleteFile] fails,
    [this.error] reads the content for the entry, the read throws, and
    [delete] never calls back; the task it began is not ended. *)
Lemma delete_never_calls_back_when_error_throws :
  delete_through None (Some Demo.ENOENT) None (Demo.missing, Demo.world)
  = (inl Demo.ENOENT,
     (Demo.missing,
      mkWorld Global.initial 2
        [BeginAsync 0 "Delete: {file} " (toString Demo.missing); DeleteFile "/gone.txt";
         BeginAsync 1 "Read: {file}" (toString Demo.missing);
         ReadFileSync "/gone.txt"; EndAsync 1])).
Proof. vm_compute. reflexivity. Qed.

End DeleteExamples.

(** ** [load]: when it reads, and what its completion does *)

Section LoadReads.
Context `{Encode} `{Paths} `{SourceMaps} `{FileSystem} `{Logging}.

Lemma load_called f w : needs_disk f w = false -> load (f, w) = (LoadCalled, (f, w)).
Proof.
  unfold needs_disk, unloaded, reads_disk, modified. intros Hn.
  unfold load, this, global, mbind, State_bind, mret, State_ret; simpl.
  destruct (str_truthy (File.srcPath f)); simpl; [ | reflexivity].
  destruct (File._destContent f) eqn:E1; simpl; [reflexivity |].
  destruct (File._destBuffer f) eqn:E2; simpl; [reflexivity |].
  destruct (File._srcBuffer f) eqn:E3; simpl; [reflexivity |].
  destruct (File._srcContent f) eqn:E4; simpl; [reflexivity |].
  rewrite !bool_decide_eq_false_2 in Hn by (intros [? ?]; discriminate).
  rewrite !bool_decide_eq_true_2 in Hn by reflexivity. simpl in Hn.
  apply negb_false_iff in Hn. rewrite Hn. reflexivity.
Qed.

(** X26: load issues the asynchronous read of srcPath, inside a task Read,
    exactly when the file has a source path, no content slot (src or dest)
    is populated and the working mode is not clean; in every other case it
    changes nothing and calls back at once with a null error. When the read
    delivers bytes, its completion stores them in the source buffer, ends
    the task and calls back with no error. When the read fails with e, the
    completion calls this.error(e): if that returns, it ends the task and
    hands e to the callback; if that throws, the completion throws the same,
    with the task not ended and the callback not called. *)
Theorem load_reads_exactly_when_unloaded (f : File.t) (w : World) :
  (if needs_disk f w
   then load (f, w)
        = (LoadPending (nextTask w),
           (f, mkWorld (globals w) (S (nextTask w))
                 (trace w ++ [BeginAsync (nextTask w) "Read: {file}" (toString f);
                              ReadFile (File.srcPath f)])))
   else load (f, w) = (LoadCalled, (f, w)))
  /\ (forall taskId b,
        load_readFile_cb taskId (inr b) (f, w)
        = (inr None, (File.with_srcBuffer (Some b) f,
                      mkWorld (globals w) (nextTask w) (trace w ++ [EndAsync taskId]))))
  /\ (forall taskId e,
        load_readFile_cb taskId (inl e) (f, w)
        = match error (LogError e) (f, w) with
          | (inr _, s) => (inr (Some e), snd (endAsync taskId s))
          | (inl x, s) => (inl x, s)
          end).
Proof.
  split; [ | split].
  - destruct (needs_disk f w) eqn:Hn; [apply load_pending | apply load_called]; exact Hn.
  - intros taskId b. reflexivity.
  - intros taskId e.
    unfold load_readFile_cb, endAsync, emit, mtry, ok, throw, mbind, State_bind, mret, State_ret.
    destruct (error (LogError e) (f, w)) as [[x|[]] s]; reflexivity.
Qed.

End LoadReads.

(** ** [dest] and [delete]: a file whose [save] throws *)

Section SinkLoss.
Context `{Encode} `{Paths} `{SourceMaps} `{FileSystem} `{Logging}.
Variable kind : SinkKind.
Variable others : list (string * nat).

(** X27: For dest (and for delete, whose data listener cannot throw), when
    the upstream producer adds nothing after end and ends once: once save
    has thrown in the data listener for some file (pending was incremented
    for it, and no callback will ever pass it on), the result list never
    ends, whatever completions arrive. *)
Theorem sink_never_ends_after_a_loss
  (fs : list FileRef) (e : bool) (h : gmap FileRef File.t) (w : World)
  (evs : list SinkEvent) :
  sink_protocol e evs = true ->
  lossy (sink_run kind evs (sink kind (FileList.upstream fs e others) h w)) = true ->
  FileList.ended (result (net (stage (sink_run kind evs
                    (sink kind (FileList.upstream fs e others) h w))))) = false.
Proof.
  intros Hpr Hl.
  destruct (sink_init kind others fs e h w) as [Hi Hs].
  destruct (sink_run_inv kind others evs _ Hi) as [[_ Ht] _].
  { rewrite Hs. exact Hpr. }
  rewrite Hl in Ht. apply Ht.
Qed.

End SinkLoss.

Section SinkLossExamples.
Import Demo.

Lemma sink_never_ends_after_a_loss_witness :
  lost (sink_run (Dest (fun _ => None)) [SinkThen; SinkEnd]
          (sink (Dest (fun _ => None)) (FileList.upstream [0%nat] false [])
             (<[0%nat := Demo.stale]> ∅) Demo.world))
  = [0%nat]
  /\ FileList.ended (result (net (stage (sink_run (Dest (fun _ => None)) [SinkThen; SinkEnd]
          (sink (Dest (fun _ => None)) (FileList.upstream [0%nat] false [])
             (<[0%nat := Demo.stale]> ∅) Demo.world))))) = false.
Proof.
  split; [vm_compute; reflexivity |].
  apply (sink_never_ends_after_a_loss (Dest (fun _ => None)) [] [0%nat] false
           (<[0%nat := Demo.stale]> ∅) Demo.world [SinkThen; SinkEnd]);
    vm_compute; reflexivity.
Defined.

End SinkLossExamples.

(** ** [save]: an inlined source map *)

Section SaveInline.
Context `{Encode} `{Paths} `{SourceMaps} `{FileSystem} `{Logging}.

(** What an accessor answers depends on the world through the globals
    only. *)
Lemma flag_same_globals x f w w' :
  globals w' = globals w -> fst (get_flag x (f, w')) = fst (get_flag x (f, w)).
Proof.
  intros Hg.
  destruct x; cbn [get_flag];
    unfold encoding, sourceMap, sourceMapPath, sourceMapEmit, sourceMapInline,
      sourceMapUrl, sourceMapIncludeFile, sourceMapRoot, sourceMapIncludeSourcesContent,
      sourceMapIncludeNames, overwrite, global_flag, read, this, global, mbind, State_bind,
      mret, State_ret; cbn [fst snd];
    match goal with
    | |- context [File.own f !! ?n] => destruct (File.own f !! n)
    end; cbn [fst snd]; rewrite ?Hg; reflexivity.
Qed.

(** X28: In build mode, for a validated file with truthy source-map data
    saved to a path other than its source, with sourceMapInline and
    sourceMapIncludeFile on: sourceMapPath is false, and save computes the
    file field of the map as relativeUrl(false, sourceMapObject.file ||
    savePath). If the helper throws on that base, save throws the same right
    after beginning its task: the task is not ended, nothing is written or
    copied, and the callback is not called. *)
Theorem save_inline_map_passes_false_to_relativeUrl
  (dir : option string) (f : File.t) (w : World) (d : SourceMapData) (x : Err.t) :
  validated dir f w = true ->
  pathEquals (File.srcPath f) (savePath_of dir f) = false ->
  WorkingMode.has (Global.workingMode (globals w)) WorkingMode.clean = false ->
  WorkingMode.has (Global.workingMode (globals w)) WorkingMode.preview = false ->
  File.sourceMapData f = Some d ->
  data_truthy (Some d) = true ->
  Js.truthy (fst (sourceMapInline (f, w))) = true ->
  Js.truthy (fst (sourceMapIncludeFile (f, w))) = true ->
  relativeUrl_loose (Js.JBool false)
    (Js.or (Js.of_option (SourceMapObject.file (toSourceMapObject d)))
           (Js.JStr (savePath_of dir f))) = inl x ->
  save dir (f, w)
  = (inl x,
     (f, mkWorld (globals w) (S (nextTask w))
           (trace w
            ++ [BeginAsync (nextTask w)
                  (if modified f || emits_sourceMap f w then "Save: {file}" else "Copy: {file}")
                  (getDisplayName (savePath_of dir f))]))).
Proof.
  intros Hv Hp Hc Hpr Hd Ht Hin Hif Hx.
  rewrite save_build by (rewrite ?Hp; auto). cbv zeta.
  rewrite Hd. rewrite Ht. cbn [negb]. rewrite Hin.
  set (w1 := mkWorld _ _ _).
  unfold save_sourceMap, mtry, ok, throw, this, mbind, State_bind, mret, State_ret.
  cbn [fst snd]. rewrite Hd, Ht. cbn [negb].
  pose proof (flag_value FSourceMapIncludeFile (f, w1)) as E. cbn [get_flag] in E.
  rewrite E. clear E. cbn [fst snd].
  pose proof (flag_same_globals FSourceMapIncludeFile f w w1 eq_refl) as E.
  cbn [get_flag] in E. rewrite E, Hif, Hx. reflexivity.
Qed.

End SaveInline.

Section SaveInlineExamples.
Import Demo.

Lemma save_inline_map_passes_false_to_relativeUrl_witness :
  save (Some "out"%string) (Demo.inlined, Demo.world)
  = (inl Demo.TypeError,
     (Demo.inlined,
      mkWorld Global.initial 1 [BeginAsync 0 "Save: {file}" "out/a.js"])).
Proof.
  rewrite (save_inline_map_passes_false_to_relativeUrl (Some "out"%string) Demo.inlined
             Demo.world (SMObject Demo.emptyObject) Demo.TypeError); reflexivity.
Defined.

End SaveInlineExamples.

(** ** [pipe]: a file that cannot be read *)

Section PipeStuck.
Context `{Encode} `{Paths} `{SourceMaps} `{FileSystem} `{Logging}.
Variable p : Processor.t.

(** A stage with nothing in flight, whose continuation has run, does not
    move unless its producer does. *)
Lemma step_idle st ev :
  loads (net st) = [] -> waits (net st) = [] -> thenQueued (net st) = false ->
  src_protocol true [ev] = true -> step p st ev = st.
Proof.
  intros Hl Hw Hq Hpr. destruct ev; simpl in Hpr; try discriminate; unfold step.
  - rewrite Hq. reflexivity.
  - rewrite Hl. reflexivity.
  - rewrite Hw. reflexivity.
Qed.

Lemma run_idle evs : forall st,
  loads (net st) = [] -> waits (net st) = [] -> thenQueued (net st) = false ->
  src_protocol true evs = true -> run p evs st = st.
Proof.
  unfold run. induction evs as [|ev evs IH]; intros st Hl Hw Hq Hpr; [reflexivity |].
  apply src_protocol_head in Hpr as [Hp1 Hp2]. cbn [fold_left].
  rewrite (step_idle st ev Hl Hw Hq Hp1). apply IH; assumption.
Qed.


End PipeStuck.

Section PipeStuckExamples.
Import Demo.


End PipeStuckExamples.

